(** * Verification of the animation-orchestration core of [dist/index.mjs]

    The development is a shallow embedding of the JavaScript module: every
    function of the module that matters for the verified properties is
    transcribed as a Rocq function of the same name, JavaScript objects are
    association lists in property-enumeration order, and the effects of the
    module (promises, the microtask queue, the registry of motion values, the
    running animations of the tween engine) are threaded through an explicit
    [World] state. *)

From Stdlib Require Import ZArith QArith Qround Ascii String List Lia Bool DecimalString.
From stdpp Require Import base option list strings relations.

Local Open Scope string_scope.
Local Open Scope Z_scope.

Set Warnings "-register-all".


(** ** JavaScript numbers

    Numbers are idealised: a finite number is an exact rational (kept in
    lowest terms, so that Leibniz equality is numeric equality), and the two
    infinities and NaN are separate values.  Rounding to binary64 and the
    sign of zero are not modelled. *)

Inductive num : Type :=
  | NaN
  | Inf (negative : bool)
  | Fin (q : Q).

Definition fin (q : Q) : num := Fin (Qred q).
Definition of_Z (z : Z) : num := Fin (inject_Z z).

Definition Qzero (q : Q) : bool := Z.eqb (Qnum q) 0.
Definition Qneg  (q : Q) : bool := Z.ltb (Qnum q) 0.

Definition num_isNaN (n : num) : bool :=
  match n with NaN => true | _ => false end.

(** [ToBoolean] on a number: [0] and [NaN] are falsy. *)
Definition num_truthy (n : num) : bool :=
  match n with
  | NaN => false
  | Inf _ => true
  | Fin q => negb (Qzero q)
  end.

(** [===] on numbers: [NaN] differs from itself. *)
Definition num_eqb (a b : num) : bool :=
  match a, b with
  | Fin p, Fin q => Qeq_bool p q
  | Inf s, Inf t => Bool.eqb s t
  | _, _ => false
  end.

Definition num_neg (a : num) : num :=
  match a with
  | NaN => NaN
  | Inf s => Inf (negb s)
  | Fin q => fin (- q)
  end.

Definition num_add (a b : num) : num :=
  match a, b with
  | NaN, _ | _, NaN => NaN
  | Inf s, Inf t => if Bool.eqb s t then Inf s else NaN
  | Inf s, Fin _ => Inf s
  | Fin _, Inf t => Inf t
  | Fin p, Fin q => fin (p + q)
  end.

Definition num_sub (a b : num) : num := num_add a (num_neg b).

Definition num_mul (a b : num) : num :=
  match a, b with
  | NaN, _ | _, NaN => NaN
  | Inf s, Inf t => Inf (xorb s t)
  | Inf s, Fin q | Fin q, Inf s =>
      if Qzero q then NaN else Inf (xorb s (Qneg q))
  | Fin p, Fin q => fin (p * q)
  end.

Definition num_div (a b : num) : num :=
  match a, b with
  | NaN, _ | _, NaN => NaN
  | Inf _, Inf _ => NaN
  | Inf s, Fin q => Inf (xorb s (Qneg q))
  | Fin _, Inf _ => Fin 0
  | Fin p, Fin q =>
      if Qzero q
      then (if Qzero p then NaN else Inf (Qneg p))
      else fin (p / q)
  end.

(** [Math.round]: the nearest integer, ties towards +Infinity. *)
Definition Math_round (a : num) : num :=
  match a with
  | Fin q => of_Z (Qfloor (q + (1 # 2)))
  | _ => a
  end.

(** [Math.min(Math.max(v, lo), hi)] on finite bounds. *)
Definition num_clamp (lo hi : Q) (a : num) : num :=
  match a with
  | NaN => NaN
  | Inf true => Fin lo
  | Inf false => Fin hi
  | Fin q => if Qle_bool q lo then Fin lo else if Qle_bool hi q then Fin hi else Fin q
  end.

(** ** JavaScript strings

    Strings are sequences of 8-bit characters; the library only inspects
    ASCII syntax (digits, parentheses, commas, unit suffixes). *)


Definition is_ws (c : ascii) : bool :=
  let n := nat_of_ascii c in
  ((9 <=? n) && (n <=? 13) || (n =? 32) || (n =? 160))%nat.

Definition is_digit (c : ascii) : bool :=
  let n := nat_of_ascii c in ((48 <=? n) && (n <=? 57))%nat.

Definition digit_val (c : ascii) : Z := Z.of_nat (nat_of_ascii c) - 48.

Fixpoint trimStart (s : string) : string :=
  match s with
  | String c r => if is_ws c then trimStart r else s
  | EmptyString => EmptyString
  end.

Fixpoint trimEnd (s : string) : string :=
  match s with
  | String c r =>
      match trimEnd r with
      | EmptyString => if is_ws c then EmptyString else String c EmptyString
      | r' => String c r'
      end
  | EmptyString => EmptyString
  end.

(** [String.prototype.trim] *)
Definition trim (s : string) : string := trimEnd (trimStart s).

(** [String.prototype.startsWith] and [endsWith] *)
Definition startsWith (s p : string) : bool := String.prefix p s.

Definition endsWith (s p : string) : bool :=
  let ls := String.length s in
  let lp := String.length p in
  ((lp <=? ls)%nat && String.eqb (String.substring (ls - lp) lp s) p).

Definition cons_head (c : ascii) (l : list string) : list string :=
  match l with
  | h :: t => String c h :: t
  | [] => [String c EmptyString]
  end.

(** [s.split(c)] for a one-character separator [c]. *)
Fixpoint split_char (c : ascii) (s : string) : list string :=
  match s with
  | EmptyString => [EmptyString]
  | String a r =>
      if Ascii.eqb a c then EmptyString :: split_char c r
      else cons_head a (split_char c r)
  end.

(** [s.split(/\) |\)/)]: at a closing parenthesis the first alternative
    (parenthesis followed by one space) is tried before the second. *)
Fixpoint split_rparen (s : string) : list string :=
  match s with
  | EmptyString => [EmptyString]
  | String a r =>
      if Ascii.eqb a ")" then
        EmptyString ::
          match r with
          | String b r' => if Ascii.eqb b " " then split_rparen r' else split_rparen r
          | EmptyString => split_rparen r
          end
      else cons_head a (split_rparen r)
  end.

(** [s.replace(c, "")] with a one-character string pattern: only the first
    occurrence is removed. *)
Fixpoint remove_first (c : ascii) (s : string) : string :=
  match s with
  | EmptyString => EmptyString
  | String a r => if Ascii.eqb a c then r else String a (remove_first c r)
  end.

(** [Array.prototype.join] on strings *)
Fixpoint join (sep : string) (l : list string) : string :=
  match l with
  | [] => EmptyString
  | [x] => x
  | x :: r => x +:+ sep +:+ join sep r
  end.

(** *** Number to string ([Number::toString], radix 10) *)

Definition Z_digits (z : Z) : string := NilZero.string_of_int (Z.to_int z).

Fixpoint zeros (n : nat) : string :=
  match n with O => EmptyString | S k => String "0" (zeros k) end.

Definition pow10 (e : Z) : Q := Qpower (10 # 1) e.

(** Divides [p] by [d] as long as it is divisible; returns the number of
    divisions and the remaining cofactor. *)
Fixpoint strip_factor (fuel : nat) (d : Z) (p : Z) : nat * Z :=
  match fuel with
  | O => (O, p)
  | S f =>
      if (0 <? p) && (p mod d =? 0)
      then let '(k, r) := strip_factor f d (p / d) in (S k, r)
      else (O, p)
  end.

(** A positive rational [q] as [s * 10^(-e)]: exactly when the expansion
    terminates, and otherwise rounded to 17 significant digits (the most a
    binary64 number ever prints). *)
Definition decimal_expansion (q : Q) : Z * Z :=
  let q := Qred q in
  let a := Qnum q in
  let b := Zpos (Qden q) in
  let fuel := Pos.size_nat (Qden q) in
  let '(i, b1) := strip_factor fuel 2 b in
  let '(j, b2) := strip_factor fuel 5 b1 in
  if b2 =? 1 then
    let e := Z.of_nat (Nat.max i j) in
    (a * 10 ^ e / b, e)
  else
    let ip := Qfloor q in
    let t :=
      if 0 <? ip then 17 - Z.of_nat (String.length (Z_digits ip))
      else 16 + Z.of_nat (String.length (Z_digits (Qfloor (Qinv q)))) in
    (Qfloor (q * pow10 t + (1 # 2)), t).

Definition Q_to_string_pos (q : Q) : string :=
  let '(s0, e) := decimal_expansion q in
  let '(z, s) := strip_factor (Z.to_nat (Z.log2 s0 + 1)) 10 s0 in
  let ds := Z_digits s in
  let k := Z.of_nat (String.length ds) in
  let n := k + Z.of_nat z - e in
  if (k <=? n) && (n <=? 21) then
    ds +:+ zeros (Z.to_nat (n - k))
  else if (0 <? n) && (n <=? 21) then
    String.substring 0 (Z.to_nat n) ds +:+ "." +:+
    String.substring (Z.to_nat n) (Z.to_nat (k - n)) ds
  else if (-6 <? n) && (n <=? 0) then
    "0." +:+ zeros (Z.to_nat (- n)) +:+ ds
  else
    let ex := (if 0 <? n - 1 then "+" else "-") +:+ Z_digits (Z.abs (n - 1)) in
    if k =? 1 then ds +:+ "e" +:+ ex
    else String.substring 0 1 ds +:+ "." +:+
         String.substring 1 (Z.to_nat (k - 1)) ds +:+ "e" +:+ ex.

Definition num_to_string (n : num) : string :=
  match n with
  | NaN => "NaN"
  | Inf false => "Infinity"
  | Inf true => "-Infinity"
  | Fin q =>
      if Qzero q then "0"
      else if Qneg q then "-" +:+ Q_to_string_pos (- q)
      else Q_to_string_pos q
  end.

(** *** String to number ([parseFloat], [Number]) *)

Fixpoint take_digits (s : string) (acc : Z) (cnt : nat) : Z * nat * string :=
  match s with
  | String c r =>
      if is_digit c then take_digits r (10 * acc + digit_val c) (S cnt)
      else (acc, cnt, s)
  | EmptyString => (acc, cnt, s)
  end.

Definition take_sign (s : string) : bool * string :=
  match s with
  | String "-" r => (true, r)
  | String "+" r => (false, r)
  | _ => (false, s)
  end.

(** The longest prefix of [s] that is a [StrUnsignedDecimalLiteral] other
    than [Infinity], with its value and the unread rest. *)
Definition parse_unsigned_decimal (s : string) : option (Q * string) :=
  let '(n1, c1, r1) := take_digits s 0 O in
  let '(n2, c2, r2) :=
    match r1 with
    | String "." r => take_digits r 0 O
    | _ => (0, O, r1)
    end in
  if (c1 + c2 =? 0)%nat then None
  else
    let '(ex, r3) :=
      match r2 with
      | String c r =>
          if Ascii.eqb c "e" || Ascii.eqb c "E" then
            let '(sg, r') := take_sign r in
            let '(n3, c3, r'') := take_digits r' 0 O in
            if (c3 =? 0)%nat then (0, r2)
            else ((if sg then - n3 else n3), r'')
          else (0, r2)
      | EmptyString => (0, r2)
      end in
    Some (inject_Z (n1 * 10 ^ Z.of_nat c2 + n2) * pow10 (ex - Z.of_nat c2), r3)%Q.

Definition parse_StrDecimalLiteral (s : string) : option (num * string) :=
  let '(sg, r) := take_sign s in
  if String.prefix "Infinity" r
  then Some (Inf sg, String.substring 8 (String.length r - 8) r)
  else
    match parse_unsigned_decimal r with
    | Some (q, rest) => Some (fin (if sg then - q else q), rest)
    | None => None
    end.

(** [parseFloat] applied to a string *)
Definition parseFloat_string (s : string) : num :=
  match parse_StrDecimalLiteral (trimStart s) with
  | Some (n, _) => n
  | None => NaN
  end.

Definition radix_digit (radix : Z) (c : ascii) : option Z :=
  let n := Z.of_nat (nat_of_ascii c) in
  let v :=
    if (48 <=? n) && (n <=? 57) then n - 48
    else if (97 <=? n) && (n <=? 102) then n - 87
    else if (65 <=? n) && (n <=? 70) then n - 55
    else radix in
  if v <? radix then Some v else None.

Fixpoint parse_radix (radix : Z) (s : string) (acc : Z) : option Z :=
  match s with
  | EmptyString => Some acc
  | String c r =>
      match radix_digit radix c with
      | Some v => parse_radix radix r (radix * acc + v)
      | None => None
      end
  end.

Definition radix_of_prefix (c : ascii) : option Z :=
  if Ascii.eqb c "x" || Ascii.eqb c "X" then Some 16
  else if Ascii.eqb c "o" || Ascii.eqb c "O" then Some 8
  else if Ascii.eqb c "b" || Ascii.eqb c "B" then Some 2
  else None.

(** [Number] applied to a string ([StringToNumber]) *)
Definition Number_string (s : string) : num :=
  let t := trim s in
  match t with
  | EmptyString => Fin 0
  | String "0" (String c (String d r)) =>
      match radix_of_prefix c with
      | Some radix =>
          match parse_radix radix (String d r) 0 with
          | Some z => of_Z z
          | None => NaN
          end
      | None =>
          match parse_StrDecimalLiteral t with
          | Some (n, EmptyString) => n
          | _ => NaN
          end
      end
  | _ =>
      match parse_StrDecimalLiteral t with
      | Some (n, EmptyString) => n
      | _ => NaN
      end
  end.

(** ** JavaScript values

    Objects are association lists in property-enumeration order (own
    enumerable string-keyed properties; integer-like keys, which JavaScript
    enumerates first, do not occur among CSS property names).  A function
    value is identified by a name: its source text, or the expression that
    produced it. *)

Inductive value : Type :=
  | VUndef
  | VNull
  | VBool (b : bool)
  | VNum (n : num)
  | VStr (s : string)
  | VArr (elems : list value)
  | VObj (fields : list (string * value))
  | VFun (name : string).

Abbreviation obj := (list (string * value)).

Definition VInt (z : Z) : value := VNum (of_Z z).

(** [ToBoolean] *)
Definition truthy (v : value) : bool :=
  match v with
  | VUndef | VNull => false
  | VBool b => b
  | VNum n => num_truthy n
  | VStr s => negb (String.eqb s "")
  | VArr _ | VObj _ | VFun _ => true
  end.

Definition is_number (v : value) : bool := match v with VNum _ => true | _ => false end.
Definition is_string (v : value) : bool := match v with VStr _ => true | _ => false end.
Definition is_array  (v : value) : bool := match v with VArr _ => true | _ => false end.
Definition is_nullish (v : value) : bool :=
  match v with VUndef | VNull => true | _ => false end.
(** [isObject] of @vueuse/core: [toString.call(v) === "[object Object]"] *)
Definition isObject (v : value) : bool := match v with VObj _ => true | _ => false end.

(** [a === b] where one side is a primitive literal. *)
Definition strict_eq (a b : value) : bool :=
  match a, b with
  | VUndef, VUndef | VNull, VNull => true
  | VBool x, VBool y => Bool.eqb x y
  | VNum x, VNum y => num_eqb x y
  | VStr x, VStr y => String.eqb x y
  | _, _ => false
  end.

(** [ToString], as performed by template literals and by [parseFloat]. *)
Fixpoint to_string (v : value) : string :=
  match v with
  | VUndef => "undefined"
  | VNull => "null"
  | VBool true => "true"
  | VBool false => "false"
  | VNum n => num_to_string n
  | VStr s => s
  | VArr l =>
      join ","
        ((fix elems (l : list value) : list string :=
            match l with
            | [] => []
            | x :: r =>
                (match x with VUndef | VNull => "" | _ => to_string x end)
                  :: elems r
            end) l)
  | VObj _ => "[object Object]"
  | VFun name => name
  end.

(** [parseFloat(v)].  On a number the result is the number itself: the
    decimal text that [ToString] prints for a binary64 number reads back as
    the same number. *)
Definition parseFloat (v : value) : num :=
  match v with
  | VNum n => n
  | _ => parseFloat_string (to_string v)
  end.

(** [Number(v)] on primitives and arrays of them. *)
Definition Number (v : value) : num :=
  match v with
  | VUndef => NaN
  | VNull => Fin 0
  | VBool true => Fin 1
  | VBool false => Fin 0
  | VNum n => n
  | VStr s => Number_string s
  | VArr _ => Number_string (to_string v)
  | VObj _ | VFun _ => NaN
  end.

(** *** Objects *)

Fixpoint obj_get (o : obj) (k : string) : option value :=
  match o with
  | [] => None
  | (k', v) :: r => if String.eqb k' k then Some v else obj_get r k
  end.

(** [o[k] = v] *)
Fixpoint obj_set (o : obj) (k : string) (v : value) : obj :=
  match o with
  | [] => [(k, v)]
  | (k', v') :: r =>
      if String.eqb k' k then (k, v) :: r else (k', v') :: obj_set r k v
  end.

(** [delete o[k]] *)
Definition obj_del (o : obj) (k : string) : obj :=
  filter (fun kv => negb (String.eqb (fst kv) k)) o.

(** [{...a, ...b}] *)
Definition obj_spread (a b : obj) : obj :=
  fold_left (fun acc kv => obj_set acc (fst kv) (snd kv)) b a.

(** The rest object of a destructuring [{k1, ..., kn, ...rest}] *)
Definition obj_omit (ks : list string) (o : obj) : obj :=
  filter (fun kv => negb (existsb (String.eqb (fst kv)) ks)) o.

Definition obj_has (o : obj) (k : string) : bool :=
  match obj_get o k with Some _ => true | None => false end.

(** [v[k]] and [v.k]: own properties of plain objects; on any other value
    the lookup yields [undefined]. *)
Definition get_field (v : value) (k : string) : value :=
  match v with
  | VObj o => default VUndef (obj_get o k)
  | _ => VUndef
  end.

(** [Object.entries(v)] and [Object.keys(v)] *)
Definition Object_entries (v : value) : obj :=
  match v with
  | VObj o => o
  | VArr l => imap (fun i x => (Z_digits (Z.of_nat i), x)) l
  | VStr s => imap (fun i c => (Z_digits (Z.of_nat i), VStr (String c EmptyString)))
                   (list_ascii_of_string s)
  | _ => []
  end.

Definition Object_keys (v : value) : list string := map fst (Object_entries v).

Definition array_elements (v : value) : list value :=
  match v with VArr l => l | _ => [] end.

(** [a || b] *)
Definition js_or (a b : value) : value := if truthy a then a else b.

(** ** External collaborators

    The module imports its arithmetic and CSS knowledge from popmotion,
    style-value-types and the JavaScript runtime.  What the embedded code
    needs from them is collected here and stays abstract. *)

Record Externals : Type := {
  (** popmotion's [velocityPerSecond(velocity, frameDuration)] *)
  velocityPerSecond : num -> num -> num;
  (** [Math.sqrt] *)
  Math_sqrt : num -> num;
  (** style-value-types' [complex.test] on a string: the complex-value grammar *)
  complex_test : string -> bool;
  (** [complex.getAnimatableNone] and [filter.getAnimatableNone] *)
  complex_getAnimatableNone : value -> value;
  filter_getAnimatableNone : value -> value;
  (** [color.transform] applied to a number *)
  color_transform : num -> value
}.

(** ** MotionValue (index.mjs, lines 29-102) *)

(** What [animation(resolve)] hands back as [stop]: the no-op of the
    immediate-set strategy, or the stop function of a tween started by the
    engine. *)
Inductive handle : Type :=
  | HNoop
  | HEngine (id : nat).

(** The one kind of subscriber the module registers with [onChange]:
    [(v) => set(target, key, v)] of [useMotionValues.get]. *)
Inductive subscriber : Type :=
  | SubSetTarget (key : string).

(** framesync's frame data, as returned by [getFrameData()] *)
Record FrameData : Type := { fd_delta : num; fd_timestamp : num }.

Record MotionValue : Type := {
  mv_current : value;
  mv_prev : value;
  mv_timeDelta : num;
  mv_lastUpdated : num;
  mv_canTrackVelocity : bool;
  (** [this.stopAnimation]; [None] stands for both [undefined] and [null] *)
  mv_stopAnimation : option handle;
  mv_subscribers : list subscriber
}.

Definition isFloat (v : value) : bool := negb (num_isNaN (parseFloat v)).

(** [new MotionValue(init)] *)
Definition getMotionValue (init : value) : MotionValue :=
  {| mv_current := init;
     mv_prev := init;
     mv_timeDelta := Fin 0;
     mv_lastUpdated := Fin 0;
     mv_canTrackVelocity := isFloat init;
     mv_stopAnimation := None;
     mv_subscribers := [] |}.

(** The field updates of [updateAndNotify(v)], given the frame data that
    [getFrameData()] returns at the call.  Scheduling the velocity check and
    notifying the subscribers happen in the world (see [mv_set]). *)
Definition updateAndNotify (fd : FrameData) (v : value) (mv : MotionValue) : MotionValue :=
  let changed := negb (num_eqb (mv_lastUpdated mv) (fd_timestamp fd)) in
  {| mv_current := v;
     mv_prev := mv_current mv;
     mv_timeDelta := if changed then fd_delta fd else mv_timeDelta mv;
     mv_lastUpdated := if changed then fd_timestamp fd else mv_lastUpdated mv;
     mv_canTrackVelocity := mv_canTrackVelocity mv;
     mv_stopAnimation := mv_stopAnimation mv;
     mv_subscribers := mv_subscribers mv |}.

(** [velocityCheck({ timestamp })] *)
Definition velocityCheck (timestamp : num) (mv : MotionValue) : MotionValue :=
  {| mv_current := mv_current mv;
     mv_prev :=
       if negb (num_eqb timestamp (mv_lastUpdated mv)) then mv_current mv else mv_prev mv;
     mv_timeDelta := mv_timeDelta mv;
     mv_lastUpdated := mv_lastUpdated mv;
     mv_canTrackVelocity :=
       if negb (mv_canTrackVelocity mv) then isFloat (mv_current mv)
       else mv_canTrackVelocity mv;
     mv_stopAnimation := mv_stopAnimation mv;
     mv_subscribers := mv_subscribers mv |}.

Definition getVelocity (ext : Externals) (mv : MotionValue) : num :=
  if mv_canTrackVelocity mv
  then velocityPerSecond ext
         (num_sub (parseFloat (mv_current mv)) (parseFloat (mv_prev mv)))
         (mv_timeDelta mv)
  else Fin 0.

Definition isAnimating (mv : MotionValue) : bool :=
  match mv_stopAnimation mv with Some _ => true | None => false end.

Definition clearAnimation (mv : MotionValue) : MotionValue :=
  {| mv_current := mv_current mv;
     mv_prev := mv_prev mv;
     mv_timeDelta := mv_timeDelta mv;
     mv_lastUpdated := mv_lastUpdated mv;
     mv_canTrackVelocity := mv_canTrackVelocity mv;
     mv_stopAnimation := None;
     mv_subscribers := mv_subscribers mv |}.

Definition set_stopAnimation (h : handle) (mv : MotionValue) : MotionValue :=
  {| mv_current := mv_current mv;
     mv_prev := mv_prev mv;
     mv_timeDelta := mv_timeDelta mv;
     mv_lastUpdated := mv_lastUpdated mv;
     mv_canTrackVelocity := mv_canTrackVelocity mv;
     mv_stopAnimation := Some h;
     mv_subscribers := mv_subscribers mv |}.

(** [clearListeners()] *)
Definition clearListeners (mv : MotionValue) : MotionValue :=
  {| mv_current := mv_current mv;
     mv_prev := mv_prev mv;
     mv_timeDelta := mv_timeDelta mv;
     mv_lastUpdated := mv_lastUpdated mv;
     mv_canTrackVelocity := mv_canTrackVelocity mv;
     mv_stopAnimation := mv_stopAnimation mv;
     mv_subscribers := [] |}.

Definition onChange (s : subscriber) (mv : MotionValue) : MotionValue :=
  {| mv_current := mv_current mv;
     mv_prev := mv_prev mv;
     mv_timeDelta := mv_timeDelta mv;
     mv_lastUpdated := mv_lastUpdated mv;
     mv_canTrackVelocity := mv_canTrackVelocity mv;
     mv_stopAnimation := mv_stopAnimation mv;
     mv_subscribers := mv_subscribers mv ++ [s] |}.

(** The life of one motion value as seen from outside: calls of [set] (each
    with the frame data current at the call) and the velocity checks that the
    frame scheduler runs after rendering. *)
Inductive mv_event : Type :=
  | MvSet (v : value) (fd : FrameData)
  | MvVelocityCheck (timestamp : num).

Definition mv_step (mv : MotionValue) (e : mv_event) : MotionValue :=
  match e with
  | MvSet v fd => updateAndNotify fd v mv
  | MvVelocityCheck ts => velocityCheck ts mv
  end.

Definition mv_run (evs : list mv_event) (mv : MotionValue) : MotionValue :=
  fold_left mv_step evs mv.

Definition is_check (e : mv_event) : bool :=
  match e with MvVelocityCheck _ => true | MvSet _ _ => false end.

Definition event_value_numeric (e : mv_event) : bool :=
  match e with MvSet v _ => isFloat v | MvVelocityCheck _ => false end.

(** ** Default transitions (index.mjs, lines 143-201) *)

Definition VQ (q : Q) : value := VNum (fin q).

Definition isKeyframesTarget (v : value) : bool := is_array v.

Definition underDampedSpring : obj :=
  [("type", VStr "spring"); ("stiffness", VInt 500); ("damping", VInt 25);
   ("restDelta", VQ (1 # 2)); ("restSpeed", VInt 10)].

Definition criticallyDampedSpring (ext : Externals) (to : value) : obj :=
  [("type", VStr "spring"); ("stiffness", VInt 550);
   ("damping",
     if strict_eq to (VInt 0)
     then VNum (num_mul (of_Z 2) (Math_sqrt ext (of_Z 550)))
     else VInt 30);
   ("restDelta", VQ (1 # 100)); ("restSpeed", VInt 10)].

Definition overDampedSpring (to : value) : obj :=
  [("type", VStr "spring"); ("stiffness", VInt 550);
   ("damping", if strict_eq to (VInt 0) then VInt 100 else VInt 30);
   ("restDelta", VQ (1 # 100)); ("restSpeed", VInt 10)].

Definition linearTween : obj :=
  [("type", VStr "keyframes"); ("ease", VStr "linear"); ("duration", VInt 300)].

Definition keyframes (values : value) : obj :=
  [("type", VStr "keyframes"); ("duration", VInt 800); ("values", values)].

Definition defaultTransitions (ext : Externals) : list (string * (value -> obj)) :=
  [("default", overDampedSpring);
   ("x", fun _ => underDampedSpring);
   ("y", fun _ => underDampedSpring);
   ("z", fun _ => underDampedSpring);
   ("rotate", fun _ => underDampedSpring);
   ("rotateX", fun _ => underDampedSpring);
   ("rotateY", fun _ => underDampedSpring);
   ("rotateZ", fun _ => underDampedSpring);
   ("scaleX", criticallyDampedSpring ext);
   ("scaleY", criticallyDampedSpring ext);
   ("scale", criticallyDampedSpring ext);
   ("backgroundColor", fun _ => linearTween);
   ("color", fun _ => linearTween);
   ("opacity", fun _ => linearTween)].

Fixpoint table_get {A : Type} (t : list (string * A)) (k : string) : option A :=
  match t with
  | [] => None
  | (k', a) :: r => if String.eqb k' k then Some a else table_get r k
  end.

Definition getDefaultTransition (ext : Externals) (valueKey : string) (to : value) : obj :=
  let transitionFactory :=
    if isKeyframesTarget to then keyframes
    else default overDampedSpring (table_get (defaultTransitions ext) valueKey) in
  obj_spread [("to", to)] (transitionFactory to).

(** ** Value types (index.mjs, lines 203-288)

    The unit types are those of style-value-types; their [transform] is
    what the library documents: [px], [degrees] and [percent] append their
    unit, [number] and [scale] are the identity, [alpha] clamps to [[0, 1]],
    [progressPercentage] prints a ratio as a percentage, [filter] (a copy of
    [complex]) has no [transform]. *)

Module StyleValueTypes.
Inductive valueType : Type :=
    | color | px | degrees | scale | alpha | progressPercentage | int | filter.
End StyleValueTypes.
Export StyleValueTypes(valueType).

Definition valueTypes : list (string * valueType) :=
  let color := StyleValueTypes.color in
  let px := StyleValueTypes.px in
  let degrees := StyleValueTypes.degrees in
  let scale := StyleValueTypes.scale in
  let alpha := StyleValueTypes.alpha in
  let progressPercentage := StyleValueTypes.progressPercentage in
  let int := StyleValueTypes.int in
  let filter := StyleValueTypes.filter in
  [("color", color); ("backgroundColor", color); ("outlineColor", color);
   ("fill", color); ("stroke", color); ("borderColor", color);
   ("borderTopColor", color); ("borderRightColor", color);
   ("borderBottomColor", color); ("borderLeftColor", color);
   ("borderWidth", px); ("borderTopWidth", px); ("borderRightWidth", px);
   ("borderBottomWidth", px); ("borderLeftWidth", px); ("borderRadius", px);
   ("radius", px); ("borderTopLeftRadius", px); ("borderTopRightRadius", px);
   ("borderBottomRightRadius", px); ("borderBottomLeftRadius", px);
   ("width", px); ("maxWidth", px); ("height", px); ("maxHeight", px);
   ("size", px); ("top", px); ("right", px); ("bottom", px); ("left", px);
   ("padding", px); ("paddingTop", px); ("paddingRight", px);
   ("paddingBottom", px); ("paddingLeft", px); ("margin", px);
   ("marginTop", px); ("marginRight", px); ("marginBottom", px);
   ("marginLeft", px); ("rotate", degrees); ("rotateX", degrees);
   ("rotateY", degrees); ("rotateZ", degrees); ("scale", scale);
   ("scaleX", scale); ("scaleY", scale); ("scaleZ", scale);
   ("skew", degrees); ("skewX", degrees); ("skewY", degrees);
   ("distance", px); ("translateX", px); ("translateY", px);
   ("translateZ", px); ("x", px); ("y", px); ("z", px); ("perspective", px);
   ("transformPerspective", px); ("opacity", alpha);
   ("originX", progressPercentage); ("originY", progressPercentage);
   ("originZ", px); ("zIndex", int); ("filter", filter);
   ("WebkitFilter", filter); ("fillOpacity", alpha); ("strokeOpacity", alpha);
   ("numOctaves", int)].

Definition getValueType (key : string) : option valueType := table_get valueTypes key.

(** [`${v}px`] *)
Definition px_transform (v : value) : value := VStr (to_string v +:+ "px").

(** [type.transform], where the type has one, on a number *)
Definition type_transform (ext : Externals) (t : valueType) : option (num -> value) :=
  match t with
  | StyleValueTypes.color => Some (color_transform ext)
  | StyleValueTypes.px => Some (fun n => px_transform (VNum n))
  | StyleValueTypes.degrees => Some (fun n => VStr (num_to_string n +:+ "deg"))
  | StyleValueTypes.scale => Some VNum
  | StyleValueTypes.alpha => Some (fun n => VNum (num_clamp 0 1 n))
  | StyleValueTypes.progressPercentage =>
      Some (fun n => VStr (num_to_string (num_mul n (of_Z 100)) +:+ "%"))
  | StyleValueTypes.int => Some (fun n => VNum (Math_round n))
  | StyleValueTypes.filter => None
  end.

Definition getValueAsType (ext : Externals) (v : value) (type : option valueType) : value :=
  match type, v with
  | Some t, VNum n =>
      match type_transform ext t with
      | Some f => f n
      | None => v
      end
  | _, _ => v
  end.

Definition getAnimatableNone (ext : Externals) (key : string) (v : value) : value :=
  match getValueType key with
  | Some StyleValueTypes.filter => filter_getAnimatableNone ext v
  | _ => complex_getAnimatableNone ext v
  end.

(** ** Transition resolution (index.mjs, lines 290-379) *)

Definition easingLookup : list string :=
  ["linear"; "easeIn"; "easeInOut"; "easeOut"; "circIn"; "circInOut";
   "circOut"; "backIn"; "backInOut"; "backOut"; "anticipate"; "bounceIn";
   "bounceInOut"; "bounceOut"].

(** Easing functions are named after the popmotion export, or after the
    [cubicBezier] call that built them. *)
Definition easingDefinitionToFunction (definition : value) : value :=
  match definition with
  | VArr l =>
      VFun ("cubicBezier(" +:+
            join "," (map (fun i => to_string (default VUndef (l !! i)))
                          [0; 1; 2; 3]%nat) +:+ ")")
  | VStr s => if existsb (String.eqb s) easingLookup then VFun s else VUndef
  | _ => definition
  end.

Definition isEasingArray (ease : value) : bool :=
  match ease with
  | VArr l => negb (is_number (default VUndef (l !! 0%nat)))
  | _ => false
  end.

Definition isAnimatable (ext : Externals) (key : string) (v : value) : bool :=
  if String.eqb key "zIndex" then false
  else if is_number v || is_array v then true
  else match v with
       | VStr s => complex_test ext s && negb (startsWith s "url(")
       | _ => false
       end.

Definition hydrateKeyframes (options : obj) : obj :=
  match default VUndef (obj_get options "to") with
  | VArr (VNull :: r) =>
      obj_set options "to" (VArr (default VUndef (obj_get options "from") :: r))
  | _ => options
  end.

(** Property names of the parameter object, as the destructuring pattern
    and the rest element see them. *)
Definition convertTransitionToAnimationOptions (transition : value) : obj :=
  let ease := get_field transition "ease" in
  let times := get_field transition "times" in
  let delay := get_field transition "delay" in
  let options := obj_omit ["ease"; "times"; "delay"] (Object_entries transition) in
  let options := if truthy times then obj_set options "offset" times else options in
  let options :=
    if truthy ease then
      obj_set options "ease"
        (if isEasingArray ease
         then VArr (map easingDefinitionToFunction (array_elements ease))
         else easingDefinitionToFunction ease)
    else options in
  if truthy delay then obj_set options "elapsed" (VNum (num_neg (Number delay)))
  else options.

Definition isTransitionDefined (transition : value) : bool :=
  negb (Nat.eqb
    (length (obj_omit ["delay"; "repeat"; "repeatType"; "repeatDelay"; "from"]
                      (Object_entries transition))) 0).

(** [transition.duration = 800]: transitions are objects; the assignment is
    visible to every holder of the object, so the updated transition is
    returned next to the result. *)
Definition set_field (v : value) (k : string) (x : value) : value :=
  match v with
  | VObj o => VObj (obj_set o k x)
  | _ => v
  end.

Definition getPopmotionAnimationOptions (ext : Externals)
    (transition : value) (options : obj) (key : string) : value * obj :=
  let transition :=
    if is_array (default VUndef (obj_get options "to"))
    then (if negb (truthy (get_field transition "duration"))
          then set_field transition "duration" (VInt 800) else transition)
    else transition in
  let options := hydrateKeyframes options in
  let resolved :=
    if negb (isTransitionDefined transition)
    then VObj (obj_spread (Object_entries transition)
                 (getDefaultTransition ext key (default VUndef (obj_get options "to"))))
    else transition in
  (transition, obj_spread options (convertTransitionToAnimationOptions resolved)).

(** Which object [getValueTransition] returned: [transition[key]],
    [transition.default] or [transition] itself. *)
Inductive transition_path : Type := PathKey | PathDefault | PathSelf.

Definition valueTransition_path (transition : value) (key : string) : transition_path :=
  if truthy (get_field transition key) then PathKey
  else if truthy (get_field transition "default") then PathDefault
  else PathSelf.

Definition getValueTransition (transition : value) (key : string) : value :=
  js_or (get_field transition key) (js_or (get_field transition "default") transition).

(** Writes an updated value transition back where it was read. *)
Definition put_valueTransition (transition : value) (key : string) (vt : value) : value :=
  match valueTransition_path transition key with
  | PathKey => set_field transition key vt
  | PathDefault => set_field transition "default" vt
  | PathSelf => vt
  end.

(** ** Results of code that can throw *)

Inductive result (A : Type) : Type :=
  | Ok (a : A)
  | Throw (name message : string).
Arguments Ok {A} a.
Arguments Throw {A} name message.

(** ** Property projection (index.mjs, lines 710-874) *)

Definition transformAxes : list string := [""; "X"; "Y"; "Z"].
Definition order : list string := ["perspective"; "translate"; "scale"; "rotate"; "skew"].

Definition transformProps : list string :=
  ["transformPerspective"; "x"; "y"; "z"] ++
  flat_map (fun operationKey => map (fun axesKey => operationKey +:+ axesKey) transformAxes) order.

Definition isTransformProp (key : string) : bool :=
  existsb (String.eqb key) transformProps.

Definition isTransformOriginProp (key : string) : bool :=
  existsb (String.eqb key) ["originX"; "originY"; "originZ"].

(** [splitValues(variant)]: the pair [(transform, style)] *)
Definition splitValues (variant : obj) : obj * obj :=
  fold_left
    (fun '(transform, style) kv =>
       if isTransformProp (fst kv) || isTransformOriginProp (fst kv)
       then (obj_set transform (fst kv) (snd kv), style)
       else (transform, obj_set style (fst kv) (snd kv)))
    variant ([], []).

Definition translateAlias : list (string * string) :=
  [("x", "translateX"); ("y", "translateY"); ("z", "translateZ")].

Definition is_xyz (key : string) : bool :=
  String.eqb key "x" || String.eqb key "y" || String.eqb key "z".

(** The watcher of [reactiveTransform]: the transform string that belongs
    to the state [newVal]. *)
Definition reactiveTransform (ext : Externals) (newVal : obj)
    (enableHardwareAcceleration : bool) : string :=
  let x := default VUndef (obj_get newVal "x") in
  let y := default VUndef (obj_get newVal "y") in
  let z := default VUndef (obj_get newVal "z") in
  let hasHardwareAcceleration :=
    enableHardwareAcceleration && (truthy x || truthy y || truthy z) in
  let result :=
    if hasHardwareAcceleration then
      let str :=
        join "," (map (fun v => to_string (px_transform v))
                      [js_or x (VInt 0); js_or y (VInt 0); js_or z (VInt 0)]) in
      "" +:+ "translate3d(" +:+ str +:+ ") "
    else "" in
  let result :=
    fold_left
      (fun result kv =>
         let key := fst kv in
         if enableHardwareAcceleration && is_xyz key then result
         else
           let valueType := getValueType key in
           let valueAsType := getValueAsType ext (snd kv) valueType in
           result +:+ default key (table_get translateAlias key) +:+
             "(" +:+ to_string valueAsType +:+ ") ")
      newVal result in
  let result :=
    if enableHardwareAcceleration && negb hasHardwareAcceleration
    then result +:+ "translateZ(0px) " else result in
  trim result.

Definition parseValues (v : string) : value :=
  if endsWith v "px" || endsWith v "deg" then VNum (parseFloat_string v)
  else if num_isNaN (Number_string v) then VNum (Number_string v)
  else VStr v.

(** [parseTransform(transform)]; [Throw] when a term has no opening
    parenthesis, so that [transformValue.split] is called on [undefined]. *)
Definition parseTransform (transform : string) : result obj :=
  let transforms := split_rparen (trim transform) in
  if Nat.eqb (length transforms) 1 then Ok []
  else
    fold_left
      (fun acc transform2 =>
         match acc with
         | Throw _ _ => acc
         | Ok acc =>
             if String.eqb transform2 "" then Ok acc
             else
               match split_char "(" transform2 with
               | name :: transformValue :: _ =>
                   let valueArray := split_char "," transformValue in
                   let values :=
                     map (fun val =>
                            parseValues (if endsWith val ")"
                                         then remove_first ")" val
                                         else trim val))
                         valueArray in
                   let v :=
                     match values with
                     | [v0] => v0
                     | _ => VArr values
                     end in
                   Ok (obj_set acc name v)
               | _ => Throw "TypeError" "Cannot read properties of undefined (reading 'split')"
               end
         end)
      transforms (Ok []).

(** [stateFromTransform(state, transform)]: the state after the call, and
    the exception that ended it, if any.  Every parsed value goes through
    [parseFloat] first, so at [value.forEach] the value is a number. *)
Definition stateFromTransform (state : obj) (transform : string) : obj * option (string * string) :=
  match parseTransform transform with
  | Throw n m => (state, Some (n, m))
  | Ok parsed =>
      fold_left
        (fun '(state, err) kv =>
           match err with
           | Some _ => (state, err)
           | None =>
               let key := fst kv in
               let v := VNum (parseFloat (snd kv)) in
               if String.eqb key "translate3d" then
                 if strict_eq v (VInt 0)
                 then (fold_left (fun st axis => obj_set st axis (VInt 0))
                                 ["x"; "y"; "z"] state, None)
                 else (state, Some ("TypeError", "value.forEach is not a function"))
               else if String.eqb key "translateX" then (obj_set state "x" v, None)
               else if String.eqb key "translateY" then (obj_set state "y" v, None)
               else if String.eqb key "translateZ" then (obj_set state "z" v, None)
               else (obj_set state key v, None)
           end)
        parsed (state, None)
  end.

(** A concrete choice of collaborators, for running the module on examples:
    popmotion's [velocityPerSecond], a square root rounded to six decimals,
    and a complex-value test that accepts the non-numeric strings that
    contain a digit. *)
Definition sample_externals : Externals :=
  {| velocityPerSecond := fun v d =>
       if num_truthy d then num_mul v (num_div (of_Z 1000) d) else Fin 0;
     Math_sqrt := fun n =>
       match n with
       | Fin q => fin (Z.sqrt (Qfloor (q * pow10 12)) # 1000000)
       | _ => n
       end;
     complex_test := fun s =>
       num_isNaN (Number_string s) && existsb is_digit (list_ascii_of_string s);
     complex_getAnimatableNone := fun _ => VStr "0";
     filter_getAnimatableNone := fun _ => VStr "none";
     color_transform := fun n => VStr (num_to_string n) |}.

(** ** The world of one animated subject

    [useMotionControls], [useMotionTransitions] and [useMotionValues] close
    over shared mutable state: the variants table, the reactive property bag
    [motionProperties], the registry [motionValues] and the motion value
    objects in it.  Around them live the promises they create, the microtask
    queue of the JavaScript runtime, and the animations that the tween engine
    (popmotion) is running.  A [World] holds all of it. *)

(** What the module calls when an animation completes: a function supplied
    by the user (known by name), or the [resolve] function of a promise. *)
Inductive callback : Type :=
  | CbUser (name : string)
  | CbResolve (p : nat).

Inductive anim_status : Type := Running | Stopped | Completed.

(** One call of popmotion's [animate] or [inertia]. *)
Record EngineAnim : Type := {
  ea_inertia : bool;
  (** the options object of the call; function-valued options appear by name *)
  ea_options : obj;
  (** the motion value that the [onUpdate] option writes, if it writes one *)
  ea_value : option nat;
  (** the user-level [onUpdate] that the [onUpdate] option calls, if any *)
  ea_onUpdate : option string;
  (** what the [onComplete] option calls, in order *)
  ea_onComplete : list callback;
  ea_status : anim_status
}.

(** Reactions registered with [then] (or [await]) on a promise. *)
Inductive reaction : Type :=
  (** [.then(() => this.clearAnimation())] of [MotionValue.start], with the
      promise that this [then] returns *)
  | RClearAnimation (mv : nat) (derived : nat)
  (** the resolve-element function of [Promise.all] for one element *)
  | RResolveElement (aggregate : nat) (element : nat)
  (** the rest of [leave] after [await apply(leaveVariant)] *)
  | RCallDone (aggregate : nat) (done : string).

Record Promise : Type := {
  p_fulfilled : bool;
  p_reactions : list reaction;
  (** the remaining-elements counter, for a promise made by [Promise.all] *)
  p_remaining : nat
}.

(** Calls of user-level functions, in order: direct calls, and calls of
    [done] from the continuation of [leave] that waited for [aggregate]. *)
Inductive log_entry : Type :=
  | LogCall (name : string) (args : list value)
  | LogDone (aggregate : nat) (done : string).

Record World : Type := {
  w_frame : FrameData;
  w_variants : value;
  w_properties : obj;
  w_registry : list (string * nat);
  w_values : list MotionValue;
  w_engine : list EngineAnim;
  w_promises : list Promise;
  w_microtasks : list reaction;
  w_log : list log_entry
}.

Definition init_world (variants : value) (properties : obj) : World :=
  {| w_frame := {| fd_delta := Fin 0; fd_timestamp := Fin 0 |};
     w_variants := variants;
     w_properties := properties;
     w_registry := [];
     w_values := [];
     w_engine := [];
     w_promises := [];
     w_microtasks := [];
     w_log := [] |}.

Definition set_frame (x : FrameData) (w : World) : World :=
  {| w_frame := x; w_variants := w_variants w; w_properties := w_properties w;
     w_registry := w_registry w; w_values := w_values w; w_engine := w_engine w;
     w_promises := w_promises w; w_microtasks := w_microtasks w; w_log := w_log w |}.
Definition set_variants (x : value) (w : World) : World :=
  {| w_frame := w_frame w; w_variants := x; w_properties := w_properties w;
     w_registry := w_registry w; w_values := w_values w; w_engine := w_engine w;
     w_promises := w_promises w; w_microtasks := w_microtasks w; w_log := w_log w |}.
Definition set_properties (x : obj) (w : World) : World :=
  {| w_frame := w_frame w; w_variants := w_variants w; w_properties := x;
     w_registry := w_registry w; w_values := w_values w; w_engine := w_engine w;
     w_promises := w_promises w; w_microtasks := w_microtasks w; w_log := w_log w |}.
Definition set_registry (x : list (string * nat)) (w : World) : World :=
  {| w_frame := w_frame w; w_variants := w_variants w; w_properties := w_properties w;
     w_registry := x; w_values := w_values w; w_engine := w_engine w;
     w_promises := w_promises w; w_microtasks := w_microtasks w; w_log := w_log w |}.
Definition set_values (x : list MotionValue) (w : World) : World :=
  {| w_frame := w_frame w; w_variants := w_variants w; w_properties := w_properties w;
     w_registry := w_registry w; w_values := x; w_engine := w_engine w;
     w_promises := w_promises w; w_microtasks := w_microtasks w; w_log := w_log w |}.
Definition set_engine (x : list EngineAnim) (w : World) : World :=
  {| w_frame := w_frame w; w_variants := w_variants w; w_properties := w_properties w;
     w_registry := w_registry w; w_values := w_values w; w_engine := x;
     w_promises := w_promises w; w_microtasks := w_microtasks w; w_log := w_log w |}.
Definition set_promises (x : list Promise) (w : World) : World :=
  {| w_frame := w_frame w; w_variants := w_variants w; w_properties := w_properties w;
     w_registry := w_registry w; w_values := w_values w; w_engine := w_engine w;
     w_promises := x; w_microtasks := w_microtasks w; w_log := w_log w |}.
Definition set_microtasks (x : list reaction) (w : World) : World :=
  {| w_frame := w_frame w; w_variants := w_variants w; w_properties := w_properties w;
     w_registry := w_registry w; w_values := w_values w; w_engine := w_engine w;
     w_promises := w_promises w; w_microtasks := x; w_log := w_log w |}.
Definition set_log (x : list log_entry) (w : World) : World :=
  {| w_frame := w_frame w; w_variants := w_variants w; w_properties := w_properties w;
     w_registry := w_registry w; w_values := w_values w; w_engine := w_engine w;
     w_promises := w_promises w; w_microtasks := w_microtasks w; w_log := x |}.

(** *** Promises and user callbacks *)

Definition is_fulfilled (p : nat) (w : World) : bool :=
  match w_promises w !! p with
  | Some pr => p_fulfilled pr
  | None => false
  end.

(** [new Promise(...)], before the executor runs *)
Definition new_promise (remaining : nat) (w : World) : World * nat :=
  (set_promises
     (w_promises w ++
        [{| p_fulfilled := false; p_reactions := []; p_remaining := remaining |}]) w,
   length (w_promises w)).

(** The [resolve] function of promise [p]: the first call fulfils the
    promise and queues its reactions as microtasks; later calls do nothing. *)
Definition resolve_promise (p : nat) (w : World) : World :=
  match w_promises w !! p with
  | Some pr =>
      if p_fulfilled pr then w
      else
        set_microtasks (w_microtasks w ++ p_reactions pr)
          (set_promises
             (<[p := {| p_fulfilled := true; p_reactions := [];
                        p_remaining := p_remaining pr |}]> (w_promises w)) w)
  | None => w
  end.

(** [p.then(r)]: queued at once when [p] is already fulfilled *)
Definition then_ (p : nat) (r : reaction) (w : World) : World :=
  match w_promises w !! p with
  | Some pr =>
      if p_fulfilled pr then set_microtasks (w_microtasks w ++ [r]) w
      else
        set_promises
          (<[p := {| p_fulfilled := false; p_reactions := p_reactions pr ++ [r];
                     p_remaining := p_remaining pr |}]> (w_promises w)) w
  | None => w
  end.

Definition log_call (name : string) (args : list value) (w : World) : World :=
  set_log (w_log w ++ [LogCall name args]) w.

Definition call (cb : callback) (w : World) : World :=
  match cb with
  | CbUser name => log_call name [] w
  | CbResolve p => resolve_promise p w
  end.

Definition call_opt (cb : option callback) (w : World) : World :=
  match cb with Some cb => call cb w | None => w end.

(** An option that the module's interface declares as a function:
    [if (f) f()] only ever meets a function or a nullish value. *)
Definition as_callback (f : value) : option callback :=
  match f with VFun name => Some (CbUser name) | _ => None end.

Definition as_function (f : value) : option string :=
  match f with VFun name => Some name | _ => None end.

(** [Promise.all(ps)] on promises of this realm *)
Definition register_elements (aggregate : nat) (ps : list nat) (w : World) : World :=
  fold_left (fun w p => then_ p (RResolveElement aggregate p) w) ps w.

Definition Promise_all (ps : list nat) (w : World) : World * nat :=
  let '(w, agg) := new_promise (length ps) w in
  let w := register_elements agg ps w in
  (match ps with [] => resolve_promise agg w | _ => w end, agg).

(** *** Motion values in the world *)

Definition update_value (id : nat) (f : MotionValue -> MotionValue) (w : World) : World :=
  set_values (alter f id (w_values w)) w.

Definition notify (subs : list subscriber) (v : value) (w : World) : World :=
  fold_left
    (fun w s => match s with
                | SubSetTarget key => set_properties (obj_set (w_properties w) key v) w
                end)
    subs w.

(** [motionValue.set(v)] *)
Definition mv_set (id : nat) (v : value) (w : World) : World :=
  match w_values w !! id with
  | Some mv =>
      let mv' := updateAndNotify (w_frame w) v mv in
      notify (mv_subscribers mv') v (set_values (<[id := mv']> (w_values w)) w)
  | None => w
  end.

Definition set_status (s : anim_status) (ea : EngineAnim) : EngineAnim :=
  {| ea_inertia := ea_inertia ea; ea_options := ea_options ea;
     ea_value := ea_value ea; ea_onUpdate := ea_onUpdate ea;
     ea_onComplete := ea_onComplete ea; ea_status := s |}.

Definition is_running (ea : EngineAnim) : bool :=
  match ea_status ea with Running => true | _ => false end.

(** The [stop] function that the engine returned for animation [a]: a
    stopped animation produces no further update and never completes. *)
Definition engine_stop (a : nat) (w : World) : World :=
  match w_engine w !! a with
  | Some ea =>
      if is_running ea
      then set_engine (<[a := set_status Stopped ea]> (w_engine w)) w
      else w
  | None => w
  end.

Definition call_handle (h : handle) (w : World) : World :=
  match h with
  | HNoop => w
  | HEngine a => engine_stop a w
  end.

(** [motionValue.stop()] *)
Definition mv_stop (id : nat) (w : World) : World :=
  match w_values w !! id with
  | Some mv =>
      let w := match mv_stopAnimation mv with
               | Some h => call_handle h w
               | None => w
               end in
      update_value id clearAnimation w
  | None => w
  end.

(** [motionValue.destroy()] *)
Definition mv_destroy (id : nat) (w : World) : World :=
  mv_stop id (update_value id clearListeners w).

(** [useMotionValues().get(key, from, target)], with [target] the property
    bag of the subject *)
Definition get (key : string) (from : value) (w : World) : World * nat :=
  match table_get (w_registry w) key with
  | Some id => (w, id)
  | None =>
      let motionValue := onChange (SubSetTarget key) (getMotionValue from) in
      (set_registry (w_registry w ++ [(key, length (w_values w))])
         (set_values (w_values w ++ [motionValue]) w),
       length (w_values w))
  end.

Definition destroyKey (w : World) (key : string) : World :=
  match table_get (w_registry w) key with
  | None => w
  | Some id =>
      let w := mv_stop id w in
      let w := mv_destroy id w in
      set_registry (List.filter (fun kv => negb (String.eqb (fst kv) key)) (w_registry w)) w
  end.

(** [useMotionValues().stop(keys)] *)
Definition stop (keys : value) (w : World) : World :=
  if truthy keys then
    match keys with
    | VArr l => fold_left destroyKey (map to_string l) w
    | _ => destroyKey w (to_string keys)
    end
  else fold_left destroyKey (map fst (w_registry w)) w.

(** *** getAnimation (index.mjs, lines 380-423) *)

(** What the closure returned by [getAnimation] has captured. *)
Record Animation : Type := {
  (** [true] for the function [set], [false] for the function [start] *)
  an_set : bool;
  an_key : string;
  an_value : nat;
  an_target : value;
  an_transition : value;
  an_origin : value;
  an_onComplete : option callback
}.

(** The [origin] of [getAnimation], from the current value of the motion
    value. *)
Definition animation_origin (ext : Externals) (key : string) (current target : value)
    (valueTransition : value) : value :=
  let from := get_field valueTransition "from" in
  let origin := if is_nullish from then current else from in
  if strict_eq origin (VStr "none") && isAnimatable ext key target && is_string target
  then getAnimatableNone ext key target
  else origin.

Definition current_of (id : nat) (w : World) : value :=
  match w_values w !! id with
  | Some mv => mv_current mv
  | None => VUndef
  end.

Definition getAnimation (ext : Externals) (key : string) (motionValue : nat) (target : value)
    (transition : value) (onComplete : option callback) (w : World) : Animation :=
  let valueTransition := getValueTransition transition key in
  let origin := animation_origin ext key (current_of motionValue w) target valueTransition in
  let isTargetAnimatable := isAnimatable ext key target in
  let isOriginAnimatable := isAnimatable ext key origin in
  {| an_set := negb isOriginAnimatable || negb isTargetAnimatable
               || strict_eq (get_field valueTransition "type") (VBool false);
     an_key := key;
     an_value := motionValue;
     an_target := target;
     an_transition := transition;
     an_origin := origin;
     an_onComplete := onComplete |}.

(** The function [set(complete)] inside [getAnimation] *)
Definition animation_set (an : Animation) (complete : option callback) (w : World)
    : World * handle :=
  let w := mv_set (an_value an) (an_target an) w in
  let w := call_opt (as_callback (get_field (an_transition an) "onComplete")) w in
  let w := call_opt (an_onComplete an) w in
  let w := call_opt complete w in
  (w, HNoop).

Definition engine_add (ea : EngineAnim) (w : World) : World * handle :=
  (set_engine (w_engine w ++ [ea]) w, HEngine (length (w_engine w))).

Definition opt_list {A : Type} (o : option A) : list A :=
  match o with Some a => [a] | None => [] end.

(** The function [start(complete)] inside [getAnimation]: one call of the
    engine.  The third component is the transition object after the call
    (see [getPopmotionAnimationOptions]). *)
Definition animation_start (ext : Externals) (an : Animation) (complete : option callback)
    (w : World) : World * handle * value :=
  let key := an_key an in
  let transition := an_transition an in
  let valueTransition := getValueTransition transition key in
  let velocity :=
    if truthy (get_field transition "velocity") then get_field transition "velocity"
    else match w_values w !! an_value an with
         | Some mv => VNum (getVelocity ext mv)
         | None => VUndef
         end in
  let options :=
    [("from", an_origin an); ("to", an_target an); ("velocity", velocity);
     ("onUpdate", VFun "(v) => value.set(v)")] in
  let type := get_field valueTransition "type" in
  if strict_eq type (VStr "inertia") || strict_eq type (VStr "decay") then
    let overrides := obj_has (Object_entries valueTransition) "onUpdate" in
    let '(w, h) :=
      engine_add
        {| ea_inertia := true;
           ea_options := obj_spread options (Object_entries valueTransition);
           ea_value := if overrides then None else Some (an_value an);
           ea_onUpdate := if overrides
                          then as_function (get_field valueTransition "onUpdate")
                          else None;
           ea_onComplete := opt_list (as_callback (get_field valueTransition "onComplete"));
           ea_status := Running |} w in
    (w, h, transition)
  else
    let '(valueTransition', popmotionOptions) :=
      getPopmotionAnimationOptions ext valueTransition options key in
    let '(w, h) :=
      engine_add
        {| ea_inertia := false;
           ea_options := obj_set (obj_set popmotionOptions "onUpdate" (VFun "onUpdate"))
                                 "onComplete" (VFun "onComplete");
           ea_value := Some (an_value an);
           ea_onUpdate := as_function (get_field valueTransition "onUpdate");
           ea_onComplete :=
             opt_list (as_callback (get_field transition "onComplete")) ++
             opt_list (an_onComplete an) ++ opt_list complete;
           ea_status := Running |} w in
    (w, h, put_valueTransition transition key valueTransition').

(** Calling the animation: [animation(complete)] *)
Definition run_animation (ext : Externals) (an : Animation) (complete : option callback)
    (w : World) : World * handle * value :=
  if an_set an
  then let '(w, h) := animation_set an complete w in (w, h, an_transition an)
  else animation_start ext an complete w.

(** [motionValue.start(animation)]: returns the promise of the final
    [then], and the transition object after the call. *)
Definition mv_start (ext : Externals) (id : nat) (animation : Animation) (w : World)
    : World * nat * value :=
  let w := mv_stop id w in
  let '(w, p) := new_promise 0 w in
  let '(w, h, transition) := run_animation ext animation (Some (CbResolve p)) w in
  let w := update_value id (set_stopAnimation h) w in
  let '(w, derived) := new_promise 0 w in
  let w := then_ p (RClearAnimation id derived) w in
  (w, derived, transition).

(** *** useMotionTransitions (index.mjs, lines 425-438) *)

(** [push(key, value, target, transition, onComplete)] with [target] the
    property bag of the subject; returns the transition object after the
    call. *)
Definition push (ext : Externals) (key : string) (v : value) (transition : value)
    (onComplete : option callback) (w : World) : World * value :=
  let from := default VUndef (obj_get (w_properties w) key) in
  let '(w, motionValue) := get key from w in
  let transition := match transition with VUndef => VObj [] | _ => transition end in
  if truthy transition && truthy (get_field transition "immediate")
  then (mv_set motionValue v w, transition)
  else
    let animation := getAnimation ext key motionValue v transition onComplete w in
    let '(w, _, transition) := mv_start ext motionValue animation w in
    (w, transition).

(** *** useMotionControls (index.mjs, lines 440-500) *)

Definition getVariantFromKey (variant : string) (w : World) : result value :=
  if negb (truthy (w_variants w)) || negb (truthy (get_field (w_variants w) variant))
  then Throw "Error" ("The variant " +:+ variant +:+ " does not exist.")
  else Ok (get_field (w_variants w) variant).

(** One iteration of the [map] in [apply]: the entry [key, value] of the
    variant.  The accumulator carries the world, the variant object (whose
    shared transition the engine call may update in place) and the
    per-property promises made so far. *)
Definition apply_entry (ext : Externals)
    (acc : World * value * list (string * nat)) (kv : string * value)
    : World * value * list (string * nat) :=
  let '(w, variant, ps) := acc in
  let '(key, v) := kv in
  if String.eqb key "transition" then acc
  else
    let '(w, p) := new_promise 0 w in
    let shared := get_field variant "transition" in
    let transition :=
      if truthy shared then shared
      else VObj (getDefaultTransition ext key (get_field variant key)) in
    let '(w, transition') := push ext key v transition (Some (CbResolve p)) w in
    let variant := if truthy shared then set_field variant "transition" transition'
                   else variant in
    (w, variant, (ps ++ [(key, p)])%list).

(** [apply(variant)]: the promise returned by [Promise.all], together with
    the per-property promises it joins (each with its property name). *)
(** [if (typeof variant === "string") variant = getVariantFromKey(variant)] *)
Definition resolve_variant (variant : value) (w : World) : result value :=
  match variant with
  | VStr name => getVariantFromKey name w
  | _ => Ok variant
  end.

(** A named variant is an object of the variants table: what the engine
    call wrote into its transition stays there. *)
Definition write_back (variant variantObject : value) (w : World) : World :=
  match variant with
  | VStr name => set_variants (set_field (w_variants w) name variantObject) w
  | _ => w
  end.

Definition apply (ext : Externals) (variant : value) (w : World)
    : World * result (nat * list (string * nat)) :=
  match resolve_variant variant w with
  | Throw n m => (w, Throw n m)
  | Ok VUndef | Ok VNull =>
      (w, Throw "TypeError" "Cannot convert undefined or null to object")
  | Ok variantObject =>
      let '(w, variantObject', ps) :=
        fold_left (apply_entry ext) (Object_entries variantObject) (w, variantObject, []) in
      let w := write_back variant variantObject' w in
      let '(w, aggregate) := Promise_all (map snd ps) w in
      (w, Ok (aggregate, ps))
  end.

(** [set(variant)] *)
Definition set (ext : Externals) (variant : value) (w : World) : World * result unit :=
  let variantData :=
    if isObject variant then Ok variant else getVariantFromKey (to_string variant) w in
  match variantData with
  | Throw n m => (w, Throw n m)
  | Ok variantData =>
      (fold_left
         (fun w kv =>
            if String.eqb (fst kv) "transition" then w
            else fst (push ext (fst kv) (snd kv) (VObj [("immediate", VBool true)]) None w))
         (Object_entries variantData) w,
       Ok tt)
  end.

(** The variant that [leave] applies, [undefined] when there is none. *)
Definition leaveVariant (variants : value) : value :=
  if truthy variants then
    if truthy (get_field variants "leave") then get_field variants "leave"
    else if truthy (get_field variants "initial") then get_field variants "initial"
    else VUndef
  else VUndef.

(** [leave(done)] *)
Definition leave (ext : Externals) (done : string) (w : World) : World :=
  let leaveVariant := leaveVariant (w_variants w) in
  if negb (truthy leaveVariant) then log_call done [] w
  else
    match apply ext leaveVariant w with
    | (w, Ok (aggregate, _)) => then_ aggregate (RCallDone aggregate done) w
    | (w, Throw _ _) => w
    end.

(** [stopTransitions()] *)
Definition stopTransitions (w : World) : World := stop VUndef w.

(** *** The runtime: microtasks, the frame scheduler, the engine *)

Definition set_remaining (n : nat) (pr : Promise) : Promise :=
  {| p_fulfilled := p_fulfilled pr; p_reactions := p_reactions pr; p_remaining := n |}.

(** The resolve-element function of [Promise.all] counts down ... *)
Definition decrement_remaining (aggregate : nat) (w : World) : World :=
  match w_promises w !! aggregate with
  | Some pr =>
      set_promises
        (<[aggregate := set_remaining (Nat.pred (p_remaining pr)) pr]> (w_promises w)) w
  | None => w
  end.

Definition remaining (p : nat) (w : World) : nat :=
  match w_promises w !! p with
  | Some pr => p_remaining pr
  | None => O
  end.

(** ... and resolves the aggregate when the count reaches zero. *)
Definition run_reaction (r : reaction) (w : World) : World :=
  match r with
  | RClearAnimation mv derived =>
      resolve_promise derived (update_value mv clearAnimation w)
  | RResolveElement aggregate _ =>
      let w := decrement_remaining aggregate w in
      if Nat.eqb (remaining aggregate w) 0 then resolve_promise aggregate w else w
  | RCallDone aggregate done => set_log (w_log w ++ [LogDone aggregate done]) w
  end.

Definition run_microtask (w : World) : World :=
  match w_microtasks w with
  | [] => w
  | r :: rest => run_reaction r (set_microtasks rest w)
  end.

Fixpoint drain_fuel (fuel : nat) (w : World) : World :=
  match fuel with
  | O => w
  | S fuel' =>
      match w_microtasks w with
      | [] => w
      | _ :: _ => drain_fuel fuel' (run_microtask w)
      end
  end.

(** The reactions that can still run: the queued ones and those waiting
    on a pending promise. *)
Definition promise_work (pr : Promise) : nat :=
  if p_fulfilled pr then O else length (p_reactions pr).

Definition pending_work (w : World) : nat :=
  length (w_microtasks w) + list_sum (map promise_work (w_promises w)).

(** The microtask checkpoint at the end of a task *)
Definition drain (w : World) : World := drain_fuel (pending_work w) w.

(** What can happen to a subject: calls of its controls, and the frame
    scheduler and the engine calling back. *)
Inductive action : Type :=
  | AApply (variant : value)
  | ASet (variant : value)
  | ALeave (done : string)
  | AStop (keys : value)
  | APush (key : string) (v : value) (transition : value) (onComplete : option string)
  | AMvStop (id : nat)
  | AFrame (fd : FrameData)
  | AVelocityCheck (id : nat)
  | AEngineUpdate (a : nat) (v : value)
  | AEngineComplete (a : nat).

(** The engine reports a new value of a running animation. *)
Definition engine_update (a : nat) (v : value) (w : World) : World :=
  match w_engine w !! a with
  | Some ea =>
      if is_running ea then
        let w := match ea_value ea with Some id => mv_set id v w | None => w end in
        match ea_onUpdate ea with Some f => log_call f [v] w | None => w end
      else w
  | None => w
  end.

(** The engine reports that a running animation is complete. *)
Definition engine_complete (a : nat) (w : World) : World :=
  match w_engine w !! a with
  | Some ea =>
      if is_running ea then
        fold_left (fun w cb => call cb w) (ea_onComplete ea)
          (set_engine (<[a := set_status Completed ea]> (w_engine w)) w)
      else w
  | None => w
  end.

Definition do_action (ext : Externals) (w : World) (a : action) : World :=
  match a with
  | AApply variant => fst (apply ext variant w)
  | ASet variant => fst (set ext variant w)
  | ALeave done => leave ext done w
  | AStop keys => stop keys w
  | APush key v transition onComplete =>
      fst (push ext key v transition (option_map CbUser onComplete) w)
  | AMvStop id => mv_stop id w
  | AFrame fd => set_frame fd w
  | AVelocityCheck id => update_value id (velocityCheck (fd_timestamp (w_frame w))) w
  | AEngineUpdate a v => engine_update a v w
  | AEngineComplete a => engine_complete a w
  end.

(** A task runs some actions synchronously and ends with a microtask
    checkpoint. *)
Definition run_task (ext : Externals) (w : World) (task : list action) : World :=
  drain (fold_left (do_action ext) task w).

Definition run_tasks (ext : Externals) (tasks : list (list action)) (w : World) : World :=
  fold_left (run_task ext) tasks w.

(** ** The order of operations named by the specification

    These two definitions follow the words of the specification, not the
    code: the operation a term belongs to (with [x], [y], [z] standing for
    the translate axes), ranked by its position in [order]. *)





Definition concat_strings (l : list string) : string := fold_right String.append "" l.

(** The terms of the transform string, one by one. *)
Definition transform_term (ext : Externals) (kv : string * value) : string :=
  default (fst kv) (table_get translateAlias (fst kv)) +:+ "(" +:+
  to_string (getValueAsType ext (snd kv) (getValueType (fst kv))) +:+ ") ".




(** ** Observations on the promises of a world

    The properties of the completion promises are stated through a few
    counts: how often a reaction is registered on a pending promise, how
    often it is queued as a microtask, and how often a continuation of
    [leave] has called its [done]. *)

Global Instance reaction_eq_dec : EqDecision reaction.
Proof. solve_decision. Defined.

Global Instance callback_eq_dec : EqDecision callback.
Proof. solve_decision. Defined.

Definition registered (r : reaction) (p : nat) (w : World) : nat :=
  match w_promises w !! p with
  | Some pr => if p_fulfilled pr then O else count_occ reaction_eq_dec (p_reactions pr) r
  | None => O
  end.

Definition queued (r : reaction) (w : World) : nat :=
  count_occ reaction_eq_dec (w_microtasks w) r.

Definition done_calls (w : World) : list (nat * string) :=
  omap (fun e => match e with LogDone a d => Some (a, d) | LogCall _ _ => None end)
       (w_log w).

Definition done_count (aggregate : nat) (done : string) (w : World) : nat :=
  length (List.filter (fun c => Nat.eqb (fst c) aggregate && String.eqb (snd c) done)
                      (done_calls w)).

(** The promises a reaction mentions, the promise it resolves when it runs,
    and the promise on which the module registers it. *)
Definition reaction_refs (r : reaction) : list nat :=
  match r with
  | RClearAnimation _ derived => [derived]
  | RResolveElement aggregate element => [aggregate; element]
  | RCallDone aggregate _ => [aggregate]
  end.

Definition reaction_target (r : reaction) : option nat :=
  match r with
  | RClearAnimation _ derived => Some derived
  | RResolveElement aggregate _ => Some aggregate
  | RCallDone _ _ => None
  end.

Definition at_home (p : nat) (r : reaction) : Prop :=
  match r with
  | RClearAnimation _ _ => True
  | RResolveElement _ element => element = p
  | RCallDone aggregate _ => aggregate = p
  end.

Definition waiting (r : reaction) (w : World) : Prop :=
  (0 < queued r w)%nat \/ exists p, (0 < registered r p w)%nat.

(** A running animation of the engine will resolve promise [q] when it
    completes. *)
Definition engine_targets (q : nat) (w : World) : Prop :=
  exists a ea, w_engine w !! a = Some ea /\ is_running ea = true /\
               CbResolve q ∈ ea_onComplete ea.

(** Something in the world can still resolve promise [q]. *)
Definition targeted (q : nat) (w : World) : Prop :=
  engine_targets q w \/ exists r, reaction_target r = Some q /\ waiting r w.

(** Well-formed worlds: whatever mentions a promise mentions an existing
    one, and reactions sit on the promise they were made for. *)
Record wf (w : World) : Prop := {
  wf_registered : forall r p, (0 < registered r p w)%nat ->
    at_home p r /\ Forall (fun q => (q < length (w_promises w))%nat) (reaction_refs r);
  wf_queued : forall r, (0 < queued r w)%nat ->
    Forall (fun q => (q < length (w_promises w))%nat) (reaction_refs r);
  wf_engine : forall a ea q, w_engine w !! a = Some ea ->
    CbResolve q ∈ ea_onComplete ea -> (q < length (w_promises w))%nat;
  wf_log : forall a d, (a, d) ∈ done_calls w -> (a < length (w_promises w))%nat
}.

(** Nothing can resolve the pending promise [q] any more. *)
Definition abandoned (q : nat) (w : World) : Prop :=
  (q < length (w_promises w))%nat /\ is_fulfilled q w = false /\ ~ targeted q w.

Definition join_share (aggregate : nat) (w : World) (element : nat) : nat :=
  (registered (RResolveElement aggregate element) element w +
   queued (RResolveElement aggregate element) w)%nat.

(** [aggregate] is the promise of a [Promise.all] over the promises [ps]. *)
Record joins (aggregate : nat) (ps : list nat) (w : World) : Prop := {
  joins_bound : (aggregate < length (w_promises w))%nat;
  joins_nodup : NoDup ps;
  joins_remaining : remaining aggregate w = list_sum (map (join_share aggregate w) ps);
  joins_pending : forall e, e ∈ ps -> is_fulfilled e w = false ->
    registered (RResolveElement aggregate e) e w = 1%nat;
  joins_fulfilled : is_fulfilled aggregate w = true <-> remaining aggregate w = O;
  joins_elements : forall e, waiting (RResolveElement aggregate e) w -> e ∈ ps;
  joins_engine : ~ engine_targets aggregate w;
  joins_clear : forall mv, ~ waiting (RClearAnimation mv aggregate) w
}.

(** The continuation of a [leave(done)] that awaits [aggregate]: it waits
    on the aggregate, or is queued, or has run, exactly one of the three. *)
Record awaits (aggregate : nat) (done : string) (w : World) : Prop := {
  awaits_bound : (aggregate < length (w_promises w))%nat;
  awaits_once :
    (registered (RCallDone aggregate done) aggregate w +
     queued (RCallDone aggregate done) w +
     done_count aggregate done w = 1)%nat;
  awaits_pending : is_fulfilled aggregate w = false ->
    registered (RCallDone aggregate done) aggregate w = 1%nat
}.

(** The steps that the synchronous code of the module takes on the promise
    state, relative to the [n0] promises that existed when the code started
    and the old promises [R0] that a completing animation may resolve. *)
Inductive step (n0 : nat) (R0 : nat -> Prop) (w : World) : World -> Prop :=
  | step_quiet w' :
      w_promises w' = w_promises w ->
      w_microtasks w' = w_microtasks w ->
      w_engine w' = w_engine w ->
      done_calls w' = done_calls w ->
      step n0 R0 w w'
  | step_alloc k :
      step n0 R0 w (fst (new_promise k w))
  | step_then p r :
      (n0 <= p)%nat ->
      at_home p r ->
      Forall (fun q => (n0 <= q < length (w_promises w))%nat) (reaction_refs r) ->
      step n0 R0 w (then_ p r w)
  | step_resolve p :
      (n0 <= p)%nat \/ R0 p ->
      step n0 R0 w (resolve_promise p w)
  | step_engine_add ea :
      (forall q, CbResolve q ∈ ea_onComplete ea ->
                 (n0 <= q < length (w_promises w))%nat) ->
      step n0 R0 w (fst (engine_add ea w))
  | step_engine_halt a ea s :
      w_engine w !! a = Some ea ->
      s <> Running ->
      step n0 R0 w (set_engine (<[a := set_status s ea]> (w_engine w)) w).

Definition steps (n0 : nat) (R0 : nat -> Prop) : World -> World -> Prop :=
  rtc (step n0 R0).

Definition is_pending (p : nat) (w : World) : bool :=
  match w_promises w !! p with
  | Some pr => negb (p_fulfilled pr)
  | None => false
  end.

(** Two worlds with the same promises, microtasks, engine and [done] calls *)
Definition same_view (w w' : World) : Prop :=
  w_promises w' = w_promises w /\
  w_microtasks w' = w_microtasks w /\
  w_engine w' = w_engine w /\
  done_calls w' = done_calls w.

(** A callback that synchronous code may call: a user function, or the
    resolve function of one of the promises [n0 .. n-1], made since the code
    started. *)
Definition callable (n0 n : nat) (cb : callback) : Prop :=
  match cb with
  | CbUser _ => True
  | CbResolve p => (n0 <= p < n)%nat
  end.

Definition callable_opt (n0 n : nat) (cb : option callback) : Prop :=
  match cb with Some cb => callable n0 n cb | None => True end.

(** The per-property promises of one [apply] are new, distinct, and exist. *)
Definition fresh_promises (n0 : nat) (ps : list nat) (w : World) : Prop :=
  NoDup ps /\ Forall (fun p => (n0 <= p < length (w_promises w))%nat) ps.

(** The part of [apply] before [Promise.all]: the per-property promises and
    the world in which [Promise.all] is called. *)
Definition apply_pushes (ext : Externals) (variant variantObject : value) (w : World)
    : World * list (string * nat) :=
  let '(w, variantObject', ps) :=
    fold_left (apply_entry ext) (Object_entries variantObject) (w, variantObject, []) in
  (write_back variant variantObject' w, ps).

(** What every action, every task and every sequence of tasks preserves. *)
Definition preserved (w w' : World) : Prop :=
  wf w' /\
  (length (w_promises w) <= length (w_promises w'))%nat /\
  (forall a ps, joins a ps w -> joins a ps w') /\
  (forall a d, awaits a d w -> awaits a d w') /\
  (forall q, abandoned q w -> abandoned q w').

(** The registry entry of [key], if there is one, is a motion value that
    exists. *)
Definition live (key : string) (w : World) : Prop :=
  match table_get (w_registry w) key with
  | Some id => is_Some (w_values w !! id)
  | None => True
  end.

(** The motion value that [push] uses for [key]: the registered one, or a
    new one made from the current value of the property. *)
Definition value_before (key : string) (w : World) : MotionValue :=
  match table_get (w_registry w) key with
  | Some id => default (getMotionValue VUndef) (w_values w !! id)
  | None =>
      onChange (SubSetTarget key)
        (getMotionValue (default VUndef (obj_get (w_properties w) key)))
  end.

(** [o[k]], read from an options object of the engine *)
Definition option_field (o : obj) (k : string) : value := default VUndef (obj_get o k).

(** The variants table has no own entry called [name]. *)
Definition variant_absent (variants : value) (name : string) : Prop :=
  match variants with
  | VObj table => obj_get table name = None
  | _ => True
  end.

(** A variant object whose shared transition has a truthy [immediate]. *)
Definition immediate_variant (variant : value) : Prop :=
  truthy (get_field (get_field variant "transition") "immediate") = true.

(** What the call [if (cb) cb()] appends to the log of calls into user
    code: nothing for a resolve function. *)
Definition callback_log (cb : option callback) : list log_entry :=
  match cb with
  | Some (CbUser name) => [LogCall name []]
  | _ => []
  end.

(** ** Further definitions: observations used by the properties below *)

(** The keys that [stop(keys)] hands to [destroyKey]. *)
Definition stop_keys (keys : value) (w : World) : list string :=
  if truthy keys then
    match keys with
    | VArr l => map to_string l
    | _ => [to_string keys]
    end
  else map fst (w_registry w).

(** From [w] to [w'] the engine was given no new animation, and the only
    change to an animation is that a running one was stopped. *)
Definition engine_halted_only (w w' : World) : Prop :=
  length (w_engine w') = length (w_engine w) /\
  forall a ea, w_engine w !! a = Some ea ->
    w_engine w' !! a = Some ea \/
    (is_running ea = true /\ w_engine w' !! a = Some (set_status Stopped ea)).

(** No engine animation with index [a] is running. *)
Definition not_running (a : nat) (w : World) : Prop :=
  forall ea, w_engine w !! a = Some ea -> is_running ea = false.

(** Every registered key has a motion value, and the one subscriber of that
    motion value writes the key of the property bag: what
    [useMotionValues.get] sets up. *)
Definition registry_wf (w : World) : Prop :=
  forall key id, table_get (w_registry w) key = Some id ->
    exists mv, w_values w !! id = Some mv /\ mv_subscribers mv = [SubSetTarget key].

(** [w'] has the registry of [w], and its motion values have the
    subscribers they have in [w]. *)
Definition same_subscribers (w w' : World) : Prop :=
  w_registry w' = w_registry w /\
  forall id, mv_subscribers <$> (w_values w' !! id) = mv_subscribers <$> (w_values w !! id).





(** ** Style projection (index.mjs, lines 687-708) and server-side
    rendering (lines 1079-1091) *)

(** The watcher of [reactiveStyle]: the style object that belongs to the
    state. *)
Definition reactiveStyle (ext : Externals) (state : obj) : obj :=
  fold_left
    (fun result kv =>
       let valueType := getValueType (fst kv) in
       let valueAsType := getValueAsType ext (snd kv) valueType in
       obj_set result (fst kv) valueAsType)
    state [].

(** [getSSRProps(binding, node)], given [binding.value] and [node?.props]:
    the object it returns. *)
Definition getSSRProps (ext : Externals) (binding_value node_props : value) : obj :=
  let initial := get_field (js_or binding_value (js_or node_props (VObj []))) "initial" in
  if negb (truthy initial) || Nat.eqb (length (Object_keys initial)) 0 then []
  else
    let '(_transform, _style) := splitValues (Object_entries initial) in
    let transform := reactiveTransform ext _transform true in
    let style := reactiveStyle ext _style in
    let style :=
      if truthy (VStr transform) then obj_set style "transform" (VStr transform) else style in
    [("style", VObj style)].

(** Membership in the union of the two sets that [splitValues] tests. *)
Definition is_transform_key (key : string) : bool :=
  isTransformProp key || isTransformOriginProp key.


(** *** registerEventListeners (index.mjs, lines 507-602) *)

(** [v.k] for a [v] that may be [undefined] or [null] *)
Definition read_field (v : value) (k : string) : result value :=
  if is_nullish v
  then Throw "TypeError"
         ("Cannot read properties of " +:+ to_string v +:+ " (reading '" +:+ k +:+ "')")
  else Ok (get_field v k).

(** [Object.assign(target, source)] *)
Definition Object_assign (target : obj) (source : value) : obj :=
  obj_spread target (Object_entries source).

(** The computed [mutableKeys] *)
Definition mutableKeys (_variants : value) : list string :=
  let result := [] in
  if negb (truthy _variants) then result
  else
    let result :=
      if truthy (get_field _variants "hovered")
      then (result ++ Object_keys (get_field _variants "hovered"))%list else result in
    let result :=
      if truthy (get_field _variants "tapped")
      then (result ++ Object_keys (get_field _variants "tapped"))%list else result in
    let result :=
      if truthy (get_field _variants "focused")
      then (result ++ Object_keys (get_field _variants "focused"))%list else result in
    result.

(** [if (flag.value && _variants[name]) Object.assign(result, _variants[name])] *)
Definition assign_active (_variants : value) (flag : bool) (name : string) (props : obj)
    : result obj :=
  if flag then
    match read_field _variants name with
    | Throw n m => Throw n m
    | Ok v => Ok (if truthy v then Object_assign props v else props)
    end
  else Ok props.

(** The computed [computedProperties], from the current [state.value] and
    the flags [hovered], [tapped] and [focused]. *)
Definition computedProperties (_variants state : value) (hovered tapped focused : bool)
    : result obj :=
  let props := Object_assign [] state in
  match assign_active _variants hovered "hovered" props with
  | Throw n m => Throw n m
  | Ok props =>
      match assign_active _variants tapped "tapped" props with
      | Throw n m => Throw n m
      | Ok props =>
          match assign_active _variants focused "focused" props with
          | Throw n m => Throw n m
          | Ok props =>
              Ok (List.filter
                    (fun kv => existsb (String.eqb (fst kv)) (mutableKeys _variants))
                    props)
          end
      end
  end.

(** The entries of the variant [name] when its flag is on and the variant
    is there, and no entry otherwise. *)
Definition active_variant (_variants : value) (flag : bool) (name : string) : obj :=
  if flag && truthy (get_field _variants name)
  then Object_entries (get_field _variants name) else [].

(** What [stateFromTransform] keeps true of the state [state] it was given,
    in the state [st] it has written so far. *)
Definition read_inv (state st : obj) : Prop :=
  (forall k v, obj_get st k = Some v -> obj_get state k = Some v \/ exists n, v = VNum n) /\
  (forall k, obj_has state k = true -> obj_has st k = true) /\
  (forall k, k ∈ ["translate3d"; "translateX"; "translateY"; "translateZ"] ->
     obj_get st k = obj_get state k).

(** *** useSpring (index.mjs, lines 1367-1390)

    The object [values] that the spring writes is the property bag of the
    world. *)

(** [{ type: "spring", ...spring || getDefaultTransition(key, value) }] *)
Definition spring_options (ext : Externals) (spring : value) (key : string) (v : value) : obj :=
  obj_spread [("type", VStr "spring")]
    (Object_entries (if truthy spring then spring
                     else VObj (getDefaultTransition ext key v))).

(** The function passed to [motionValue.start]: one call of [animate]. *)
Definition spring_animation (ext : Externals) (spring : value) (key : string) (v : value)
    (motionValue : nat) (onComplete : option callback) (w : World) : World * handle :=
  let options := spring_options ext spring key v in
  let velocity :=
    match w_values w !! motionValue with
    | Some mv => VNum (getVelocity ext mv)
    | None => VUndef
    end in
  engine_add
    {| ea_inertia := false;
       ea_options :=
         obj_spread
           [("from", current_of motionValue w); ("to", v); ("velocity", velocity);
            ("onUpdate", VFun "(v) => motionValue.set(v)"); ("onComplete", VFun "onComplete")]
           options;
       ea_value := if obj_has options "onUpdate" then None else Some motionValue;
       ea_onUpdate := if obj_has options "onUpdate"
                      then as_function (option_field options "onUpdate") else None;
       ea_onComplete := if obj_has options "onComplete"
                        then opt_list (as_callback (option_field options "onComplete"))
                        else opt_list onComplete;
       ea_status := Running |} w.

(** [motionValue.start(...)] with that function *)
Definition spring_start (ext : Externals) (spring : value) (key : string) (v : value)
    (id : nat) (w : World) : World * nat :=
  let w := mv_stop id w in
  let '(w, p) := new_promise 0 w in
  let '(w, h) := spring_animation ext spring key v id (Some (CbResolve p)) w in
  let w := update_value id (set_stopAnimation h) w in
  let '(w, derived) := new_promise 0 w in
  let w := then_ p (RClearAnimation id derived) w in
  (w, derived).

(** One iteration of the [map] in [set]: the entry [key, value] of
    [properties]. *)
Definition spring_entry (ext : Externals) (spring : value)
    (acc : World * list nat) (kv : string * value) : World * list nat :=
  let '(w, ps) := acc in
  let '(key, v) := kv in
  let '(w, motionValue) := get key (default VUndef (obj_get (w_properties w) key)) w in
  let '(w, p) := spring_start ext spring key v motionValue w in
  (w, (ps ++ [p])%list).

(** [useSpring(values, spring).set(properties)]: the promise returned by
    [Promise.all]. *)
Definition useSpring_set (ext : Externals) (spring properties : value) (w : World)
    : World * nat :=
  let '(w, ps) := fold_left (spring_entry ext spring) (Object_entries properties) (w, []) in
  Promise_all ps w.

(** The [type] option that [useSpring] hands to the engine for [key]. *)
Definition spring_type (ext : Externals) (spring : value) (key : string) (v : value) : value :=
  match obj_get (Object_entries (if truthy spring then spring
                                 else VObj (getDefaultTransition ext key v))) "type" with
  | Some t => t
  | None => VStr "spring"
  end.

(** From [w] to [w'] the animations that the engine already has keep their
    options. *)
Definition keeps_options (w w' : World) : Prop :=
  forall a ea, w_engine w !! a = Some ea ->
    exists ea', w_engine w' !! a = Some ea' /\
      ea_options ea' = ea_options ea /\ ea_inertia ea' = ea_inertia ea.

(** *** useMotionProperties (index.mjs, lines 914-954) *)

(** [a === b] for two values of the program; [same_ref] tells whether two
    objects, arrays or functions are one and the same. *)
Definition strict_equals (same_ref : value -> value -> bool) (a b : value) : bool :=
  match a, b with
  | VObj _, VObj _ | VArr _, VArr _ | VFun _, VFun _ => same_ref a b
  | _, _ => strict_eq a b
  end.

(** The watcher of [motionProperties]: every entry of [newVal] is written
    into the transform state or into the style state, unless the state
    already has that value. *)
Definition syncProperties (same_ref : value -> value -> bool) (newVal : obj)
    (transform style : obj) : obj * obj :=
  fold_left
    (fun '(transform, style) kv =>
       let key := fst kv in
       let v := snd kv in
       if isTransformProp key then
         if truthy (option_field transform key)
            && strict_equals same_ref (option_field transform key) v
         then (transform, style)
         else (obj_set transform key v, style)
       else
         if truthy (option_field style key)
            && strict_equals same_ref (option_field style key) v
         then (transform, style)
         else (transform, obj_set style key v))
    newVal (transform, style).

(** The state [o] holds [v] under [k], or a truthy value that is [===] to
    it. *)
Definition synced (same_ref : value -> value -> bool) (o : obj) (k : string) (v : value)
    : Prop :=
  exists v', obj_get o k = Some v' /\
    (v' = v \/ (truthy v' = true /\ strict_equals same_ref v' v = true)).

(** ** The host's objects: inherited members and rejected promises

    A property read [o[k]] with a computed name finds the own properties of
    [o] and, after them, the members that every object inherits from
    [Object.prototype].  The lookups of the sections above ([get_field],
    [table_get]) read own properties only: they are the lookups of the
    program for every name that [inherited] refuses.  This section has the
    names that it accepts, and the part of the program between a call of
    [apply] and the end of its task with these names included: there a
    lookup can find a built-in function where the program expects a motion
    value or a variant, a call can throw, and a promise can be rejected. *)

(** The names of the members of [Object.prototype] *)
Definition Object_prototype : list string :=
  ["constructor"; "__defineGetter__"; "__defineSetter__"; "hasOwnProperty";
   "__lookupGetter__"; "__lookupSetter__"; "isPrototypeOf"; "propertyIsEnumerable";
   "toString"; "valueOf"; "__proto__"; "toLocaleString"].

Definition inherited (k : string) : bool := existsb (String.eqb k) Object_prototype.

(** The member of [Object.prototype] called [k]: [Object.prototype] itself
    under [__proto__] (an object without enumerable properties), a built-in
    function under the other names, [undefined] under any name that is not
    inherited. *)
Definition Object_prototype_member (k : string) : value :=
  if String.eqb k "__proto__" then VObj []
  else if String.eqb k "constructor" then VFun "Object"
  else if inherited k then VFun ("Object.prototype." +:+ k)
  else VUndef.

(** [v[k]] for a [v] other than [null] and [undefined]: an own property,
    else the member inherited from [Object.prototype].  (Of the members that
    arrays, strings and functions inherit from their own prototypes, or have
    besides their elements, none is included.) *)
Definition member (v : value) (k : string) : value :=
  match obj_get (Object_entries v) k with
  | Some x => x
  | None => Object_prototype_member k
  end.

(** What [if (f) f()] can call without a [TypeError]: a function, or
    nothing when [f] is falsy. *)
Definition callable_or_falsy (f : value) : Prop :=
  truthy f = true -> exists name, f = VFun name.

(** The test [!_variants || !_variants[name]] of [getVariantFromKey] holds,
    and not by way of an inherited member: the table is falsy, or it is a
    plain object without a truthy own entry called [name], and [name] is not
    the name of a member of [Object.prototype]. *)
Definition variant_missing (variants : value) (name : string) : Prop :=
  truthy variants = false \/
  (inherited name = false /\
   exists table, variants = VObj table /\ truthy (option_field table name) = false).

Module Host.

(** What a call throws: the message of a [TypeError] is the engine's own. *)
Inductive thrown : Type :=
  | TypeError
  | Error (message : string).

Inductive completion (A : Type) : Type :=
  | Normal (a : A)
  | Abrupt (e : thrown).
Arguments Normal {A} a.
Arguments Abrupt {A} e.

Definition is_function (v : value) : bool :=
  match v with VFun _ => true | _ => false end.

(** [typeof v] is ["object"] or ["function"], and [v] is not [null] *)
Definition is_object (v : value) : bool :=
  match v with VObj _ | VArr _ | VFun _ => true | _ => false end.

(** [getVariantFromKey(variant)] (index.mjs, lines 449-453) *)
Definition getVariantFromKey (variant : string) (w : World) : completion value :=
  if negb (truthy (w_variants w)) || negb (truthy (member (w_variants w) variant))
  then Abrupt (Error ("The variant " +:+ variant +:+ " does not exist."))
  else Normal (member (w_variants w) variant).

(** [f(arg)] for the member [f] of [Object.prototype] called [name], called
    as a plain function, so with [undefined] as [this]: [Object(arg)] (up to
    the wrapping of a primitive, which adds no enumerable property),
    [toString] and, for a primitive argument, [isPrototypeOf] return; the
    other members convert [this] to an object first, and [__proto__] holds
    no function. *)
Definition call_Object_prototype_member (name : string) (arg : value) : completion value :=
  if String.eqb name "constructor" then
    Normal (match arg with VUndef | VNull => VObj [] | _ => arg end)
  else if String.eqb name "toString" then Normal (VStr "[object Undefined]")
  else if String.eqb name "isPrototypeOf" then
    if is_object arg then Abrupt TypeError else Normal (VBool false)
  else Abrupt TypeError.

(** [getDefaultTransition(valueKey, to)] (index.mjs, lines 194-202), with
    [defaultTransitions[valueKey]] read as the host reads it *)
Definition getDefaultTransition (ext : Externals) (valueKey : string) (to : value)
    : completion obj :=
  if isKeyframesTarget to then Normal (obj_spread [("to", to)] (keyframes to))
  else
    match table_get (defaultTransitions ext) valueKey with
    | Some transitionFactory => Normal (obj_spread [("to", to)] (transitionFactory to))
    | None =>
        if inherited valueKey then
          match call_Object_prototype_member valueKey to with
          | Normal v => Normal (obj_spread [("to", to)] (Object_entries v))
          | Abrupt e => Abrupt e
          end
        else Normal (obj_spread [("to", to)] (overDampedSpring to))
    end.

(** What [motionValues.value[key]] holds when it is truthy *)
Inductive entry : Type :=
  | EMotionValue (id : nat)
  | EInherited (m : value).

(** [get(key, from, target)] (index.mjs, lines 125-134): a name that the
    registry object inherits is found there, and nothing is registered. *)
Definition get (key : string) (from : value) (w : World) : World * entry :=
  match table_get (w_registry w) key with
  | Some id => (w, EMotionValue id)
  | None =>
      if truthy (Object_prototype_member key)
      then (w, EInherited (Object_prototype_member key))
      else
        let motionValue := onChange (SubSetTarget key) (getMotionValue from) in
        (set_registry (w_registry w ++ [(key, length (w_values w))])
           (set_values (w_values w ++ [motionValue]) w),
         EMotionValue (length (w_values w)))
  end.

(** [useSpring(values, spring).set(properties)] (index.mjs, lines 1372-1389):
    with an inherited member in the place of the motion value,
    [motionValue.start] is no function, and the [map] over the entries ends
    there, before [Promise.all]. *)
Definition useSpring_set (ext : Externals) (spring properties : value) (w : World)
    : World * completion nat :=
  let '(w, ps, c) :=
    fold_left
      (fun '(w, ps, c) kv =>
         match c with
         | Abrupt _ => (w, ps, c)
         | Normal _ =>
             match get (fst kv) (member (VObj (w_properties w)) (fst kv)) w with
             | (w, EMotionValue motionValue) =>
                 let '(w, p) := spring_start ext spring (fst kv) (snd kv) motionValue w in
                 (w, (ps ++ [p])%list, c)
             | (w, EInherited _) => (w, ps, Abrupt TypeError)
             end
         end)
      (Object_entries properties) (w, [], Normal tt) in
  match c with
  | Normal _ => let '(w, aggregate) := Promise_all ps w in (w, Normal aggregate)
  | Abrupt e => (w, Abrupt e)
  end.

(** A reaction job of the microtask queue, for a promise that was fulfilled
    or for one that was rejected *)
Inductive job : Type :=
  | JFulfilled (r : reaction)
  | JRejected (r : reaction).

(** The world with the promises that are rejected.  The microtask queue is
    [h_jobs]; the queue of [h_world] is kept empty. *)
Record world : Type := {
  h_world : World;
  h_rejected : list nat;
  h_jobs : list job
}.

(** The microtasks that [w] has queued go to the end of the queue. *)
Definition flush (w : World) (rejected : list nat) (jobs : list job) : world :=
  {| h_world := set_microtasks [] w;
     h_rejected := rejected;
     h_jobs := jobs ++ map JFulfilled (w_microtasks w) |}.

Definition init (w : World) : world := flush w [] [].

Definition with_world (w : World) (hw : world) : world :=
  flush w (h_rejected hw) (h_jobs hw).

Definition lift (f : World -> World) (hw : world) : world :=
  with_world (f (h_world hw)) hw.

Definition is_rejected (p : nat) (hw : world) : bool :=
  existsb (Nat.eqb p) (h_rejected hw).

Definition is_settled (p : nat) (hw : world) : bool :=
  is_fulfilled p (h_world hw) || is_rejected p hw.

(** The [reject] function of promise [p]: the first call that finds the
    promise pending rejects it and queues its reactions. *)
Definition reject_promise (p : nat) (hw : world) : world :=
  match w_promises (h_world hw) !! p with
  | Some pr =>
      if is_settled p hw then hw
      else
        {| h_world :=
             set_promises
               (<[p := {| p_fulfilled := false; p_reactions := [];
                          p_remaining := p_remaining pr |}]> (w_promises (h_world hw)))
               (h_world hw);
           h_rejected := h_rejected hw ++ [p];
           h_jobs := h_jobs hw ++ map JRejected (p_reactions pr) |}
  | None => hw
  end.

(** [p.then(r)]: queued at once when [p] is already settled *)
Definition then_ (p : nat) (r : reaction) (hw : world) : world :=
  if is_rejected p hw
  then {| h_world := h_world hw; h_rejected := h_rejected hw;
          h_jobs := h_jobs hw ++ [JRejected r] |}
  else lift (then_ p r) hw.

(** [motionValue.start(animation)] (index.mjs, lines 77-83).  What the
    animation throws is caught by the promise that [start] makes: the
    function [set] of [getAnimation] throws a [TypeError], after it has
    written the value, when [transition.onComplete] is truthy and no
    function; the promise is rejected then and no stop function is stored. *)
Definition mv_start (ext : Externals) (id : nat) (animation : Animation) (hw : world)
    : world * nat * value :=
  let w := mv_stop id (h_world hw) in
  let '(w, p) := new_promise 0 w in
  let onComplete := get_field (an_transition animation) "onComplete" in
  let '(hw, transition) :=
    if an_set animation && truthy onComplete && negb (is_function onComplete) then
      (reject_promise p
         (with_world (mv_set (an_value animation) (an_target animation) w) hw),
       an_transition animation)
    else
      let '(w, h, transition) := run_animation ext animation (Some (CbResolve p)) w in
      (with_world (update_value id (set_stopAnimation h) w) hw, transition) in
  let '(w, derived) := new_promise 0 (h_world hw) in
  let hw := then_ p (RClearAnimation id derived) (with_world w hw) in
  (hw, derived, transition).

(** [push(key, value, target, transition, onComplete)] (index.mjs, lines
    427-436).  With an inherited member in the place of the motion value,
    [motionValue.set], [value.get] and [motionValue.start] are no functions;
    with the transition [null], [getValueTransition] reads a property of
    [null]. *)
Definition push (ext : Externals) (key : string) (v : value) (transition : value)
    (onComplete : option callback) (hw : world) : world * completion value :=
  let from := member (VObj (w_properties (h_world hw))) key in
  let '(w, motionValue) := get key from (h_world hw) in
  let hw := with_world w hw in
  let transition := match transition with VUndef => VObj [] | _ => transition end in
  if truthy transition && truthy (get_field transition "immediate") then
    match motionValue with
    | EMotionValue id => (lift (mv_set id v) hw, Normal transition)
    | EInherited _ => (hw, Abrupt TypeError)
    end
  else
    match transition, motionValue with
    | VNull, _ => (hw, Abrupt TypeError)
    | _, EInherited _ => (hw, Abrupt TypeError)
    | _, EMotionValue id =>
        let animation := getAnimation ext key id v transition onComplete (h_world hw) in
        let '(hw, _, transition) := mv_start ext id animation hw in
        (hw, Normal transition)
    end.

(** One iteration of the [map] in [apply] (index.mjs, lines 457-463): the
    executor of the promise evaluates the transition and calls [push]; what
    either throws rejects the promise. *)
Definition apply_entry (ext : Externals)
    (acc : world * value * list (string * nat)) (kv : string * value)
    : world * value * list (string * nat) :=
  let '(hw, variant, ps) := acc in
  let '(key, v) := kv in
  if String.eqb key "transition" then acc
  else
    let '(w, p) := new_promise 0 (h_world hw) in
    let hw := with_world w hw in
    let shared := get_field variant "transition" in
    let transition :=
      if truthy shared then Normal shared
      else match getDefaultTransition ext key (member variant key) with
           | Normal t => Normal (VObj t)
           | Abrupt e => Abrupt e
           end in
    match transition with
    | Abrupt _ => (reject_promise p hw, variant, (ps ++ [(key, p)])%list)
    | Normal transition =>
        match push ext key v transition (Some (CbResolve p)) hw with
        | (hw, Abrupt _) => (reject_promise p hw, variant, (ps ++ [(key, p)])%list)
        | (hw, Normal transition') =>
            (hw,
             if truthy shared then set_field variant "transition" transition' else variant,
             (ps ++ [(key, p)])%list)
        end
    end.

(** [Promise.all(ps)]: every element gets the reaction that resolves its
    place or rejects the aggregate. *)
Definition Promise_all (ps : list nat) (hw : world) : world * nat :=
  let '(w, agg) := new_promise (length ps) (h_world hw) in
  let hw := fold_left (fun hw p => then_ p (RResolveElement agg p) hw) ps (with_world w hw) in
  (match ps with [] => lift (resolve_promise agg) hw | _ => hw end, agg).

(** [apply(variant)] (index.mjs, lines 454-464).  A named variant is an
    object of the variants table, when the table has it as a property of its
    own: what the engine call wrote into its transition stays there. *)
Definition apply (ext : Externals) (variant : value) (hw : world)
    : world * completion (nat * list (string * nat)) :=
  let resolved :=
    match variant with
    | VStr name => getVariantFromKey name (h_world hw)
    | _ => Normal variant
    end in
  let own :=
    match variant with
    | VStr name => obj_has (Object_entries (w_variants (h_world hw))) name
    | _ => false
    end in
  match resolved with
  | Abrupt e => (hw, Abrupt e)
  | Normal VUndef | Normal VNull => (hw, Abrupt TypeError)
  | Normal variantObject =>
      let '(hw, variantObject', ps) :=
        fold_left (apply_entry ext) (Object_entries variantObject) (hw, variantObject, []) in
      let hw := if own then lift (write_back variant variantObject') hw else hw in
      let '(hw, aggregate) := Promise_all (map snd ps) hw in
      (hw, Normal (aggregate, ps))
  end.

(** A reaction job.  For a rejected promise, the reaction of [Promise.all]
    rejects the aggregate, the [then] of [MotionValue.start] passes the
    rejection on to the promise it returned, and the [await] in [leave]
    throws, so that [done] is not called. *)
Definition run_job (j : job) (hw : world) : world :=
  match j with
  | JFulfilled (RResolveElement aggregate element) =>
      if is_rejected aggregate hw then lift (decrement_remaining aggregate) hw
      else lift (run_reaction (RResolveElement aggregate element)) hw
  | JFulfilled r => lift (run_reaction r) hw
  | JRejected (RResolveElement aggregate _) => reject_promise aggregate hw
  | JRejected (RClearAnimation _ derived) => reject_promise derived hw
  | JRejected (RCallDone _ _) => hw
  end.

Fixpoint drain_fuel (fuel : nat) (hw : world) : world :=
  match fuel with
  | O => hw
  | S fuel' =>
      match h_jobs hw with
      | [] => hw
      | j :: rest =>
          drain_fuel fuel'
            (run_job j {| h_world := h_world hw; h_rejected := h_rejected hw;
                          h_jobs := rest |})
      end
  end.

(** The microtask checkpoint at the end of a task: every job runs, those
    queued by the jobs included; there are no more of them than the
    reactions queued or registered. *)
Definition drain (hw : world) : world :=
  drain_fuel
    (length (h_jobs hw)
     + list_sum (map (fun pr => length (p_reactions pr)) (w_promises (h_world hw))))
    hw.

(** [destroyKey(key)] of [stop] (index.mjs, lines 108-114): an inherited
    member passes the test and has no [stop] to call. *)
Definition destroyKey (w : World) (key : string) : World * completion unit :=
  match table_get (w_registry w) key with
  | Some _ => (destroyKey w key, Normal tt)
  | None =>
      if truthy (Object_prototype_member key) then (w, Abrupt TypeError)
      else (w, Normal tt)
  end.

(** [keys.forEach(destroyKey)]: what [destroyKey] throws ends the loop. *)
Definition forEach_destroyKey (keys : list string) (w : World) : World * completion unit :=
  fold_left
    (fun '(w, c) key =>
       match c with
       | Normal _ => destroyKey w key
       | Abrupt _ => (w, c)
       end)
    keys (w, Normal tt).

(** [useMotionValues().stop(keys)] (index.mjs, lines 107-124) *)
Definition stop (keys : value) (w : World) : World * completion unit :=
  if truthy keys then
    match keys with
    | VArr l => forEach_destroyKey (map to_string l) w
    | _ => destroyKey w (to_string keys)
    end
  else forEach_destroyKey (map fst (w_registry w)) w.

(** [set(variant)] (index.mjs, lines 465-474): what [push] throws ends the
    loop over the entries. *)
Definition set (ext : Externals) (variant : value) (hw : world) : world * completion unit :=
  let variantData :=
    if isObject variant then Normal variant
    else getVariantFromKey (to_string variant) (h_world hw) in
  match variantData with
  | Abrupt e => (hw, Abrupt e)
  | Normal variantData =>
      fold_left
        (fun '(hw, c) kv =>
           match c with
           | Abrupt _ => (hw, c)
           | Normal _ =>
               if String.eqb (fst kv) "transition" then (hw, c)
               else
                 match push ext (fst kv) (snd kv) (VObj [("immediate", VBool true)]) None hw
                 with
                 | (hw, Normal _) => (hw, Normal tt)
                 | (hw, Abrupt e) => (hw, Abrupt e)
                 end
           end)
        (Object_entries variantData) (hw, Normal tt)
  end.

(** No promise is rejected, and no reaction of a rejected promise is
    queued. *)
Definition no_rejection (hw : world) : Prop :=
  h_rejected hw = [] /\ Forall (fun j => exists r, j = JFulfilled r) (h_jobs hw).

End Host.

(** What [push] does for [set]: [push] with the transition
    [{immediate: true}], as a function of the world. *)
Definition push_immediate (ext : Externals) (key : string) (v : value) (w : World) : World :=
  fst (push ext key v (VObj [("immediate", VBool true)]) None w).

(** The world [w] with the reactions [m] queued ahead of its own *)
Definition queue_before (m : list reaction) (w : World) : World :=
  set_microtasks (m ++ w_microtasks w) w.

(** * Properties *)

Local Arguments String.append !s1 s2 : simpl nomatch.

(** ** Conversions between numbers and strings *)

Example num_to_string_samples :
  map num_to_string
    [of_Z 10; of_Z (-3); fin (1 # 2); fin (1 # 100); fin (-5 # 4);
     of_Z (10 ^ 21); fin (1 # 10000000); fin (1 # 3); of_Z 1200] =
  ["10"; "-3"; "0.5"; "0.01"; "-1.25"; "1e+21"; "1e-7";
   "0.33333333333333333"; "1200"].
Proof. vm_compute. reflexivity. Qed.

Example parseFloat_samples :
  map parseFloat_string ["10px"; "  -2.5deg"; ".5"; "5."; "1e3x"; "1e"; "abc"; "Infinityx"; ""; "10,0,0"] =
  [of_Z 10; fin (-5 # 2); fin (1 # 2); of_Z 5; of_Z 1000; of_Z 1; NaN; Inf false; NaN; of_Z 10].
Proof. vm_compute. reflexivity. Qed.

Example Number_samples :
  map Number_string ["2"; " 0.5 "; "10px"; ""; "0x1F"; "1e"; "-Infinity"; "0"] =
  [of_Z 2; fin (1 # 2); NaN; of_Z 0; of_Z 31; NaN; Inf true; of_Z 0].
Proof. vm_compute. reflexivity. Qed.


(** ** MotionValue: velocity *)

Lemma Qzero_Qred (q : Q) : Qzero (Qred q) = Qzero q.
Proof.
  unfold Qzero.
  destruct (Z.eqb_spec (Qnum q) 0) as [Hq | Hq].
  - apply Z.eqb_eq.
    assert (H : (Qred q == 0)%Q) by (rewrite Qred_correct; unfold Qeq; simpl; lia).
    unfold Qeq in H; simpl in H. lia.
  - apply Z.eqb_neq. intros H.
    assert (H' : (q == 0)%Q).
    { transitivity (Qred q); [symmetry; apply Qred_correct |].
      unfold Qeq; simpl. lia. }
    unfold Qeq in H'; simpl in H'. lia.
Qed.

Lemma Qzero_sub_lt (t0 t1 : Q) : (t0 < t1)%Q -> Qzero (t1 + - t0) = false.
Proof.
  intros Hlt. unfold Qzero. apply Z.eqb_neq. intros H.
  assert (H' : (t1 + - t0 == 0)%Q) by (unfold Qeq; rewrite H; reflexivity).
  assert (t1 == t0)%Q by (rewrite <- (Qplus_0_r t0), <- H'; ring).
  rewrite H0 in Hlt. exact (Qlt_irrefl _ Hlt).
Qed.

Lemma Qzero_Qeq (p q : Q) : (p == q)%Q -> Qzero p = Qzero q.
Proof.
  intros H. rewrite <- (Qzero_Qred p), <- (Qzero_Qred q).
  rewrite (Qred_complete _ _ H). reflexivity.
Qed.

Lemma num_truthy_sub_lt (t0 t1 : Q) :
  (t0 < t1)%Q -> num_truthy (num_sub (Fin t1) (Fin t0)) = true.
Proof.
  intros Hlt. unfold num_sub, num_neg, num_add, fin, num_truthy.
  rewrite Qzero_Qred.
  rewrite (Qzero_Qeq _ (t1 + - t0)%Q) by (rewrite Qred_correct; reflexivity).
  rewrite (Qzero_sub_lt _ _ Hlt). reflexivity.
Qed.

Lemma num_eqb_Fin_trans (n : num) (t0 t1 : Q) :
  num_eqb n (Fin t0) = true -> (t0 < t1)%Q -> num_eqb n (Fin t1) = false.
Proof.
  destruct n as [| s | q]; simpl; try discriminate.
  intros H0 Hlt. apply Qeq_bool_iff in H0.
  apply not_true_is_false. intros H1. apply Qeq_bool_iff in H1.
  rewrite <- H0, H1 in Hlt. exact (Qlt_irrefl _ Hlt).
Qed.

Lemma updateAndNotify_lastUpdated (fd : FrameData) (v : value) (mv : MotionValue) (t : Q) :
  fd_timestamp fd = Fin t ->
  num_eqb (mv_lastUpdated (updateAndNotify fd v mv)) (Fin t) = true.
Proof.
  intros Hts. unfold updateAndNotify; simpl. rewrite Hts.
  destruct (num_eqb (mv_lastUpdated mv) (Fin t)) eqn:E; simpl.
  - exact E.
  - apply Qeq_bool_iff. reflexivity.
Qed.

(** Velocity checks leave the current value, the time delta and the time of
    the last update alone, and never switch velocity tracking off. *)
Lemma mv_run_checks (checks : list mv_event) (mv : MotionValue) :
  forallb is_check checks = true ->
  let mv' := mv_run checks mv in
  mv_current mv' = mv_current mv /\
  mv_timeDelta mv' = mv_timeDelta mv /\
  mv_lastUpdated mv' = mv_lastUpdated mv.
Proof.
  revert mv. induction checks as [| e checks IH]; intros mv Hall; simpl in *.
  - auto.
  - apply andb_true_iff in Hall as [He Hall].
    destruct e as [v fd | ts]; [discriminate |].
    destruct (IH (velocityCheck ts mv) Hall) as (Hc & Hd & Hl).
    simpl in *. auto.
Qed.

(** A value that has never been numeric is not tracked. *)
Lemma never_numeric_untracked (evs : list mv_event) (mv : MotionValue) :
  mv_canTrackVelocity mv = false ->
  isFloat (mv_current mv) = false ->
  forallb (fun e => negb (event_value_numeric e)) evs = true ->
  mv_canTrackVelocity (mv_run evs mv) = false.
Proof.
  revert mv. induction evs as [| e evs IH]; intros mv Htrack Hcur Hall; simpl in *.
  - exact Htrack.
  - apply andb_true_iff in Hall as [He Hall].
    apply IH; [| | exact Hall]; destruct e as [v fd | ts]; simpl in *.
    + exact Htrack.
    + rewrite Htrack. simpl. exact Hcur.
    + apply negb_true_iff in He. exact He.
    + exact Hcur.
Qed.

Section Velocity.

Variable ext : Externals.

  (** popmotion converts a per-frame difference to a per-second velocity:
      [frameDuration ? velocity * (1000 / frameDuration) : 0]. *)
Hypothesis velocityPerSecond_def : forall v d,
    velocityPerSecond ext v d =
    if num_truthy d then num_mul v (num_div (of_Z 1000) d) else Fin 0.

Lemma getVelocity_untracked (mv : MotionValue) :
    mv_canTrackVelocity mv = false -> getVelocity ext mv = Fin 0.
  Proof. unfold getVelocity. intros ->. reflexivity. Qed.

Lemma getVelocity_tracked (mv : MotionValue) :
    mv_canTrackVelocity mv = true ->
    getVelocity ext mv =
    if num_truthy (mv_timeDelta mv)
    then num_mul (num_sub (parseFloat (mv_current mv)) (parseFloat (mv_prev mv)))
                 (num_div (of_Z 1000) (mv_timeDelta mv))
    else Fin 0.
  Proof. unfold getVelocity. intros ->. apply velocityPerSecond_def. Qed.

Lemma getVelocity_new (init : value) :
    getVelocity ext (getMotionValue init) = Fin 0.
  Proof.
    unfold getVelocity; simpl. destruct (isFloat init); [| reflexivity].
    rewrite velocityPerSecond_def. reflexivity.
  Qed.

Lemma getVelocity_two_sets (mv : MotionValue) (a b t0 t1 : Q) (d0 : num)
      (checks : list mv_event) :
    (t0 < t1)%Q ->
    forallb is_check checks = true ->
    let fd0 := {| fd_delta := d0; fd_timestamp := Fin t0 |} in
    let fd1 := {| fd_delta := num_sub (Fin t1) (Fin t0); fd_timestamp := Fin t1 |} in
    let mv' := mv_run (MvSet (VNum (Fin a)) fd0 :: checks ++ [MvSet (VNum (Fin b)) fd1]) mv in
    mv_canTrackVelocity mv' = true ->
    getVelocity ext mv' =
    num_mul (num_sub (Fin b) (Fin a))
            (num_div (of_Z 1000) (num_sub (Fin t1) (Fin t0))).
  Proof.
    intros Hlt Hchecks fd0 fd1 mv' Htrack.
    rewrite (getVelocity_tracked _ Htrack).
    subst mv'. unfold mv_run in *. simpl fold_left in *.
    rewrite fold_left_app in *. simpl fold_left in *.
    set (mv1 := updateAndNotify fd0 (VNum (Fin a)) mv) in *.
    destruct (mv_run_checks checks mv1 Hchecks) as (Hc & Hd & Hl).
    unfold mv_run in *.
    set (mv2 := fold_left mv_step checks mv1) in *.
    assert (Hne : num_eqb (mv_lastUpdated mv2) (Fin t1) = false).
    { rewrite Hl. eapply num_eqb_Fin_trans; [| exact Hlt].
      apply updateAndNotify_lastUpdated. reflexivity. }
    cbn -[num_sub num_mul num_div num_truthy]. rewrite Hne, Hc.
    cbn -[num_sub num_mul num_div num_truthy].
    rewrite (num_truthy_sub_lt _ _ Hlt). reflexivity.
  Qed.

Lemma num_eqb_Fin_distinct (n : num) (t0 t1 : Q) :
    num_eqb n (Fin t0) = true -> Qeq_bool t0 t1 = false -> num_eqb n (Fin t1) = false.
  Proof.
    destruct n as [| s | q]; simpl; try discriminate.
    intros H0 Hne. apply Qeq_bool_iff in H0.
    apply not_true_is_false. intros H1. apply Qeq_bool_iff in H1.
    assert (H : Qeq_bool t0 t1 = true)
      by (apply Qeq_bool_iff; rewrite <- H0, H1; reflexivity).
    congruence.
  Qed.

(** Velocity checks on a numeric current value switch tracking on. *)
Lemma mv_run_checks_track (checks : list mv_event) (mv : MotionValue) :
    forallb is_check checks = true ->
    isFloat (mv_current mv) = true ->
    mv_canTrackVelocity (mv_run checks mv) =
    mv_canTrackVelocity mv || negb (Nat.eqb (length checks) 0).
  Proof.
    revert mv. induction checks as [| e checks IH]; intros mv Hall Hcur.
    - simpl. rewrite orb_false_r. reflexivity.
    - simpl in Hall. apply andb_true_iff in Hall as [He Hall].
      destruct e as [v fd | ts]; [discriminate |].
      change (mv_run (MvVelocityCheck ts :: checks) mv)
        with (mv_run checks (velocityCheck ts mv)).
      rewrite IH by (simpl; assumption).
      cbn [velocityCheck mv_canTrackVelocity length Nat.eqb negb]. rewrite Hcur.
      rewrite orb_true_r. destruct (mv_canTrackVelocity mv); reflexivity.
  Qed.

Lemma getVelocity_two_sets_delta (mv : MotionValue) (a b t0 t1 : Q) (d0 d1 : num)
      (checks : list mv_event) :
    Qeq_bool t0 t1 = false ->
    forallb is_check checks = true ->
    let fd0 := {| fd_delta := d0; fd_timestamp := Fin t0 |} in
    let fd1 := {| fd_delta := d1; fd_timestamp := Fin t1 |} in
    let mv' := mv_run (MvSet (VNum (Fin a)) fd0 :: checks ++ [MvSet (VNum (Fin b)) fd1]) mv in
    mv_canTrackVelocity mv' =
      mv_canTrackVelocity mv || negb (Nat.eqb (length checks) 0) /\
    mv_timeDelta mv' = d1 /\
    getVelocity ext mv' =
      if mv_canTrackVelocity mv || negb (Nat.eqb (length checks) 0)
      then (if num_truthy d1
            then num_mul (num_sub (Fin b) (Fin a)) (num_div (of_Z 1000) d1)
            else Fin 0)
      else Fin 0.
  Proof.
    intros Hne Hchecks fd0 fd1 mv'.
    subst mv'. unfold mv_run. simpl fold_left.
    rewrite fold_left_app. simpl fold_left.
    set (mv1 := updateAndNotify fd0 (VNum (Fin a)) mv).
    destruct (mv_run_checks checks mv1 Hchecks) as (Hc & Hd & Hl).
    pose proof (mv_run_checks_track checks mv1 Hchecks eq_refl) as Ht.
    unfold mv_run in *.
    set (mv2 := fold_left mv_step checks mv1) in *.
    assert (Hlu : num_eqb (mv_lastUpdated mv2) (Fin t1) = false).
    { rewrite Hl. eapply num_eqb_Fin_distinct; [| exact Hne].
      apply updateAndNotify_lastUpdated. reflexivity. }
    assert (Htrack : mv_canTrackVelocity (updateAndNotify fd1 (VNum (Fin b)) mv2) =
                     mv_canTrackVelocity mv || negb (Nat.eqb (length checks) 0)).
    { cbn [updateAndNotify mv_canTrackVelocity]. rewrite Ht. reflexivity. }
    assert (Hdelta : mv_timeDelta (updateAndNotify fd1 (VNum (Fin b)) mv2) = d1).
    { cbn [updateAndNotify mv_timeDelta fd1 fd_timestamp fd_delta]. rewrite Hlu. reflexivity. }
    split; [exact Htrack |]. split; [exact Hdelta |].
    unfold getVelocity. rewrite Htrack, Hdelta.
    destruct (mv_canTrackVelocity mv || negb (Nat.eqb (length checks) 0)); [| reflexivity].
    rewrite velocityPerSecond_def.
    cbn [updateAndNotify mv_current mv_prev]. rewrite Hc. reflexivity.
  Qed.

End Velocity.

(** Claim C9 (amended).  [getVelocity()] is 0 while [canTrackVelocity] is
    false.  Tracking is on from the start for an initial value that parses
    as a number; after that only a velocity check can switch it on, when it
    finds a current value that parses as a number, and nothing switches it
    off; [set] leaves it alone.  So a value that has never been numeric has
    velocity 0.  Once velocity is tracked it is
    [parseFloat(current) - parseFloat(previous)] converted to units per
    second by [velocityPerSecond] with the recorded time delta (multiplied by
    [1000 / timeDelta]; popmotion returns 0 for a zero time delta).  A newly
    created value has velocity 0.  After [set(a)] at timestamp [t0] and
    [set(b)] at another timestamp [t1], whatever velocity checks ran in
    between, the recorded time delta is the delta [d1] that the frame of the
    second [set] reports, and the value is tracked when it was before or a
    check ran in between: the velocity is then [(b - a) * (1000 / d1)], which
    is [(b - a) / (t1 - t0)] per second when that frame reports the elapsed
    [t1 - t0]; an untracked value still has velocity 0. *)
Theorem getVelocity_spec (ext : Externals) :
  (forall v d, velocityPerSecond ext v d =
     if num_truthy d then num_mul v (num_div (of_Z 1000) d) else Fin 0) ->
  (forall mv, mv_canTrackVelocity mv = false -> getVelocity ext mv = Fin 0) /\
  ((forall init, mv_canTrackVelocity (getMotionValue init) = isFloat init) /\
   (forall fd v mv,
      mv_canTrackVelocity (updateAndNotify fd v mv) = mv_canTrackVelocity mv) /\
   (forall ts mv,
      mv_canTrackVelocity (velocityCheck ts mv) =
      mv_canTrackVelocity mv || isFloat (mv_current mv)) /\
   (forall init evs,
      isFloat init = false ->
      forallb (fun e => negb (event_value_numeric e)) evs = true ->
      getVelocity ext (mv_run evs (getMotionValue init)) = Fin 0)) /\
  (forall mv, mv_canTrackVelocity mv = true ->
     getVelocity ext mv =
     velocityPerSecond ext
       (num_sub (parseFloat (mv_current mv)) (parseFloat (mv_prev mv)))
       (mv_timeDelta mv) /\
     (num_truthy (mv_timeDelta mv) = true ->
      getVelocity ext mv =
      num_mul (num_sub (parseFloat (mv_current mv)) (parseFloat (mv_prev mv)))
              (num_div (of_Z 1000) (mv_timeDelta mv)))) /\
  (forall init, getVelocity ext (getMotionValue init) = Fin 0) /\
  (forall mv a b t0 t1 d0 d1 checks,
     Qeq_bool t0 t1 = false ->
     forallb is_check checks = true ->
     let mv' :=
       mv_run (MvSet (VNum (Fin a)) {| fd_delta := d0; fd_timestamp := Fin t0 |}
               :: checks ++
               [MvSet (VNum (Fin b)) {| fd_delta := d1; fd_timestamp := Fin t1 |}])
              mv in
     mv_canTrackVelocity mv' =
       mv_canTrackVelocity mv || negb (Nat.eqb (length checks) 0) /\
     mv_timeDelta mv' = d1 /\
     getVelocity ext mv' =
       (if mv_canTrackVelocity mv'
        then (if num_truthy d1
              then num_mul (num_sub (Fin b) (Fin a)) (num_div (of_Z 1000) d1)
              else Fin 0)
        else Fin 0) /\
     (mv_canTrackVelocity mv' = true -> (t0 < t1)%Q -> d1 = num_sub (Fin t1) (Fin t0) ->
      getVelocity ext mv' =
      num_mul (num_sub (Fin b) (Fin a))
              (num_div (of_Z 1000) (num_sub (Fin t1) (Fin t0))))).
Proof.
  intros Hvps.
  split; [apply getVelocity_untracked |].
  split.
  { split; [reflexivity |]. split; [reflexivity |]. split.
    - intros ts mv. cbn [velocityCheck mv_canTrackVelocity].
      destruct (mv_canTrackVelocity mv); reflexivity.
    - intros init evs Hinit Hevs. apply getVelocity_untracked.
      apply never_numeric_untracked; simpl; auto. }
  split.
  { intros mv H. split.
    - unfold getVelocity. rewrite H. reflexivity.
    - intros Hd. rewrite (getVelocity_tracked ext Hvps mv H), Hd. reflexivity. }
  split; [apply getVelocity_new, Hvps |].
  intros mv a b t0 t1 d0 d1 checks Hne Hchecks mv'.
  destruct (getVelocity_two_sets_delta ext Hvps mv a b t0 t1 d0 d1 checks Hne Hchecks)
    as (Htrack & Hdelta & Hvel).
  fold mv' in Htrack, Hdelta, Hvel.
  split; [exact Htrack |]. split; [exact Hdelta |].
  split; [rewrite Htrack; exact Hvel |].
  intros Hon Hlt Hd1. rewrite Hvel, <- Htrack, Hon, Hd1.
  rewrite (num_truthy_sub_lt _ _ Hlt). reflexivity.
Qed.

Lemma getVelocity_spec_witness :
  getVelocity sample_externals
    (mv_run (MvSet (VNum (Fin 2)) {| fd_delta := Fin 16; fd_timestamp := Fin 16 |}
             :: [MvVelocityCheck (Fin 16)] ++
             [MvSet (VNum (Fin 10)) {| fd_delta := Fin 8; fd_timestamp := Fin 32 |}])
            (getMotionValue VUndef)) =
  num_mul (num_sub (Fin 10) (Fin 2)) (num_div (of_Z 1000) (Fin 8)) /\
  getVelocity sample_externals
    (mv_run [MvSet (VNum (Fin 2)) {| fd_delta := Fin 16; fd_timestamp := Fin 16 |};
             MvSet (VNum (Fin 10)) {| fd_delta := Fin 8; fd_timestamp := Fin 32 |}]
            (getMotionValue VUndef)) = Fin 0.
Proof.
  pose proof (proj2 (proj2 (proj2 (proj2
                (getVelocity_spec sample_externals (fun v d => eq_refl)))))) as H.
  split.
  - destruct (H (getMotionValue VUndef) 2%Q 10%Q 16%Q 32%Q (Fin 16) (Fin 8)
                [MvVelocityCheck (Fin 16)] eq_refl eq_refl) as (_ & _ & Hv & _).
    exact Hv.
  - destruct (H (getMotionValue VUndef) 2%Q 10%Q 16%Q 32%Q (Fin 16) (Fin 8)
                [] eq_refl eq_refl) as (_ & _ & Hv & _).
    exact Hv.
Defined.

(** Claim C9 does not hold as stated.  Two [set]s 100 ms apart in a frame
    that reports a delta of 40 ms give the velocity 100 per second, not the
    40 per second of [(b - a) / (t1 - t0)]; a value created from [undefined]
    has velocity 0 after two numeric [set]s, as no velocity check has run;
    and a value that was numeric has the velocity [NaN], not 0, once it is
    set to a string that is no number. *)
Lemma getVelocity_counterexample :
  getVelocity sample_externals
    (mv_run [MvSet (VInt 0) {| fd_delta := of_Z 16; fd_timestamp := of_Z 0 |};
             MvSet (VInt 4) {| fd_delta := of_Z 40; fd_timestamp := of_Z 100 |}]
            (getMotionValue (VInt 0))) = of_Z 100 /\
  num_mul (num_sub (of_Z 4) (of_Z 0))
          (num_div (of_Z 1000) (num_sub (of_Z 100) (of_Z 0))) = of_Z 40 /\
  getVelocity sample_externals
    (mv_run [MvSet (VInt 0) {| fd_delta := of_Z 16; fd_timestamp := of_Z 0 |};
             MvSet (VInt 25) {| fd_delta := of_Z 100; fd_timestamp := of_Z 100 |}]
            (getMotionValue VUndef)) = of_Z 0 /\
  num_mul (num_sub (of_Z 25) (of_Z 0))
          (num_div (of_Z 1000) (num_sub (of_Z 100) (of_Z 0))) = of_Z 250 /\
  getVelocity sample_externals
    (mv_run [MvSet (VStr "none") {| fd_delta := of_Z 16; fd_timestamp := of_Z 16 |}]
            (getMotionValue (VInt 0))) = NaN.
Proof. repeat split; vm_compute; reflexivity. Qed.

(** ** Default transitions *)

(** Claim C4.  Applying [{opacity: 1, scale: 1}], with no transition of its
    own, to a subject whose properties are [{opacity: 0, scale: 0}] starts
    two tweens.  Opacity gets the linear keyframes default of 300ms; scale
    gets the critically damped spring default, whose damping depends on
    whether the destination is exactly 0: here the destination is 1 and the
    damping is 30, not the to-zero value [2 * Math.sqrt(550)]. *)
Theorem apply_default_transitions (ext : Externals) :
  let w0 := init_world (VObj []) [("opacity", VInt 0); ("scale", VInt 0)] in
  let w1 := fst (apply ext (VObj [("opacity", VInt 1); ("scale", VInt 1)]) w0) in
  getDefaultTransition ext "opacity" (VInt 1) =
    [("to", VInt 1); ("type", VStr "keyframes"); ("ease", VStr "linear");
     ("duration", VInt 300)] /\
  getDefaultTransition ext "scale" (VInt 1) =
    [("to", VInt 1); ("type", VStr "spring"); ("stiffness", VInt 550);
     ("damping", VInt 30); ("restDelta", VQ (1 # 100)); ("restSpeed", VInt 10)] /\
  (forall to, option_field (getDefaultTransition ext "scale" to) "damping" =
     if is_array to then VUndef
     else if strict_eq to (VInt 0)
          then VNum (num_mul (of_Z 2) (Math_sqrt ext (of_Z 550)))
          else VInt 30) /\
  exists opacity scale,
    w_engine w1 = [opacity; scale] /\
    ea_inertia opacity = false /\ ea_status opacity = Running /\
    map (option_field (ea_options opacity)) ["from"; "to"; "type"; "ease"; "duration"] =
      [VInt 0; VInt 1; VStr "keyframes"; VFun "linear"; VInt 300] /\
    ea_inertia scale = false /\ ea_status scale = Running /\
    map (option_field (ea_options scale))
        ["from"; "to"; "type"; "stiffness"; "damping"; "restDelta"; "restSpeed"] =
      [VInt 0; VInt 1; VStr "spring"; VInt 550; VInt 30; VQ (1 # 100); VInt 10].
Proof.
  intros w0 w1. split; [reflexivity |]. split; [reflexivity |]. split.
  - intros to. unfold getDefaultTransition, isKeyframesTarget.
    destruct (is_array to) eqn:Harr; [reflexivity |].
    cbn. destruct (strict_eq to (VInt 0)); reflexivity.
  - subst w0 w1. vm_compute. do 2 eexists. repeat split.
Qed.

(** ** Variant lookup *)

Lemma get_field_absent (variants : value) (name : string) :
  variant_absent variants name -> get_field variants name = VUndef.
Proof.
  destruct variants; simpl; try reflexivity. intros ->. reflexivity.
Qed.

(** The members of [Object.prototype]: truthy under the inherited names,
    [undefined] under the others. *)
Lemma Object_prototype_member_ordinary (k : string) :
  inherited k = false -> Object_prototype_member k = VUndef.
Proof.
  intros H. unfold Object_prototype_member. rewrite H.
  destruct (String.eqb_spec k "__proto__") as [-> | _]; [discriminate |].
  destruct (String.eqb_spec k "constructor") as [-> | _]; [discriminate |].
  reflexivity.
Qed.

Lemma Object_prototype_member_inherited (k : string) :
  inherited k = true -> truthy (Object_prototype_member k) = true.
Proof.
  intros H. unfold Object_prototype_member. rewrite H.
  destruct (String.eqb k "__proto__"); [reflexivity |].
  destruct (String.eqb k "constructor"); reflexivity.
Qed.

(** On a plain object and a name that is not inherited, the host's lookup
    is the lookup of own properties. *)
Lemma member_ordinary (o : obj) (k : string) :
  inherited k = false -> member (VObj o) k = get_field (VObj o) k.
Proof.
  intros H. unfold member. cbn [Object_entries get_field].
  destruct (obj_get o k); [reflexivity |].
  rewrite (Object_prototype_member_ordinary k H). reflexivity.
Qed.

(** [apply] with a variant name that is not the name of a member of
    [Object.prototype], when the variants table is falsy or is a plain
    object without a truthy entry of that name, throws
    [Error("The variant <name> does not exist.")] to its caller before
    anything else happens: the world is as it was.  This holds of the lookup
    of own properties and of the lookup as the host performs it. *)
Theorem apply_unknown_variant_throws (ext : Externals) (w : World) (name : string) :
  variant_missing (w_variants w) name ->
  getVariantFromKey name w =
    Throw "Error" ("The variant " +:+ name +:+ " does not exist.") /\
  apply ext (VStr name) w =
    (w, Throw "Error" ("The variant " +:+ name +:+ " does not exist.")) /\
  Host.getVariantFromKey name w =
    Host.Abrupt (Host.Error ("The variant " +:+ name +:+ " does not exist.")) /\
  (forall hw, Host.h_world hw = w ->
     Host.apply ext (VStr name) hw =
       (hw, Host.Abrupt (Host.Error ("The variant " +:+ name +:+ " does not exist.")))).
Proof.
  intros Hmiss.
  assert (Hget : getVariantFromKey name w =
                 Throw "Error" ("The variant " +:+ name +:+ " does not exist.")).
  { unfold getVariantFromKey.
    destruct Hmiss as [Hf | (_ & table & Htable & Hentry)].
    - rewrite Hf. reflexivity.
    - rewrite Htable. cbn [get_field truthy negb orb].
      unfold option_field in Hentry. rewrite Hentry. reflexivity. }
  assert (Hhost : Host.getVariantFromKey name w =
                  Host.Abrupt (Host.Error ("The variant " +:+ name +:+ " does not exist."))).
  { unfold Host.getVariantFromKey.
    destruct Hmiss as [Hf | (Hord & table & Htable & Hentry)].
    - rewrite Hf. reflexivity.
    - rewrite Htable, (member_ordinary table name Hord). cbn [get_field truthy negb orb].
      unfold option_field in Hentry. rewrite Hentry. reflexivity. }
  split; [exact Hget |].
  split; [unfold apply, resolve_variant; rewrite Hget; reflexivity |].
  split; [exact Hhost |].
  intros hw <-. unfold Host.apply. rewrite Hhost. reflexivity.
Qed.

Lemma apply_unknown_variant_throws_witness :
  let w := init_world (VObj [("initial", VObj [("opacity", VInt 0)])]) [] in
  apply sample_externals (VStr "enter") w =
    (w, Throw "Error" "The variant enter does not exist.") /\
  Host.apply sample_externals (VStr "enter") (Host.init w) =
    (Host.init w, Host.Abrupt (Host.Error "The variant enter does not exist.")).
Proof.
  destruct (apply_unknown_variant_throws sample_externals
              (init_world (VObj [("initial", VObj [("opacity", VInt 0)])]) [])
              "enter") as (_ & Happly & _ & Hhost).
  - right. split; [reflexivity |]. eexists. split; reflexivity.
  - split; [exact Happly |].
    exact (Hhost (Host.init (init_world (VObj [("initial", VObj [("opacity", VInt 0)])]) []))
                 eq_refl).
Defined.

(** Claim C5 does not hold of the code.  [getVariantFromKey] tests
    [!_variants[variant]], and that lookup finds the members that the
    variants table inherits from [Object.prototype]: for a table that is a
    plain object with no entry of its own under such a name the test fails
    and the inherited member is returned as the variant.  The table
    [{initial: {opacity: 0}}] has no variant called [toString], and
    [apply("toString")] does not throw: it returns a promise, fulfilled at
    once, and animates nothing, writes nothing and registers nothing. *)
Theorem apply_inherited_variant_name_returns (ext : Externals) :
  (forall (w : World) (table : obj) (name : string),
     w_variants w = VObj table -> obj_get table name = None -> inherited name = true ->
     variant_absent (w_variants w) name /\
     Host.getVariantFromKey name w = Host.Normal (Object_prototype_member name)) /\
  let variants := VObj [("initial", VObj [("opacity", VInt 0)])] in
  let hw := Host.init (init_world variants [("opacity", VInt 1)]) in
  variant_absent variants "toString" /\
  Host.getVariantFromKey "toString" (Host.h_world hw) =
    Host.Normal (VFun "Object.prototype.toString") /\
  exists hw',
    Host.apply ext (VStr "toString") hw = (hw', Host.Normal (0%nat, [])) /\
    is_fulfilled 0 (Host.h_world hw') = true /\
    Host.h_rejected hw' = [] /\
    Host.h_jobs hw' = [] /\
    w_engine (Host.h_world hw') = [] /\
    w_registry (Host.h_world hw') = [] /\
    w_properties (Host.h_world hw') = [("opacity", VInt 1)].
Proof.
  split.
  - intros w table name Hv Hown Hin. rewrite Hv. split.
    + unfold variant_absent. cbn [get_field]. rewrite Hown. reflexivity.
    + unfold Host.getVariantFromKey, member. rewrite Hv. cbn [Object_entries truthy negb orb].
      rewrite Hown, (Object_prototype_member_inherited name Hin). reflexivity.
  - split; [reflexivity |]. split; [reflexivity |].
    eexists. split; [vm_compute; reflexivity |].
    repeat split.
Qed.

(** ** Property projection *)

Lemma string_app_assoc (a b c : string) : (a +:+ b) +:+ c = a +:+ (b +:+ c).
Proof. induction a as [| x a IH]; [reflexivity | cbn; f_equal; exact IH]. Qed.

Lemma string_app_nil_r (a : string) : a +:+ "" = a.
Proof. induction a as [| x a IH]; [reflexivity | cbn; f_equal; exact IH]. Qed.


Lemma reactiveTransform_loop (ext : Externals) (hardware : bool) (state : obj) (acc : string) :
  fold_left
    (fun result kv =>
       if hardware && is_xyz (fst kv) then result
       else result +:+ default (fst kv) (table_get translateAlias (fst kv)) +:+
              "(" +:+ to_string (getValueAsType ext (snd kv) (getValueType (fst kv))) +:+ ") ")
    state acc =
  acc +:+ concat_strings
            (map (transform_term ext)
                 (List.filter (fun kv => negb (hardware && is_xyz (fst kv))) state)).
Proof.
  revert acc. induction state as [| kv state IH]; intros acc.
  - simpl. rewrite string_app_nil_r. reflexivity.
  - cbn [fold_left List.filter]. rewrite IH.
    destruct (hardware && is_xyz (fst kv)); cbn [negb map]; [reflexivity |].
    cbn [concat_strings fold_right]. unfold transform_term.
    rewrite !string_app_assoc. reflexivity.
Qed.



(** Claim C7 at its failing inputs.  With hardware acceleration (the default
    of [reactiveTransform]) the state [{x: 10}] serializes to
    [translate3d(10px,0px,0px)], on which [stateFromTransform] throws a
    [TypeError]; and [{y: 5}] serializes to [translate3d(0px,5px,0px)], which
    reads back as [{x: 0, y: 0, z: 0}].  Without hardware acceleration the
    same states read back as they were. *)
Theorem translate3d_does_not_round_trip (ext : Externals) :
  reactiveTransform ext [("x", VInt 10)] true = "translate3d(10px,0px,0px)" /\
  stateFromTransform [] (reactiveTransform ext [("x", VInt 10)] true) =
    ([], Some ("TypeError", "value.forEach is not a function")) /\
  reactiveTransform ext [("y", VInt 5)] true = "translate3d(0px,5px,0px)" /\
  stateFromTransform [] (reactiveTransform ext [("y", VInt 5)] true) =
    ([("x", VInt 0); ("y", VInt 0); ("z", VInt 0)], None) /\
  stateFromTransform [] (reactiveTransform ext [("x", VInt 10)] false) =
    ([("x", VInt 10)], None) /\
  stateFromTransform [] (reactiveTransform ext [("y", VInt 5)] false) =
    ([("y", VInt 5)], None).
Proof. repeat split; vm_compute; reflexivity. Qed.

(** ** Promises: the effect of the primitive operations *)

Section PromiseEffects.

Implicit Types (w : World) (p q : nat) (r : reaction).

Lemma is_pending_lt p w : is_pending p w = true -> (p < length (w_promises w))%nat.
  Proof.
    unfold is_pending. destruct (w_promises w !! p) eqn:E; [| discriminate].
    intros _. eapply lookup_lt_Some; eauto.
  Qed.

Lemma is_pending_fulfilled p w : is_pending p w = true -> is_fulfilled p w = false.
  Proof.
    unfold is_pending, is_fulfilled. destruct (w_promises w !! p); [| discriminate].
    destruct (p_fulfilled _); [discriminate | reflexivity].
  Qed.

Lemma not_pending p w :
    is_pending p w = false ->
    (p < length (w_promises w))%nat -> is_fulfilled p w = true.
  Proof.
    unfold is_pending, is_fulfilled. intros H Hlt.
    destruct (lookup_lt_is_Some_2 _ _ Hlt) as [pr Hpr]. rewrite Hpr in *.
    destruct (p_fulfilled pr); [reflexivity | discriminate].
  Qed.

Lemma is_fulfilled_lt p w : is_fulfilled p w = true -> (p < length (w_promises w))%nat.
  Proof.
    unfold is_fulfilled. destruct (w_promises w !! p) eqn:E; [| discriminate].
    intros _. eapply lookup_lt_Some; eauto.
  Qed.

Lemma registered_pending r p w : (0 < registered r p w)%nat -> is_pending p w = true.
  Proof.
    unfold registered, is_pending. destruct (w_promises w !! p); [| lia].
    destruct (p_fulfilled _); [lia | reflexivity].
  Qed.


  (** *** [new Promise] *)

Lemma new_promise_length k w :
    length (w_promises (fst (new_promise k w))) = S (length (w_promises w)).
  Proof. simpl. rewrite length_app. simpl. lia. Qed.

Lemma new_promise_id k w : snd (new_promise k w) = length (w_promises w).
  Proof. reflexivity. Qed.

Lemma new_promise_lookup k w p :
    p <> length (w_promises w) ->
    w_promises (fst (new_promise k w)) !! p = w_promises w !! p.
  Proof.
    intros Hne. simpl.
    destruct (decide (p < length (w_promises w))%nat) as [Hlt | Hge].
    - apply lookup_app_l. exact Hlt.
    - rewrite !lookup_ge_None_2; [reflexivity | lia |].
      rewrite length_app. simpl. lia.
  Qed.

Lemma new_promise_lookup_new k w :
    w_promises (fst (new_promise k w)) !! length (w_promises w) =
    Some {| p_fulfilled := false; p_reactions := []; p_remaining := k |}.
  Proof. simpl. rewrite list_lookup_middle; reflexivity. Qed.

Lemma new_promise_registered k w r p :
    registered r p (fst (new_promise k w)) = registered r p w.
  Proof.
    unfold registered.
    destruct (decide (p = length (w_promises w))) as [-> | Hne].
    - rewrite new_promise_lookup_new, lookup_ge_None_2 by lia. reflexivity.
    - rewrite new_promise_lookup by exact Hne. reflexivity.
  Qed.

Lemma new_promise_fulfilled k w p :
    is_fulfilled p (fst (new_promise k w)) = is_fulfilled p w.
  Proof.
    unfold is_fulfilled.
    destruct (decide (p = length (w_promises w))) as [-> | Hne].
    - rewrite new_promise_lookup_new, lookup_ge_None_2 by lia. reflexivity.
    - rewrite new_promise_lookup by exact Hne. reflexivity.
  Qed.

Lemma new_promise_remaining k w p :
    p <> length (w_promises w) ->
    remaining p (fst (new_promise k w)) = remaining p w.
  Proof. intros Hne. unfold remaining. rewrite new_promise_lookup by exact Hne. reflexivity. Qed.

Lemma new_promise_remaining_new k w :
    remaining (length (w_promises w)) (fst (new_promise k w)) = k.
  Proof. unfold remaining. rewrite new_promise_lookup_new. reflexivity. Qed.

Lemma new_promise_pending_new k w :
    is_pending (length (w_promises w)) (fst (new_promise k w)) = true.
  Proof. unfold is_pending. rewrite new_promise_lookup_new. reflexivity. Qed.

  (** *** [then] *)

Lemma then_length p r w : length (w_promises (then_ p r w)) = length (w_promises w).
  Proof.
    unfold then_. destruct (w_promises w !! p) as [pr |]; [| reflexivity].
    destruct (p_fulfilled pr); simpl; [reflexivity | apply length_insert].
  Qed.

Lemma then_fulfilled p r w q : is_fulfilled q (then_ p r w) = is_fulfilled q w.
  Proof.
    unfold then_, is_fulfilled. destruct (w_promises w !! p) as [pr |] eqn:Hp; [| reflexivity].
    destruct (p_fulfilled pr) eqn:Hf; simpl; [reflexivity |].
    destruct (decide (q = p)) as [-> | Hne].
    - rewrite list_lookup_insert_eq by (eapply lookup_lt_Some; eauto).
      rewrite Hp. simpl. symmetry. exact Hf.
    - rewrite list_lookup_insert_ne by congruence. reflexivity.
  Qed.

Lemma then_pending p r w q : is_pending q (then_ p r w) = is_pending q w.
  Proof.
    unfold then_, is_pending. destruct (w_promises w !! p) as [pr |] eqn:Hp; [| reflexivity].
    destruct (p_fulfilled pr) eqn:Hf; simpl; [reflexivity |].
    destruct (decide (q = p)) as [-> | Hne].
    - rewrite list_lookup_insert_eq by (eapply lookup_lt_Some; eauto).
      rewrite Hp. simpl. rewrite Hf. reflexivity.
    - rewrite list_lookup_insert_ne by congruence. reflexivity.
  Qed.

Lemma then_remaining p r w q : remaining q (then_ p r w) = remaining q w.
  Proof.
    unfold then_, remaining. destruct (w_promises w !! p) as [pr |] eqn:Hp; [| reflexivity].
    destruct (p_fulfilled pr) eqn:Hf; simpl; [reflexivity |].
    destruct (decide (q = p)) as [-> | Hne].
    - rewrite list_lookup_insert_eq by (eapply lookup_lt_Some; eauto).
      rewrite Hp. reflexivity.
    - rewrite list_lookup_insert_ne by congruence. reflexivity.
  Qed.

Lemma count_occ_snoc (l : list reaction) (r r' : reaction) :
    count_occ reaction_eq_dec (l ++ [r]) r' =
    (count_occ reaction_eq_dec l r' + if decide (r' = r) then 1 else 0)%nat.
  Proof.
    rewrite count_occ_app. simpl.
    destruct (reaction_eq_dec r r') as [-> | Hne].
    - rewrite decide_True by reflexivity. reflexivity.
    - rewrite decide_False by congruence. reflexivity.
  Qed.

Lemma then_registered p r w r' q :
    registered r' q (then_ p r w) =
    (registered r' q w +
     if decide (q = p /\ r' = r /\ is_pending p w = true) then 1 else 0)%nat.
  Proof.
    unfold then_, registered, is_pending.
    destruct (w_promises w !! p) as [pr |] eqn:Hp.
    - destruct (p_fulfilled pr) eqn:Hf; simpl.
      + rewrite decide_False by (intros (_ & _ & H); discriminate). lia.
      + destruct (decide (q = p)) as [-> | Hne].
        * rewrite list_lookup_insert_eq by (eapply lookup_lt_Some; eauto).
          rewrite Hp, Hf. simpl. rewrite count_occ_snoc.
          destruct (decide (r' = r)) as [-> | Hr].
          -- rewrite decide_True by auto. reflexivity.
          -- rewrite decide_False by (intros (_ & H & _); congruence). reflexivity.
        * rewrite list_lookup_insert_ne by congruence.
          rewrite decide_False by (intros (H & _); congruence). lia.
    - rewrite decide_False by (intros (_ & _ & H); discriminate). lia.
  Qed.

Lemma then_queued p r w r' :
    queued r' (then_ p r w) =
    (queued r' w + if decide (r' = r /\ is_fulfilled p w = true) then 1 else 0)%nat.
  Proof.
    unfold then_, queued, is_fulfilled.
    destruct (w_promises w !! p) as [pr |] eqn:Hp.
    - destruct (p_fulfilled pr) eqn:Hf; simpl.
      + rewrite count_occ_snoc. destruct (decide (r' = r)) as [-> | Hr].
        * rewrite decide_True by auto. reflexivity.
        * rewrite decide_False by (intros (H & _); congruence). reflexivity.
      + rewrite decide_False by (intros (_ & H); discriminate). lia.
    - rewrite decide_False by (intros (_ & H); discriminate). lia.
  Qed.

Lemma then_engine p r w : w_engine (then_ p r w) = w_engine w.
  Proof.
    unfold then_. destruct (w_promises w !! p) as [pr |]; [| reflexivity].
    destruct (p_fulfilled pr); reflexivity.
  Qed.

Lemma then_log p r w : w_log (then_ p r w) = w_log w.
  Proof.
    unfold then_. destruct (w_promises w !! p) as [pr |]; [| reflexivity].
    destruct (p_fulfilled pr); reflexivity.
  Qed.

  (** *** [resolve] *)

Lemma resolve_not_pending p w : is_pending p w = false -> resolve_promise p w = w.
  Proof.
    unfold is_pending, resolve_promise. destruct (w_promises w !! p) as [pr |]; [| reflexivity].
    destruct (p_fulfilled pr); [reflexivity | discriminate].
  Qed.

Lemma resolve_length p w :
    length (w_promises (resolve_promise p w)) = length (w_promises w).
  Proof.
    unfold resolve_promise. destruct (w_promises w !! p) as [pr |]; [| reflexivity].
    destruct (p_fulfilled pr); simpl; [reflexivity | apply length_insert].
  Qed.

Lemma resolve_fulfilled p w q :
    is_fulfilled q (resolve_promise p w) =
    if decide (q = p /\ is_pending p w = true) then true else is_fulfilled q w.
  Proof.
    unfold resolve_promise, is_fulfilled, is_pending.
    destruct (w_promises w !! p) as [pr |] eqn:Hp.
    - destruct (p_fulfilled pr) eqn:Hf; simpl.
      + rewrite decide_False by (intros (_ & H); discriminate). reflexivity.
      + destruct (decide (q = p)) as [-> | Hne].
        * rewrite list_lookup_insert_eq by (eapply lookup_lt_Some; eauto).
          rewrite decide_True by auto. reflexivity.
        * rewrite list_lookup_insert_ne by congruence.
          rewrite decide_False by (intros (H & _); congruence). reflexivity.
    - rewrite decide_False by (intros (_ & H); discriminate). reflexivity.
  Qed.

Lemma resolve_fulfilled_self p w :
    (p < length (w_promises w))%nat -> is_fulfilled p (resolve_promise p w) = true.
  Proof.
    intros Hlt. rewrite resolve_fulfilled.
    destruct (is_pending p w) eqn:Hp.
    - rewrite decide_True by auto. reflexivity.
    - rewrite decide_False by (intros (_ & H); discriminate).
      apply not_pending; assumption.
  Qed.

Lemma resolve_registered p w r q :
    registered r q (resolve_promise p w) =
    if decide (q = p) then O else registered r q w.
  Proof.
    unfold resolve_promise, registered.
    destruct (w_promises w !! p) as [pr |] eqn:Hp.
    - destruct (p_fulfilled pr) eqn:Hf; simpl.
      + destruct (decide (q = p)) as [-> | Hne]; [| reflexivity].
        rewrite Hp, Hf. reflexivity.
      + destruct (decide (q = p)) as [-> | Hne].
        * rewrite list_lookup_insert_eq by (eapply lookup_lt_Some; eauto). reflexivity.
        * rewrite list_lookup_insert_ne by congruence. reflexivity.
    - destruct (decide (q = p)) as [-> | Hne]; [| reflexivity].
      rewrite Hp. reflexivity.
  Qed.

Lemma resolve_queued p w r :
    queued r (resolve_promise p w) = (queued r w + registered r p w)%nat.
  Proof.
    unfold resolve_promise, registered, queued.
    destruct (w_promises w !! p) as [pr |] eqn:Hp; [| lia].
    destruct (p_fulfilled pr) eqn:Hf; simpl; [lia |].
    apply count_occ_app.
  Qed.

Lemma resolve_remaining p w q : remaining q (resolve_promise p w) = remaining q w.
  Proof.
    unfold resolve_promise, remaining.
    destruct (w_promises w !! p) as [pr |] eqn:Hp; [| reflexivity].
    destruct (p_fulfilled pr) eqn:Hf; simpl; [reflexivity |].
    destruct (decide (q = p)) as [-> | Hne].
    - rewrite list_lookup_insert_eq by (eapply lookup_lt_Some; eauto).
      rewrite Hp. reflexivity.
    - rewrite list_lookup_insert_ne by congruence. reflexivity.
  Qed.

Lemma resolve_engine p w : w_engine (resolve_promise p w) = w_engine w.
  Proof.
    unfold resolve_promise. destruct (w_promises w !! p) as [pr |]; [| reflexivity].
    destruct (p_fulfilled pr); reflexivity.
  Qed.

Lemma resolve_log p w : w_log (resolve_promise p w) = w_log w.
  Proof.
    unfold resolve_promise. destruct (w_promises w !! p) as [pr |]; [| reflexivity].
    destruct (p_fulfilled pr); reflexivity.
  Qed.

  (** *** Waiting reactions *)

Lemma waiting_new_promise k w r : waiting r (fst (new_promise k w)) <-> waiting r w.
  Proof.
    unfold waiting. setoid_rewrite new_promise_registered. reflexivity.
  Qed.

Lemma waiting_then p r0 w r :
    waiting r (then_ p r0 w) -> waiting r w \/ r = r0.
  Proof.
    unfold waiting. rewrite then_queued. setoid_rewrite then_registered.
    intros [Hq | [q Hq]].
    - destruct (decide (r = r0 /\ _)) as [[-> _] | _]; [right; reflexivity |].
      left. left. lia.
    - destruct (decide (q = p /\ r = r0 /\ _)) as [(_ & -> & _) | _]; [right; reflexivity |].
      left. right. exists q. lia.
  Qed.

Lemma waiting_resolve p w r : waiting r (resolve_promise p w) <-> waiting r w.
  Proof.
    unfold waiting. rewrite resolve_queued. setoid_rewrite resolve_registered.
    split.
    - intros [Hq | [q Hq]].
      + destruct (decide (0 < queued r w)%nat); [left; assumption |].
        right. exists p. lia.
      + destruct (decide (q = p)); [lia |]. right. exists q. assumption.
    - intros [Hq | [q Hq]].
      + left. lia.
      + destruct (decide (q = p)) as [-> | Hne].
        * left. lia.
        * right. exists q. rewrite decide_False by assumption. assumption.
  Qed.

End PromiseEffects.

(** ** Invariants of the promise state *)

Section Preservation.

Implicit Types (w : World) (p q : nat) (r : reaction).

Lemma same_view_refl w : same_view w w.
  Proof. repeat split. Qed.

Lemma same_view_trans w1 w2 w3 : same_view w1 w2 -> same_view w2 w3 -> same_view w1 w3.
  Proof. intros (? & ? & ? & ?) (? & ? & ? & ?). repeat split; congruence. Qed.

Section SameView.
Variables w w' : World.
Hypothesis Hv : same_view w w'.

Lemma sv_registered r p : registered r p w' = registered r p w.
    Proof. destruct Hv as (Hp & _). unfold registered. rewrite Hp. reflexivity. Qed.

Lemma sv_queued r : queued r w' = queued r w.
    Proof. destruct Hv as (_ & Hm & _). unfold queued. rewrite Hm. reflexivity. Qed.

Lemma sv_fulfilled p : is_fulfilled p w' = is_fulfilled p w.
    Proof. destruct Hv as (Hp & _). unfold is_fulfilled. rewrite Hp. reflexivity. Qed.

Lemma sv_pending p : is_pending p w' = is_pending p w.
    Proof. destruct Hv as (Hp & _). unfold is_pending. rewrite Hp. reflexivity. Qed.

Lemma sv_remaining p : remaining p w' = remaining p w.
    Proof. destruct Hv as (Hp & _). unfold remaining. rewrite Hp. reflexivity. Qed.

Lemma sv_length : length (w_promises w') = length (w_promises w).
    Proof. destruct Hv as (Hp & _). rewrite Hp. reflexivity. Qed.

Lemma sv_done_count a d : done_count a d w' = done_count a d w.
    Proof. destruct Hv as (_ & _ & _ & Hd). unfold done_count. rewrite Hd. reflexivity. Qed.

Lemma sv_waiting r : waiting r w' <-> waiting r w.
    Proof. unfold waiting. rewrite sv_queued. setoid_rewrite sv_registered. reflexivity. Qed.

Lemma sv_engine_targets q : engine_targets q w' <-> engine_targets q w.
    Proof. destruct Hv as (_ & _ & He & _). unfold engine_targets. rewrite He. reflexivity. Qed.

Lemma sv_targeted q : targeted q w' <-> targeted q w.
    Proof.
      unfold targeted. rewrite sv_engine_targets.
      setoid_rewrite sv_waiting. reflexivity.
    Qed.

Lemma sv_wf : wf w -> wf w'.
    Proof.
      intros [H1 H2 H3 H4]. split.
      - intros r p. rewrite sv_registered, sv_length. apply H1.
      - intros r. rewrite sv_queued, sv_length. apply H2.
      - destruct Hv as (_ & _ & He & _). rewrite He, sv_length. apply H3.
      - destruct Hv as (_ & _ & _ & Hd). rewrite Hd, sv_length. apply H4.
    Qed.

Lemma sv_join_share a e : join_share a w' e = join_share a w e.
    Proof. unfold join_share. rewrite sv_registered, sv_queued. reflexivity. Qed.

Lemma sv_joins a ps : joins a ps w -> joins a ps w'.
    Proof.
      intros [H1 H2 H3 H4 H5 H6 H7 H8]. split.
      - rewrite sv_length. exact H1.
      - exact H2.
      - rewrite sv_remaining, H3. apply f_equal, map_ext. intros e.
        symmetry. apply sv_join_share.
      - intros e He. rewrite sv_fulfilled, sv_registered. apply H4, He.
      - rewrite sv_fulfilled, sv_remaining. exact H5.
      - intros e. rewrite sv_waiting. apply H6.
      - rewrite sv_engine_targets. exact H7.
      - intros mv. rewrite sv_waiting. apply H8.
    Qed.

Lemma sv_awaits a d : awaits a d w -> awaits a d w'.
    Proof.
      intros [H1 H2 H3]. split.
      - rewrite sv_length. exact H1.
      - rewrite sv_registered, sv_queued, sv_done_count. exact H2.
      - rewrite sv_fulfilled, sv_registered. exact H3.
    Qed.

Lemma sv_abandoned q : abandoned q w -> abandoned q w'.
    Proof.
      intros (H1 & H2 & H3). split; [| split].
      - rewrite sv_length. exact H1.
      - rewrite sv_fulfilled. exact H2.
      - rewrite sv_targeted. exact H3.
    Qed.
End SameView.

Lemma reaction_target_refs r q : reaction_target r = Some q -> q ∈ reaction_refs r.
  Proof. destruct r; simpl; intros [= <-]; constructor. Qed.

Lemma wf_registered_home w r q :
    wf w -> ~ at_home q r -> registered r q w = O.
  Proof.
    intros Hwf Hhome. destruct (registered r q w) eqn:E; [reflexivity |].
    destruct (wf_registered w Hwf r q) as [Hh _]; [lia | contradiction].
  Qed.

Lemma wf_not_waiting w r :
    wf w -> ~ Forall (fun q => (q < length (w_promises w))%nat) (reaction_refs r) ->
    ~ waiting r w.
  Proof.
    intros Hwf Hn [Hq | [p Hp]].
    - apply Hn, (wf_queued w Hwf), Hq.
    - apply Hn, (wf_registered w Hwf r p), Hp.
  Qed.

Lemma Forall_lt_mono (l : list nat) (n m : nat) :
    (n <= m)%nat -> Forall (fun q => (q < n)%nat) l -> Forall (fun q => (q < m)%nat) l.
  Proof. intros Hle H. eapply Forall_impl; [exact H |]. simpl. intros; lia. Qed.

  (** *** Well-formedness *)

Lemma wf_new_promise k w : wf w -> wf (fst (new_promise k w)).
  Proof.
    intros [H1 H2 H3 H4]. split.
    - intros r p. rewrite new_promise_registered, new_promise_length.
      intros H. destruct (H1 r p H) as [Ha Hb]. split; [exact Ha |].
      eapply Forall_lt_mono; [| exact Hb]. lia.
    - intros r H. rewrite new_promise_length.
      eapply Forall_lt_mono; [| exact (H2 r H)]. lia.
    - intros a ea q Ha Hq. rewrite new_promise_length.
      specialize (H3 a ea q Ha Hq). lia.
    - intros a d Ha. rewrite new_promise_length. specialize (H4 a d Ha). lia.
  Qed.

Lemma wf_then p r w :
    at_home p r ->
    Forall (fun q => (q < length (w_promises w))%nat) (reaction_refs r) ->
    wf w -> wf (then_ p r w).
  Proof.
    intros Hhome Hrefs [H1 H2 H3 H4]. split.
    - intros r' q. rewrite then_registered, then_length.
      destruct (decide (q = p /\ r' = r /\ _)) as [(-> & -> & _) | _].
      + intros _. split; assumption.
      + intros H. apply H1. lia.
    - intros r'. rewrite then_queued, then_length.
      destruct (decide (r' = r /\ _)) as [(-> & _) | _].
      + intros _. assumption.
      + intros H. apply H2. lia.
    - rewrite then_engine, then_length. exact H3.
    - unfold done_calls. rewrite then_log, then_length. exact H4.
  Qed.

Lemma wf_resolve p w : wf w -> wf (resolve_promise p w).
  Proof.
    intros [H1 H2 H3 H4]. split.
    - intros r q. rewrite resolve_registered, resolve_length.
      destruct (decide (q = p)); [lia |]. apply H1.
    - intros r. rewrite resolve_queued, resolve_length. intros H.
      destruct (decide (0 < queued r w)%nat) as [Hq | Hq].
      + apply H2, Hq.
      + apply (H1 r p). lia.
    - rewrite resolve_engine, resolve_length. exact H3.
    - unfold done_calls. rewrite resolve_log, resolve_length. exact H4.
  Qed.

Lemma wf_engine_add ea w :
    (forall q, CbResolve q ∈ ea_onComplete ea -> (q < length (w_promises w))%nat) ->
    wf w -> wf (fst (engine_add ea w)).
  Proof.
    intros Hea [H1 H2 H3 H4]. split; [exact H1 | exact H2 | | exact H4].
    simpl. intros a ea' q Ha Hq.
    apply lookup_app_Some in Ha as [Ha | [_ Ha]].
    - eapply H3; eauto.
    - apply list_lookup_singleton_Some in Ha as [_ <-]. apply Hea, Hq.
  Qed.

Lemma wf_engine_halt a ea s w :
    w_engine w !! a = Some ea ->
    wf w -> wf (set_engine (<[a := set_status s ea]> (w_engine w)) w).
  Proof.
    intros Ha [H1 H2 H3 H4]. split; [exact H1 | exact H2 | | exact H4].
    simpl. intros a' ea' q Ha' Hq.
    destruct (decide (a' = a)) as [-> | Hne].
    - rewrite list_lookup_insert_eq in Ha' by (eapply lookup_lt_Some; eauto).
      injection Ha' as <-. eapply H3; eauto.
    - rewrite list_lookup_insert_ne in Ha' by congruence. eapply H3; eauto.
  Qed.

Lemma step_length n0 R0 w w' :
    step n0 R0 w w' -> (length (w_promises w) <= length (w_promises w'))%nat.
  Proof.
    intros H. destruct H as [w' Hp _ _ _ | k | p r _ _ _ | p _ | ea _ | a ea s _ _]; simpl.
    - rewrite Hp. lia.
    - rewrite length_app. lia.
    - rewrite then_length. lia.
    - rewrite resolve_length. lia.
    - lia.
    - lia.
  Qed.

Lemma step_wf n0 R0 w w' : step n0 R0 w w' -> wf w -> wf w'.
  Proof.
    intros H Hwf.
    destruct H as [w' Hp Hm He Hd | k | p r _ Hh Hr | p _ | ea Hea | a ea s Ha _].
    - apply (sv_wf w); [repeat split; assumption | assumption].
    - apply wf_new_promise, Hwf.
    - apply wf_then; [exact Hh | | exact Hwf].
      eapply Forall_impl; [exact Hr |]. simpl. intros; lia.
    - apply wf_resolve, Hwf.
    - apply wf_engine_add; [| exact Hwf]. intros q Hq. specialize (Hea q Hq). lia.
    - eapply wf_engine_halt; eauto.
  Qed.

Lemma wf_init_world variants properties : wf (init_world variants properties).
  Proof.
    split.
    - intros r p. unfold registered. simpl. lia.
    - intros r. unfold queued. simpl. lia.
    - intros a ea q H. simpl in H. discriminate.
    - intros a d H. unfold done_calls in H. simpl in H. inversion H.
  Qed.

End Preservation.

Section PreservationPrimitives.

Implicit Types (w : World) (p q : nat) (r : reaction).

Lemma engine_targets_add ea w q :
    engine_targets q (fst (engine_add ea w)) ->
    engine_targets q w \/ CbResolve q ∈ ea_onComplete ea.
  Proof.
    intros (a & ea' & Ha & Hrun & Hq). simpl in Ha.
    apply lookup_app_Some in Ha as [Ha | [_ Ha]].
    - left. exists a, ea'. auto.
    - apply list_lookup_singleton_Some in Ha as [_ <-]. right. exact Hq.
  Qed.

Lemma engine_targets_halt a ea s w q :
    w_engine w !! a = Some ea -> s <> Running ->
    engine_targets q (set_engine (<[a := set_status s ea]> (w_engine w)) w) ->
    engine_targets q w.
  Proof.
    intros Ha Hs (a' & ea' & Ha' & Hrun & Hq). simpl in Ha'.
    destruct (decide (a' = a)) as [-> | Hne].
    - rewrite list_lookup_insert_eq in Ha' by (eapply lookup_lt_Some; eauto).
      injection Ha' as <-. unfold is_running in Hrun. simpl in Hrun.
      destruct s; congruence.
    - rewrite list_lookup_insert_ne in Ha' by congruence.
      exists a', ea'. auto.
  Qed.

  (** *** [joins] *)

Lemma joins_new_promise k w a ps : joins a ps w -> joins a ps (fst (new_promise k w)).
  Proof.
    intros [H1 H2 H3 H4 H5 H6 H7 H8]. split.
    - rewrite new_promise_length. lia.
    - exact H2.
    - rewrite new_promise_remaining by lia. rewrite H3.
      apply f_equal, map_ext. intros e. unfold join_share.
      rewrite new_promise_registered. reflexivity.
    - intros e He. rewrite new_promise_fulfilled, new_promise_registered. apply H4, He.
    - rewrite new_promise_fulfilled, new_promise_remaining by lia. exact H5.
    - intros e. rewrite waiting_new_promise. apply H6.
    - exact H7.
    - intros mv. rewrite waiting_new_promise. apply H8.
  Qed.

Lemma joins_then p r w a ps :
    a ∉ reaction_refs r -> joins a ps w -> joins a ps (then_ p r w).
  Proof.
    intros Hr [H1 H2 H3 H4 H5 H6 H7 H8].
    assert (Hne : forall e, RResolveElement a e <> r).
    { intros e <-. apply Hr. simpl. constructor. }
    assert (Hreg : forall e q, registered (RResolveElement a e) q (then_ p r w) =
                               registered (RResolveElement a e) q w).
    { intros e q. rewrite then_registered.
      rewrite decide_False; [lia |]. intros (_ & H & _). exact (Hne e H). }
    assert (Hque : forall e, queued (RResolveElement a e) (then_ p r w) =
                             queued (RResolveElement a e) w).
    { intros e. rewrite then_queued.
      rewrite decide_False; [lia |]. intros (H & _). exact (Hne e H). }
    split.
    - rewrite then_length. exact H1.
    - exact H2.
    - rewrite then_remaining, H3. apply f_equal, map_ext. intros e.
      unfold join_share. rewrite Hreg, Hque. reflexivity.
    - intros e He. rewrite then_fulfilled, Hreg. apply H4, He.
    - rewrite then_fulfilled, then_remaining. exact H5.
    - intros e Hw. apply waiting_then in Hw as [Hw | Hw]; [apply H6, Hw |].
      exfalso. exact (Hne e Hw).
    - unfold engine_targets. rewrite then_engine. exact H7.
    - intros mv Hw. apply waiting_then in Hw as [Hw | Hw]; [exact (H8 mv Hw) |].
      apply Hr. rewrite <- Hw. simpl. constructor.
  Qed.

Lemma join_share_resolve p w a e :
    wf w -> join_share a (resolve_promise p w) e = join_share a w e.
  Proof.
    intros Hwf. unfold join_share. rewrite resolve_registered, resolve_queued.
    destruct (decide (e = p)) as [-> | Hne]; [lia |].
    rewrite (wf_registered_home w _ p Hwf); [lia |]. simpl. congruence.
  Qed.

Lemma joins_resolve p w a ps :
    wf w -> p <> a -> joins a ps w -> joins a ps (resolve_promise p w).
  Proof.
    intros Hwf Hpa [H1 H2 H3 H4 H5 H6 H7 H8]. split.
    - rewrite resolve_length. exact H1.
    - exact H2.
    - rewrite resolve_remaining, H3. apply f_equal, map_ext. intros e.
      symmetry. apply join_share_resolve, Hwf.
    - intros e He. rewrite resolve_fulfilled, resolve_registered.
      destruct (decide (e = p /\ _)) as [_ | Hn]; [discriminate |].
      intros Hf. specialize (H4 e He Hf).
      destruct (decide (e = p)) as [-> | Hne]; [| exact H4].
      exfalso. apply Hn. split; [reflexivity |].
      apply (registered_pending (RResolveElement a p)). lia.
    - rewrite resolve_fulfilled, resolve_remaining.
      rewrite decide_False by (intros (H & _); congruence). exact H5.
    - intros e. rewrite waiting_resolve. apply H6.
    - unfold engine_targets. rewrite resolve_engine. exact H7.
    - intros mv. rewrite waiting_resolve. apply H8.
  Qed.

Lemma joins_engine_add ea w a ps :
    CbResolve a ∉ ea_onComplete ea -> joins a ps w -> joins a ps (fst (engine_add ea w)).
  Proof.
    intros Hea Hj.
    destruct Hj as [H1 H2 H3 H4 H5 H6 H7 H8]. split; try assumption.
    intros Ht. apply engine_targets_add in Ht as [Ht | Ht]; contradiction.
  Qed.

Lemma joins_engine_halt a0 ea s w a ps :
    w_engine w !! a0 = Some ea -> s <> Running -> joins a ps w ->
    joins a ps (set_engine (<[a0 := set_status s ea]> (w_engine w)) w).
  Proof.
    intros Ha Hs [H1 H2 H3 H4 H5 H6 H7 H8]. split; try assumption.
    intros Ht. apply H7. eapply engine_targets_halt; eauto.
  Qed.

  (** *** [awaits] *)

Lemma awaits_new_promise k w a d : awaits a d w -> awaits a d (fst (new_promise k w)).
  Proof.
    intros [H1 H2 H3]. split.
    - rewrite new_promise_length. lia.
    - rewrite new_promise_registered. exact H2.
    - rewrite new_promise_fulfilled, new_promise_registered. exact H3.
  Qed.

Lemma awaits_then p r w a d :
    a ∉ reaction_refs r -> awaits a d w -> awaits a d (then_ p r w).
  Proof.
    intros Hr [H1 H2 H3].
    assert (Hne : RCallDone a d <> r).
    { intros <-. apply Hr. simpl. constructor. }
    assert (Hreg : registered (RCallDone a d) a (then_ p r w) = registered (RCallDone a d) a w).
    { rewrite then_registered. rewrite decide_False; [lia |]. intros (_ & H & _). auto. }
    assert (Hque : queued (RCallDone a d) (then_ p r w) = queued (RCallDone a d) w).
    { rewrite then_queued. rewrite decide_False; [lia |]. intros (H & _). auto. }
    split.
    - rewrite then_length. exact H1.
    - rewrite Hreg, Hque. unfold done_count, done_calls. rewrite then_log. exact H2.
    - rewrite then_fulfilled, Hreg. exact H3.
  Qed.

Lemma awaits_resolve p w a d : wf w -> awaits a d w -> awaits a d (resolve_promise p w).
  Proof.
    intros Hwf [H1 H2 H3]. split.
    - rewrite resolve_length. exact H1.
    - rewrite resolve_registered, resolve_queued.
      unfold done_count, done_calls. rewrite resolve_log.
      fold (done_calls w). fold (done_count a d w).
      destruct (decide (a = p)) as [-> | Hne]; [lia |].
      rewrite (wf_registered_home w _ p Hwf); [lia |]. simpl. congruence.
    - rewrite resolve_fulfilled, resolve_registered.
      destruct (decide (a = p /\ _)) as [_ | Hn]; [discriminate |].
      intros Hf. specialize (H3 Hf).
      destruct (decide (a = p)) as [-> | Hne]; [| exact H3].
      exfalso. apply Hn. split; [reflexivity |].
      apply (registered_pending (RCallDone p d)). lia.
  Qed.

  (** *** [abandoned] *)

Lemma abandoned_new_promise k w q : abandoned q w -> abandoned q (fst (new_promise k w)).
  Proof.
    intros (H1 & H2 & H3). split; [| split].
    - rewrite new_promise_length. lia.
    - rewrite new_promise_fulfilled. exact H2.
    - intros [Ht | (r & Hr & Hw)]; apply H3.
      + left. exact Ht.
      + right. exists r. split; [exact Hr |]. apply waiting_new_promise in Hw. exact Hw.
  Qed.

Lemma abandoned_then_target p r w q :
    reaction_target r <> Some q -> abandoned q w -> abandoned q (then_ p r w).
  Proof.
    intros Hr (H1 & H2 & H3). split; [| split].
    - rewrite then_length. exact H1.
    - rewrite then_fulfilled. exact H2.
    - intros [Ht | (r' & Hr' & Hw)].
      + apply H3. left. unfold engine_targets in *. rewrite then_engine in Ht. exact Ht.
      + apply waiting_then in Hw as [Hw | ->].
        * apply H3. right. exists r'. auto.
        * contradiction.
  Qed.

Lemma abandoned_then p r w q :
    q ∉ reaction_refs r -> abandoned q w -> abandoned q (then_ p r w).
  Proof.
    intros Hr. apply abandoned_then_target. intros Ht.
    apply Hr, reaction_target_refs, Ht.
  Qed.

Lemma abandoned_resolve p w q :
    p <> q -> abandoned q w -> abandoned q (resolve_promise p w).
  Proof.
    intros Hpq (H1 & H2 & H3). split; [| split].
    - rewrite resolve_length. exact H1.
    - rewrite resolve_fulfilled.
      rewrite decide_False by (intros (H & _); congruence). exact H2.
    - intros [Ht | (r' & Hr' & Hw)]; apply H3.
      + left. unfold engine_targets in *. rewrite resolve_engine in Ht. exact Ht.
      + right. exists r'. split; [exact Hr' |]. apply waiting_resolve in Hw. exact Hw.
  Qed.

Lemma abandoned_engine_add ea w q :
    CbResolve q ∉ ea_onComplete ea -> abandoned q w -> abandoned q (fst (engine_add ea w)).
  Proof.
    intros Hea (H1 & H2 & H3). split; [| split]; [exact H1 | exact H2 |].
    intros [Ht | Hw]; apply H3.
    - apply engine_targets_add in Ht as [Ht | Ht]; [left; exact Ht | contradiction].
    - right. exact Hw.
  Qed.

Lemma abandoned_engine_halt a ea s w q :
    w_engine w !! a = Some ea -> s <> Running -> abandoned q w ->
    abandoned q (set_engine (<[a := set_status s ea]> (w_engine w)) w).
  Proof.
    intros Ha Hs (H1 & H2 & H3). split; [| split]; [exact H1 | exact H2 |].
    intros [Ht | Hw]; apply H3.
    - left. eapply engine_targets_halt; eauto.
    - right. exact Hw.
  Qed.

End PreservationPrimitives.

Section PreservationSteps.

Implicit Types (w : World) (p q : nat) (r : reaction).

Lemma fresh_not_ref (n0 n a : nat) (l : list nat) :
    (a < n0)%nat -> Forall (fun q => (n0 <= q < n)%nat) l -> a ∉ l.
  Proof.
    intros Ha Hl Hin. rewrite Forall_forall in Hl. specialize (Hl a Hin). lia.
  Qed.

Lemma step_joins n0 R0 w w' a ps :
    step n0 R0 w w' -> wf w -> (a < n0)%nat -> ~ R0 a ->
    joins a ps w -> joins a ps w'.
  Proof.
    intros H Hwf Ha HR Hj.
    destruct H as [w' Hp Hm He Hd | k | p r Hp Hh Hr | p Hp | ea Hea | a0 ea s Ha0 Hs].
    - apply (sv_joins w); [repeat split; assumption | assumption].
    - apply joins_new_promise, Hj.
    - apply joins_then; [| exact Hj]. eapply fresh_not_ref; eauto.
    - apply joins_resolve; [exact Hwf | | exact Hj].
      intros ->. destruct Hp; [lia | contradiction].
    - apply joins_engine_add; [| exact Hj]. intros Hin. specialize (Hea a Hin). lia.
    - eapply joins_engine_halt; eauto.
  Qed.

Lemma step_awaits n0 R0 w w' a d :
    step n0 R0 w w' -> wf w -> (a < n0)%nat -> awaits a d w -> awaits a d w'.
  Proof.
    intros H Hwf Ha Hj.
    destruct H as [w' Hp Hm He Hd | k | p r Hp Hh Hr | p Hp | ea Hea | a0 ea s Ha0 Hs].
    - apply (sv_awaits w); [repeat split; assumption | assumption].
    - apply awaits_new_promise, Hj.
    - apply awaits_then; [| exact Hj]. eapply fresh_not_ref; eauto.
    - apply awaits_resolve; assumption.
    - destruct Hj as [H1 H2 H3]. split; assumption.
    - destruct Hj as [H1 H2 H3]. split; assumption.
  Qed.

Lemma step_abandoned n0 R0 w w' q :
    step n0 R0 w w' -> (q < n0)%nat -> ~ R0 q -> abandoned q w -> abandoned q w'.
  Proof.
    intros H Hq HR Hj.
    destruct H as [w' Hp Hm He Hd | k | p r Hp Hh Hr | p Hp | ea Hea | a0 ea s Ha0 Hs].
    - apply (sv_abandoned w); [repeat split; assumption | assumption].
    - apply abandoned_new_promise, Hj.
    - apply abandoned_then; [| exact Hj]. eapply fresh_not_ref; eauto.
    - apply abandoned_resolve; [| exact Hj].
      intros ->. destruct Hp; [lia | contradiction].
    - apply abandoned_engine_add; [| exact Hj]. intros Hin. specialize (Hea q Hin). lia.
    - eapply abandoned_engine_halt; eauto.
  Qed.

  (** Everything the synchronous code does keeps the world well formed and
      leaves the older aggregates, continuations and abandoned promises as
      they were. *)
Lemma steps_preserve n0 R0 w w' :
    steps n0 R0 w w' -> wf w ->
    wf w' /\
    (length (w_promises w) <= length (w_promises w'))%nat /\
    (forall a ps, (a < n0)%nat -> ~ R0 a -> joins a ps w -> joins a ps w') /\
    (forall a d, (a < n0)%nat -> awaits a d w -> awaits a d w') /\
    (forall q, (q < n0)%nat -> ~ R0 q -> abandoned q w -> abandoned q w').
  Proof.
    induction 1 as [w | w w1 w2 Hstep Hsteps IH]; intros Hwf.
    - split; [exact Hwf |]. split; [lia |]. split; [| split]; auto.
    - destruct (IH (step_wf _ _ _ _ Hstep Hwf)) as (Hwf2 & Hlen & Hj & Ha & Hb).
      split; [exact Hwf2 |]. split.
      { pose proof (step_length _ _ _ _ Hstep). lia. }
      split; [| split].
      + intros a ps Hlt HR Hjoin. apply Hj; try assumption.
        eapply step_joins; eauto.
      + intros a d Hlt Haw. apply Ha; try assumption.
        eapply step_awaits; eauto.
      + intros q Hlt HR Hab. apply Hb; try assumption.
        eapply step_abandoned; eauto.
  Qed.

End PreservationSteps.

(** ** Microtasks *)

Section Microtasks.

Implicit Types (w : World) (p q : nat) (r : reaction).

Lemma queued_pop w r0 rest r :
    w_microtasks w = r0 :: rest ->
    queued r w = ((if decide (r = r0) then 1 else 0) + queued r (set_microtasks rest w))%nat.
  Proof.
    intros Hm. unfold queued. rewrite Hm. simpl.
    destruct (reaction_eq_dec r0 r) as [-> | Hne].
    - rewrite decide_True by reflexivity. reflexivity.
    - rewrite decide_False by congruence. reflexivity.
  Qed.

Lemma waiting_pop w r0 rest r :
    w_microtasks w = r0 :: rest -> waiting r (set_microtasks rest w) -> waiting r w.
  Proof.
    intros Hm [Hq | Hr]; [left | right; exact Hr].
    rewrite (queued_pop w r0 rest r Hm). lia.
  Qed.

Lemma wf_pop w r0 rest :
    w_microtasks w = r0 :: rest -> wf w -> wf (set_microtasks rest w).
  Proof.
    intros Hm [H1 H2 H3 H4]. split; [exact H1 | | exact H3 | exact H4].
    intros r Hr. apply (H2 r). rewrite (queued_pop w r0 rest r Hm). lia.
  Qed.

  (** *** Counting down *)

Lemma decrement_lookup a w q :
    w_promises (decrement_remaining a w) !! q =
    match w_promises w !! q with
    | Some pr => Some (if decide (q = a) then set_remaining (Nat.pred (p_remaining pr)) pr else pr)
    | None => None
    end.
  Proof.
    unfold decrement_remaining. destruct (w_promises w !! a) as [pr |] eqn:Ha.
    - simpl. destruct (decide (q = a)) as [-> | Hne].
      + rewrite list_lookup_insert_eq by (eapply lookup_lt_Some; eauto).
        rewrite Ha. reflexivity.
      + rewrite list_lookup_insert_ne by congruence.
        destruct (w_promises w !! q); reflexivity.
    - destruct (w_promises w !! q) eqn:Hq; [| reflexivity].
      rewrite decide_False; [reflexivity |]. intros ->. congruence.
  Qed.

Lemma decrement_registered a w r q :
    registered r q (decrement_remaining a w) = registered r q w.
  Proof.
    unfold registered. rewrite decrement_lookup.
    destruct (w_promises w !! q); [| reflexivity]. destruct (decide (q = a)); reflexivity.
  Qed.

Lemma decrement_fulfilled a w q :
    is_fulfilled q (decrement_remaining a w) = is_fulfilled q w.
  Proof.
    unfold is_fulfilled. rewrite decrement_lookup.
    destruct (w_promises w !! q); [| reflexivity]. destruct (decide (q = a)); reflexivity.
  Qed.

Lemma decrement_remaining_eq a w q :
    remaining q (decrement_remaining a w) =
    if decide (q = a) then Nat.pred (remaining a w) else remaining q w.
  Proof.
    unfold remaining. rewrite decrement_lookup.
    destruct (decide (q = a)) as [-> | Hne].
    - destruct (w_promises w !! a); reflexivity.
    - destruct (w_promises w !! q); reflexivity.
  Qed.

Lemma decrement_length a w :
    length (w_promises (decrement_remaining a w)) = length (w_promises w).
  Proof.
    unfold decrement_remaining. destruct (w_promises w !! a); [| reflexivity].
    simpl. apply length_insert.
  Qed.

Lemma decrement_microtasks a w :
    w_microtasks (decrement_remaining a w) = w_microtasks w.
  Proof. unfold decrement_remaining. destruct (w_promises w !! a); reflexivity. Qed.

Lemma decrement_engine a w : w_engine (decrement_remaining a w) = w_engine w.
  Proof. unfold decrement_remaining. destruct (w_promises w !! a); reflexivity. Qed.

Lemma decrement_log a w : w_log (decrement_remaining a w) = w_log w.
  Proof. unfold decrement_remaining. destruct (w_promises w !! a); reflexivity. Qed.

Lemma decrement_queued a w r : queued r (decrement_remaining a w) = queued r w.
  Proof. unfold queued. rewrite decrement_microtasks. reflexivity. Qed.

Lemma decrement_waiting a w r : waiting r (decrement_remaining a w) <-> waiting r w.
  Proof.
    unfold waiting. rewrite decrement_queued. setoid_rewrite decrement_registered.
    reflexivity.
  Qed.

Lemma wf_decrement a w : wf w -> wf (decrement_remaining a w).
  Proof.
    intros [H1 H2 H3 H4]. split.
    - intros r p. rewrite decrement_registered, decrement_length. apply H1.
    - intros r. rewrite decrement_queued, decrement_length. apply H2.
    - rewrite decrement_engine, decrement_length. exact H3.
    - unfold done_calls. rewrite decrement_log, decrement_length. exact H4.
  Qed.

  (** *** Well-formedness *)

Lemma wf_update_value id f w : wf w -> wf (update_value id f w).
  Proof. apply sv_wf. repeat split. Qed.

Lemma wf_log_done a d w :
    (a < length (w_promises w))%nat -> wf w ->
    wf (set_log (w_log w ++ [LogDone a d]) w).
  Proof.
    intros Ha [H1 H2 H3 H4]. split; [exact H1 | exact H2 | exact H3 |].
    intros a' d'. unfold done_calls. simpl. rewrite omap_app. simpl.
    rewrite elem_of_app. intros [Hin | Hin]; [apply (H4 a' d' Hin) |].
    apply list_elem_of_singleton in Hin. injection Hin as -> _. exact Ha.
  Qed.

Lemma wf_run_reaction r w :
    Forall (fun q => (q < length (w_promises w))%nat) (reaction_refs r) ->
    wf w -> wf (run_reaction r w).
  Proof.
    intros Hr Hwf. destruct r as [mv d | a e | a d]; simpl.
    - apply wf_resolve, wf_update_value, Hwf.
    - destruct (Nat.eqb _ 0); [apply wf_resolve |]; apply wf_decrement, Hwf.
    - apply wf_log_done; [| exact Hwf]. simpl in Hr. inversion Hr; assumption.
  Qed.

Lemma wf_run_microtask w : wf w -> wf (run_microtask w).
  Proof.
    intros Hwf. unfold run_microtask. destruct (w_microtasks w) as [| r0 rest] eqn:Hm.
    - exact Hwf.
    - apply wf_run_reaction; [| eapply wf_pop; eauto].
      apply (wf_queued w Hwf r0). rewrite (queued_pop w r0 rest r0 Hm).
      rewrite decide_True by reflexivity. lia.
  Qed.

End Microtasks.

Section MicrotaskInvariants.

Implicit Types (w : World) (p q : nat) (r : reaction).

Lemma list_sum_one_less (f g : nat -> nat) (ps : list nat) (e' : nat) :
    NoDup ps -> e' ∈ ps ->
    (forall e, f e = ((if decide (e = e') then 1 else 0) + g e)%nat) ->
    list_sum (map f ps) = S (list_sum (map g ps)).
  Proof.
    intros Hnd Hin Hfg. induction Hnd as [| x ps Hx Hnd IH]; [inversion Hin |].
    simpl. rewrite (Hfg x).
    destruct (decide (x = e')) as [-> | Hne].
    - assert (Heq : map f ps = map g ps).
      { apply map_ext_in. intros e He. rewrite Hfg.
        rewrite decide_False; [reflexivity |]. intros ->.
        apply Hx, list_elem_of_In, He. }
      rewrite Heq. lia.
    - apply elem_of_cons in Hin as [-> | Hin]; [congruence |].
      rewrite (IH Hin). lia.
  Qed.


  (** *** [joins] *)

Lemma joins_pop_other w r0 rest a ps :
    w_microtasks w = r0 :: rest -> (forall e, r0 <> RResolveElement a e) ->
    joins a ps w -> joins a ps (set_microtasks rest w).
  Proof.
    intros Hm Hr0 [H1 H2 H3 H4 H5 H6 H7 H8]. split; try assumption.
    - rewrite (H3 : remaining a (set_microtasks rest w) = _).
      apply f_equal, map_ext. intros e. unfold join_share.
      rewrite (queued_pop w r0 rest _ Hm).
      rewrite decide_False by (intros H; exact (Hr0 e (eq_sym H))). reflexivity.
    - intros e Hw. apply H6. eapply waiting_pop; eauto.
    - intros mv Hw. apply (H8 mv). eapply waiting_pop; eauto.
  Qed.

Lemma joins_decrement_other a' w a ps :
    a' <> a -> joins a ps w -> joins a ps (decrement_remaining a' w).
  Proof.
    intros Hne [H1 H2 H3 H4 H5 H6 H7 H8]. split.
    - rewrite decrement_length. exact H1.
    - exact H2.
    - rewrite decrement_remaining_eq, decide_False by congruence. rewrite H3.
      apply f_equal, map_ext. intros e. unfold join_share.
      rewrite decrement_registered, decrement_queued. reflexivity.
    - intros e He. rewrite decrement_fulfilled, decrement_registered. apply H4, He.
    - rewrite decrement_fulfilled, decrement_remaining_eq, decide_False by congruence.
      exact H5.
    - intros e. rewrite decrement_waiting. apply H6.
    - unfold engine_targets. rewrite decrement_engine. exact H7.
    - intros mv. rewrite decrement_waiting. apply H8.
  Qed.

Lemma joins_set_log l w a ps : joins a ps w -> joins a ps (set_log l w).
  Proof. intros [H1 H2 H3 H4 H5 H6 H7 H8]. split; assumption. Qed.

Lemma joins_update_value id f w a ps : joins a ps w -> joins a ps (update_value id f w).
  Proof. apply sv_joins. repeat split. Qed.

  (** The element function of the aggregate itself runs. *)
Lemma joins_count_down w e' rest a ps :
    w_microtasks w = RResolveElement a e' :: rest -> wf w ->
    joins a ps w ->
    joins a ps (run_reaction (RResolveElement a e') (set_microtasks rest w)).
  Proof.
    intros Hm Hwf Hj.
    pose proof Hj as [H1 H2 H3 H4 H5 H6 H7 H8].
    set (w1 := set_microtasks rest w).
    assert (Hin : e' ∈ ps).
    { apply H6. left. rewrite (queued_pop w _ rest _ Hm).
      rewrite decide_True by reflexivity. lia. }
    assert (Hsum : list_sum (map (join_share a w) ps) =
                   S (list_sum (map (join_share a w1) ps))).
    { apply (list_sum_one_less _ _ ps e' H2 Hin). intros e. unfold join_share.
      rewrite (queued_pop w _ rest _ Hm). subst w1.
      change (registered ?r ?p (set_microtasks rest w)) with (registered r p w).
      destruct (decide (e = e')) as [-> | Hne].
      - rewrite decide_True by reflexivity. lia.
      - rewrite decide_False by congruence. lia. }
    assert (Hwf1 : wf w1) by (eapply wf_pop; eauto).
    set (w2 := decrement_remaining a w1).
    assert (Hwf2 : wf w2) by (apply wf_decrement, Hwf1).
    assert (Hrem2 : remaining a w2 = list_sum (map (join_share a w1) ps)).
    { subst w2. rewrite decrement_remaining_eq, decide_True by reflexivity.
      change (remaining a w1) with (remaining a w). rewrite H3, Hsum. reflexivity. }
    assert (Hshare2 : forall e, join_share a w2 e = join_share a w1 e).
    { intros e. unfold join_share. subst w2.
      rewrite decrement_registered, decrement_queued. reflexivity. }
    assert (Hpend : is_fulfilled a w = false).
    { apply not_true_is_false. intros E.
      apply H5 in E. rewrite H3, Hsum in E. discriminate. }
    assert (Hj2 :
      (a < length (w_promises w2))%nat /\ NoDup ps /\
      remaining a w2 = list_sum (map (join_share a w2) ps) /\
      (forall e, e ∈ ps -> is_fulfilled e w2 = false ->
                 registered (RResolveElement a e) e w2 = 1%nat) /\
      is_fulfilled a w2 = false /\
      (forall e, waiting (RResolveElement a e) w2 -> e ∈ ps) /\
      ~ engine_targets a w2 /\
      (forall mv, ~ waiting (RClearAnimation mv a) w2)).
    { subst w2. split; [rewrite decrement_length; exact H1 |].
      split; [exact H2 |]. split.
      { rewrite Hrem2. apply f_equal, map_ext. intros e. symmetry. apply Hshare2. }
      split.
      { intros e He. rewrite decrement_fulfilled, decrement_registered. apply H4, He. }
      split; [rewrite decrement_fulfilled; exact Hpend |].
      split.
      { intros e. rewrite decrement_waiting. intros Hw. apply H6.
        eapply waiting_pop; eauto. }
      split.
      { unfold engine_targets. rewrite decrement_engine. exact H7. }
      intros mv. rewrite decrement_waiting. intros Hw. apply (H8 mv).
      eapply waiting_pop; eauto. }
    destruct Hj2 as (J1 & J2 & J3 & J4 & J5 & J6 & J7 & J8).
    cbn [run_reaction]. fold w1. fold w2.
    destruct (Nat.eqb (remaining a w2) 0) eqn:Hz.
    - apply Nat.eqb_eq in Hz. split.
      + rewrite resolve_length. exact J1.
      + exact J2.
      + rewrite resolve_remaining, J3. apply f_equal, map_ext. intros e.
        symmetry. apply join_share_resolve, Hwf2.
      + intros e He. rewrite resolve_fulfilled, resolve_registered.
        destruct (decide (e = a /\ _)) as [_ | Hn]; [discriminate |].
        intros Hf. specialize (J4 e He Hf).
        destruct (decide (e = a)) as [-> | Hne]; [| exact J4].
        exfalso. apply Hn. split; [reflexivity |].
        apply (registered_pending (RResolveElement a a)). lia.
      + rewrite resolve_remaining, resolve_fulfilled_self by exact J1. tauto.
      + intros e. rewrite waiting_resolve. apply J6.
      + unfold engine_targets. rewrite resolve_engine. exact J7.
      + intros mv. rewrite waiting_resolve. apply J8.
    - apply Nat.eqb_neq in Hz. split; try assumption.
      rewrite J5. split; [discriminate | intros; contradiction].
  Qed.

Lemma joins_run_microtask w a ps : wf w -> joins a ps w -> joins a ps (run_microtask w).
  Proof.
    intros Hwf Hj. unfold run_microtask.
    destruct (w_microtasks w) as [| r0 rest] eqn:Hm; [exact Hj |].
    destruct r0 as [mv d | a' e' | a' d'].
    - cbn [run_reaction].
      assert (Hd : d <> a).
      { intros ->. apply (joins_clear a ps w Hj mv). left.
        rewrite (queued_pop w _ rest _ Hm), decide_True by reflexivity. lia. }
      apply joins_resolve; [| exact Hd |].
      + apply wf_update_value. eapply wf_pop; eauto.
      + apply joins_update_value.
        eapply joins_pop_other; [exact Hm | discriminate | exact Hj].
    - destruct (decide (a' = a)) as [-> | Hne].
      + apply joins_count_down; assumption.
      + cbn [run_reaction].
        assert (Hj1 : joins a ps (decrement_remaining a' (set_microtasks rest w))).
        { apply joins_decrement_other; [exact Hne |].
          eapply joins_pop_other; [exact Hm | | exact Hj].
          intros e [= ? ?]. contradiction. }
        destruct (Nat.eqb _ 0); [| exact Hj1].
        apply joins_resolve; [| exact Hne | exact Hj1].
        apply wf_decrement. eapply wf_pop; eauto.
    - cbn [run_reaction]. apply joins_set_log.
      eapply joins_pop_other; [exact Hm | discriminate | exact Hj].
  Qed.

End MicrotaskInvariants.

Section MicrotaskInvariants2.

Implicit Types (w : World) (p q : nat) (r : reaction).

  (** *** [awaits] *)

Lemma done_count_log w a d a' d' :
    done_count a d (set_log (w_log w ++ [LogDone a' d']) w) =
    (done_count a d w + if decide (a' = a /\ d' = d) then 1 else 0)%nat.
  Proof.
    unfold done_count, done_calls. simpl. rewrite omap_app. simpl.
    rewrite List.filter_app, length_app. f_equal. simpl.
    destruct (Nat.eqb_spec a' a) as [-> | Hne]; simpl.
    - destruct (String.eqb_spec d' d) as [-> | Hd].
      + rewrite decide_True by auto. reflexivity.
      + rewrite decide_False by (intros (_ & H); congruence). reflexivity.
    - rewrite decide_False by (intros (H & _); congruence). reflexivity.
  Qed.

Lemma awaits_pop_other w r0 rest a d :
    w_microtasks w = r0 :: rest -> r0 <> RCallDone a d ->
    awaits a d w -> awaits a d (set_microtasks rest w).
  Proof.
    intros Hm Hr0 [H1 H2 H3]. split; try assumption.
    rewrite (queued_pop w r0 rest _ Hm) in H2.
    rewrite decide_False in H2 by congruence. exact H2.
  Qed.

Lemma awaits_decrement a' w a d : awaits a d w -> awaits a d (decrement_remaining a' w).
  Proof.
    intros [H1 H2 H3]. split.
    - rewrite decrement_length. exact H1.
    - rewrite decrement_registered, decrement_queued.
      unfold done_count, done_calls. rewrite decrement_log. exact H2.
    - rewrite decrement_fulfilled, decrement_registered. exact H3.
  Qed.

Lemma awaits_update_value id f w a d : awaits a d w -> awaits a d (update_value id f w).
  Proof. apply sv_awaits. repeat split. Qed.

Lemma awaits_run_microtask w a d : wf w -> awaits a d w -> awaits a d (run_microtask w).
  Proof.
    intros Hwf Hj. unfold run_microtask.
    destruct (w_microtasks w) as [| r0 rest] eqn:Hm; [exact Hj |].
    destruct r0 as [mv d0 | a' e' | a' d'].
    - cbn [run_reaction]. apply awaits_resolve.
      + apply wf_update_value. eapply wf_pop; eauto.
      + apply awaits_update_value.
        eapply awaits_pop_other; [exact Hm | discriminate | exact Hj].
    - cbn [run_reaction].
      assert (Hj1 : awaits a d (decrement_remaining a' (set_microtasks rest w))).
      { apply awaits_decrement.
        eapply awaits_pop_other; [exact Hm | discriminate | exact Hj]. }
      destruct (Nat.eqb _ 0); [| exact Hj1].
      apply awaits_resolve; [| exact Hj1].
      apply wf_decrement. eapply wf_pop; eauto.
    - cbn [run_reaction]. destruct Hj as [H1 H2 H3].
      rewrite (queued_pop w _ rest _ Hm) in H2.
      split; [exact H1 | | exact H3].
      rewrite done_count_log.
      change (registered ?r ?p (set_log _ (set_microtasks rest w))) with (registered r p w).
      change (queued ?r (set_log _ (set_microtasks rest w)))
        with (queued r (set_microtasks rest w)).
      change (done_count a d (set_microtasks rest w)) with (done_count a d w).
      destruct (decide (a' = a /\ d' = d)) as [[-> ->] | Hn].
      + rewrite decide_True in H2 by reflexivity. lia.
      + rewrite decide_False in H2 by (intros [= -> ->]; auto). lia.
  Qed.

  (** *** [abandoned] *)

Lemma abandoned_pop w r0 rest q :
    w_microtasks w = r0 :: rest -> abandoned q w -> abandoned q (set_microtasks rest w).
  Proof.
    intros Hm (H1 & H2 & H3). split; [| split]; [exact H1 | exact H2 |].
    intros [Ht | (r & Hr & Hw)]; apply H3; [left; exact Ht |].
    right. exists r. split; [exact Hr |]. eapply waiting_pop; eauto.
  Qed.

Lemma abandoned_decrement a' w q : abandoned q w -> abandoned q (decrement_remaining a' w).
  Proof.
    intros (H1 & H2 & H3). split; [| split].
    - rewrite decrement_length. exact H1.
    - rewrite decrement_fulfilled. exact H2.
    - intros [Ht | (r & Hr & Hw)]; apply H3.
      + left. unfold engine_targets in *. rewrite decrement_engine in Ht. exact Ht.
      + right. exists r. split; [exact Hr |]. apply decrement_waiting in Hw. exact Hw.
  Qed.

Lemma abandoned_update_value id f w q : abandoned q w -> abandoned q (update_value id f w).
  Proof. apply sv_abandoned. repeat split. Qed.

Lemma abandoned_set_log l w q : abandoned q w -> abandoned q (set_log l w).
  Proof. intros (H1 & H2 & H3). split; [| split]; assumption. Qed.

Lemma abandoned_head_target w r0 rest q :
    w_microtasks w = r0 :: rest -> abandoned q w -> reaction_target r0 <> Some q.
  Proof.
    intros Hm (_ & _ & H3) Ht. apply H3. right. exists r0. split; [exact Ht |].
    left. rewrite (queued_pop w r0 rest r0 Hm), decide_True by reflexivity. lia.
  Qed.

Lemma abandoned_run_microtask w q : abandoned q w -> abandoned q (run_microtask w).
  Proof.
    intros Hj. unfold run_microtask.
    destruct (w_microtasks w) as [| r0 rest] eqn:Hm; [exact Hj |].
    pose proof (abandoned_head_target w r0 rest q Hm Hj) as Ht.
    pose proof (abandoned_pop w r0 rest q Hm Hj) as Hj1.
    destruct r0 as [mv d0 | a' e' | a' d']; cbn [run_reaction].
    - apply abandoned_resolve; [simpl in Ht; congruence |].
      apply abandoned_update_value, Hj1.
    - destruct (Nat.eqb _ 0).
      + apply abandoned_resolve; [simpl in Ht; congruence |].
        apply abandoned_decrement, Hj1.
      + apply abandoned_decrement, Hj1.
    - apply abandoned_set_log, Hj1.
  Qed.

  (** *** The microtask checkpoint *)

Lemma drain_fuel_preserves (I : World -> Prop) :
    (forall w, wf w -> I w -> I (run_microtask w)) ->
    forall fuel w, wf w -> I w -> wf (drain_fuel fuel w) /\ I (drain_fuel fuel w).
  Proof.
    intros HI fuel. induction fuel as [| fuel IH]; intros w Hwf Hw; simpl; [auto |].
    destruct (w_microtasks w) eqn:Hm; [auto |].
    apply IH; [apply wf_run_microtask, Hwf | apply HI; assumption].
  Qed.

Lemma wf_drain w : wf w -> wf (drain w).
  Proof. intros Hwf. apply (drain_fuel_preserves (fun _ => True)); auto. Qed.

Lemma joins_drain w a ps : wf w -> joins a ps w -> joins a ps (drain w).
  Proof.
    intros Hwf Hj. apply (drain_fuel_preserves (joins a ps)); auto.
    intros; apply joins_run_microtask; assumption.
  Qed.

Lemma awaits_drain w a d : wf w -> awaits a d w -> awaits a d (drain w).
  Proof.
    intros Hwf Hj. apply (drain_fuel_preserves (awaits a d)); auto.
    intros; apply awaits_run_microtask; assumption.
  Qed.

Lemma abandoned_drain w q : wf w -> abandoned q w -> abandoned q (drain w).
  Proof.
    intros Hwf Hj. apply (drain_fuel_preserves (abandoned q)); auto.
    intros; apply abandoned_run_microtask; assumption.
  Qed.

End MicrotaskInvariants2.

(** ** The microtask checkpoint terminates with an empty queue *)

Section Drain.

Implicit Types (w : World) (p q : nat) (r : reaction).

Lemma pending_work_eq w :
    pending_work w =
    (length (w_microtasks w) + list_sum (map promise_work (w_promises w)))%nat.
  Proof. reflexivity. Qed.

Lemma list_sum_insert (g : Promise -> nat) (l : list Promise) (i : nat) (x y : Promise) :
    l !! i = Some x ->
    (list_sum (map g (<[i := y]> l)) + g x = list_sum (map g l) + g y)%nat.
  Proof.
    revert i. induction l as [| a l IH]; intros i Hi; [discriminate |].
    destruct i as [| i]; simpl in *.
    - injection Hi as ->. lia.
    - specialize (IH i Hi). lia.
  Qed.

Lemma pending_work_resolve p w : pending_work (resolve_promise p w) = pending_work w.
  Proof.
    rewrite !pending_work_eq. unfold resolve_promise.
    destruct (w_promises w !! p) as [pr |] eqn:Hp; [| reflexivity].
    destruct (p_fulfilled pr) eqn:Hf; [reflexivity |]. simpl.
    rewrite length_app.
    pose proof (list_sum_insert promise_work (w_promises w) p pr
                  {| p_fulfilled := true; p_reactions := []; p_remaining := p_remaining pr |}
                  Hp) as H.
    unfold promise_work at 2 4 in H. simpl in H. rewrite Hf in H. lia.
  Qed.

Lemma pending_work_decrement a w :
    pending_work (decrement_remaining a w) = pending_work w.
  Proof.
    rewrite !pending_work_eq. unfold decrement_remaining.
    destruct (w_promises w !! a) as [pr |] eqn:Hp; [| reflexivity]. simpl.
    pose proof (list_sum_insert promise_work (w_promises w) a pr
                  (set_remaining (Nat.pred (p_remaining pr)) pr) Hp) as H.
    unfold promise_work at 2 4 in H. simpl in H. lia.
  Qed.

Lemma pending_work_run_reaction r w : pending_work (run_reaction r w) = pending_work w.
  Proof.
    destruct r as [mv d | a e | a d]; cbn [run_reaction].
    - rewrite pending_work_resolve. reflexivity.
    - destruct (Nat.eqb _ 0); rewrite ?pending_work_resolve; apply pending_work_decrement.
    - reflexivity.
  Qed.

Lemma pending_work_run_microtask w r0 rest :
    w_microtasks w = r0 :: rest ->
    S (pending_work (run_microtask w)) = pending_work w.
  Proof.
    intros Hm. unfold run_microtask. rewrite Hm, pending_work_run_reaction.
    rewrite !pending_work_eq. simpl. rewrite Hm. reflexivity.
  Qed.

Lemma drain_fuel_empty fuel w :
    (pending_work w <= fuel)%nat -> w_microtasks (drain_fuel fuel w) = [].
  Proof.
    revert w. induction fuel as [| fuel IH]; intros w Hle; simpl.
    - rewrite pending_work_eq in Hle. destruct (w_microtasks w); [reflexivity |].
      simpl in Hle. lia.
    - destruct (w_microtasks w) as [| r0 rest] eqn:Hm; [exact Hm |].
      apply IH. pose proof (pending_work_run_microtask w r0 rest Hm). lia.
  Qed.

  (** The checkpoint runs every queued reaction, and those queued
      meanwhile. *)
Lemma drain_empty w : w_microtasks (drain w) = [].
  Proof. apply drain_fuel_empty. reflexivity. Qed.

Lemma queued_drain r w : queued r (drain w) = O.
  Proof. unfold queued. rewrite drain_empty. reflexivity. Qed.

End Drain.

(** ** The synchronous code of the module, as steps on the promise state *)

Section Steps.

Variable ext : Externals.
Variable n0 : nat.
Variable R0 : nat -> Prop.

Implicit Types (w : World) (p q : nat) (r : reaction).

Notation "w ~> w'" := (steps n0 R0 w w') (at level 70).

Lemma steps_refl w : w ~> w.
  Proof. apply rtc_refl. Qed.

Lemma steps_trans w1 w2 w3 : w1 ~> w2 -> w2 ~> w3 -> w1 ~> w3.
  Proof. apply rtc_trans. Qed.

Lemma steps_quiet w w' : same_view w w' -> w ~> w'.
  Proof. intros (H1 & H2 & H3 & H4). apply rtc_once. apply step_quiet; assumption. Qed.

Lemma steps_length w w' :
    w ~> w' -> (length (w_promises w) <= length (w_promises w'))%nat.
  Proof.
    induction 1 as [w | w w1 w2 Hstep _ IH]; [lia |].
    pose proof (step_length _ _ _ _ Hstep). lia.
  Qed.

Local Abbreviation callable := (callable n0).
Local Abbreviation callable_opt := (callable_opt n0).

Lemma callable_mono n m cb : (n <= m)%nat -> callable n cb -> callable m cb.
  Proof. destruct cb; simpl; [auto | lia]. Qed.

Lemma callable_opt_mono n m cb : (n <= m)%nat -> callable_opt n cb -> callable_opt m cb.
  Proof. destruct cb; simpl; [apply callable_mono | auto]. Qed.

Lemma done_calls_log_call name args w :
    done_calls (log_call name args w) = done_calls w.
  Proof. unfold done_calls. simpl. rewrite omap_app. simpl. apply app_nil_r. Qed.

Lemma steps_log_call name args w : w ~> log_call name args w.
  Proof.
    apply steps_quiet. split; [reflexivity |]. split; [reflexivity |].
    split; [reflexivity |]. apply done_calls_log_call.
  Qed.

Lemma steps_call cb w : callable (length (w_promises w)) cb -> w ~> call cb w.
  Proof.
    destruct cb as [name | p]; simpl; intros H.
    - apply steps_log_call.
    - apply rtc_once, step_resolve. left. lia.
  Qed.

Lemma steps_call_opt cb w : callable_opt (length (w_promises w)) cb -> w ~> call_opt cb w.
  Proof. destruct cb; simpl; [apply steps_call | intros _; apply steps_refl]. Qed.

Lemma callable_as_callback n f : callable_opt n (as_callback f).
  Proof. destruct f; simpl; exact I. Qed.

Lemma same_view_notify subs v w : same_view w (notify subs v w).
  Proof.
    revert w. induction subs as [| s subs IH]; intros w; simpl.
    - apply same_view_refl.
    - eapply same_view_trans; [| apply IH]. destruct s. repeat split.
  Qed.

Lemma same_view_mv_set id v w : same_view w (mv_set id v w).
  Proof.
    unfold mv_set. destruct (w_values w !! id); [| apply same_view_refl].
    eapply same_view_trans; [| apply same_view_notify]. repeat split.
  Qed.

Lemma same_view_update_value id f w : same_view w (update_value id f w).
  Proof. repeat split. Qed.

Lemma same_view_get key from w : same_view w (fst (get key from w)).
  Proof. unfold get. destruct (table_get _ _); repeat split. Qed.

Lemma steps_engine_stop a w : w ~> engine_stop a w.
  Proof.
    unfold engine_stop. destruct (w_engine w !! a) as [ea |] eqn:Ha; [| apply steps_refl].
    destruct (is_running ea); [| apply steps_refl].
    apply rtc_once. eapply step_engine_halt; [exact Ha | discriminate].
  Qed.

Lemma steps_mv_stop id w : w ~> mv_stop id w.
  Proof.
    unfold mv_stop. destruct (w_values w !! id) as [mv |]; [| apply steps_refl].
    eapply steps_trans; [| apply steps_quiet, same_view_update_value].
    destruct (mv_stopAnimation mv) as [[| a] |]; simpl;
      [apply steps_refl | apply steps_engine_stop | apply steps_refl].
  Qed.

Lemma steps_mv_destroy id w : w ~> mv_destroy id w.
  Proof.
    unfold mv_destroy. eapply steps_trans; [| apply steps_mv_stop].
    apply steps_quiet, same_view_update_value.
  Qed.

Lemma steps_destroyKey w key : w ~> destroyKey w key.
  Proof.
    unfold destroyKey. destruct (table_get _ _) as [id |]; [| apply steps_refl].
    eapply steps_trans; [apply steps_mv_stop |].
    eapply steps_trans; [apply steps_mv_destroy |].
    apply steps_quiet. repeat split.
  Qed.

Lemma steps_fold_destroyKey keys w : w ~> fold_left destroyKey keys w.
  Proof.
    revert w. induction keys as [| k keys IH]; intros w; simpl; [apply steps_refl |].
    eapply steps_trans; [apply steps_destroyKey | apply IH].
  Qed.

Lemma steps_stop keys w : w ~> stop keys w.
  Proof.
    unfold stop. destruct (truthy keys); [| apply steps_fold_destroyKey].
    destruct keys; try apply steps_destroyKey. apply steps_fold_destroyKey.
  Qed.

Lemma steps_animation_set an complete w :
    callable_opt (length (w_promises w)) (an_onComplete an) ->
    callable_opt (length (w_promises w)) complete ->
    w ~> fst (animation_set an complete w).
  Proof.
    intros Hon Hc. unfold animation_set. simpl.
    set (w1 := mv_set _ _ w).
    assert (H1 : w ~> w1) by apply steps_quiet, same_view_mv_set.
    assert (L1 : length (w_promises w1) = length (w_promises w)).
    { apply sv_length, same_view_mv_set. }
    set (w2 := call_opt (as_callback _) w1).
    assert (H2 : w1 ~> w2) by apply steps_call_opt, callable_as_callback.
    set (w3 := call_opt (an_onComplete an) w2).
    assert (H3 : w2 ~> w3).
    { apply steps_call_opt. eapply callable_opt_mono; [| exact Hon].
      pose proof (steps_length _ _ H2). lia. }
    assert (H4 : w3 ~> call_opt complete w3).
    { apply steps_call_opt. eapply callable_opt_mono; [| exact Hc].
      pose proof (steps_length _ _ H2). pose proof (steps_length _ _ H3). lia. }
    eauto using steps_trans.
  Qed.

Lemma steps_engine_add ea w :
    Forall (callable (length (w_promises w))) (ea_onComplete ea) ->
    w ~> fst (engine_add ea w).
  Proof.
    intros H. apply rtc_once, step_engine_add. intros q Hq.
    rewrite Forall_forall in H. exact (H _ Hq).
  Qed.

Lemma Forall_callable_opt_list n cb :
    callable_opt n cb -> Forall (callable n) (opt_list cb).
  Proof. destruct cb; simpl; [intros H; repeat constructor; exact H | constructor]. Qed.

Lemma steps_animation_start an complete w :
    callable_opt (length (w_promises w)) (an_onComplete an) ->
    callable_opt (length (w_promises w)) complete ->
    w ~> fst (fst (animation_start ext an complete w)).
  Proof.
    intros Hon Hc. unfold animation_start.
    destruct (strict_eq _ _ || strict_eq _ _).
    - simpl. apply steps_engine_add. simpl.
      apply Forall_callable_opt_list, callable_as_callback.
    - destruct (getPopmotionAnimationOptions _ _ _ _) as [vt' popts]. simpl.
      apply steps_engine_add. simpl.
      rewrite !Forall_app. split; [| split]; apply Forall_callable_opt_list;
        [apply callable_as_callback | exact Hon | exact Hc].
  Qed.

Lemma steps_run_animation an complete w :
    callable_opt (length (w_promises w)) (an_onComplete an) ->
    callable_opt (length (w_promises w)) complete ->
    w ~> fst (fst (run_animation ext an complete w)).
  Proof.
    intros Hon Hc. unfold run_animation. destruct (an_set an).
    - pose proof (steps_animation_set an complete w Hon Hc) as H.
      destruct (animation_set an complete w). exact H.
    - apply steps_animation_start; assumption.
  Qed.

Lemma steps_new_promise k w : w ~> fst (new_promise k w).
  Proof. apply rtc_once, step_alloc. Qed.

Lemma steps_mv_start id an w :
    (n0 <= length (w_promises w))%nat ->
    callable_opt (length (w_promises w)) (an_onComplete an) ->
    w ~> fst (fst (mv_start ext id an w)).
  Proof.
    intros Hn Hon. unfold mv_start.
    set (w1 := mv_stop id w).
    assert (H1 : w ~> w1) by apply steps_mv_stop.
    pose proof (steps_length _ _ H1) as L1.
    destruct (new_promise 0 w1) as [w2 p] eqn:E2.
    assert (Hw2 : w2 = fst (new_promise 0 w1)) by (rewrite E2; reflexivity).
    assert (Hp : p = length (w_promises w1)) by (injection E2; auto).
    assert (H2 : w1 ~> w2) by (rewrite Hw2; apply steps_new_promise).
    assert (L2 : length (w_promises w2) = S (length (w_promises w1))).
    { rewrite Hw2. apply new_promise_length. }
    destruct (run_animation ext an (Some (CbResolve p)) w2) as [[w3 h] tr] eqn:E3.
    assert (H3 : w2 ~> w3).
    { pose proof (steps_run_animation an (Some (CbResolve p)) w2) as H.
      rewrite E3 in H. apply H.
      - eapply callable_opt_mono; [| exact Hon]. lia.
      - simpl. lia. }
    pose proof (steps_length _ _ H3) as L3.
    set (w4 := update_value id (set_stopAnimation h) w3).
    assert (H4 : w3 ~> w4) by apply steps_quiet, same_view_update_value.
    destruct (new_promise 0 w4) as [w5 d] eqn:E5.
    assert (Hw5 : w5 = fst (new_promise 0 w4)) by (rewrite E5; reflexivity).
    assert (Hd : d = length (w_promises w4)) by (injection E5; auto).
    assert (H5 : w4 ~> w5) by (rewrite Hw5; apply steps_new_promise).
    assert (L5 : length (w_promises w5) = S (length (w_promises w4))).
    { rewrite Hw5. apply new_promise_length. }
    assert (H6 : w5 ~> then_ p (RClearAnimation id d) w5).
    { apply rtc_once, step_then; [lia | exact I |].
      simpl. repeat constructor; subst d; simpl in *; lia. }
    simpl. eauto 10 using steps_trans.
  Qed.

Lemma steps_push key v transition onComplete w :
    (n0 <= length (w_promises w))%nat ->
    callable_opt (length (w_promises w)) onComplete ->
    w ~> fst (push ext key v transition onComplete w).
  Proof.
    intros Hn Hon. unfold push.
    destruct (get key _ w) as [w1 id] eqn:E1.
    assert (H1 : same_view w w1).
    { pose proof (same_view_get key (default VUndef (obj_get (w_properties w) key)) w) as H.
      rewrite E1 in H. exact H. }
    pose proof (sv_length _ _ H1) as L1.
    destruct (truthy _ && truthy _).
    - simpl. eapply steps_trans; [apply steps_quiet, H1 |].
      apply steps_quiet, same_view_mv_set.
    - set (tr := match transition with VUndef => VObj [] | _ => transition end).
      set (an := getAnimation ext key id v tr onComplete w1).
      pose proof (steps_mv_start id an w1) as H.
      destruct (mv_start ext id an w1) as [[w2 d] tr'] eqn:E2. simpl in *.
      eapply steps_trans; [apply steps_quiet, H1 |].
      apply H; [lia |]. rewrite L1. exact Hon.
  Qed.

Local Abbreviation fresh_promises := (fresh_promises n0).

Lemma steps_apply_entry acc kv :
    (n0 <= length (w_promises (fst (fst acc))))%nat ->
    fresh_promises (map snd (snd acc)) (fst (fst acc)) ->
    steps n0 R0 (fst (fst acc)) (fst (fst (apply_entry ext acc kv))) /\
    fresh_promises (map snd (snd (apply_entry ext acc kv)))
                   (fst (fst (apply_entry ext acc kv))).
  Proof.
    destruct acc as [[w variant] ps]. destruct kv as [key v]. cbn [fst snd].
    intros Hn [Hnd Hall]. unfold apply_entry.
    destruct (String.eqb key "transition"); [split; [apply steps_refl | split; assumption] |].
    destruct (new_promise 0 w) as [w1 p] eqn:E1.
    assert (Hw1 : w1 = fst (new_promise 0 w)) by (rewrite E1; reflexivity).
    assert (Hp : p = length (w_promises w)) by (injection E1; auto).
    assert (L1 : length (w_promises w1) = S (length (w_promises w))).
    { rewrite Hw1. apply new_promise_length. }
    set (tr := if truthy _ then _ else _).
    pose proof (steps_push key v tr (Some (CbResolve p)) w1) as H.
    destruct (push ext key v tr (Some (CbResolve p)) w1) as [w2 tr'] eqn:E2.
    cbn [fst snd callable_opt callable] in *.
    assert (H2 : w1 ~> w2) by (apply H; lia).
    pose proof (steps_length _ _ H2) as L2.
    split.
    - eapply steps_trans; [| exact H2]. rewrite Hw1. apply steps_new_promise.
    - rewrite map_app. simpl. split.
      + apply NoDup_app. split; [exact Hnd |]. split; [| apply NoDup_singleton].
        intros x Hx Hx'. apply list_elem_of_singleton in Hx'. subst x.
        rewrite Forall_forall in Hall. specialize (Hall _ Hx). lia.
      + apply Forall_app. split.
        * eapply Forall_impl; [exact Hall |]. simpl. intros; lia.
        * repeat constructor; lia.
  Qed.

Lemma steps_fold_apply_entry entries acc :
    (n0 <= length (w_promises (fst (fst acc))))%nat ->
    fresh_promises (map snd (snd acc)) (fst (fst acc)) ->
    steps n0 R0 (fst (fst acc)) (fst (fst (fold_left (apply_entry ext) entries acc))) /\
    fresh_promises (map snd (snd (fold_left (apply_entry ext) entries acc)))
                   (fst (fst (fold_left (apply_entry ext) entries acc))).
  Proof.
    revert acc. induction entries as [| kv entries IH]; intros acc Hn Hfresh.
    - simpl. split; [apply steps_refl | exact Hfresh].
    - cbn [fold_left].
      destruct (steps_apply_entry acc kv Hn Hfresh) as [H1 F1].
      pose proof (steps_length _ _ H1) as L1.
      destruct (IH (apply_entry ext acc kv)) as [H2 F2]; [lia | exact F1 |].
      split; [eapply steps_trans; eassumption | exact F2].
  Qed.

Lemma steps_apply_pushes variant vo w :
    (n0 <= length (w_promises w))%nat ->
    steps n0 R0 w (fst (apply_pushes ext variant vo w)) /\
    fresh_promises (map snd (snd (apply_pushes ext variant vo w)))
                   (fst (apply_pushes ext variant vo w)).
  Proof.
    intros Hn. unfold apply_pushes.
    destruct (steps_fold_apply_entry (Object_entries vo) (w, vo, [])) as [H F].
    { exact Hn. }
    { split; [constructor | constructor]. }
    destruct (fold_left _ _ _) as [[w1 vo'] ps]. cbn [fst snd] in *.
    assert (Hsv : same_view w1 (write_back variant vo' w1)).
    { unfold write_back. destruct variant; repeat split. }
    split.
    - eapply steps_trans; [exact H | apply steps_quiet, Hsv].
    - destruct F as [F1 F2]. split; [exact F1 |].
      rewrite (sv_length _ _ Hsv). exact F2.
  Qed.

Lemma steps_fold_then (a : nat) (l : list nat) w :
    (n0 <= a < length (w_promises w))%nat ->
    Forall (fun p => (n0 <= p < length (w_promises w))%nat) l ->
    w ~> register_elements a l w.
  Proof.
    unfold register_elements.
    revert w. induction l as [| e l IH]; intros w Ha Hl; simpl; [apply steps_refl |].
    inversion Hl as [| ? ? He Hl']; subst.
    eapply steps_trans.
    - apply rtc_once, (step_then _ _ _ e (RResolveElement a e)); [lia | reflexivity |].
      simpl. repeat constructor; lia.
    - apply IH; rewrite then_length; assumption.
  Qed.

Lemma steps_Promise_all ps w :
    (n0 <= length (w_promises w))%nat ->
    fresh_promises ps w -> w ~> fst (Promise_all ps w).
  Proof.
    intros Hn [_ Hall]. unfold Promise_all.
    destruct (new_promise (length ps) w) as [w1 a] eqn:E1.
    assert (Hw1 : w1 = fst (new_promise (length ps) w)) by (rewrite E1; reflexivity).
    assert (Ha : a = length (w_promises w)) by (injection E1; auto).
    assert (L1 : length (w_promises w1) = S (length (w_promises w))).
    { rewrite Hw1. apply new_promise_length. }
    destruct ps as [| e ps]; cbn [fst].
    - simpl. apply (steps_trans _ w1); [rewrite Hw1; apply steps_new_promise |].
      apply rtc_once, step_resolve. left. lia.
    - apply (steps_trans _ w1); [rewrite Hw1; apply steps_new_promise |].
      apply steps_fold_then.
      + inversion Hall as [| ? ? He _]; subst. lia.
      + eapply Forall_impl; [exact Hall |]. simpl. intros; lia.
  Qed.

  (** A call of [apply] that returns has gone through the pushes and then
      through [Promise.all]. *)
Lemma apply_Ok variant w w' aggregate ps :
    apply ext variant w = (w', Ok (aggregate, ps)) ->
    exists vo,
      resolve_variant variant w = Ok vo /\
      ps = snd (apply_pushes ext variant vo w) /\
      w' = fst (Promise_all (map snd ps) (fst (apply_pushes ext variant vo w))) /\
      aggregate = length (w_promises (fst (apply_pushes ext variant vo w))).
  Proof.
    unfold apply, apply_pushes. intros H.
    destruct (resolve_variant variant w) as [vo | n m]; [| discriminate].
    exists vo. split; [reflexivity |].
    destruct (fold_left _ _ _) as [[w1 vo'] ps1].
    destruct (Promise_all (map snd ps1) (write_back variant vo' w1)) as [w2 a] eqn:E.
    assert (Ha : a = length (w_promises (write_back variant vo' w1))).
    { unfold Promise_all in E. simpl in E. injection E as _ <-. reflexivity. }
    destruct vo; try discriminate; injection H as <- <- <-; cbn [fst snd];
      rewrite E; auto.
  Qed.

Lemma apply_Throw variant w w' n m :
    apply ext variant w = (w', Throw n m) -> w' = w.
  Proof.
    unfold apply. intros H.
    destruct (resolve_variant variant w) as [vo | n' m'].
    - destruct (fold_left _ _ _) as [[w1 vo'] ps1].
      destruct (Promise_all _ _) as [w2 a].
      destruct vo; try discriminate; injection H as <-; reflexivity.
    - injection H as <-. reflexivity.
  Qed.

Lemma steps_apply variant w :
    (n0 <= length (w_promises w))%nat ->
    w ~> fst (apply ext variant w).
  Proof.
    intros Hn. destruct (apply ext variant w) as [w' [[a ps] | n m]] eqn:E.
    - apply apply_Ok in E as (vo & _ & Hps & -> & _). cbn [fst].
      destruct (steps_apply_pushes variant vo w Hn) as [H F].
      pose proof (steps_length _ _ H).
      rewrite Hps. eapply steps_trans; [exact H |].
      apply steps_Promise_all; [lia | exact F].
    - apply apply_Throw in E as ->. apply steps_refl.
  Qed.

Lemma steps_set variant w :
    (n0 <= length (w_promises w))%nat ->
    w ~> fst (set ext variant w).
  Proof.
    intros Hn. unfold set.
    destruct (if isObject variant then _ else _) as [vd | n m]; [| apply steps_refl].
    cbn [fst]. revert w Hn.
    induction (Object_entries vd) as [| kv l IH]; intros w Hn; simpl; [apply steps_refl |].
    destruct (String.eqb (fst kv) "transition"); [apply IH, Hn |].
    pose proof (steps_push (fst kv) (snd kv) (VObj [("immediate", VBool true)]) None w Hn I)
      as H.
    eapply steps_trans; [exact H |]. apply IH.
    pose proof (steps_length _ _ H). lia.
  Qed.

Lemma steps_leave done w :
    (n0 <= length (w_promises w))%nat ->
    w ~> leave ext done w.
  Proof.
    intros Hn. unfold leave.
    destruct (negb (truthy (leaveVariant (w_variants w)))); [apply steps_log_call |].
    destruct (apply ext (leaveVariant (w_variants w)) w) as [w' [[a ps] | n m]] eqn:E.
    - pose proof (steps_apply (leaveVariant (w_variants w)) w Hn) as H.
      rewrite E in H. cbn [fst] in H.
      apply apply_Ok in E as (vo & _ & Hps & Hw' & Ha).
      destruct (steps_apply_pushes (leaveVariant (w_variants w)) vo w Hn) as [H1 F].
      pose proof (steps_length _ _ H1).
      assert (L : (a < length (w_promises w'))%nat).
      { rewrite Hw', Ha. unfold Promise_all.
        destruct (new_promise _ _) as [w2 a2] eqn:E2. cbn [fst].
        assert (length (w_promises w2) = S (length (w_promises
                  (fst (apply_pushes ext (leaveVariant (w_variants w)) vo w))))).
        { replace w2 with (fst (new_promise (length (map snd ps))
                    (fst (apply_pushes ext (leaveVariant (w_variants w)) vo w))))
            by (rewrite E2; reflexivity).
          apply new_promise_length. }
        assert (Hfold : forall l w0,
                   length (w_promises (register_elements a2 l w0)) =
                   length (w_promises w0)).
        { unfold register_elements.
          induction l as [| e l IHl]; intros w0; simpl; [reflexivity |].
          rewrite IHl, then_length. reflexivity. }
        destruct (map snd ps); [rewrite resolve_length |]; rewrite Hfold; lia. }
      eapply steps_trans; [exact H |].
      apply rtc_once, step_then; [lia | reflexivity |].
      simpl. repeat constructor; lia.
    - apply apply_Throw in E as ->. apply steps_refl.
  Qed.

Lemma steps_engine_update a v w : w ~> engine_update a v w.
  Proof.
    unfold engine_update. destruct (w_engine w !! a) as [ea |]; [| apply steps_refl].
    destruct (is_running ea); [| apply steps_refl].
    set (w1 := match ea_value ea with Some id => mv_set id v w | None => w end).
    apply (steps_trans _ w1).
    - subst w1.
      destruct (ea_value ea); [apply steps_quiet, same_view_mv_set | apply steps_refl].
    - destruct (ea_onUpdate ea); [apply steps_log_call | apply steps_refl].
  Qed.

Lemma steps_fold_call cbs w :
    Forall (fun cb => match cb with CbResolve p => R0 p | CbUser _ => True end) cbs ->
    w ~> fold_left (fun w cb => call cb w) cbs w.
  Proof.
    revert w. induction cbs as [| cb cbs IH]; intros w Hall; simpl; [apply steps_refl |].
    inversion Hall as [| ? ? Hcb Hall']; subst.
    eapply steps_trans; [| apply IH, Hall'].
    destruct cb as [name | p]; simpl.
    - apply steps_log_call.
    - apply rtc_once, step_resolve. right. exact Hcb.
  Qed.

Lemma steps_engine_complete a w :
    (forall q, engine_targets q w -> R0 q) ->
    w ~> engine_complete a w.
  Proof.
    intros HR. unfold engine_complete.
    destruct (w_engine w !! a) as [ea |] eqn:Ha; [| apply steps_refl].
    destruct (is_running ea) eqn:Hrun; [| apply steps_refl].
    apply (steps_trans _ (set_engine (<[a := set_status Completed ea]> (w_engine w)) w)).
    - apply rtc_once. eapply step_engine_halt; [exact Ha | discriminate].
    - apply steps_fold_call. apply Forall_forall. intros [name | p] Hin; [exact I |].
      apply HR. exists a, ea. auto.
  Qed.

Lemma steps_do_action act w :
    (n0 <= length (w_promises w))%nat ->
    (forall q, engine_targets q w -> R0 q) ->
    w ~> do_action ext w act.
  Proof.
    intros Hn HR. destruct act; cbn [do_action].
    - apply steps_apply, Hn.
    - apply steps_set, Hn.
    - apply steps_leave, Hn.
    - apply steps_stop.
    - apply steps_push; [exact Hn |]. destruct onComplete; exact I.
    - apply steps_mv_stop.
    - apply steps_quiet. repeat split.
    - apply steps_quiet, same_view_update_value.
    - apply steps_engine_update.
    - apply steps_engine_complete, HR.
  Qed.

End Steps.

(** ** Tasks *)

Section Tasks.

Variable ext : Externals.

Implicit Types (w : World) (p q : nat) (r : reaction).

Lemma preserved_refl w : wf w -> preserved w w.
  Proof. intros Hwf. split; [exact Hwf |]. split; [lia |]. auto. Qed.

Lemma preserved_trans w1 w2 w3 : preserved w1 w2 -> preserved w2 w3 -> preserved w1 w3.
  Proof.
    intros (_ & L1 & J1 & A1 & B1) (Hwf & L2 & J2 & A2 & B2).
    split; [exact Hwf |]. split; [lia |]. auto.
  Qed.

Lemma do_action_preserved act w : wf w -> preserved w (do_action ext w act).
  Proof.
    intros Hwf.
    pose proof (steps_do_action ext (length (w_promises w)) (fun q => engine_targets q w)
                  act w (le_n _) (fun q H => H)) as Hsteps.
    destruct (steps_preserve _ _ _ _ Hsteps Hwf) as (Hwf' & L & J & A & B).
    split; [exact Hwf' |]. split; [exact L |]. split; [| split].
    - intros a ps Hj. apply J; [apply (joins_bound a ps w Hj) | apply (joins_engine a ps w Hj) | exact Hj].
    - intros a d Ha. apply A; [apply (awaits_bound a d w Ha) | exact Ha].
    - intros q Hq. apply B; [apply Hq | | exact Hq].
      intros Ht. destruct Hq as (_ & _ & Hn). apply Hn. left. exact Ht.
  Qed.

Lemma actions_preserved task w : wf w -> preserved w (fold_left (do_action ext) task w).
  Proof.
    revert w. induction task as [| act task IH]; intros w Hwf; simpl.
    - apply preserved_refl, Hwf.
    - pose proof (do_action_preserved act w Hwf) as H.
      eapply preserved_trans; [exact H |]. apply IH. apply H.
  Qed.

Lemma drain_length_le w :
    wf w -> (length (w_promises w) <= length (w_promises (drain w)))%nat.
  Proof.
    intros Hwf.
    destruct (drain_fuel_preserves
                (fun w' => (length (w_promises w) <= length (w_promises w'))%nat)
                ) with (fuel := pending_work w) (w := w) as [_ H]; auto.
    intros w' _ Hle. unfold run_microtask.
    destruct (w_microtasks w') as [| r0 rest]; [exact Hle |].
    destruct r0; cbn [run_reaction].
    - rewrite resolve_length. exact Hle.
    - destruct (Nat.eqb _ 0); rewrite ?resolve_length, decrement_length; exact Hle.
    - exact Hle.
  Qed.

Lemma drain_preserved w : wf w -> preserved w (drain w).
  Proof.
    intros Hwf. split; [apply wf_drain, Hwf |]. split; [apply drain_length_le, Hwf |].
    split; [| split].
    - intros a ps. apply joins_drain, Hwf.
    - intros a d. apply awaits_drain, Hwf.
    - intros q. apply abandoned_drain, Hwf.
  Qed.

Lemma run_task_preserved task w : wf w -> preserved w (run_task ext w task).
  Proof.
    intros Hwf. unfold run_task.
    pose proof (actions_preserved task w Hwf) as H.
    eapply preserved_trans; [exact H |]. apply drain_preserved, H.
  Qed.

Lemma run_tasks_preserved tasks w : wf w -> preserved w (run_tasks ext tasks w).
  Proof.
    unfold run_tasks. revert w. induction tasks as [| task tasks IH]; intros w Hwf; simpl.
    - apply preserved_refl, Hwf.
    - pose proof (run_task_preserved task w Hwf) as H.
      eapply preserved_trans; [exact H |]. apply IH, H.
  Qed.


End Tasks.

(** ** [Promise.all] joins its elements *)

Section PromiseAll.

Implicit Types (w : World) (p q : nat) (r : reaction).

Lemma pending_or_fulfilled p w :
    (p < length (w_promises w))%nat ->
    (is_pending p w = true /\ is_fulfilled p w = false) \/
    (is_pending p w = false /\ is_fulfilled p w = true).
  Proof.
    intros Hlt. unfold is_pending, is_fulfilled.
    destruct (lookup_lt_is_Some_2 _ _ Hlt) as [pr ->].
    destruct (p_fulfilled pr); auto.
  Qed.

Lemma register_elements_effect a l w :
    Forall (fun p => (p < length (w_promises w))%nat) l ->
    let w' := register_elements a l w in
    length (w_promises w') = length (w_promises w) /\
    (forall q, is_fulfilled q w' = is_fulfilled q w) /\
    (forall q, remaining q w' = remaining q w) /\
    w_engine w' = w_engine w /\
    (forall e, join_share a w' e =
               (join_share a w e + count_occ Nat.eq_dec l e)%nat) /\
    (forall e, is_fulfilled e w = false ->
               registered (RResolveElement a e) e w' =
               (registered (RResolveElement a e) e w + count_occ Nat.eq_dec l e)%nat) /\
    (forall r, waiting r w' -> waiting r w \/ exists e, e ∈ l /\ r = RResolveElement a e).
  Proof.
    revert w. induction l as [| p l IH]; intros w Hall; cbn zeta.
    - simpl. repeat split; auto; intros; lia.
    - inversion Hall as [| ? ? Hp Hl]; subst.
      cbn [register_elements fold_left].
      fold (register_elements a l (then_ p (RResolveElement a p) w)).
      set (w1 := then_ p (RResolveElement a p) w).
      assert (Hl1 : Forall (fun p => (p < length (w_promises w1))%nat) l).
      { subst w1. rewrite then_length. exact Hl. }
      destruct (IH w1 Hl1) as (L & F & Rm & En & Sh & Rg & Wt).
      split; [rewrite L; apply then_length |].
      split; [intros q; rewrite F; apply then_fulfilled |].
      split; [intros q; rewrite Rm; apply then_remaining |].
      split; [rewrite En; apply then_engine |].
      split; [| split].
      + intros e. rewrite Sh. unfold join_share. subst w1.
        rewrite then_registered, then_queued. simpl.
        destruct (Nat.eq_dec p e) as [-> | Hne].
        * destruct (pending_or_fulfilled e w Hp) as [[Hpe Hfe] | [Hpe Hfe]].
          -- rewrite decide_True by auto.
             rewrite decide_False by (intros (_ & H); congruence). lia.
          -- rewrite decide_False by (intros (_ & _ & H); congruence).
             rewrite decide_True by auto. lia.
        * rewrite decide_False by (intros (H & _); congruence).
          rewrite decide_False by (intros ([= H] & _); congruence). lia.
      + intros e He. rewrite Rg by (subst w1; rewrite then_fulfilled; exact He).
        subst w1. rewrite then_registered. simpl.
        destruct (Nat.eq_dec p e) as [-> | Hne].
        * destruct (pending_or_fulfilled e w Hp) as [[Hpe Hfe] | [Hpe Hfe]]; [| congruence].
          rewrite decide_True by auto. lia.
        * rewrite decide_False by (intros (H & _); congruence). lia.
      + intros r Hw. apply Wt in Hw as [Hw | (e & He & ->)].
        * subst w1. apply waiting_then in Hw as [Hw | ->]; [left; exact Hw |].
          right. exists p. split; [constructor | reflexivity].
        * right. exists e. split; [constructor; exact He | reflexivity].
  Qed.

Lemma list_sum_count_occ (ps : list nat) :
    NoDup ps -> list_sum (map (count_occ Nat.eq_dec ps) ps) = length ps.
  Proof.
    intros Hnd.
    assert (H : forall l, (forall e, e ∈ l -> e ∈ ps) ->
                          list_sum (map (count_occ Nat.eq_dec ps) l) = length l).
    { induction l as [| x l IH]; intros Hsub; [reflexivity |]. simpl.
      rewrite IH by (intros e He; apply Hsub; constructor; exact He).
      assert (Hx : count_occ Nat.eq_dec ps x = 1%nat).
      { apply NoDup_count_occ'; [apply NoDup_ListNoDup, Hnd |].
        apply list_elem_of_In, Hsub. constructor. }
      rewrite Hx. reflexivity. }
    apply H. auto.
  Qed.

Lemma Promise_all_joins ps w :
    wf w -> NoDup ps -> Forall (fun p => (p < length (w_promises w))%nat) ps ->
    joins (length (w_promises w)) ps (fst (Promise_all ps w)).
  Proof.
    intros Hwf Hnd Hall. unfold Promise_all.
    destruct (new_promise (length ps) w) as [w1 a] eqn:E1.
    assert (Hw1 : w1 = fst (new_promise (length ps) w)) by (rewrite E1; reflexivity).
    assert (Ha : a = length (w_promises w)) by (injection E1; auto).
    subst a. set (a := length (w_promises w)) in *.
    assert (L1 : length (w_promises w1) = S a).
    { rewrite Hw1. apply new_promise_length. }
    assert (Hnone : forall r, a ∈ reaction_refs r -> ~ waiting r w1).
    { intros r Hr Hw. rewrite Hw1 in Hw. apply waiting_new_promise in Hw.
      revert Hw. apply wf_not_waiting; [exact Hwf |].
      rewrite Forall_forall. intros H. specialize (H a Hr). subst a. lia. }
    assert (Hshare1 : forall e, join_share a w1 e = O).
    { intros e. unfold join_share.
      assert (Hr : registered (RResolveElement a e) e w1 = O).
      { destruct (registered (RResolveElement a e) e w1) eqn:Er; [reflexivity |].
        exfalso. apply (Hnone (RResolveElement a e)); [simpl; constructor |].
        right. exists e. lia. }
      assert (Hq : queued (RResolveElement a e) w1 = O).
      { destruct (queued (RResolveElement a e) w1) eqn:Eq; [reflexivity |].
        exfalso. apply (Hnone (RResolveElement a e)); [simpl; constructor |].
        left. lia. }
      lia. }
    assert (Hall1 : Forall (fun p => (p < length (w_promises w1))%nat) ps).
    { eapply Forall_impl; [exact Hall |]. simpl. intros; lia. }
    destruct (register_elements_effect a ps w1 Hall1) as (L & F & Rm & En & Sh & Rg & Wt).
    set (w2 := register_elements a ps w1) in *.
    assert (Hrem2 : remaining a w2 = length ps).
    { rewrite Rm, Hw1. apply new_promise_remaining_new. }
    assert (Hful1 : is_fulfilled a w1 = false).
    { rewrite Hw1, new_promise_fulfilled. unfold is_fulfilled.
      rewrite lookup_ge_None_2; [reflexivity | subst a; lia]. }
    assert (Hsum2 : list_sum (map (join_share a w2) ps) = length ps).
    { rewrite <- (list_sum_count_occ ps Hnd). apply f_equal, map_ext.
      intros e. rewrite Sh, Hshare1. reflexivity. }
    assert (Hbase :
      (a < length (w_promises w2))%nat /\
      (forall e, e ∈ ps -> is_fulfilled e w2 = false ->
                 registered (RResolveElement a e) e w2 = 1%nat) /\
      (forall e, waiting (RResolveElement a e) w2 -> e ∈ ps) /\
      ~ engine_targets a w2 /\
      (forall mv, ~ waiting (RClearAnimation mv a) w2)).
    { split; [lia |]. split; [| split; [| split]].
      - intros e He Hf. rewrite F in Hf. rewrite Rg by exact Hf.
        assert (Hr : registered (RResolveElement a e) e w1 = O).
        { specialize (Hshare1 e). unfold join_share in Hshare1. lia. }
        rewrite Hr. simpl.
        apply NoDup_count_occ'; [apply NoDup_ListNoDup, Hnd | apply list_elem_of_In, He].
      - intros e Hw. apply Wt in Hw as [Hw | (e' & He' & [= ->])]; [| exact He'].
        exfalso. apply (Hnone (RResolveElement a e)); [simpl; constructor | exact Hw].
      - intros (a0 & ea & Hea & _ & Hin). rewrite En, Hw1 in Hea. simpl in Hea.
        pose proof (wf_engine w Hwf a0 ea a Hea Hin). subst a. lia.
      - intros mv Hw. apply Wt in Hw as [Hw | (e' & _ & [=])].
        apply (Hnone (RClearAnimation mv a)); [simpl; constructor | exact Hw]. }
    destruct Hbase as (B1 & B2 & B3 & B4 & B5).
    destruct ps as [| e0 ps0] eqn:Eps; cbn [fst].
    - (* no element: the aggregate is fulfilled at once *)
      assert (Hwf2 : wf w2).
      { subst w2. simpl. rewrite Hw1. apply wf_new_promise, Hwf. }
      split.
      + rewrite resolve_length. exact B1.
      + exact Hnd.
      + rewrite resolve_remaining, Hrem2. reflexivity.
      + intros e He. inversion He.
      + rewrite resolve_remaining, Hrem2, resolve_fulfilled_self by exact B1.
        simpl. tauto.
      + intros e. rewrite waiting_resolve. apply B3.
      + unfold engine_targets. rewrite resolve_engine. exact B4.
      + intros mv. rewrite waiting_resolve. apply B5.
    - rewrite <- Eps in *. split; try assumption.
      + rewrite Hrem2, Hsum2. reflexivity.
      + rewrite F, Hful1, Hrem2, Eps. simpl. split; discriminate.
  Qed.

End PromiseAll.

(** ** The registry of motion values *)

Section Registry.

Variable ext : Externals.
Implicit Types (w : World) (p q : nat) (r : reaction).

Lemma registry_notify subs v w : w_registry (notify subs v w) = w_registry w.
  Proof.
    revert w. induction subs as [| s subs IH]; intros w; simpl; [reflexivity |].
    rewrite IH. destruct s. reflexivity.
  Qed.

Lemma registry_mv_set id v w : w_registry (mv_set id v w) = w_registry w.
  Proof.
    unfold mv_set. destruct (w_values w !! id); [| reflexivity].
    rewrite registry_notify. reflexivity.
  Qed.

Lemma registry_resolve p w : w_registry (resolve_promise p w) = w_registry w.
  Proof.
    unfold resolve_promise. destruct (w_promises w !! p) as [pr |]; [| reflexivity].
    destruct (p_fulfilled pr); reflexivity.
  Qed.

Lemma registry_then p r w : w_registry (then_ p r w) = w_registry w.
  Proof.
    unfold then_. destruct (w_promises w !! p) as [pr |]; [| reflexivity].
    destruct (p_fulfilled pr); reflexivity.
  Qed.

Lemma registry_call_opt cb w : w_registry (call_opt cb w) = w_registry w.
  Proof. destruct cb as [[name | p] |]; simpl; [reflexivity | apply registry_resolve | reflexivity]. Qed.

Lemma registry_mv_stop id w : w_registry (mv_stop id w) = w_registry w.
  Proof.
    unfold mv_stop. destruct (w_values w !! id) as [mv |]; [| reflexivity]. simpl.
    destruct (mv_stopAnimation mv) as [[| a] |]; simpl; try reflexivity.
    unfold engine_stop. destruct (w_engine w !! a) as [ea |]; [| reflexivity].
    destruct (is_running ea); reflexivity.
  Qed.

Lemma registry_run_animation an complete w :
    w_registry (fst (fst (run_animation ext an complete w))) = w_registry w.
  Proof.
    unfold run_animation. destruct (an_set an).
    - unfold animation_set. simpl.
      rewrite !registry_call_opt, registry_mv_set. reflexivity.
    - unfold animation_start. destruct (strict_eq _ _ || strict_eq _ _); [reflexivity |].
      destruct (getPopmotionAnimationOptions _ _ _ _). reflexivity.
  Qed.

Lemma registry_mv_start id an w :
    w_registry (fst (fst (mv_start ext id an w))) = w_registry w.
  Proof.
    unfold mv_start. cbn [new_promise].
    pose proof (registry_run_animation an
                  (Some (CbResolve (length (w_promises (mv_stop id w)))))
                  (set_promises
                     (w_promises (mv_stop id w) ++
                      [{| p_fulfilled := false; p_reactions := []; p_remaining := 0 |}])
                     (mv_stop id w))) as H.
    destruct (run_animation _ _ _ _) as [[w3 h] tr]. cbn [fst snd] in *.
    rewrite registry_then. simpl. rewrite H. simpl. apply registry_mv_stop.
  Qed.

Lemma registry_push key v transition onComplete w k :
    k <> key ->
    table_get (w_registry (fst (push ext key v transition onComplete w))) k =
    table_get (w_registry w) k.
  Proof.
    intros Hk. unfold push.
    destruct (get key _ w) as [w1 id] eqn:E1.
    assert (H1 : table_get (w_registry w1) k = table_get (w_registry w) k).
    { unfold get in E1. destruct (table_get (w_registry w) key).
      - injection E1 as <- _. reflexivity.
      - injection E1 as <- _. simpl.
        induction (w_registry w) as [| [k' i] l IH]; simpl.
        + destruct (String.eqb_spec key k); [congruence | reflexivity].
        + destruct (String.eqb k' k); [reflexivity | exact IH]. }
    destruct (truthy _ && truthy _); cbn [fst].
    - rewrite registry_mv_set. exact H1.
    - pose proof (registry_mv_start id
        (getAnimation ext key id v
           match transition with VUndef => VObj [] | _ => transition end onComplete w1) w1) as H.
      destruct (mv_start _ _ _ _) as [[w2 d] tr']. cbn [fst] in *. rewrite H. exact H1.
  Qed.




Lemma registry_Promise_all ps w :
    w_registry (fst (Promise_all ps w)) = w_registry w.
  Proof.
    unfold Promise_all. cbn [new_promise].
    assert (H : forall a l w0, w_registry (register_elements a l w0) = w_registry w0).
    { unfold register_elements. induction l as [| e l IHl]; intros w0; simpl; [reflexivity |].
      rewrite IHl, registry_then. reflexivity. }
    destruct ps; cbn [fst]; rewrite ?registry_resolve, H; reflexivity.
  Qed.


End Registry.

(** ** [apply] returns the join of the per-property completions *)

Section ApplyJoin.

Variable ext : Externals.
Implicit Types (w : World) (p q : nat) (r : reaction).

Lemma apply_joins variant w w' aggregate ps :
    wf w -> apply ext variant w = (w', Ok (aggregate, ps)) ->
    wf w' /\ joins aggregate (map snd ps) w'.
  Proof.
    intros Hwf E.
    pose proof (steps_apply ext (length (w_promises w)) (fun _ => False) variant w (le_n _))
      as Hsteps.
    rewrite E in Hsteps. cbn [fst] in Hsteps.
    split; [apply (steps_preserve _ _ _ _ Hsteps Hwf) |].
    apply apply_Ok in E as (vo & _ & Hps & -> & ->).
    destruct (steps_apply_pushes ext (length (w_promises w)) (fun _ => False) variant vo w
                (le_n _)) as [H1 [Hnd Hall]].
    rewrite <- Hps in *.
    apply Promise_all_joins.
    - apply (steps_preserve _ _ _ _ H1 Hwf).
    - exact Hnd.
    - eapply Forall_impl; [exact Hall |]. simpl. intros; lia.
  Qed.


End ApplyJoin.

(** ** [leave] *)

Section Leave.

Variable ext : Externals.
Implicit Types (w : World) (p q : nat) (r : reaction).








End Leave.



(** ** Starting an animation while the reaction of an earlier one is queued *)

(** Claim C2 does not hold of the code.  [start] registers
    [() => this.clearAnimation()] on the promise of every animation.  When an
    animation completes synchronously (here through [type: false]) and a
    second animation (number 0 of the engine, towards 0) is started on the
    same property in the same task, that reaction runs at the end of the task
    and clears the stop handle of the second animation while it runs.  From
    then on neither [stop()] nor a third animation (number 1, towards 1) on
    the property cancels it: both animations run together, and when the
    engine completes animation 0 its completion (promise 4) settles, and so
    does the aggregate completion (promise 7) of the [apply] that started
    it. *)
Theorem start_does_not_cancel_after_synchronous_completion :
  let w0 := init_world (VObj []) [("opacity", VInt 0)] in
  let w1 := run_task sample_externals w0
              [AApply (VObj [("opacity", VInt 1);
                             ("transition", VObj [("type", VBool false)])]);
               AApply (VObj [("opacity", VInt 0)])] in
  let stopped := run_task sample_externals w1 [AMvStop 0] in
  let w2 := run_task sample_externals w1 [AApply (VObj [("opacity", VInt 1)])] in
  let w3 := run_task sample_externals w2 [AEngineComplete 0] in
  (map ea_status (w_engine w1) = [Running] /\
   map ea_onComplete (w_engine w1) = [[CbResolve 4; CbResolve 5]] /\
   option_map mv_stopAnimation (w_values w1 !! 0%nat) = Some None /\
   is_fulfilled 4 w1 = false) /\
  map ea_status (w_engine stopped) = [Running] /\
  (map ea_status (w_engine w2) = [Running; Running] /\
   option_map mv_stopAnimation (w_values w2 !! 0%nat) = Some (Some (HEngine 1))) /\
  (map ea_status (w_engine w3) = [Completed; Running] /\
   is_fulfilled 4 w3 = true /\
   is_fulfilled 7 w3 = true /\
   option_map mv_stopAnimation (w_values w3 !! 0%nat) = Some None).
Proof. vm_compute. repeat split. Qed.


(** ** [push] with [transition.immediate] *)

Section PushImmediate.

Variable ext : Externals.
Implicit Types (w : World) (p q : nat) (r : reaction).

Lemma values_notify subs v w : w_values (notify subs v w) = w_values w.
  Proof.
    revert w. induction subs as [| s subs IH]; intros w; simpl; [reflexivity |].
    rewrite IH. destruct s. reflexivity.
  Qed.

Lemma log_notify subs v w : w_log (notify subs v w) = w_log w.
  Proof.
    revert w. induction subs as [| s subs IH]; intros w; simpl; [reflexivity |].
    rewrite IH. destruct s. reflexivity.
  Qed.

Lemma mv_set_lookup id v w mv :
    w_values w !! id = Some mv ->
    w_values (mv_set id v w) !! id = Some (updateAndNotify (w_frame w) v mv).
  Proof.
    intros H. unfold mv_set. rewrite H, values_notify. simpl.
    apply list_lookup_insert_eq. eapply lookup_lt_Some; eauto.
  Qed.

Lemma mv_set_log id v w : w_log (mv_set id v w) = w_log w.
  Proof.
    unfold mv_set. destruct (w_values w !! id); [| reflexivity].
    rewrite log_notify. reflexivity.
  Qed.

Lemma table_get_snoc {A : Type} (l : list (string * A)) (k : string) (x : A) :
    table_get l k = None -> table_get (l ++ [(k, x)]) k = Some x.
  Proof.
    induction l as [| [k' i] l IH]; simpl.
    - intros _. rewrite String.eqb_refl. reflexivity.
    - destruct (String.eqb k' k); [discriminate | exact IH].
  Qed.

  (** [get] returns the motion value [value_before], registered under
      [key]. *)
Lemma get_spec key w :
    live key w ->
    let '(w1, id) := get key (default VUndef (obj_get (w_properties w) key)) w in
    same_view w w1 /\ w_log w1 = w_log w /\ w_frame w1 = w_frame w /\
    table_get (w_registry w1) key = Some id /\
    w_values w1 !! id = Some (value_before key w).
  Proof.
    unfold live, get, value_before.
    destruct (table_get (w_registry w) key) as [id |] eqn:E.
    - intros [mv Hmv]. rewrite Hmv. repeat split; auto.
    - intros _. simpl. repeat split.
      + apply table_get_snoc, E.
      + apply list_lookup_middle. reflexivity.
  Qed.

Lemma push_immediate_effect key v transition onComplete w :
    live key w ->
    truthy transition = true ->
    truthy (get_field transition "immediate") = true ->
    let w' := fst (push ext key v transition onComplete w) in
    same_view w w' /\ w_log w' = w_log w /\
    snd (push ext key v transition onComplete w) = transition /\
    exists id,
      table_get (w_registry w') key = Some id /\
      w_values w' !! id = Some (updateAndNotify (w_frame w) v (value_before key w)).
  Proof.
    intros Hlive Ht Hi. unfold push.
    pose proof (get_spec key w Hlive) as Hget.
    destruct (get key _ w) as [w1 id].
    destruct Hget as (Hsv & Hlog & Hfr & Hreg & Hval).
    assert (Htr : match transition with VUndef => VObj [] | _ => transition end = transition).
    { destruct transition; try reflexivity. discriminate. }
    rewrite Htr, Ht, Hi. cbn [andb fst snd].
    split; [eapply same_view_trans; [exact Hsv | apply same_view_mv_set] |].
    split; [rewrite mv_set_log; exact Hlog |].
    split; [reflexivity |].
    exists id. split.
    - rewrite registry_mv_set. exact Hreg.
    - rewrite <- Hfr. apply mv_set_lookup, Hval.
  Qed.

Lemma push_immediate_quiet key v transition onComplete w :
    truthy transition = true ->
    truthy (get_field transition "immediate") = true ->
    same_view w (fst (push ext key v transition onComplete w)) /\
    snd (push ext key v transition onComplete w) = transition.
  Proof.
    intros Ht Hi. unfold push.
    pose proof (same_view_get key (default VUndef (obj_get (w_properties w) key)) w) as Hsv.
    destruct (get key _ w) as [w1 id]. cbn [fst] in Hsv.
    assert (Htr : match transition with VUndef => VObj [] | _ => transition end = transition).
    { destruct transition; try reflexivity. discriminate. }
    rewrite Htr, Ht, Hi. cbn [andb fst snd].
    split; [| reflexivity].
    eapply same_view_trans; [exact Hsv | apply same_view_mv_set].
  Qed.

Lemma fresh_abandoned k w : wf w -> abandoned (length (w_promises w)) (fst (new_promise k w)).
  Proof.
    intros Hwf. split; [rewrite new_promise_length; lia |]. split.
    - rewrite new_promise_fulfilled. unfold is_fulfilled.
      rewrite lookup_ge_None_2; [reflexivity | lia].
    - intros [(a & ea & Ha & _ & Hin) | (r & Hr & Hw)].
      + simpl in Ha. pose proof (wf_engine w Hwf a ea _ Ha Hin). lia.
      + apply waiting_new_promise in Hw. revert Hw.
        apply wf_not_waiting; [exact Hwf |]. rewrite Forall_forall. intros H.
        specialize (H _ (reaction_target_refs _ _ Hr)). lia.
  Qed.

Lemma obj_get_set_same (o : obj) (k : string) (x : value) :
    obj_get (obj_set o k x) k = Some x.
  Proof.
    induction o as [| [k' v'] o IH]; simpl.
    - rewrite String.eqb_refl. reflexivity.
    - destruct (String.eqb k' k) eqn:E; simpl.
      + rewrite String.eqb_refl. reflexivity.
      + rewrite E. exact IH.
  Qed.

Lemma get_field_set_field (v : value) (k : string) (x : value) :
    get_field v k <> VUndef -> get_field (set_field v k x) k = x.
  Proof.
    destruct v; simpl; try congruence. intros _. rewrite obj_get_set_same. reflexivity.
  Qed.

Lemma immediate_variant_shared variant :
    immediate_variant variant -> truthy (get_field variant "transition") = true.
  Proof.
    unfold immediate_variant.
    destruct (get_field variant "transition"); simpl; try discriminate; auto.
  Qed.

Lemma apply_entry_immediate w variant ps kv :
    wf w -> immediate_variant variant ->
    Forall (fun p => abandoned p w) (map snd ps) ->
    let '(w', variant', ps') := apply_entry ext (w, variant, ps) kv in
    wf w' /\ immediate_variant variant' /\ Forall (fun p => abandoned p w') (map snd ps').
  Proof.
    intros Hwf Himm Hab. destruct kv as [key v]. unfold apply_entry.
    destruct (String.eqb key "transition"); [auto |].
    pose proof (immediate_variant_shared variant Himm) as Hshared.
    cbn [new_promise]. rewrite Hshared.
    set (w1 := set_promises _ w).
    assert (Hw1 : w1 = fst (new_promise 0 w)) by reflexivity.
    destruct (push_immediate_quiet key v (get_field variant "transition")
                (Some (CbResolve (length (w_promises w)))) w1 Hshared Himm) as [Hsv Htr].
    destruct (push _ _ _ _ _ _) as [w2 tr']. cbn [fst snd] in *. subst tr'.
    split; [apply (sv_wf w1); [exact Hsv | rewrite Hw1; apply wf_new_promise, Hwf] |].
    split.
    - unfold immediate_variant. rewrite get_field_set_field; [exact Himm |].
      intros H. rewrite H in Hshared. discriminate.
    - rewrite map_app, Forall_app. split.
      + eapply Forall_impl; [exact Hab |]. simpl. intros p Hp.
        apply (sv_abandoned w1); [exact Hsv |]. rewrite Hw1.
        apply abandoned_new_promise, Hp.
      + constructor; [| constructor]. cbn [snd].
        apply (sv_abandoned w1); [exact Hsv |]. rewrite Hw1. apply fresh_abandoned, Hwf.
  Qed.

Lemma fold_apply_entry_immediate entries w variant ps :
    wf w -> immediate_variant variant ->
    Forall (fun p => abandoned p w) (map snd ps) ->
    let '(w', variant', ps') := fold_left (apply_entry ext) entries (w, variant, ps) in
    wf w' /\ Forall (fun p => abandoned p w') (map snd ps').
  Proof.
    revert w variant ps. induction entries as [| kv entries IH]; intros w variant ps Hwf Hi Hab.
    - simpl. auto.
    - cbn [fold_left].
      pose proof (apply_entry_immediate w variant ps kv Hwf Hi Hab) as H.
      destruct (apply_entry ext (w, variant, ps) kv) as [[w1 variant1] ps1].
      destruct H as (Hwf1 & Hi1 & Hab1). apply IH; assumption.
  Qed.

Lemma abandoned_register_elements a l w q :
    a <> q -> abandoned q w -> abandoned q (register_elements a l w).
  Proof.
    intros Hne. unfold register_elements. revert w.
    induction l as [| e l IH]; intros w Hq; simpl; [exact Hq |].
    apply IH. apply abandoned_then_target; [| exact Hq]. simpl. congruence.
  Qed.

Lemma abandoned_Promise_all ps w q :
    abandoned q w -> abandoned q (fst (Promise_all ps w)).
  Proof.
    intros Hq. unfold Promise_all. cbn [new_promise].
    assert (Hne : length (w_promises w) <> q) by (destruct Hq; lia).
    assert (H : abandoned q (register_elements (length (w_promises w)) ps
                               (fst (new_promise (length ps) w)))).
    { apply abandoned_register_elements; [exact Hne |]. apply abandoned_new_promise, Hq. }
    destruct ps; cbn [fst]; [apply abandoned_resolve; [exact Hne |] |]; exact H.
  Qed.

Lemma apply_immediate_abandoned variant w w' aggregate ps vo :
    wf w -> apply ext variant w = (w', Ok (aggregate, ps)) ->
    resolve_variant variant w = Ok vo -> immediate_variant vo ->
    Forall (fun p => abandoned p w') (map snd ps).
  Proof.
    intros Hwf E Hvo Himm.
    apply apply_Ok in E as (vo' & Hvo' & Hps & -> & _).
    rewrite Hvo in Hvo'. injection Hvo' as <-.
    unfold apply_pushes in *.
    pose proof (fold_apply_entry_immediate (Object_entries vo) w vo [] Hwf Himm
                  ltac:(constructor)) as H.
    destruct (fold_left _ _ _) as [[w1 vo1] ps1]. cbn [fst snd] in *. subst ps1.
    destruct H as [Hwf1 Hab].
    eapply Forall_impl; [exact Hab |]. simpl. intros p Hp.
    apply abandoned_Promise_all.
    apply (sv_abandoned w1); [| exact Hp]. unfold write_back. destruct variant; repeat split.
  Qed.

End PushImmediate.



(** ** The immediate-set strategy of [getAnimation] *)

Section SetStrategy.

Variable ext : Externals.

Lemma values_resolve p w : w_values (resolve_promise p w) = w_values w.
  Proof.
    unfold resolve_promise. destruct (w_promises w !! p) as [pr |]; [| reflexivity].
    destruct (p_fulfilled pr); reflexivity.
  Qed.

Lemma values_then p r w : w_values (then_ p r w) = w_values w.
  Proof.
    unfold then_. destruct (w_promises w !! p) as [pr |]; [| reflexivity].
    destruct (p_fulfilled pr); reflexivity.
  Qed.

Lemma values_call_opt cb w : w_values (call_opt cb w) = w_values w.
  Proof. destruct cb as [[name | p] |]; simpl; auto using values_resolve. Qed.

Lemma engine_call_opt cb w : w_engine (call_opt cb w) = w_engine w.
  Proof. destruct cb as [[name | p] |]; simpl; auto using resolve_engine. Qed.

Lemma log_call_opt cb w : w_log (call_opt cb w) = (w_log w ++ callback_log cb)%list.
  Proof.
    destruct cb as [[name | p] |]; simpl.
    - reflexivity.
    - rewrite resolve_log, app_nil_r. reflexivity.
    - rewrite app_nil_r. reflexivity.
  Qed.

Lemma length_call_opt cb w :
    length (w_promises (call_opt cb w)) = length (w_promises w).
  Proof. destruct cb as [[name | p] |]; simpl; auto using resolve_length. Qed.

Lemma resolve_fulfilled_mono p w q :
    is_fulfilled q w = true -> is_fulfilled q (resolve_promise p w) = true.
  Proof.
    intros H. rewrite resolve_fulfilled. destruct (decide _); [reflexivity | exact H].
  Qed.

Lemma call_opt_fulfilled_mono cb w q :
    is_fulfilled q w = true -> is_fulfilled q (call_opt cb w) = true.
  Proof. destruct cb as [[name | p] |]; simpl; auto using resolve_fulfilled_mono. Qed.

Lemma lookup_alter_same {A : Type} (f : A -> A) (l : list A) (i : nat) (x : A) :
    l !! i = Some x -> alter f i l !! i = Some (f x).
  Proof.
    intros H. rewrite list_lookup_alter, H.
    destruct (decide (i = i)); [reflexivity | congruence].
  Qed.

Lemma mv_stop_effect id w mv :
    w_values w !! id = Some mv ->
    w_values (mv_stop id w) !! id = Some (clearAnimation mv) /\
    length (w_engine (mv_stop id w)) = length (w_engine w) /\
    w_log (mv_stop id w) = w_log w /\
    w_promises (mv_stop id w) = w_promises w /\
    w_frame (mv_stop id w) = w_frame w.
  Proof.
    intros Hmv. unfold mv_stop. rewrite Hmv.
    assert (H : forall h,
               w_values (call_handle h w) = w_values w /\
               length (w_engine (call_handle h w)) = length (w_engine w) /\
               w_log (call_handle h w) = w_log w /\
               w_promises (call_handle h w) = w_promises w /\
               w_frame (call_handle h w) = w_frame w).
    { intros [| a]; simpl; [auto |]. unfold engine_stop.
      destruct (w_engine w !! a) as [ea |]; [| auto].
      destruct (is_running ea); [| auto]. simpl.
      rewrite length_insert. auto. }
    destruct (mv_stopAnimation mv) as [h |]; simpl.
    - destruct (H h) as (Hv & He & Hl & Hp & Hf). rewrite Hv.
      rewrite (lookup_alter_same _ _ _ _ Hmv). auto.
    - rewrite (lookup_alter_same _ _ _ _ Hmv). auto.
  Qed.

Lemma animation_set_effect an complete w mv :
    w_values w !! an_value an = Some mv ->
    let w' := fst (animation_set an complete w) in
    w_values w' !! an_value an = Some (updateAndNotify (w_frame w) (an_target an) mv) /\
    w_engine w' = w_engine w /\
    w_log w' = (w_log w
                ++ callback_log (as_callback (get_field (an_transition an) "onComplete"))
                ++ callback_log (an_onComplete an) ++ callback_log complete)%list /\
    length (w_promises w') = length (w_promises w) /\
    (forall p, an_onComplete an = Some (CbResolve p) \/ complete = Some (CbResolve p) ->
               (p < length (w_promises w))%nat -> is_fulfilled p w' = true).
  Proof.
    intros Hmv. unfold animation_set. cbn [fst].
    set (w1 := mv_set (an_value an) (an_target an) w).
    destruct (same_view_mv_set (an_value an) (an_target an) w) as (Hp & _ & He & _).
    fold w1 in Hp, He.
    split; [rewrite !values_call_opt; apply mv_set_lookup, Hmv |].
    split; [rewrite !engine_call_opt; exact He |].
    split.
    { rewrite !log_call_opt. unfold w1. rewrite mv_set_log, <- !app_assoc. reflexivity. }
    split; [rewrite !length_call_opt, Hp; reflexivity |].
    intros p [Hc | Hc] Hlt; rewrite Hc.
    - apply call_opt_fulfilled_mono. cbn [call_opt call].
      apply resolve_fulfilled_self. rewrite length_call_opt, Hp. exact Hlt.
    - cbn [call_opt call].
      apply resolve_fulfilled_self. rewrite !length_call_opt, Hp. exact Hlt.
  Qed.

Lemma truthy_field_object transition k :
    truthy (get_field transition k) = true -> truthy transition = true.
  Proof. destruct transition; simpl; try discriminate; auto. Qed.

Lemma push_set_effect key target t onComplete w :
    let transition := VObj t in
    let valueTransition := getValueTransition transition key in
    let origin := animation_origin ext key (mv_current (value_before key w)) target
                    valueTransition in
    live key w ->
    truthy (get_field transition "immediate") = false ->
    negb (isAnimatable ext key origin) || negb (isAnimatable ext key target)
      || strict_eq (get_field valueTransition "type") (VBool false) = true ->
    let w' := fst (push ext key target transition onComplete w) in
    (exists id mv',
        table_get (w_registry w') key = Some id /\
        w_values w' !! id = Some mv' /\
        mv_current mv' = target /\
        mv_stopAnimation mv' = Some HNoop) /\
    length (w_engine w') = length (w_engine w) /\
    w_log w' = (w_log w
                ++ callback_log (as_callback (get_field transition "onComplete"))
                ++ callback_log onComplete)%list /\
    (forall p, onComplete = Some (CbResolve p) -> (p < length (w_promises w))%nat ->
               is_fulfilled p w' = true).
  Proof.
    intros transition valueTransition origin Hlive Himm Hset w'.
    subst w'. unfold push.
    pose proof (get_spec key w Hlive) as Hget.
    destruct (get key _ w) as [w1 id].
    destruct Hget as ((Hp1 & _ & He1 & _) & Hl1 & Hf1 & Hreg & Hval).
    change (match transition with VUndef => VObj [] | _ => transition end) with transition.
    change (truthy transition) with true. rewrite Himm.
    cbn [andb].
    unfold mv_start.
    destruct (mv_stop_effect id w1 _ Hval) as (Hv2 & He2 & Hl2 & Hp2 & Hf2).
    set (w2 := mv_stop id w1) in *.
    cbn [new_promise].
    set (w3 := set_promises _ w2).
    set (an := getAnimation ext key id target transition onComplete w1).
    assert (Han : an_set an = true).
    { unfold an, getAnimation. cbn [an_set]. unfold current_of. rewrite Hval. exact Hset. }
    unfold run_animation. rewrite Han.
    assert (Hv3 : w_values w3 !! an_value an = Some (clearAnimation (value_before key w)))
      by exact Hv2.
    destruct (animation_set_effect an (Some (CbResolve (length (w_promises w2)))) w3 _ Hv3)
      as (Hv4 & He4 & Hl4 & Hn4 & Hful).
    destruct (animation_set an _ w3) as [w4 h] eqn:E4.
    assert (Hh : h = HNoop).
    { unfold animation_set in E4. injection E4 as _ <-. reflexivity. }
    subst h. cbn [fst snd] in *.
    split.
    { exists id. eexists. split; [| split].
      - rewrite registry_then. simpl.
        assert (Hr : w_registry w4 = w_registry w1).
        { pose proof (registry_mv_start ext id an w1) as H.
          unfold mv_start in H. fold w2 in H. cbn [new_promise] in H. fold w3 in H.
          unfold run_animation in H. rewrite Han, E4 in H. cbn [fst snd] in H.
          rewrite registry_then in H. exact H. }
        rewrite Hr. exact Hreg.
      - rewrite values_then. simpl.
        change (an_value an) with id in Hv4. apply lookup_alter_same, Hv4.
      - split; reflexivity. }
    split.
    { rewrite then_engine. simpl. rewrite He4. change (w_engine w3) with (w_engine w2).
      rewrite He2, He1. reflexivity. }
    split.
    { rewrite then_log. simpl. rewrite Hl4. change (w_log w3) with (w_log w2).
      rewrite Hl2, Hl1. cbn [an an_transition an_onComplete getAnimation callback_log].
      rewrite app_nil_r. reflexivity. }
    intros p Hc Hlt. rewrite then_fulfilled.
    change (is_fulfilled p (set_promises
              (w_promises (update_value id (set_stopAnimation HNoop) w4) ++
               [{| p_fulfilled := false; p_reactions := []; p_remaining := 0 |}])
              (update_value id (set_stopAnimation HNoop) w4)))
      with (is_fulfilled p (fst (new_promise 0 (update_value id (set_stopAnimation HNoop) w4)))).
    rewrite new_promise_fulfilled.
    rewrite (sv_fulfilled w4 _ (same_view_update_value id _ w4)).
    apply Hful; [left; exact Hc |].
    unfold w3. simpl. rewrite length_app. rewrite Hp2, Hp1. lia.
  Qed.

End SetStrategy.

(** ** The host's reading of [apply] *)

Lemma obj_get_set_other (o : obj) (k k' : string) (x : value) :
  k' <> k -> obj_get (obj_set o k x) k' = obj_get o k'.
Proof.
  intros Hne. induction o as [| [k0 y] o IH]; simpl.
  - destruct (String.eqb k k') eqn:E; [| reflexivity].
    apply String.eqb_eq in E. congruence.
  - destruct (String.eqb k0 k) eqn:E0; simpl.
    + apply String.eqb_eq in E0. subst k0.
      destruct (String.eqb k k') eqn:E; [| reflexivity].
      apply String.eqb_eq in E. congruence.
    + destruct (String.eqb k0 k'); [reflexivity | exact IH].
Qed.




Section HostReading.

Variable ext : Externals.


Lemma Host_getDefaultTransition_ordinary (key : string) (to : value) :
  inherited key = false ->
  Host.getDefaultTransition ext key to = Host.Normal (getDefaultTransition ext key to).
Proof.
  intros H. unfold Host.getDefaultTransition, getDefaultTransition.
  destruct (isKeyframesTarget to); [reflexivity |].
  destruct (table_get (defaultTransitions ext) key); [reflexivity |].
  rewrite H. reflexivity.
Qed.

Lemma Host_get_ordinary (key : string) (from : value) (w : World) :
  inherited key = false ->
  Host.get key from w = (fst (get key from w), Host.EMotionValue (snd (get key from w))).
Proof.
  intros H. unfold Host.get, get.
  destruct (table_get (w_registry w) key); [reflexivity |].
  rewrite (Object_prototype_member_ordinary key H). reflexivity.
Qed.

(** The variant that a name stands for is the same in both readings when
    the own entry is there. *)
Lemma Host_getVariantFromKey_Ok (name : string) (w : World) (vo : value) :
  getVariantFromKey name w = Ok vo -> Host.getVariantFromKey name w = Host.Normal vo.
Proof.
  unfold getVariantFromKey, Host.getVariantFromKey.
  destruct (truthy (w_variants w)) eqn:Ev; [| discriminate]. cbn [negb orb].
  destruct (truthy (get_field (w_variants w) name)) eqn:Et; [| discriminate].
  cbn [negb]. intros [= <-].
  destruct (w_variants w) as [| | | | | | table |]; try discriminate.
  unfold member. cbn [Object_entries get_field] in *.
  destruct (obj_get table name) as [x |]; [| discriminate].
  change (default VUndef (Some x)) with x in *. rewrite Et. reflexivity.
Qed.














Lemma no_rejection_init (w : World) : Host.no_rejection (Host.init w).
Proof.
  split; [reflexivity |]. cbn. apply Forall_forall. intros j Hin.
  apply list_elem_of_In in Hin. apply in_map_iff in Hin as (r & <- & _). eauto.
Qed.


End HostReading.

(** *** The two readings agree

    The functions of the program only ever add to the end of the microtask
    queue: they commute with [queue_before].  So the host's reading, which
    keeps the queue apart, does to [Host.init w] what the program does to
    [w], as long as no lookup meets an inherited name and nothing throws. *)

Section QueueParametric.

Variable ext : Externals.
Variable m : list reaction.
Implicit Types (w : World).

Lemma Q_get key from w : get key from (queue_before m w) = (queue_before m (fst (get key from w)), snd (get key from w)).
Proof. unfold get. cbn. destruct (table_get (w_registry w) key); reflexivity. Qed.

Lemma Q_notify subs v w : notify subs v (queue_before m w) = queue_before m (notify subs v w).
Proof.
  unfold notify. revert w. induction subs as [| [key] subs IH]; intros w; [reflexivity |].
  cbn [fold_left]. rewrite <- IH. reflexivity.
Qed.

Lemma Q_mv_set id v w : mv_set id v (queue_before m w) = queue_before m (mv_set id v w).
Proof.
  unfold mv_set. cbn [w_values queue_before set_microtasks w_frame].
  destruct (w_values w !! id); [| reflexivity].
  rewrite <- Q_notify. reflexivity.
Qed.

Lemma Q_update_value id f w : update_value id f (queue_before m w) = queue_before m (update_value id f w).
Proof. reflexivity. Qed.

Lemma Q_engine_stop a w : engine_stop a (queue_before m w) = queue_before m (engine_stop a w).
Proof.
  unfold engine_stop. cbn [w_engine queue_before set_microtasks].
  destruct (w_engine w !! a) as [ea |]; [| reflexivity].
  destruct (is_running ea); reflexivity.
Qed.

Lemma Q_mv_stop id w : mv_stop id (queue_before m w) = queue_before m (mv_stop id w).
Proof.
  unfold mv_stop. cbn [w_values queue_before set_microtasks].
  destruct (w_values w !! id) as [mv |]; [| reflexivity].
  destruct (mv_stopAnimation mv) as [[| a] |]; cbn [call_handle];
    rewrite ?Q_engine_stop; reflexivity.
Qed.

Lemma Q_new_promise n w :
  new_promise n (queue_before m w) = (queue_before m (fst (new_promise n w)), snd (new_promise n w)).
Proof. reflexivity. Qed.

Lemma Q_resolve_promise p w : resolve_promise p (queue_before m w) = queue_before m (resolve_promise p w).
Proof.
  unfold resolve_promise. cbn [w_promises queue_before set_microtasks].
  destruct (w_promises w !! p) as [pr |]; [| reflexivity].
  destruct (p_fulfilled pr); [reflexivity |].
  unfold queue_before.
  cbn [set_microtasks set_promises w_microtasks w_promises w_frame w_variants w_properties
       w_registry w_values w_engine w_log].
  rewrite <- app_assoc. reflexivity.
Qed.

Lemma Q_then p r w : then_ p r (queue_before m w) = queue_before m (then_ p r w).
Proof.
  unfold then_. cbn [w_promises queue_before set_microtasks].
  destruct (w_promises w !! p) as [pr |]; [| reflexivity].
  destruct (p_fulfilled pr); [| reflexivity].
  unfold queue_before.
  cbn [set_microtasks set_promises w_microtasks w_promises w_frame w_variants w_properties
       w_registry w_values w_engine w_log].
  rewrite <- app_assoc. reflexivity.
Qed.

Lemma Q_call_opt cb w : call_opt cb (queue_before m w) = queue_before m (call_opt cb w).
Proof.
  destruct cb as [[name | p] |]; cbn [call_opt call]; [reflexivity | apply Q_resolve_promise |
    reflexivity].
Qed.

Lemma Q_run_animation an complete w :
  run_animation ext an complete (queue_before m w) =
  (queue_before m (fst (fst (run_animation ext an complete w))),
   snd (fst (run_animation ext an complete w)),
   snd (run_animation ext an complete w)).
Proof.
  unfold run_animation. destruct (an_set an).
  - unfold animation_set. cbn [fst snd]. rewrite Q_mv_set, !Q_call_opt. reflexivity.
  - unfold animation_start. cbn [w_values queue_before set_microtasks].
    destruct (_ || _).
    + reflexivity.
    + destruct (getPopmotionAnimationOptions _ _ _ _). reflexivity.
Qed.

Lemma Q_getAnimation key id target transition onComplete w :
  getAnimation ext key id target transition onComplete (queue_before m w) =
  getAnimation ext key id target transition onComplete w.
Proof. reflexivity. Qed.

Lemma Q_mv_start id an w :
  mv_start ext id an (queue_before m w) =
  (queue_before m (fst (fst (mv_start ext id an w))),
   snd (fst (mv_start ext id an w)),
   snd (mv_start ext id an w)).
Proof.
  unfold mv_start.
  destruct (new_promise 0 (mv_stop id w)) as [w0 p] eqn:E0.
  rewrite Q_mv_stop, Q_new_promise, E0. cbn [fst snd].
  destruct (run_animation ext an (Some (CbResolve p)) w0) as [[w1 h] t] eqn:E1.
  rewrite Q_run_animation, E1. cbn [fst snd].
  destruct (new_promise 0 (update_value id (set_stopAnimation h) w1)) as [w2 d] eqn:E2.
  rewrite Q_update_value, Q_new_promise, E2. cbn [fst snd]. rewrite Q_then. reflexivity.
Qed.

Lemma Q_push key v transition onComplete w :
  push ext key v transition onComplete (queue_before m w) =
  (queue_before m (fst (push ext key v transition onComplete w)),
   snd (push ext key v transition onComplete w)).
Proof.
  unfold push. cbn [w_properties queue_before set_microtasks].
  change (set_microtasks (m ++ w_microtasks w) w) with (queue_before m w).
  rewrite Q_get.
  destruct (get key _ w) as [w1 id]. cbn [fst snd].
  destruct (_ && _).
  - rewrite Q_mv_set. reflexivity.
  - rewrite Q_getAnimation, Q_mv_start.
    destruct (mv_start ext id _ w1) as [[w2 d] t]. reflexivity.
Qed.

End QueueParametric.

Section HostAgreement.

Variable ext : Externals.
Implicit Types (w : World).

Lemma queue_before_split w : queue_before (w_microtasks w) (set_microtasks [] w) = w.
Proof. destruct w. unfold queue_before. cbn. rewrite app_nil_r. reflexivity. Qed.

Lemma Host_with_world_init w w1 :
  Host.with_world w1 (Host.init w) = Host.init (queue_before (w_microtasks w) w1).
Proof.
  unfold Host.with_world, Host.init, Host.flush, queue_before.
  cbn [Host.h_rejected Host.h_jobs w_microtasks set_microtasks app].
  rewrite map_app. reflexivity.
Qed.

Lemma Host_with_world_step w w1 w2 :
  queue_before (w_microtasks w) w1 = w2 -> Host.with_world w1 (Host.init w) = Host.init w2.
Proof. intros <-. apply Host_with_world_init. Qed.

Lemma Host_lift_init (f : World -> World) w :
  (forall m w, f (queue_before m w) = queue_before m (f w)) ->
  Host.lift f (Host.init w) = Host.init (f w).
Proof.
  intros Hf. unfold Host.lift. apply Host_with_world_step.
  rewrite <- Hf. change (Host.h_world (Host.init w)) with (set_microtasks [] w).
  rewrite queue_before_split. reflexivity.
Qed.

Lemma Host_then_init p r w : Host.then_ p r (Host.init w) = Host.init (then_ p r w).
Proof.
  unfold Host.then_. change (Host.is_rejected p (Host.init w)) with false. cbv iota.
  apply Host_lift_init. intros m w'. apply Q_then.
Qed.

Lemma not_callable_false (f : value) (b : bool) :
  callable_or_falsy f -> b && truthy f && negb (Host.is_function f) = false.
Proof.
  intros H. destruct (truthy f) eqn:E; [| rewrite andb_false_r; reflexivity].
  destruct (H E) as [name ->]. cbn. rewrite !andb_false_r. reflexivity.
Qed.

Lemma Host_mv_start_init id an w :
  callable_or_falsy (get_field (an_transition an) "onComplete") ->
  Host.mv_start ext id an (Host.init w) =
  (Host.init (fst (fst (mv_start ext id an w))),
   snd (fst (mv_start ext id an w)),
   snd (mv_start ext id an w)).
Proof.
  intros Hc. unfold Host.mv_start. rewrite (not_callable_false _ _ Hc).
  pose proof (Q_mv_start ext (w_microtasks w) id an (set_microtasks [] w)) as HQ.
  rewrite queue_before_split in HQ. rewrite HQ. clear HQ.
  change (Host.h_world (Host.init w)) with (set_microtasks [] w).
  generalize (set_microtasks [] w). intros w0. cbn [fst snd].
  unfold mv_start.
  destruct (new_promise 0 (mv_stop id w0)) as [wA p].
  destruct (run_animation ext an (Some (CbResolve p)) wA) as [[wB h] t].
  generalize (update_value id (set_stopAnimation h) wB). intros U.
  rewrite Host_with_world_init. set (X := queue_before (w_microtasks w) U).
  change (Host.h_world (Host.init X)) with (set_microtasks [] X).
  unfold new_promise. cbn [fst snd].
  rewrite (Host_with_world_step X _ (fst (new_promise 0 X))).
  2: { unfold X, new_promise, queue_before. destruct U. cbn. rewrite app_nil_r. reflexivity. }
  rewrite Host_then_init. unfold X. rewrite Q_new_promise. cbn [fst snd new_promise].
  rewrite Q_then. reflexivity.
Qed.

Lemma Host_push_init key v transition onComplete w :
  inherited key = false ->
  transition <> VNull ->
  callable_or_falsy
    (get_field (match transition with VUndef => VObj [] | _ => transition end) "onComplete") ->
  Host.push ext key v transition onComplete (Host.init w) =
  (Host.init (fst (push ext key v transition onComplete w)),
   Host.Normal (snd (push ext key v transition onComplete w))).
Proof.
  intros Hord Hnull Hc. unfold Host.push.
  rewrite (member_ordinary _ _ Hord), (Host_get_ordinary _ _ _ Hord).
  change (Host.h_world (Host.init w)) with (set_microtasks [] w).
  change (get_field (VObj (w_properties (set_microtasks [] w))) key)
    with (default VUndef (obj_get (w_properties w) key)).
  pose proof (Q_push ext (w_microtasks w) key v transition onComplete (set_microtasks [] w))
    as HQ.
  rewrite queue_before_split in HQ. rewrite HQ. clear HQ.
  unfold push. cbn [w_properties set_microtasks].
  change {| w_frame := w_frame w; w_variants := w_variants w; w_properties := w_properties w;
            w_registry := w_registry w; w_values := w_values w; w_engine := w_engine w;
            w_promises := w_promises w; w_microtasks := []; w_log := w_log w |}
    with (set_microtasks [] w).
  destruct (get key (default VUndef (obj_get (w_properties w) key)) (set_microtasks [] w))
    as [w1 id].
  cbn [fst snd]. rewrite Host_with_world_init.
  set (t0 := match transition with VUndef => VObj [] | _ => transition end) in *.
  assert (Ht0 : t0 <> VNull) by (unfold t0; destruct transition; congruence).
  destruct (truthy t0 && truthy (get_field t0 "immediate")).
  - rewrite (Host_lift_init _ _ (fun m w' => Q_mv_set m id v w')), Q_mv_set. reflexivity.
  - change (getAnimation ext key id v t0 onComplete
              (Host.h_world (Host.init (queue_before (w_microtasks w) w1))))
      with (getAnimation ext key id v t0 onComplete w1).
    rewrite (Host_mv_start_init id (getAnimation ext key id v t0 onComplete w1)
               (queue_before (w_microtasks w) w1) Hc).
    rewrite Q_mv_start.
    destruct (mv_start ext id (getAnimation ext key id v t0 onComplete w1) w1) as [[w2 d] t].
    destruct t0; try reflexivity. congruence.
Qed.








End HostAgreement.



(** Claim C3, as stated, does not hold when the transition has the
    [immediate] flag: [push] then returns before [getAnimation] is reached.
    With the variant [{zIndex: 5, transition: {immediate: true}}] the
    property [zIndex] is not animatable and its value is written at once,
    but the completion of the property is not settled when the tick ends,
    nor after any later task. *)
Lemma immediate_flag_counterexample :
  let variant :=
    VObj [("zIndex", VInt 5); ("transition", VObj [("immediate", VBool true)])] in
  let w := init_world (VObj []) [("zIndex", VInt 0)] in
  isAnimatable sample_externals "zIndex" (VInt 5) = false /\
  exists w' aggregate p,
    apply sample_externals variant w = (w', Ok (aggregate, [("zIndex", p)])) /\
    obj_get (w_properties w') "zIndex" = Some (VInt 5) /\
    w_engine w' = [] /\
    is_fulfilled p (drain w') = false /\
    is_fulfilled aggregate (drain w') = false /\
    forall tasks, is_fulfilled p (run_tasks sample_externals tasks w') = false.
Proof.
  split; [reflexivity |].
  eexists _, _, _. split; [vm_compute; reflexivity |].
  split; [reflexivity |]. split; [reflexivity |].
  split; [vm_compute; reflexivity |]. split; [vm_compute; reflexivity |].
  intros tasks.
  set (variant := VObj [("zIndex", VInt 5); ("transition", VObj [("immediate", VBool true)])]).
  set (w := init_world (VObj []) [("zIndex", VInt 0)]).
  assert (E : apply sample_externals variant w =
              (fst (apply sample_externals variant w), Ok (1%nat, [("zIndex", 0%nat)])))
    by (vm_compute; reflexivity).
  pose proof (apply_immediate_abandoned sample_externals variant w _ _ _ variant
                (wf_init_world _ _) E eq_refl eq_refl) as Hab.
  apply Forall_inv in Hab. cbn [snd] in Hab.
  destruct (apply_joins sample_externals variant w _ _ _ (wf_init_world _ _) E) as [Hwf _].
  destruct (run_tasks_preserved sample_externals tasks _ Hwf) as (_ & _ & _ & _ & B).
  apply (B _ Hab).
Qed.

(** Claim C3 (amended).  No value is animatable for the key [zIndex]; for
    another key the animatable values are the numbers, the arrays and the
    strings that pass the complex-value test and do not start with [url(].
    Take a [push] for a key that is not the name of a member of
    [Object.prototype], with a transition object whose [immediate] flag is
    not truthy and whose [onComplete] is a function or falsy.  When the
    origin or the target is not animatable, or the type of the value
    transition is the literal [false], the target is written into the motion
    value, the [onComplete] of the transition and the completion callback of
    the call are called before [push] returns (so a completion that resolves
    a promise has settled it by then), the stop handle of the motion value is
    the function that does nothing, and the engine gets no new animation.
    [push] returns and rejects no promise: the host's reading of it, where a
    call can throw and a promise can be rejected, gives the same world. *)
Theorem immediate_set_strategy (ext : Externals) (w : World) (key : string)
    (target : value) (t : obj) (onComplete : option callback) :
  let transition := VObj t in
  let valueTransition := getValueTransition transition key in
  let origin :=
    animation_origin ext key (mv_current (value_before key w)) target valueTransition in
  live key w ->
  inherited key = false ->
  truthy (get_field transition "immediate") = false ->
  callable_or_falsy (get_field transition "onComplete") ->
  isAnimatable ext key origin = false \/
  isAnimatable ext key target = false \/
  strict_eq (get_field valueTransition "type") (VBool false) = true ->
  let w' := fst (push ext key target transition onComplete w) in
  (forall k v,
     isAnimatable ext k v =
     negb (String.eqb k "zIndex") &&
     (is_number v || is_array v ||
      match v with
      | VStr s => complex_test ext s && negb (startsWith s "url(")
      | _ => false
      end)) /\
  (exists id mv',
     table_get (w_registry w') key = Some id /\
     w_values w' !! id = Some mv' /\
     mv_current mv' = target /\
     mv_stopAnimation mv' = Some HNoop) /\
  length (w_engine w') = length (w_engine w) /\
  w_log w' = (w_log w
              ++ callback_log (as_callback (get_field transition "onComplete"))
              ++ callback_log onComplete)%list /\
  (forall p, onComplete = Some (CbResolve p) -> (p < length (w_promises w))%nat ->
             is_fulfilled p w' = true) /\
  Host.push ext key target transition onComplete (Host.init w) =
    (Host.init w', Host.Normal (snd (push ext key target transition onComplete w))) /\
  Host.no_rejection (fst (Host.push ext key target transition onComplete (Host.init w))).
Proof.
  intros transition valueTransition origin Hlive Hord Himm Hcall Hset w'.
  split.
  { intros k v. unfold isAnimatable.
    destruct (String.eqb k "zIndex"); [reflexivity |].
    destruct (is_number v || is_array v); reflexivity. }
  assert (Hbase : isAnimatable ext key origin = false \/
                  isAnimatable ext key target = false \/
                  strict_eq (get_field valueTransition "type") (VBool false) = true ->
                  negb (isAnimatable ext key origin) || negb (isAnimatable ext key target)
                  || strict_eq (get_field valueTransition "type") (VBool false) = true).
  { intros [H | [H | H]]; rewrite H; cbn [negb orb]; rewrite ?orb_true_r; reflexivity. }
  destruct (push_set_effect ext key target t onComplete w Hlive Himm (Hbase Hset))
    as (H1 & H2 & H3 & H4).
  split; [exact H1 |]. split; [exact H2 |]. split; [exact H3 |]. split; [exact H4 |].
  assert (Hnull : transition <> VNull) by discriminate.
  rewrite (Host_push_init ext key target transition onComplete w Hord Hnull Hcall).
  split; [reflexivity | apply no_rejection_init].
Qed.

Lemma immediate_set_strategy_witness :
  let w := fst (new_promise 0 (init_world (VObj []) [("display", VStr "none")])) in
  let transition := VObj [("onComplete", VFun "finished")] in
  let w' := fst (push sample_externals "display" (VStr "block") transition
                   (Some (CbResolve 0)) w) in
  isAnimatable sample_externals "display" (VStr "block") = false /\
  obj_get (w_properties w') "display" = Some (VStr "block") /\
  w_engine w' = [] /\
  w_log w' = [LogCall "finished" []] /\
  is_fulfilled 0 w' = true.
Proof.
  pose proof (immediate_set_strategy sample_externals
                (fst (new_promise 0 (init_world (VObj []) [("display", VStr "none")])))
                "display" (VStr "block") [("onComplete", VFun "finished")]
                (Some (CbResolve 0%nat))) as H.
  cbv zeta in H.
  destruct H as (_ & _ & He & Hl & Hp & _).
  - exact I.
  - reflexivity.
  - reflexivity.
  - intros _. eexists. reflexivity.
  - right. left. reflexivity.
  - split; [reflexivity |].
    split; [vm_compute; reflexivity |].
    split; [apply length_zero_iff_nil; exact He |].
    split; [exact Hl |].
    apply (Hp 0%nat); [reflexivity | simpl; lia].
Defined.




(** * Further properties of the module *)

(** ** MotionValue: the velocity check *)

Lemma Qred_zero (q : Q) : (q == 0)%Q -> Qred q = 0%Q.
Proof. intros H. rewrite (Qred_complete _ _ H). reflexivity. Qed.

Lemma num_sub_self (q : Q) : num_sub (Fin q) (Fin q) = Fin 0.
Proof.
  unfold num_sub, num_neg, num_add, fin. f_equal. apply Qred_zero.
  rewrite Qred_correct. ring.
Qed.

Lemma num_mul_zero_div (d : num) :
  num_truthy d = true -> num_mul (Fin 0) (num_div (of_Z 1000) d) = Fin 0.
Proof.
  destruct d as [| s | x]; simpl; [discriminate | |].
  - intros _. reflexivity.
  - intros Hx. apply negb_true_iff in Hx. rewrite Hx.
    unfold num_mul, fin. reflexivity.
Qed.

(** [velocityCheck] at a timestamp other than that of the last update sets
    the previous value to the current one: a value whose current value reads
    as a finite number then has velocity 0.  A check within the frame of the
    last update leaves the velocity of a tracked value as it is. *)
Theorem velocityCheck_resets_velocity (ext : Externals) (mv : MotionValue) (ts : num) :
  (forall v d, velocityPerSecond ext v d =
     if num_truthy d then num_mul v (num_div (of_Z 1000) d) else Fin 0) ->
  (forall q, parseFloat (mv_current mv) = Fin q ->
     num_eqb ts (mv_lastUpdated mv) = false ->
     getVelocity ext (velocityCheck ts mv) = Fin 0) /\
  (mv_canTrackVelocity mv = true ->
   num_eqb ts (mv_lastUpdated mv) = true ->
   getVelocity ext (velocityCheck ts mv) = getVelocity ext mv).
Proof.
  intros Hvps. split.
  - intros q Hq Hts. unfold getVelocity, velocityCheck. cbn [mv_canTrackVelocity
      mv_current mv_prev mv_timeDelta]. rewrite Hts. cbn [negb].
    destruct (if negb (mv_canTrackVelocity mv) then isFloat (mv_current mv)
              else mv_canTrackVelocity mv); [| reflexivity].
    rewrite Hq, num_sub_self, Hvps.
    destruct (num_truthy (mv_timeDelta mv)) eqn:Hd; [| reflexivity].
    apply num_mul_zero_div, Hd.
  - intros Htrack Hts. unfold getVelocity, velocityCheck. cbn [mv_canTrackVelocity
      mv_current mv_prev mv_timeDelta]. rewrite Hts, Htrack. reflexivity.
Qed.

Lemma velocityCheck_resets_velocity_witness :
  let mv := updateAndNotify {| fd_delta := Fin 16; fd_timestamp := Fin 16 |} (VInt 10)
              (getMotionValue (VInt 2)) in
  getVelocity sample_externals mv = of_Z 500 /\
  getVelocity sample_externals (velocityCheck (Fin 32) mv) = Fin 0 /\
  getVelocity sample_externals (velocityCheck (Fin 16) mv) = of_Z 500.
Proof.
  split; [reflexivity |].
  destruct (velocityCheck_resets_velocity sample_externals
              (updateAndNotify {| fd_delta := Fin 16; fd_timestamp := Fin 16 |} (VInt 10)
                 (getMotionValue (VInt 2)))
              (Fin 32) (fun v d => eq_refl)) as [Hreset _].
  destruct (velocityCheck_resets_velocity sample_externals
              (updateAndNotify {| fd_delta := Fin 16; fd_timestamp := Fin 16 |} (VInt 10)
                 (getMotionValue (VInt 2)))
              (Fin 16) (fun v d => eq_refl)) as [_ Hkeep].
  split.
  - apply (Hreset 10%Q); reflexivity.
  - rewrite Hkeep; reflexivity.
Defined.

(** Velocity tracking is a latch: [set] never changes [canTrackVelocity], a
    velocity check switches it on when the current value reads as a number,
    and nothing switches it off again. *)
Theorem canTrackVelocity_latch (mv : MotionValue) :
  (forall fd v, mv_canTrackVelocity (updateAndNotify fd v mv) = mv_canTrackVelocity mv) /\
  (forall ts, mv_canTrackVelocity (velocityCheck ts mv) =
              mv_canTrackVelocity mv || isFloat (mv_current mv)) /\
  (forall evs, mv_canTrackVelocity mv = true ->
               mv_canTrackVelocity (mv_run evs mv) = true).
Proof.
  split; [reflexivity |]. split.
  - intros ts. unfold velocityCheck. cbn [mv_canTrackVelocity].
    destruct (mv_canTrackVelocity mv); reflexivity.
  - intros evs. revert mv. induction evs as [| e evs IH]; intros mv H; [exact H |].
    cbn [mv_run fold_left]. apply IH. destruct e as [v fd | ts]; cbn [mv_step].
    + exact H.
    + unfold velocityCheck. cbn [mv_canTrackVelocity]. rewrite H. reflexivity.
Qed.

Lemma canTrackVelocity_latch_witness :
  mv_canTrackVelocity
    (mv_run [MvVelocityCheck (Fin 16);
             MvSet (VStr "auto") {| fd_delta := Fin 16; fd_timestamp := Fin 32 |};
             MvVelocityCheck (Fin 48)]
            (updateAndNotify {| fd_delta := Fin 16; fd_timestamp := Fin 16 |} (VInt 10)
               (getMotionValue (VStr "none")))) = true.
Proof.
  change (mv_run ?l ?mv) with
    (mv_run [MvSet (VStr "auto") {| fd_delta := Fin 16; fd_timestamp := Fin 32 |};
             MvVelocityCheck (Fin 48)]
       (velocityCheck (Fin 16)
          (updateAndNotify {| fd_delta := Fin 16; fd_timestamp := Fin 16 |} (VInt 10)
             (getMotionValue (VStr "none"))))).
  apply canTrackVelocity_latch. reflexivity.
Defined.

(** ** The registry of motion values: [get] and [stop] *)

Section MotionValues.

Implicit Types (w : World) (k key : string).

Lemma table_get_filter {A : Type} (l : list (string * A)) k k' :
  table_get (List.filter (fun kv => negb (String.eqb (fst kv) k)) l) k' =
  if String.eqb k k' then None else table_get l k'.
Proof.
  induction l as [| [k0 x] l IH]; simpl.
  - destruct (String.eqb k k'); reflexivity.
  - destruct (String.eqb k0 k) eqn:E0; simpl.
    + apply String.eqb_eq in E0. subst k0. rewrite IH.
      destruct (String.eqb k k'); reflexivity.
    + rewrite IH. destruct (String.eqb k0 k') eqn:E1; [| reflexivity].
      apply String.eqb_eq in E1. subst k0. rewrite String.eqb_sym, E0. reflexivity.
Qed.

Lemma table_get_None_filter {A : Type} (l : list (string * A)) k :
  table_get l k = None ->
  List.filter (fun kv => negb (String.eqb (fst kv) k)) l = l.
Proof.
  induction l as [| [k0 x] l IH]; simpl; [reflexivity |].
  destruct (String.eqb k0 k); [discriminate |]. simpl. intros H. f_equal. exact (IH H).
Qed.

Lemma table_get_None_nil {A : Type} (l : list (string * A)) :
  (forall k, table_get l k = None) -> l = [].
Proof.
  destruct l as [| [k0 x] l]; [reflexivity |]. intros H. specialize (H k0).
  simpl in H. rewrite String.eqb_refl in H. discriminate.
Qed.

Lemma table_get_Some_in {A : Type} (l : list (string * A)) k x :
  table_get l k = Some x -> k ∈ map fst l.
Proof.
  induction l as [| [k0 y] l IH]; simpl; [discriminate |].
  destruct (String.eqb k0 k) eqn:E.
  - apply String.eqb_eq in E. subst. intros _. constructor.
  - intros H. constructor. exact (IH H).
Qed.

Lemma registry_mv_destroy id w : w_registry (mv_destroy id w) = w_registry w.
Proof. unfold mv_destroy. rewrite registry_mv_stop. reflexivity. Qed.

Lemma registry_destroyKey w k :
  w_registry (destroyKey w k) =
  List.filter (fun kv => negb (String.eqb (fst kv) k)) (w_registry w).
Proof.
  unfold destroyKey. destruct (table_get (w_registry w) k) as [id |] eqn:E.
  - simpl. rewrite registry_mv_destroy, registry_mv_stop. reflexivity.
  - symmetry. apply table_get_None_filter, E.
Qed.

Lemma registry_fold_destroyKey ks w k :
  table_get (w_registry (fold_left destroyKey ks w)) k =
  if decide (k ∈ ks) then None else table_get (w_registry w) k.
Proof.
  revert w. induction ks as [| k0 ks IH]; intros w; simpl.
  - destruct (decide (k ∈ [])) as [H | _]; [inversion H | reflexivity].
  - rewrite IH, registry_destroyKey, table_get_filter.
    destruct (decide (k ∈ ks)) as [Hin | Hnin].
    + rewrite decide_True by (constructor; exact Hin). reflexivity.
    + destruct (String.eqb k0 k) eqn:E.
      * apply String.eqb_eq in E. subst. rewrite decide_True by constructor. reflexivity.
      * rewrite decide_False; [reflexivity |].
        intros H. apply elem_of_cons in H as [-> | H]; [| contradiction].
        rewrite String.eqb_refl in E. discriminate.
Qed.

Lemma stop_fold keys w : stop keys w = fold_left destroyKey (stop_keys keys w) w.
Proof.
  unfold stop, stop_keys. destruct (truthy keys); [| reflexivity].
  destruct keys; reflexivity.
Qed.

Lemma destroyKey_absent w k : table_get (w_registry w) k = None -> destroyKey w k = w.
Proof. unfold destroyKey. intros ->. reflexivity. Qed.

End MotionValues.

Lemma get_registry (key : string) (from : value) (w : World) :
  table_get (w_registry (fst (get key from w))) key = Some (snd (get key from w)) /\
  (forall k, k <> key ->
     table_get (w_registry (fst (get key from w))) k = table_get (w_registry w) k).
Proof.
  unfold get. destruct (table_get (w_registry w) key) as [id0 |] eqn:E; cbn [fst snd].
  - split; [exact E | reflexivity].
  - cbn [w_registry set_registry set_values]. split; [apply table_get_snoc, E |].
    intros k Hk. clear E. induction (w_registry w) as [| [k0 x] l IH]; simpl.
    + destruct (String.eqb key k) eqn:E; [| reflexivity].
      apply String.eqb_eq in E. congruence.
    + destruct (String.eqb k0 k); [reflexivity | exact IH].
Qed.

(** On keys that are no names of members of [Object.prototype], [stop] in
    the host's reading returns, with the world of [stop]. *)
Lemma Host_destroyKey_ordinary (w : World) (key : string) :
  inherited key = false -> Host.destroyKey w key = (destroyKey w key, Host.Normal tt).
Proof.
  intros H. unfold Host.destroyKey.
  destruct (table_get (w_registry w) key) eqn:E; [reflexivity |].
  rewrite (Object_prototype_member_ordinary key H), (destroyKey_absent w key E).
  reflexivity.
Qed.

Lemma Host_forEach_destroyKey_ordinary (ks : list string) (w : World) :
  (forall k, k ∈ ks -> inherited k = false) ->
  Host.forEach_destroyKey ks w = (fold_left destroyKey ks w, Host.Normal tt).
Proof.
  unfold Host.forEach_destroyKey. revert w.
  induction ks as [| k ks IH]; intros w H; [reflexivity |].
  cbn [fold_left]. rewrite Host_destroyKey_ordinary by (apply H; constructor).
  apply IH. intros k' Hk'. apply H. constructor. exact Hk'.
Qed.

Lemma Host_stop_ordinary (keys : value) (w : World) :
  (forall k, k ∈ stop_keys keys w -> inherited k = false) ->
  Host.stop keys w = (stop keys w, Host.Normal tt).
Proof.
  unfold Host.stop, stop, stop_keys. intros H.
  destruct (truthy keys); [| apply Host_forEach_destroyKey_ordinary, H].
  destruct keys;
    try (apply Host_destroyKey_ordinary, H; constructor).
  apply Host_forEach_destroyKey_ordinary, H.
Qed.

(** [stop(keys)], for keys that are no names of members of
    [Object.prototype], returns (it does not throw) and removes from the
    registry exactly the keys it is given (one key, the elements of an array,
    or every key when [keys] is falsy, the empty string included), leaving
    the other entries alone; with no key given the registry is empty
    afterwards, and keys that are not registered are skipped. *)
Theorem stop_unregisters (keys : value) (w : World) :
  (forall k, k ∈ stop_keys keys w -> inherited k = false) ->
  Host.stop keys w = (stop keys w, Host.Normal tt) /\
  (forall k, table_get (w_registry (stop keys w)) k =
             if decide (k ∈ stop_keys keys w) then None else table_get (w_registry w) k) /\
  (truthy keys = false -> w_registry (stop keys w) = []) /\
  ((forall k, k ∈ stop_keys keys w -> table_get (w_registry w) k = None) ->
   stop keys w = w).
Proof.
  intros Hord. split; [apply Host_stop_ordinary, Hord |].
  rewrite stop_fold. split; [| split].
  - intros k. apply registry_fold_destroyKey.
  - intros Hk. apply table_get_None_nil. intros k.
    rewrite registry_fold_destroyKey. destruct (decide _) as [_ | Hn]; [reflexivity |].
    destruct (table_get (w_registry w) k) eqn:E; [| reflexivity].
    exfalso. apply Hn. unfold stop_keys. rewrite Hk.
    eapply table_get_Some_in, E.
  - clear Hord. generalize (stop_keys keys w). intros ks. revert w.
    induction ks as [| k ks IH]; intros w H; simpl; [reflexivity |].
    rewrite destroyKey_absent by (apply H; constructor).
    apply IH. intros k' Hk'. apply H. constructor. exact Hk'.
Qed.

Lemma stop_unregisters_witness :
  let w := fst (set sample_externals (VObj [("opacity", VInt 1); ("scale", VInt 2)])
                  (init_world (VObj []) [])) in
  w_registry w = [("opacity", 0%nat); ("scale", 1%nat)] /\
  w_registry (stop (VStr "") w) = [] /\
  stop (VArr [VStr "x"; VStr "y"]) w = w /\
  Host.stop (VArr [VStr "x"; VStr "y"]) w = (w, Host.Normal tt).
Proof.
  split; [reflexivity |].
  destruct (stop_unregisters (VStr "")
              (fst (set sample_externals (VObj [("opacity", VInt 1); ("scale", VInt 2)])
                      (init_world (VObj []) [])))) as (_ & _ & Hall & _).
  { intros k Hk. cbn in Hk.
    apply elem_of_cons in Hk as [-> | Hk]; [reflexivity |].
    apply elem_of_cons in Hk as [-> | Hk]; [reflexivity | inversion Hk]. }
  destruct (stop_unregisters (VArr [VStr "x"; VStr "y"])
              (fst (set sample_externals (VObj [("opacity", VInt 1); ("scale", VInt 2)])
                      (init_world (VObj []) [])))) as (Hhost & _ & _ & Hnone).
  { intros k Hk. cbn in Hk.
    apply elem_of_cons in Hk as [-> | Hk]; [reflexivity |].
    apply elem_of_cons in Hk as [-> | Hk]; [reflexivity | inversion Hk]. }
  assert (H : stop (VArr [VStr "x"; VStr "y"])
                (fst (set sample_externals (VObj [("opacity", VInt 1); ("scale", VInt 2)])
                        (init_world (VObj []) []))) =
              fst (set sample_externals (VObj [("opacity", VInt 1); ("scale", VInt 2)])
                     (init_world (VObj []) []))).
  { apply Hnone. intros k Hk. cbn in Hk.
    apply elem_of_cons in Hk as [-> | Hk]; [reflexivity |].
    apply elem_of_cons in Hk as [-> | Hk]; [reflexivity | inversion Hk]. }
  split; [apply Hall; reflexivity |].
  split; [exact H |]. rewrite Hhost, H. reflexivity.
Defined.

(** ** [stop] and the engine *)

Section StopEngine.

Implicit Types (w : World) (k key : string).

Lemma engine_halted_only_refl w : engine_halted_only w w.
Proof. split; [reflexivity |]. intros a ea H. left. exact H. Qed.

Lemma engine_halted_only_eq w w' : w_engine w' = w_engine w -> engine_halted_only w w'.
Proof. intros H. unfold engine_halted_only. rewrite H. split; auto. Qed.

Lemma is_running_Stopped ea : is_running (set_status Stopped ea) = false.
Proof. reflexivity. Qed.

Lemma engine_halted_only_trans w1 w2 w3 :
  engine_halted_only w1 w2 -> engine_halted_only w2 w3 -> engine_halted_only w1 w3.
Proof.
  intros [L1 H1] [L2 H2]. split; [congruence |].
  intros a ea Ha. destruct (H1 a ea Ha) as [H | [Hr H]].
  - exact (H2 a ea H).
  - right. split; [exact Hr |].
    destruct (H2 a _ H) as [H' | [Hr' _]]; [exact H' |].
    rewrite is_running_Stopped in Hr'. discriminate.
Qed.

Lemma engine_halted_only_engine_stop a w : engine_halted_only w (engine_stop a w).
Proof.
  unfold engine_stop. destruct (w_engine w !! a) as [ea |] eqn:E;
    [| apply engine_halted_only_refl].
  destruct (is_running ea) eqn:Hr; [| apply engine_halted_only_refl].
  split; simpl; [apply length_insert |].
  intros a' ea' Ha'. destruct (decide (a' = a)) as [-> | Hne].
  - right. rewrite E in Ha'. injection Ha' as <-. split; [exact Hr |].
    apply list_lookup_insert_eq. eapply lookup_lt_Some, E.
  - left. rewrite list_lookup_insert_ne by congruence. exact Ha'.
Qed.

Lemma engine_update_value id f w : w_engine (update_value id f w) = w_engine w.
Proof. reflexivity. Qed.

Lemma engine_halted_only_mv_stop id w : engine_halted_only w (mv_stop id w).
Proof.
  unfold mv_stop. destruct (w_values w !! id) as [mv |]; [| apply engine_halted_only_refl].
  apply (engine_halted_only_trans _
           (match mv_stopAnimation mv with Some h => call_handle h w | None => w end)).
  - destruct (mv_stopAnimation mv) as [[| a] |]; simpl;
      auto using engine_halted_only_refl, engine_halted_only_engine_stop.
  - apply engine_halted_only_eq. reflexivity.
Qed.

Lemma engine_halted_only_destroyKey w k : engine_halted_only w (destroyKey w k).
Proof.
  unfold destroyKey. destruct (table_get (w_registry w) k) as [id |];
    [| apply engine_halted_only_refl].
  apply (engine_halted_only_trans _ (mv_stop id w)); [apply engine_halted_only_mv_stop |].
  apply (engine_halted_only_trans _ (mv_destroy id (mv_stop id w)));
    [| apply engine_halted_only_eq; reflexivity].
  unfold mv_destroy.
  apply (engine_halted_only_trans _ (update_value id clearListeners (mv_stop id w)));
    [apply engine_halted_only_eq; reflexivity | apply engine_halted_only_mv_stop].
Qed.

Lemma engine_halted_only_fold ks w : engine_halted_only w (fold_left destroyKey ks w).
Proof.
  revert w. induction ks as [| k ks IH]; intros w; simpl;
    [apply engine_halted_only_refl |].
  eapply engine_halted_only_trans; [apply engine_halted_only_destroyKey | apply IH].
Qed.

Lemma not_running_halted a w w' :
  engine_halted_only w w' -> not_running a w -> not_running a w'.
Proof.
  intros [L H] Hn ea' Ha'.
  destruct (w_engine w !! a) as [ea |] eqn:E.
  - destruct (H a ea E) as [H' | [Hr _]].
    + rewrite H' in Ha'. injection Ha' as <-. exact (Hn ea E).
    + rewrite (Hn ea E) in Hr. discriminate.
  - apply lookup_ge_None in E. apply lookup_lt_Some in Ha'. lia.
Qed.

Lemma not_running_engine_stop a w : not_running a (engine_stop a w).
Proof.
  unfold engine_stop, not_running. destruct (w_engine w !! a) as [ea |] eqn:E.
  - destruct (is_running ea) eqn:Hr.
    + simpl. intros ea' H.
      rewrite list_lookup_insert_eq in H by (eapply lookup_lt_Some, E).
      injection H as <-. reflexivity.
    + intros ea' H. rewrite E in H. injection H as <-. exact Hr.
  - intros ea' H. rewrite E in H. discriminate.
Qed.

Lemma not_running_mv_stop id a w mv :
  w_values w !! id = Some mv -> mv_stopAnimation mv = Some (HEngine a) ->
  not_running a (mv_stop id w).
Proof.
  intros Hmv Hh. unfold mv_stop. rewrite Hmv, Hh. simpl.
  intros ea H. exact (not_running_engine_stop a w ea H).
Qed.

Lemma not_running_destroyKey w k id a mv :
  table_get (w_registry w) k = Some id ->
  w_values w !! id = Some mv -> mv_stopAnimation mv = Some (HEngine a) ->
  not_running a (destroyKey w k).
Proof.
  intros Hk Hmv Hh.
  assert (H1 : not_running a (mv_stop id w)) by (eapply not_running_mv_stop; eauto).
  assert (H2 : engine_halted_only (mv_stop id w) (destroyKey w k)).
  { unfold destroyKey. rewrite Hk.
    apply (engine_halted_only_trans _ (mv_destroy id (mv_stop id w)));
      [| apply engine_halted_only_eq; reflexivity].
    unfold mv_destroy.
    apply (engine_halted_only_trans _ (update_value id clearListeners (mv_stop id w)));
      [apply engine_halted_only_eq; reflexivity | apply engine_halted_only_mv_stop]. }
  exact (not_running_halted _ _ _ H2 H1).
Qed.

Lemma values_engine_stop a w : w_values (engine_stop a w) = w_values w.
Proof.
  unfold engine_stop. destruct (w_engine w !! a) as [ea |]; [| reflexivity].
  destruct (is_running ea); reflexivity.
Qed.

Lemma values_mv_stop_ne id id' w :
  id' <> id -> w_values (mv_stop id w) !! id' = w_values w !! id'.
Proof.
  intros Hne. unfold mv_stop. destruct (w_values w !! id) as [mv |]; [| reflexivity].
  simpl. rewrite list_lookup_alter_ne by congruence.
  destruct (mv_stopAnimation mv) as [[| a] |]; simpl; try reflexivity.
  rewrite values_engine_stop. reflexivity.
Qed.

Lemma values_destroyKey_ne w k id id' :
  table_get (w_registry w) k = Some id -> id' <> id ->
  w_values (destroyKey w k) !! id' = w_values w !! id'.
Proof.
  intros Hk Hne. unfold destroyKey. rewrite Hk. simpl.
  unfold mv_destroy. rewrite values_mv_stop_ne by exact Hne.
  simpl. rewrite list_lookup_alter_ne by congruence.
  apply values_mv_stop_ne, Hne.
Qed.

(** While a key is still registered with a motion value that holds the
    handle of animation [a], or once [a] is no longer running. *)
Lemma stop_cancels_fold ks w key id a :
  key ∈ ks ->
  not_running a w \/
  (table_get (w_registry w) key = Some id /\
   exists mv, w_values w !! id = Some mv /\ mv_stopAnimation mv = Some (HEngine a)) ->
  not_running a (fold_left destroyKey ks w).
Proof.
  revert w. induction ks as [| k ks IH]; intros w Hin H; [inversion Hin |].
  simpl. destruct H as [H | (Hreg & mv & Hmv & Hh)].
  - eapply not_running_halted; [apply engine_halted_only_fold |].
    eapply not_running_halted; [apply engine_halted_only_destroyKey | exact H].
  - destruct (table_get (w_registry w) k) as [id' |] eqn:Hk.
    + destruct (decide (id' = id)) as [-> | Hne].
      * eapply not_running_halted; [apply engine_halted_only_fold |].
        eapply not_running_destroyKey; eauto.
      * assert (Hkk : k <> key) by congruence.
        apply IH.
        { apply elem_of_cons in Hin as [-> | Hin]; [congruence | exact Hin]. }
        right. split.
        { rewrite registry_destroyKey, table_get_filter.
          destruct (String.eqb k key) eqn:E; [| exact Hreg].
          apply String.eqb_eq in E. congruence. }
        exists mv. rewrite (values_destroyKey_ne _ _ _ _ Hk) by congruence. auto.
    + rewrite destroyKey_absent by exact Hk.
      apply IH; [| right; eauto].
      apply elem_of_cons in Hin as [-> | Hin]; [congruence | exact Hin].
Qed.

Lemma destroyKey_quiet w k :
  w_promises (destroyKey w k) = w_promises w /\
  w_microtasks (destroyKey w k) = w_microtasks w /\
  w_log (destroyKey w k) = w_log w /\
  w_properties (destroyKey w k) = w_properties w.
Proof.
  assert (Hstop : forall id w0,
             w_promises (mv_stop id w0) = w_promises w0 /\
             w_microtasks (mv_stop id w0) = w_microtasks w0 /\
             w_log (mv_stop id w0) = w_log w0 /\
             w_properties (mv_stop id w0) = w_properties w0).
  { intros id w0. unfold mv_stop. destruct (w_values w0 !! id) as [mv |]; [| auto].
    destruct (mv_stopAnimation mv) as [[| a] |]; simpl; auto.
    unfold engine_stop. destruct (w_engine w0 !! a) as [ea |]; [| auto].
    destruct (is_running ea); auto. }
  unfold destroyKey. destruct (table_get (w_registry w) k) as [id |]; [| auto].
  simpl. unfold mv_destroy.
  destruct (Hstop id (update_value id clearListeners (mv_stop id w))) as (-> & -> & -> & ->).
  simpl. apply Hstop.
Qed.

End StopEngine.

(** [stop(keys)] settles nothing: the promises, the queued reactions and the
    calls made into user code are what they were, the property bag is not
    written, the engine is given no new animation, and the only change to an
    animation is that a running one was stopped. *)
Theorem stop_settles_nothing (keys : value) (w : World) :
  w_promises (stop keys w) = w_promises w /\
  w_microtasks (stop keys w) = w_microtasks w /\
  w_log (stop keys w) = w_log w /\
  w_properties (stop keys w) = w_properties w /\
  engine_halted_only w (stop keys w).
Proof.
  rewrite stop_fold. generalize (stop_keys keys w). intros ks.
  split; [| split; [| split; [| split]]]; try apply engine_halted_only_fold;
    revert w; induction ks as [| k ks IH]; intros w; simpl; try reflexivity;
    rewrite IH; apply destroyKey_quiet.
Qed.

(** [stop(keys)], for keys that are no names of members of
    [Object.prototype], returns and cancels what the motion values it
    destroys are running: an engine animation whose stop function is the
    [stopAnimation] of a motion value registered under one of the keys is not
    running afterwards. *)
Theorem stop_cancels (keys : value) (w : World) (key : string) (id a : nat)
    (mv : MotionValue) :
  (forall k, k ∈ stop_keys keys w -> inherited k = false) ->
  key ∈ stop_keys keys w ->
  table_get (w_registry w) key = Some id ->
  w_values w !! id = Some mv ->
  mv_stopAnimation mv = Some (HEngine a) ->
  Host.stop keys w = (stop keys w, Host.Normal tt) /\
  not_running a (stop keys w).
Proof.
  intros Hord Hin Hreg Hmv Hh. split; [apply Host_stop_ordinary, Hord |].
  rewrite stop_fold.
  apply (stop_cancels_fold _ _ key id); [exact Hin |]. right. eauto.
Qed.

Lemma stop_cancels_witness :
  let w := fst (apply sample_externals (VObj [("opacity", VInt 1)])
                  (init_world (VObj []) [("opacity", VInt 0)])) in
  map ea_status (w_engine w) = [Running] /\
  not_running 0 (stop VUndef w) /\
  snd (Host.stop VUndef w) = Host.Normal tt.
Proof.
  split; [reflexivity |].
  destruct (stop_cancels VUndef
              (fst (apply sample_externals (VObj [("opacity", VInt 1)])
                      (init_world (VObj []) [("opacity", VInt 0)])))
              "opacity" 0%nat 0%nat
              {| mv_current := VInt 0; mv_prev := VInt 0; mv_timeDelta := Fin 0;
                 mv_lastUpdated := Fin 0; mv_canTrackVelocity := true;
                 mv_stopAnimation := Some (HEngine 0);
                 mv_subscribers := [SubSetTarget "opacity"] |}) as [Hhost Hrun].
  - intros k Hk. cbn in Hk.
    apply elem_of_cons in Hk as [-> | Hk]; [reflexivity | inversion Hk].
  - cbn. constructor.
  - reflexivity.
  - reflexivity.
  - reflexivity.
  - split; [exact Hrun |]. rewrite Hhost. reflexivity.
Defined.

(** ** The registry invariant *)

Section RegistryInvariant.

Variable ext : Externals.
Implicit Types (w : World) (k key : string).

Lemma same_subscribers_refl w : same_subscribers w w.
Proof. split; reflexivity. Qed.

Lemma same_subscribers_trans w1 w2 w3 :
  same_subscribers w1 w2 -> same_subscribers w2 w3 -> same_subscribers w1 w3.
Proof.
  intros [R1 V1] [R2 V2]. split; [congruence |]. intros id. rewrite V2. apply V1.
Qed.

Lemma same_subscribers_eq w w' :
  w_registry w' = w_registry w -> w_values w' = w_values w -> same_subscribers w w'.
Proof. intros HR HV. split; [exact HR |]. intros id. rewrite HV. reflexivity. Qed.

Lemma registry_wf_same w w' : same_subscribers w w' -> registry_wf w -> registry_wf w'.
Proof.
  intros [HR HV] Hwf key id Hk. rewrite HR in Hk.
  destruct (Hwf key id Hk) as (mv & Hmv & Hs).
  specialize (HV id). rewrite Hmv in HV. simpl in HV.
  destruct (w_values w' !! id) as [mv' |]; [| discriminate].
  simpl in HV. injection HV as HV. exists mv'. split; [reflexivity | congruence].
Qed.

Lemma ss_resolve p w : same_subscribers w (resolve_promise p w).
Proof. apply same_subscribers_eq; [apply registry_resolve | apply values_resolve]. Qed.

Lemma ss_then p r w : same_subscribers w (then_ p r w).
Proof. apply same_subscribers_eq; [apply registry_then | apply values_then]. Qed.

Lemma ss_call_opt cb w : same_subscribers w (call_opt cb w).
Proof. apply same_subscribers_eq; [apply registry_call_opt | apply values_call_opt]. Qed.

Lemma ss_call cb w : same_subscribers w (call cb w).
Proof. exact (ss_call_opt (Some cb) w). Qed.

Lemma ss_engine_stop a w : same_subscribers w (engine_stop a w).
Proof.
  unfold engine_stop. destruct (w_engine w !! a) as [ea |];
    [| apply same_subscribers_refl].
  destruct (is_running ea); apply same_subscribers_eq; reflexivity.
Qed.

Lemma ss_update_value id f w :
  (forall mv, mv_subscribers (f mv) = mv_subscribers mv) ->
  same_subscribers w (update_value id f w).
Proof.
  intros Hf. split; [reflexivity |]. intros id'. simpl.
  destruct (decide (id' = id)) as [-> | Hne].
  - destruct (w_values w !! id) as [mv |] eqn:E.
    + rewrite (lookup_alter_same _ _ _ _ E). simpl. rewrite Hf. reflexivity.
    + rewrite list_lookup_alter, E. destruct (decide (id = id)); reflexivity.
  - rewrite list_lookup_alter_ne by congruence. reflexivity.
Qed.

Lemma ss_mv_set id v w : same_subscribers w (mv_set id v w).
Proof.
  unfold mv_set. destruct (w_values w !! id) as [mv |] eqn:E;
    [| apply same_subscribers_refl].
  split.
  - rewrite registry_notify. reflexivity.
  - intros id'. rewrite values_notify. simpl.
    destruct (decide (id' = id)) as [-> | Hne].
    + rewrite list_lookup_insert_eq by (eapply lookup_lt_Some, E). rewrite E. reflexivity.
    + rewrite list_lookup_insert_ne by congruence. reflexivity.
Qed.

Lemma ss_mv_stop id w : same_subscribers w (mv_stop id w).
Proof.
  unfold mv_stop. destruct (w_values w !! id) as [mv |]; [| apply same_subscribers_refl].
  eapply same_subscribers_trans; [| apply ss_update_value; reflexivity].
  destruct (mv_stopAnimation mv) as [[| a] |]; simpl;
    auto using same_subscribers_refl, ss_engine_stop.
Qed.

Lemma ss_animation_set an complete w : same_subscribers w (fst (animation_set an complete w)).
Proof.
  unfold animation_set. cbn [fst].
  repeat (eapply same_subscribers_trans; [| apply ss_call_opt]).
  apply ss_mv_set.
Qed.

Lemma ss_run_animation an complete w :
  same_subscribers w (fst (fst (run_animation ext an complete w))).
Proof.
  unfold run_animation. destruct (an_set an).
  - pose proof (ss_animation_set an complete w) as H.
    destruct (animation_set an complete w) as [w1 h]. exact H.
  - unfold animation_start. destruct (strict_eq _ _ || strict_eq _ _).
    + apply same_subscribers_eq; reflexivity.
    + destruct (getPopmotionAnimationOptions _ _ _ _).
      apply same_subscribers_eq; reflexivity.
Qed.

Lemma ss_mv_start id an w : same_subscribers w (fst (fst (mv_start ext id an w))).
Proof.
  unfold mv_start. cbn [new_promise].
  set (w1 := set_promises _ (mv_stop id w)).
  pose proof (ss_run_animation an (Some (CbResolve (length (w_promises (mv_stop id w))))) w1)
    as H.
  destruct (run_animation _ _ _ _) as [[w3 h] tr]. cbn [fst snd] in *.
  eapply same_subscribers_trans; [| apply ss_then].
  eapply same_subscribers_trans;
    [| apply (same_subscribers_eq (update_value id (set_stopAnimation h) w3)); reflexivity].
  eapply same_subscribers_trans; [| apply ss_update_value; reflexivity].
  eapply same_subscribers_trans; [| exact H].
  eapply same_subscribers_trans; [apply ss_mv_stop |].
  apply same_subscribers_eq; reflexivity.
Qed.

Lemma table_get_app_None {A : Type} (l : list (string * A)) k k' (x : A) :
  k' <> k -> table_get (l ++ [(k, x)]) k' = table_get l k'.
Proof.
  intros Hne. induction l as [| [k0 y] l IH]; simpl.
  - destruct (String.eqb k k') eqn:E; [| reflexivity].
    apply String.eqb_eq in E. congruence.
  - destruct (String.eqb k0 k'); [reflexivity | exact IH].
Qed.

Lemma registry_wf_get key from w : registry_wf w -> registry_wf (fst (get key from w)).
Proof.
  intros Hwf. unfold get. destruct (table_get (w_registry w) key) as [id0 |] eqn:E;
    [exact Hwf |].
  cbn [fst]. intros k id. cbn [w_registry set_registry w_values set_values].
  destruct (decide (k = key)) as [-> | Hne].
  - rewrite (table_get_snoc _ _ _ E). intros H. injection H as <-.
    eexists. split; [apply list_lookup_middle; reflexivity | reflexivity].
  - rewrite table_get_app_None by exact Hne. intros H.
    destruct (Hwf k id H) as (mv & Hmv & Hs). exists mv. split; [| exact Hs].
    rewrite lookup_app_l by (eapply lookup_lt_Some, Hmv). exact Hmv.
Qed.

Lemma registry_wf_push key v transition onComplete w :
  registry_wf w -> registry_wf (fst (push ext key v transition onComplete w)).
Proof.
  intros Hwf. unfold push.
  pose proof (registry_wf_get key (default VUndef (obj_get (w_properties w) key)) w Hwf) as H1.
  destruct (get key _ w) as [w1 id]. cbn [fst] in H1.
  destruct (truthy _ && truthy _); cbn [fst].
  - eapply registry_wf_same; [apply ss_mv_set | exact H1].
  - pose proof (ss_mv_start id
      (getAnimation ext key id v
         match transition with VUndef => VObj [] | _ => transition end onComplete w1) w1) as H.
    destruct (mv_start _ _ _ _) as [[w2 d] tr']. cbn [fst] in *.
    eapply registry_wf_same; [exact H | exact H1].
Qed.

Lemma registry_wf_apply_entry acc kv :
  registry_wf (fst (fst acc)) -> registry_wf (fst (fst (apply_entry ext acc kv))).
Proof.
  destruct acc as [[w variant] ps]. destruct kv as [key v]. cbn [fst snd].
  intros Hwf. unfold apply_entry. destruct (String.eqb key "transition"); [exact Hwf |].
  cbn [new_promise].
  set (w1 := set_promises _ w).
  assert (H1 : registry_wf w1) by exact Hwf.
  pose proof (registry_wf_push key v
    (if truthy (get_field variant "transition")
     then get_field variant "transition"
     else VObj (getDefaultTransition ext key (get_field variant key)))
    (Some (CbResolve (length (w_promises w)))) w1 H1) as H.
  destruct (push _ _ _ _ _ _) as [w2 tr']. exact H.
Qed.

Lemma registry_wf_fold_apply_entry entries acc :
  registry_wf (fst (fst acc)) ->
  registry_wf (fst (fst (fold_left (apply_entry ext) entries acc))).
Proof.
  revert acc. induction entries as [| kv entries IH]; intros acc H; [exact H |].
  cbn [fold_left]. apply IH, registry_wf_apply_entry, H.
Qed.

Lemma ss_Promise_all ps w : same_subscribers w (fst (Promise_all ps w)).
Proof.
  apply same_subscribers_eq; [apply registry_Promise_all |].
  unfold Promise_all. cbn [new_promise].
  assert (H : forall a l w0, w_values (register_elements a l w0) = w_values w0).
  { unfold register_elements. induction l as [| e l IHl]; intros w0; simpl; [reflexivity |].
    rewrite IHl, values_then. reflexivity. }
  destruct ps; cbn [fst]; rewrite ?values_resolve, H; reflexivity.
Qed.

Lemma registry_wf_apply variant w : registry_wf w -> registry_wf (fst (apply ext variant w)).
Proof.
  intros Hwf. unfold apply. destruct (resolve_variant variant w) as [vo | n m]; [| exact Hwf].
  pose proof (registry_wf_fold_apply_entry (Object_entries vo) (w, vo, []) Hwf) as H.
  destruct (fold_left _ _ _) as [[w1 vo'] ps1]. cbn [fst] in H.
  assert (H2 : registry_wf (fst (Promise_all (map snd ps1) (write_back variant vo' w1)))).
  { eapply registry_wf_same; [apply ss_Promise_all |].
    unfold write_back. destruct variant; exact H. }
  destruct (Promise_all _ _) as [w2 a]. destruct vo; cbn [fst] in *; assumption.
Qed.

Lemma registry_wf_set variant w : registry_wf w -> registry_wf (fst (set ext variant w)).
Proof.
  intros Hwf. unfold set.
  destruct (if isObject variant then Ok variant else getVariantFromKey (to_string variant) w)
    as [vd | n m]; [| exact Hwf].
  cbn [fst]. generalize (Object_entries vd). intros entries. revert w Hwf.
  induction entries as [| kv entries IH]; intros w Hwf; [exact Hwf |].
  cbn [fold_left]. apply IH. destruct (String.eqb (fst kv) "transition"); [exact Hwf |].
  apply registry_wf_push, Hwf.
Qed.

Lemma registry_wf_leave done w : registry_wf w -> registry_wf (leave ext done w).
Proof.
  intros Hwf. unfold leave. destruct (negb (truthy _)); [exact Hwf |].
  pose proof (registry_wf_apply (leaveVariant (w_variants w)) w Hwf) as H.
  destruct (apply ext _ w) as [w1 [[a ps] | n m]]; cbn [fst] in H; [| exact H].
  eapply registry_wf_same; [apply ss_then | exact H].
Qed.

Lemma registry_wf_destroyKey w k : registry_wf w -> registry_wf (destroyKey w k).
Proof.
  intros Hwf. destruct (table_get (w_registry w) k) as [id |] eqn:Hk;
    [| rewrite destroyKey_absent by exact Hk; exact Hwf].
  intros key id' H. rewrite registry_destroyKey, table_get_filter in H.
  destruct (String.eqb k key) eqn:E; [discriminate |].
  destruct (Hwf key id' H) as (mv & Hmv & Hs).
  destruct (Hwf k id Hk) as (mv0 & Hmv0 & Hs0).
  assert (Hne : id' <> id).
  { intros ->. rewrite Hmv in Hmv0. injection Hmv0 as <-.
    rewrite Hs in Hs0. injection Hs0 as ->. rewrite String.eqb_refl in E. discriminate. }
  exists mv. rewrite (values_destroyKey_ne _ _ _ _ Hk) by exact Hne. auto.
Qed.

Lemma registry_wf_stop keys w : registry_wf w -> registry_wf (stop keys w).
Proof.
  rewrite stop_fold. generalize (stop_keys keys w). intros ks. revert w.
  induction ks as [| k ks IH]; intros w H; [exact H |].
  simpl. apply IH, registry_wf_destroyKey, H.
Qed.

Lemma ss_engine_update a v w : same_subscribers w (engine_update a v w).
Proof.
  unfold engine_update. destruct (w_engine w !! a) as [ea |]; [| apply same_subscribers_refl].
  destruct (is_running ea); [| apply same_subscribers_refl].
  eapply (same_subscribers_trans _
            (match ea_value ea with Some id => mv_set id v w | None => w end)).
  - destruct (ea_value ea); [apply ss_mv_set | apply same_subscribers_refl].
  - destruct (ea_onUpdate ea); [| apply same_subscribers_refl].
    apply same_subscribers_eq; reflexivity.
Qed.

Lemma ss_fold_call cbs w : same_subscribers w (fold_left (fun w cb => call cb w) cbs w).
Proof.
  revert w. induction cbs as [| cb cbs IH]; intros w; [apply same_subscribers_refl |].
  simpl. eapply same_subscribers_trans; [apply ss_call | apply IH].
Qed.

Lemma ss_engine_complete a w : same_subscribers w (engine_complete a w).
Proof.
  unfold engine_complete. destruct (w_engine w !! a) as [ea |];
    [| apply same_subscribers_refl].
  destruct (is_running ea); [| apply same_subscribers_refl].
  eapply same_subscribers_trans; [| apply ss_fold_call].
  apply same_subscribers_eq; reflexivity.
Qed.

Lemma registry_wf_do_action w act : registry_wf w -> registry_wf (do_action ext w act).
Proof.
  intros Hwf. destruct act; cbn [do_action].
  - apply registry_wf_apply, Hwf.
  - apply registry_wf_set, Hwf.
  - apply registry_wf_leave, Hwf.
  - apply registry_wf_stop, Hwf.
  - apply registry_wf_push, Hwf.
  - eapply registry_wf_same; [apply ss_mv_stop | exact Hwf].
  - exact Hwf.
  - eapply registry_wf_same; [apply ss_update_value; reflexivity | exact Hwf].
  - eapply registry_wf_same; [apply ss_engine_update | exact Hwf].
  - eapply registry_wf_same; [apply ss_engine_complete | exact Hwf].
Qed.

Lemma ss_run_microtask w : same_subscribers w (run_microtask w).
Proof.
  unfold run_microtask. destruct (w_microtasks w) as [| r rest];
    [apply same_subscribers_refl |].
  eapply (same_subscribers_trans _ (set_microtasks rest w));
    [apply same_subscribers_eq; reflexivity |].
  destruct r as [mv d | a e | a d]; cbn [run_reaction].
  - eapply same_subscribers_trans; [| apply ss_resolve].
    apply ss_update_value. reflexivity.
  - assert (H : same_subscribers (set_microtasks rest w)
                  (decrement_remaining a (set_microtasks rest w))).
    { unfold decrement_remaining. destruct (w_promises _ !! a);
        apply same_subscribers_eq; reflexivity. }
    destruct (Nat.eqb _ 0); [| exact H].
    eapply same_subscribers_trans; [exact H | apply ss_resolve].
  - apply same_subscribers_eq; reflexivity.
Qed.

Lemma ss_drain w : same_subscribers w (drain w).
Proof.
  unfold drain. generalize (pending_work w). intros fuel. revert w.
  induction fuel as [| fuel IH]; intros w; simpl; [apply same_subscribers_refl |].
  destruct (w_microtasks w) eqn:E; [apply same_subscribers_refl |].
  eapply same_subscribers_trans; [apply ss_run_microtask | apply IH].
Qed.

Lemma registry_wf_run_task w task : registry_wf w -> registry_wf (run_task ext w task).
Proof.
  intros Hwf. unfold run_task. eapply registry_wf_same; [apply ss_drain |].
  revert w Hwf. induction task as [| act task IH]; intros w Hwf; [exact Hwf |].
  simpl. apply IH, registry_wf_do_action, Hwf.
Qed.

Lemma registry_wf_run_tasks tasks w : registry_wf w -> registry_wf (run_tasks ext tasks w).
Proof.
  unfold run_tasks. revert w. induction tasks as [| task tasks IH]; intros w Hwf; [exact Hwf |].
  simpl. apply IH, registry_wf_run_task, Hwf.
Qed.

Lemma registry_wf_live w key : registry_wf w -> live key w.
Proof.
  intros Hwf. unfold live. destruct (table_get (w_registry w) key) as [id |] eqn:E; [| exact I].
  destruct (Hwf key id E) as (mv & Hmv & _). rewrite Hmv. eexists. reflexivity.
Qed.

End RegistryInvariant.

(** Whatever is done to a subject (calls of [apply], [set], [leave],
    [stop] and [push], frames, velocity checks, updates and completions
    reported by the engine, microtasks), every key of the registry keeps a
    motion value of its own whose single subscriber writes that key of the
    property bag. *)
Theorem registry_invariant (ext : Externals) (variants : value) (properties : obj)
    (tasks : list (list action)) :
  let w := run_tasks ext tasks (init_world variants properties) in
  registry_wf w /\
  (forall key, live key w) /\
  (forall k1 k2 id, table_get (w_registry w) k1 = Some id ->
                    table_get (w_registry w) k2 = Some id -> k1 = k2).
Proof.
  intros w.
  assert (Hwf : registry_wf w).
  { apply registry_wf_run_tasks. intros key id H. discriminate. }
  split; [exact Hwf |]. split.
  - intros key. apply registry_wf_live, Hwf.
  - intros k1 k2 id H1 H2.
    destruct (Hwf k1 id H1) as (mv1 & Hmv1 & Hs1).
    destruct (Hwf k2 id H2) as (mv2 & Hmv2 & Hs2).
    rewrite Hmv1 in Hmv2. injection Hmv2 as <-. congruence.
Qed.

Lemma registry_invariant_witness :
  let w := run_tasks sample_externals
             [[AApply (VObj [("opacity", VInt 1); ("scale", VInt 1)])]; [AStop (VStr "scale")];
              [ASet (VObj [("x", VInt 3)])]]
             (init_world (VObj []) []) in
  w_registry w = [("opacity", 0%nat); ("x", 2%nat)] /\
  forall k, table_get (w_registry w) k = Some 2%nat -> k = "x".
Proof.
  split; [reflexivity |].
  intros k Hk.
  refine (proj2 (proj2 (registry_invariant sample_externals (VObj []) []
            [[AApply (VObj [("opacity", VInt 1); ("scale", VInt 1)])];
             [AStop (VStr "scale")]; [ASet (VObj [("x", VInt 3)])]])) k "x" 2%nat Hk _).
  reflexivity.
Defined.

(** ** [set]: writing a variant without animation *)

Section SetVariant.

Variable ext : Externals.
Implicit Types (w : World) (k key : string).

Lemma properties_mv_set id v w mv key :
  w_values w !! id = Some mv -> mv_subscribers mv = [SubSetTarget key] ->
  w_properties (mv_set id v w) = obj_set (w_properties w) key v.
Proof.
  intros Hmv Hs. unfold mv_set. rewrite Hmv. cbn [updateAndNotify mv_subscribers].
  rewrite Hs. reflexivity.
Qed.

Lemma properties_get key from w : w_properties (fst (get key from w)) = w_properties w.
Proof. unfold get. destruct (table_get _ _); reflexivity. Qed.

Lemma values_mv_set_ne id id' v w :
  id' <> id -> w_values (mv_set id v w) !! id' = w_values w !! id'.
Proof.
  intros Hne. unfold mv_set. destruct (w_values w !! id); [| reflexivity].
  rewrite values_notify. simpl. apply list_lookup_insert_ne. congruence.
Qed.

Lemma values_get_old key from w id mv :
  w_values w !! id = Some mv -> w_values (fst (get key from w)) !! id = Some mv.
Proof.
  intros H. unfold get. destruct (table_get _ _); [exact H |]. simpl.
  rewrite lookup_app_l by (eapply lookup_lt_Some, H). exact H.
Qed.

Lemma registry_wf_unique w k1 k2 id :
  registry_wf w -> table_get (w_registry w) k1 = Some id ->
  table_get (w_registry w) k2 = Some id -> k1 = k2.
Proof.
  intros Hwf H1 H2.
  destruct (Hwf k1 id H1) as (mv1 & Hmv1 & Hs1).
  destruct (Hwf k2 id H2) as (mv2 & Hmv2 & Hs2).
  rewrite Hmv1 in Hmv2. injection Hmv2 as <-. congruence.
Qed.

(** One [push] with [{immediate: true}] *)
Lemma push_immediate_writes key v onComplete w :
  registry_wf w ->
  let w' := fst (push ext key v (VObj [("immediate", VBool true)]) onComplete w) in
  same_view w w' /\ w_log w' = w_log w /\
  obj_get (w_properties w') key = Some v /\
  (exists id, table_get (w_registry w') key = Some id /\
     w_values w' !! id = Some (updateAndNotify (w_frame w) v (value_before key w))) /\
  (forall k, k <> key -> obj_get (w_properties w') k = obj_get (w_properties w) k) /\
  (forall k id mv, k <> key -> table_get (w_registry w) k = Some id ->
     w_values w !! id = Some mv ->
     table_get (w_registry w') k = Some id /\ w_values w' !! id = Some mv).
Proof.
  intros Hwf w'.
  destruct (push_immediate_effect ext key v (VObj [("immediate", VBool true)]) onComplete w
              (registry_wf_live w key Hwf) eq_refl eq_refl)
    as (Hsv & Hlog & _ & id & Hreg & Hval).
  fold w' in Hsv, Hlog, Hreg, Hval.
  split; [exact Hsv |]. split; [exact Hlog |].
  assert (Hw' : w' = mv_set (snd (get key (default VUndef (obj_get (w_properties w) key)) w))
                       v (fst (get key (default VUndef (obj_get (w_properties w) key)) w))).
  { unfold w', push. destruct (get key _ w) as [w1 id1]. reflexivity. }
  pose proof (registry_wf_get key (default VUndef (obj_get (w_properties w) key)) w Hwf)
    as Hwf1.
  pose proof (get_registry key (default VUndef (obj_get (w_properties w) key)) w)
    as (Hreg1 & Hother).
  set (w1 := fst (get key (default VUndef (obj_get (w_properties w) key)) w)) in *.
  set (id1 := snd (get key (default VUndef (obj_get (w_properties w) key)) w)) in *.
  destruct (Hwf1 key id1 Hreg1) as (mv1 & Hmv1 & Hs1).
  assert (Hprops : w_properties w' = obj_set (w_properties w) key v).
  { rewrite Hw', (properties_mv_set _ _ _ _ _ Hmv1 Hs1). unfold w1.
    rewrite properties_get. reflexivity. }
  split; [rewrite Hprops; apply obj_get_set_same |].
  split; [exists id; auto |].
  split; [intros k Hk; rewrite Hprops; apply obj_get_set_other, Hk |].
  intros k id0 mv0 Hk Hreg0 Hmv0.
  assert (Hreg0' : table_get (w_registry w1) k = Some id0) by (rewrite Hother; assumption).
  split.
  - rewrite Hw', registry_mv_set. exact Hreg0'.
  - rewrite Hw', values_mv_set_ne.
    + apply values_get_old, Hmv0.
    + intros ->. apply Hk. exact (registry_wf_unique w1 k key id1 Hwf1 Hreg0' Hreg1).
Qed.

Lemma value_before_push_other key v onComplete w k :
  registry_wf w -> k <> key ->
  value_before k (fst (push ext key v (VObj [("immediate", VBool true)]) onComplete w)) =
  value_before k w.
Proof.
  intros Hwf Hk.
  destruct (push_immediate_writes key v onComplete w Hwf) as (_ & _ & _ & _ & Hpo & Hro).
  unfold value_before. rewrite (registry_push ext key v _ onComplete w k Hk), (Hpo k Hk).
  destruct (table_get (w_registry w) k) as [id |] eqn:E; [| reflexivity].
  destruct (Hwf k id E) as (mv & Hmv & _).
  destruct (Hro k id mv Hk E Hmv) as [_ Hv]. rewrite Hv, Hmv. reflexivity.
Qed.

Lemma set_fold_spec (entries : obj) w :
  registry_wf w -> NoDup (map fst entries) ->
  let step := fun w (kv : string * value) =>
                if String.eqb (fst kv) "transition" then w
                else fst (push ext (fst kv) (snd kv) (VObj [("immediate", VBool true)]) None w) in
  let w' := fold_left step entries w in
  same_view w w' /\ w_log w' = w_log w /\
  (forall k, k ∉ List.filter (fun k => negb (String.eqb k "transition")) (map fst entries) ->
     obj_get (w_properties w') k = obj_get (w_properties w) k /\
     value_before k w' = value_before k w /\
     forall id mv, table_get (w_registry w) k = Some id -> w_values w !! id = Some mv ->
       table_get (w_registry w') k = Some id /\ w_values w' !! id = Some mv) /\
  (forall key v, (key, v) ∈ entries -> key <> "transition" ->
     obj_get (w_properties w') key = Some v /\
     exists id mv, table_get (w_registry w') key = Some id /\
       w_values w' !! id = Some mv /\ mv_current mv = v /\
       mv_stopAnimation mv = mv_stopAnimation (value_before key w)).
Proof.
  intros Hwf Hnd step. revert w Hwf.
  induction entries as [| [k0 v0] entries IH]; intros w Hwf w'.
  - subst w'. simpl. split; [apply same_view_refl |]. split; [reflexivity |].
    split; [auto |]. intros key v H. inversion H.
  - apply NoDup_cons in Hnd as [Hk0 Hnd].
    subst w'. cbn [fold_left].
    set (w1 := step w (k0, v0)).
    assert (Hwf1 : registry_wf w1).
    { unfold w1, step. cbn [fst snd]. destruct (String.eqb k0 "transition"); [exact Hwf |].
      apply registry_wf_push, Hwf. }
    destruct (IH Hnd w1 Hwf1) as (Hsv & Hlog & Hkeep & Hset).
    cbn [map List.filter fst].
    destruct (String.eqb k0 "transition") eqn:E0; cbn [negb].
    + assert (Hw1 : w1 = w) by (unfold w1, step; cbn [fst]; rewrite E0; reflexivity).
      rewrite Hw1 in *. split; [exact Hsv |]. split; [exact Hlog |].
      split; [exact Hkeep |].
      intros key v Hin Hkey. apply elem_of_cons in Hin as [Heq | Hin]; [| auto].
      injection Heq as -> ->. apply String.eqb_eq in E0. congruence.
    + assert (Hw1 : w1 = fst (push ext k0 v0 (VObj [("immediate", VBool true)]) None w))
        by (unfold w1, step; cbn [fst snd]; rewrite E0; reflexivity).
      destruct (push_immediate_writes k0 v0 None w Hwf)
        as (Hsv0 & Hlog0 & Hp0 & (id0 & Hreg0 & Hval0) & Hpo & Hro).
      rewrite <- Hw1 in Hsv0, Hlog0, Hp0, Hreg0, Hval0, Hpo, Hro.
      assert (Hk0' : k0 ∉ List.filter (fun k => negb (String.eqb k "transition"))
                                      (map fst entries)).
      { intros H. apply Hk0. apply list_elem_of_In in H. apply filter_In in H as [H _].
        apply list_elem_of_In. exact H. }
      split; [eapply same_view_trans; eassumption |].
      split; [congruence |].
      split.
      * intros k Hk. apply not_elem_of_cons in Hk as [Hne Hk].
        destruct (Hkeep k Hk) as (Hkp & Hkv & Hkr).
        split; [rewrite Hkp; apply Hpo, Hne |].
        split; [rewrite Hkv, Hw1; apply value_before_push_other; assumption |].
        intros id mv Hreg Hmv. destruct (Hro k id mv Hne Hreg Hmv) as [H1 H2].
        apply Hkr; assumption.
      * intros key v Hin Hkey. apply elem_of_cons in Hin as [Heq | Hin].
        { injection Heq as -> ->. destruct (Hkeep k0 Hk0') as (Hkp & _ & Hkr).
          split; [rewrite Hkp; exact Hp0 |].
          destruct (Hkr _ _ Hreg0 Hval0) as [H1 H2].
          exists id0. eexists. split; [exact H1 |]. split; [exact H2 |].
          split; reflexivity. }
        destruct (Hset key v Hin Hkey) as (Hp & id & mv & H1 & H2 & H3 & H4).
        split; [exact Hp |]. exists id, mv. split; [exact H1 |]. split; [exact H2 |].
        split; [exact H3 |]. rewrite H4, Hw1. f_equal.
        apply value_before_push_other; [exact Hwf |].
        intros ->. apply Hk0. apply list_elem_of_In, in_map_iff.
        exists (k0, v). split; [reflexivity | apply list_elem_of_In, Hin].
Qed.

End SetVariant.

(** *** [set] in the host's reading *)

Section HostSet.

Variable ext : Externals.

Lemma get_set_microtasks (key : string) (from : value) (m : list reaction) (w : World) :
  get key from (set_microtasks m w) =
  (set_microtasks m (fst (get key from w)), snd (get key from w)).
Proof. unfold get. cbn. destruct (table_get (w_registry w) key); reflexivity. Qed.

Lemma notify_set_microtasks (subs : list subscriber) (v : value) (m : list reaction)
    (w : World) :
  notify subs v (set_microtasks m w) = set_microtasks m (notify subs v w).
Proof.
  unfold notify. revert w. induction subs as [| [key] subs IH]; intros w; [reflexivity |].
  cbn [fold_left]. rewrite <- IH. reflexivity.
Qed.

Lemma mv_set_set_microtasks (id : nat) (v : value) (m : list reaction) (w : World) :
  mv_set id v (set_microtasks m w) = set_microtasks m (mv_set id v w).
Proof.
  unfold mv_set. cbn [w_values set_microtasks w_frame].
  destruct (w_values w !! id); [| reflexivity].
  rewrite <- notify_set_microtasks. reflexivity.
Qed.

Lemma push_immediate_set_microtasks (key : string) (v : value) (m : list reaction)
    (w : World) :
  push_immediate ext key v (set_microtasks m w) = set_microtasks m (push_immediate ext key v w).
Proof.
  unfold push_immediate, push. cbn [w_properties set_microtasks].
  rewrite get_set_microtasks.
  destruct (get key (default VUndef (obj_get (w_properties w) key)) w) as [w1 id].
  cbn. apply mv_set_set_microtasks.
Qed.

Lemma push_immediate_microtasks (key : string) (v : value) (w : World) :
  w_microtasks (push_immediate ext key v w) = w_microtasks w.
Proof.
  unfold push_immediate, push.
  pose proof (same_view_get key (default VUndef (obj_get (w_properties w) key)) w) as Hg.
  destruct (get key (default VUndef (obj_get (w_properties w) key)) w) as [w1 id].
  cbn [fst] in *. cbn.
  rewrite (proj1 (proj2 (same_view_mv_set id v w1))). apply Hg.
Qed.

Lemma Host_lift_lift (f g : World -> World) (hw : Host.world) :
  (forall m w, g (set_microtasks m w) = set_microtasks m (g w)) ->
  (forall w, w_microtasks (g w) = w_microtasks w) ->
  Host.lift g (Host.lift f hw) = Host.lift (fun w => g (f w)) hw.
Proof.
  intros Hcomm Hkeep. unfold Host.lift, Host.with_world, Host.flush.
  cbn [Host.h_world Host.h_rejected Host.h_jobs].
  rewrite Hcomm, Hkeep. cbn [set_microtasks w_microtasks map].
  rewrite app_nil_r. reflexivity.
Qed.

Lemma Host_push_immediate (key : string) (v : value) (hw : Host.world) :
  inherited key = false ->
  Host.push ext key v (VObj [("immediate", VBool true)]) None hw =
  (Host.lift (push_immediate ext key v) hw, Host.Normal (VObj [("immediate", VBool true)])).
Proof.
  intros Hord. unfold Host.push. rewrite (Host_get_ordinary _ _ _ Hord).
  rewrite (member_ordinary _ _ Hord). cbn [get_field truthy andb obj_get String.eqb].
  cbn [fst snd]. f_equal.
  unfold push_immediate, push, Host.lift, Host.with_world, Host.flush.
  cbn [Host.h_world Host.h_rejected Host.h_jobs].
  pose proof (same_view_get key (default VUndef (obj_get (w_properties (Host.h_world hw)) key))
                (Host.h_world hw)) as Hg.
  destruct (get key (default VUndef (obj_get (w_properties (Host.h_world hw)) key))
              (Host.h_world hw)) as [w1 id].
  cbn [fst snd] in *. cbn [get_field obj_get String.eqb Ascii.eqb Bool.eqb].
  change (truthy (default VUndef (Some (VBool true)))) with true.
  cbn [truthy andb fst].
  rewrite (proj1 (proj2 (same_view_mv_set id v w1))).
  rewrite mv_set_set_microtasks.
  cbn [set_microtasks w_microtasks map]. rewrite app_nil_r. reflexivity.
Qed.

Lemma Host_set_fold (entries : obj) (hw : Host.world) (f : World -> World) :
  (forall k, k ∈ map fst entries -> String.eqb k "transition" = false -> inherited k = false) ->
  fold_left
    (fun '(hw, c) kv =>
       match c with
       | Host.Abrupt _ => (hw, c)
       | Host.Normal _ =>
           if String.eqb (fst kv) "transition" then (hw, c)
           else
             match Host.push ext (fst kv) (snd kv) (VObj [("immediate", VBool true)]) None hw
             with
             | (hw, Host.Normal _) => (hw, Host.Normal tt)
             | (hw, Host.Abrupt e) => (hw, Host.Abrupt e)
             end
       end)
    entries (Host.lift f hw, Host.Normal tt) =
  (Host.lift
     (fun w =>
        fold_left
          (fun w kv =>
             if String.eqb (fst kv) "transition" then w
             else fst (push ext (fst kv) (snd kv) (VObj [("immediate", VBool true)]) None w))
          entries (f w))
     hw,
   Host.Normal tt).
Proof.
  revert f. induction entries as [| [k v] entries IH]; intros f Hord; [reflexivity |].
  cbn [fold_left fst snd].
  destruct (String.eqb k "transition") eqn:Ek.
  - apply (IH f). intros k' Hk'. apply Hord. constructor. exact Hk'.
  - rewrite Host_push_immediate by (apply Hord; [constructor | exact Ek]).
    rewrite (Host_lift_lift f (push_immediate ext k v) hw
               (push_immediate_set_microtasks k v) (push_immediate_microtasks k v)).
    apply (IH (fun w => push_immediate ext k v (f w))).
    intros k' Hk'. apply Hord. constructor. exact Hk'.
Qed.

Lemma Host_lift_id (hw : Host.world) :
  w_microtasks (Host.h_world hw) = [] -> Host.lift (fun w => w) hw = hw.
Proof.
  intros H. destruct hw as [w R J]. cbn in H.
  unfold Host.lift, Host.with_world, Host.flush. cbn. rewrite H. cbn. rewrite app_nil_r.
  f_equal. destruct w. cbn in *. subst. reflexivity.
Qed.

End HostSet.

(** [set(variant)], for a variant whose property names are no names of
    members of [Object.prototype], returns (it does not throw) and writes
    every entry of the variant other than [transition] at once: afterwards
    the property bag and the motion value of each key hold the value of the
    entry.  It starts no animation and stops none (the stop function of each
    motion value is what it was), makes no promise and calls no callback.  A
    variant name stands for the variant of that name in the variants table.
    The host's reading of [set] gives the same world. *)
Theorem set_writes_variant (ext : Externals) (w : World) (variant : value) (o : obj) :
  registry_wf w ->
  NoDup (map fst o) ->
  (forall key, key ∈ map fst o -> inherited key = false) ->
  variant = VObj o \/
  (isObject variant = false /\ get_field (w_variants w) (to_string variant) = VObj o) ->
  let w' := fst (set ext variant w) in
  snd (set ext variant w) = Ok tt /\
  (forall hw, Host.h_world hw = w -> w_microtasks w = [] ->
     Host.set ext variant hw = (Host.lift (fun _ => w') hw, Host.Normal tt)) /\
  w_engine w' = w_engine w /\
  w_promises w' = w_promises w /\
  w_microtasks w' = w_microtasks w /\
  w_log w' = w_log w /\
  (forall key v, (key, v) ∈ o -> key <> "transition" ->
     obj_get (w_properties w') key = Some v /\
     exists id mv, table_get (w_registry w') key = Some id /\
       w_values w' !! id = Some mv /\ mv_current mv = v /\
       mv_stopAnimation mv = mv_stopAnimation (value_before key w)) /\
  (forall k, k ∉ map fst o -> obj_get (w_properties w') k = obj_get (w_properties w) k).
Proof.
  intros Hwf Hnd Hord Hvar w'.
  assert (Hdata : (if isObject variant then Ok variant
                   else getVariantFromKey (to_string variant) w) = Ok (VObj o)).
  { destruct Hvar as [-> | [Hno Hget]]; [reflexivity |]. rewrite Hno.
    unfold getVariantFromKey. rewrite Hget.
    destruct (w_variants w); try discriminate. reflexivity. }
  assert (Hhost : forall hw, Host.h_world hw = w ->
            (if isObject variant then Host.Normal variant
             else Host.getVariantFromKey (to_string variant) (Host.h_world hw)) =
            Host.Normal (VObj o)).
  { intros hw ->. destruct (isObject variant) eqn:Ei.
    - destruct Hvar as [-> | [Hno _]]; [reflexivity | congruence].
    - apply Host_getVariantFromKey_Ok. exact Hdata. }
  subst w'. unfold set. rewrite Hdata. cbn [fst snd Object_entries].
  destruct (set_fold_spec ext o w Hwf Hnd) as ((Hp & Hm & He & _) & Hlog & Hkeep & Hset).
  cbv zeta in *.
  split; [reflexivity |].
  split.
  { intros hw Hw Hmt. unfold Host.set. rewrite (Hhost hw Hw). cbn [Object_entries].
    rewrite <- (Host_lift_id hw) at 1 by (rewrite Hw; exact Hmt).
    rewrite (Host_set_fold ext o hw (fun w => w)).
    - unfold Host.lift, Host.with_world. rewrite Hw. reflexivity.
    - intros k Hk _. apply Hord, Hk. }
  repeat (split; [assumption || reflexivity |]).
  intros k Hk. apply Hkeep. intros H. apply Hk.
  apply list_elem_of_In in H. apply filter_In in H as [H _]. apply list_elem_of_In, H.
Qed.

Lemma set_writes_variant_witness :
  let variants := VObj [("initial", VObj [("opacity", VInt 0); ("x", VInt 100);
                                          ("transition", VObj [("duration", VInt 200)])])] in
  let w := fst (apply sample_externals (VObj [("opacity", VInt 1)])
                  (init_world variants [("opacity", VInt 0)])) in
  let w' := fst (set sample_externals (VStr "initial") w) in
  w_engine w' = w_engine w /\
  obj_get (w_properties w') "x" = Some (VInt 100) /\
  obj_get (w_properties w') "transition" = None.
Proof.
  destruct (set_writes_variant sample_externals
              (fst (apply sample_externals (VObj [("opacity", VInt 1)])
                      (init_world
                         (VObj [("initial", VObj [("opacity", VInt 0); ("x", VInt 100);
                                   ("transition", VObj [("duration", VInt 200)])])])
                         [("opacity", VInt 0)])))
              (VStr "initial")
              [("opacity", VInt 0); ("x", VInt 100);
               ("transition", VObj [("duration", VInt 200)])])
    as (_ & _ & He & _ & _ & _ & Hset & _).
  - apply registry_wf_apply. intros key id H. discriminate.
  - apply (bool_decide_unpack _). vm_compute. exact I.
  - intros key Hkey. cbn in Hkey.
    repeat (apply elem_of_cons in Hkey as [-> | Hkey]; [reflexivity |]). inversion Hkey.
  - right. split; reflexivity.
  - split; [exact He |]. split; [| reflexivity].
    apply (Hset "x" (VInt 100)); [| discriminate].
    constructor. constructor.
Defined.

(** [set] with something that is not an object and names no variant throws
    [Error("The variant <name> does not exist.")] before anything is
    written: when the name is not the name of a member of [Object.prototype]
    and the variants table is falsy or is a plain object without a truthy
    entry of that name.  This holds of the lookup of own properties and of
    the lookup as the host performs it. *)
Theorem set_unknown_variant_throws (ext : Externals) (w : World) (variant : value) :
  isObject variant = false ->
  variant_missing (w_variants w) (to_string variant) ->
  set ext variant w =
    (w, Throw "Error" ("The variant " +:+ to_string variant +:+ " does not exist.")) /\
  (forall hw, Host.h_world hw = w ->
     Host.set ext variant hw =
       (hw, Host.Abrupt
              (Host.Error ("The variant " +:+ to_string variant +:+ " does not exist.")))).
Proof.
  intros Hno Hmiss. split.
  - unfold set, getVariantFromKey. rewrite Hno.
    destruct Hmiss as [Hf | (_ & table & Htable & Hentry)].
    + rewrite Hf. reflexivity.
    + rewrite Htable. cbn [get_field truthy negb orb].
      unfold option_field in Hentry. rewrite Hentry. reflexivity.
  - intros hw <-. unfold Host.set, Host.getVariantFromKey. rewrite Hno.
    destruct Hmiss as [Hf | (Hord & table & Htable & Hentry)].
    + rewrite Hf. reflexivity.
    + rewrite Htable, (member_ordinary table _ Hord). cbn [get_field truthy negb orb].
      unfold option_field in Hentry. rewrite Hentry. reflexivity.
Qed.

Lemma set_unknown_variant_throws_witness :
  let w := init_world (VObj [("initial", VObj [("opacity", VInt 0)])]) [] in
  set sample_externals (VStr "enter") w =
    (w, Throw "Error" "The variant enter does not exist.").
Proof.
  refine (proj1 (set_unknown_variant_throws sample_externals
                   (init_world (VObj [("initial", VObj [("opacity", VInt 0)])]) [])
                   (VStr "enter") eq_refl _)).
  right. split; [reflexivity |]. eexists. split; reflexivity.
Defined.

(** ** Animations started by [push] *)

Section StartedAnimations.

Variable ext : Externals.
Implicit Types (w : World) (k key : string).



Lemma mv_stop_quiet id w :
  w_promises (mv_stop id w) = w_promises w /\
  w_microtasks (mv_stop id w) = w_microtasks w /\
  w_log (mv_stop id w) = w_log w /\
  w_properties (mv_stop id w) = w_properties w /\
  w_frame (mv_stop id w) = w_frame w.
Proof.
  unfold mv_stop. destruct (w_values w !! id) as [mv |]; [| auto].
  destruct (mv_stopAnimation mv) as [[| a] |]; simpl; auto.
  unfold engine_stop. destruct (w_engine w !! a) as [ea |]; [| auto].
  destruct (is_running ea); auto.
Qed.


End StartedAnimations.

Section PushStart.

Variable ext : Externals.
Implicit Types (w : World) (k key : string).


End PushStart.

Section EngineCallbacks.

Variable ext : Externals.
Implicit Types (w : World) (k key : string).




End EngineCallbacks.



(** ** Completion of an animation *)

Section Completion.

Variable ext : Externals.
Implicit Types (w : World) (k key : string).












End Completion.



(** ** Animations handed to [inertia] *)

Section Inertia.

Variable ext : Externals.
Implicit Types (w : World) (k key : string).


Lemma registered_app_old r q (l extra : list Promise) w w' :
  w_promises w = l -> w_promises w' = (l ++ extra)%list -> (q < length l)%nat ->
  registered r q w' = registered r q w.
Proof.
  intros H H' Hq. unfold registered. rewrite H, H', lookup_app_l by exact Hq. reflexivity.
Qed.



End Inertia.



(** ** Objects as association lists *)

Section Objects.

Implicit Types (o a b : obj) (k : string).

Lemma filter_bool {A : Type} (f : A -> bool) (l : list A) :
  filter (fun x => Is_true (f x)) l = List.filter f l.
Proof.
  induction l as [| x l IH]; [reflexivity |].
  rewrite filter_cons. cbn [List.filter]. rewrite IH.
  destruct (decide (Is_true (f x))) as [H | H]; destruct (f x); simpl in H;
    try reflexivity; exfalso; tauto.
Qed.

Lemma obj_omit_filter ks o :
  obj_omit ks o = List.filter (fun kv => negb (existsb (String.eqb (fst kv)) ks)) o.
Proof. unfold obj_omit. apply (filter_bool (fun kv => negb (existsb (String.eqb (fst kv)) ks))). Qed.

Lemma obj_get_omit ks o k :
  obj_get (obj_omit ks o) k = if existsb (String.eqb k) ks then None else obj_get o k.
Proof.
  rewrite obj_omit_filter. induction o as [| [k0 v0] o IH]; simpl.
  - destruct (existsb _ ks); reflexivity.
  - destruct (existsb (String.eqb k0) ks) eqn:E0; simpl.
    + rewrite IH. destruct (String.eqb k0 k) eqn:E; [| reflexivity].
      apply String.eqb_eq in E. subst k0. rewrite E0. reflexivity.
    + rewrite IH. destruct (String.eqb k0 k) eqn:E; [| reflexivity].
      apply String.eqb_eq in E. subst k0. rewrite E0. reflexivity.
Qed.

Lemma obj_get_None_notin o k : obj_get o k = None <-> k ∉ map fst o.
Proof.
  induction o as [| [k0 v0] o IH]; simpl.
  - split; [intros _ H; inversion H | reflexivity].
  - destruct (String.eqb k0 k) eqn:E.
    + apply String.eqb_eq in E. subst. split; [discriminate |].
      intros H. exfalso. apply H. constructor.
    + rewrite IH. apply String.eqb_neq in E. rewrite not_elem_of_cons.
      split; [intros H; split; [congruence | exact H] | intros [_ H]; exact H].
Qed.

Lemma obj_set_keys o k v :
  map fst (obj_set o k v) = if decide (k ∈ map fst o) then map fst o else (map fst o ++ [k])%list.
Proof.
  induction o as [| [k0 v0] o IH]; cbn [obj_set map fst].
  - destruct (decide (k ∈ [])) as [H | H]; [inversion H | reflexivity].
  - destruct (String.eqb k0 k) eqn:E.
    + apply String.eqb_eq in E. subst.
      destruct (decide (k ∈ k :: map fst o)) as [H | H]; [reflexivity |].
      exfalso. apply H. constructor.
    + apply String.eqb_neq in E. cbn [map fst]. rewrite IH.
      destruct (decide (k ∈ map fst o)) as [H | H];
        destruct (decide (k ∈ k0 :: map fst o)) as [H' | H']; try reflexivity.
      * exfalso. apply H'. constructor. exact H.
      * exfalso. apply elem_of_cons in H' as [-> | H']; congruence.
Qed.

Lemma obj_set_NoDup o k v : NoDup (map fst o) -> NoDup (map fst (obj_set o k v)).
Proof.
  intros H. rewrite obj_set_keys. destruct (decide _) as [Hin | Hn]; [exact H |].
  apply NoDup_app. split; [exact H |]. split.
  - intros x Hx Hx'. apply list_elem_of_singleton in Hx'. subst. contradiction.
  - apply NoDup_singleton.
Qed.

Lemma obj_omit_NoDup ks o : NoDup (map fst o) -> NoDup (map fst (obj_omit ks o)).
Proof.
  rewrite obj_omit_filter. induction o as [| [k0 v0] o IH]; simpl; [auto |].
  intros H. apply NoDup_cons in H as [Hn H].
  destruct (existsb _ ks); simpl; [exact (IH H) |].
  apply NoDup_cons. split; [| exact (IH H)].
  intros Hin. apply Hn. apply list_elem_of_In in Hin. apply in_map_iff in Hin as (x & <- & Hx).
  apply filter_In in Hx as [Hx _]. apply list_elem_of_In, in_map. exact Hx.
Qed.

Lemma obj_get_spread a b k :
  NoDup (map fst b) ->
  obj_get (obj_spread a b) k =
  match obj_get b k with Some v => Some v | None => obj_get a k end.
Proof.
  unfold obj_spread. revert a. induction b as [| [k0 v0] b IH]; intros a Hnd; simpl.
  - reflexivity.
  - apply NoDup_cons in Hnd as [Hn Hnd]. rewrite (IH _ Hnd).
    destruct (String.eqb k0 k) eqn:E.
    + apply String.eqb_eq in E. subst k0.
      rewrite (proj2 (obj_get_None_notin b k) Hn). apply obj_get_set_same.
    + apply String.eqb_neq in E.
      destruct (obj_get b k); [reflexivity |]. apply obj_get_set_other. congruence.
Qed.

Lemma obj_spread_NoDup a b : NoDup (map fst a) -> NoDup (map fst (obj_spread a b)).
Proof.
  unfold obj_spread. revert a. induction b as [| [k0 v0] b IH]; intros a H; simpl; [exact H |].
  apply IH, obj_set_NoDup, H.
Qed.

(** Writing entries with new, distinct keys appends them in order. *)
Lemma fold_obj_set_fresh {A : Type} (key : A -> string) (val : A -> value) (l : list A) o :
  NoDup (map key l) -> (forall x, x ∈ l -> key x ∉ map fst o) ->
  fold_left (fun acc x => obj_set acc (key x) (val x)) l o =
  (o ++ map (fun x => (key x, val x)) l)%list.
Proof.
  revert o. induction l as [| x l IH]; intros o Hnd Hfresh; simpl.
  - rewrite app_nil_r. reflexivity.
  - apply NoDup_cons in Hnd as [Hx Hnd].
    assert (Hset : obj_set o (key x) (val x) = (o ++ [(key x, val x)])%list).
    { assert (Hn : key x ∉ map fst o) by (apply Hfresh; constructor).
      clear -Hn. induction o as [| [k0 v0] o IHo]; simpl; [reflexivity |].
      simpl in Hn. apply not_elem_of_cons in Hn as [Hne Hn].
      destruct (String.eqb k0 (key x)) eqn:E.
      - apply String.eqb_eq in E. congruence.
      - f_equal. exact (IHo Hn). }
    rewrite Hset, IH; [rewrite <- app_assoc; reflexivity | exact Hnd |].
    intros y Hy. rewrite map_app. simpl. rewrite elem_of_app. intros [H | H].
    + revert H. apply Hfresh. constructor. exact Hy.
    + apply list_elem_of_singleton in H. apply Hx. rewrite <- H.
      apply list_elem_of_In, in_map, list_elem_of_In, Hy.
Qed.

End Objects.

(** ** Transition resolution *)

Section TransitionOptions.

Variable ext : Externals.

Lemma convert_get (t : obj) (k : string) :
  existsb (String.eqb k) ["ease"; "times"; "delay"; "offset"; "elapsed"] = false ->
  obj_get (convertTransitionToAnimationOptions (VObj t)) k = obj_get t k.
Proof.
  intros Hk. unfold convertTransitionToAnimationOptions. cbn [Object_entries].
  simpl in Hk. repeat (apply orb_false_iff in Hk as [? Hk]).
  repeat match goal with H : String.eqb k _ = false |- _ => apply String.eqb_neq in H end.
  set (o0 := obj_omit _ t).
  assert (Hget0 : obj_get o0 k = obj_get t k).
  { unfold o0. rewrite obj_get_omit. simpl.
    repeat match goal with H : k <> _ |- _ =>
      rewrite (proj2 (String.eqb_neq _ _) H) end. reflexivity. }
  destruct (truthy (get_field (VObj t) "delay"));
    destruct (truthy (get_field (VObj t) "ease"));
    destruct (truthy (get_field (VObj t) "times"));
    rewrite ?obj_get_set_other by congruence; exact Hget0.
Qed.

Lemma convert_NoDup (t : obj) :
  NoDup (map fst t) -> NoDup (map fst (convertTransitionToAnimationOptions (VObj t))).
Proof.
  intros H. unfold convertTransitionToAnimationOptions. cbn [Object_entries].
  pose proof (obj_omit_NoDup ["ease"; "times"; "delay"] t H) as H0.
  destruct (truthy (get_field (VObj t) "delay"));
    destruct (truthy (get_field (VObj t) "ease"));
    destruct (truthy (get_field (VObj t) "times"));
    auto using obj_set_NoDup.
Qed.

End TransitionOptions.

(** [convertTransitionToAnimationOptions] hides the transition's [delay] and
    [times] from the engine: the options have neither key; a truthy [delay]
    becomes the negative [elapsed], a truthy [times] becomes [offset]; every
    other entry of the transition except [ease] is passed on unchanged. *)
Theorem convertTransition_renames (t : obj) :
  let options := convertTransitionToAnimationOptions (VObj t) in
  obj_get options "delay" = None /\
  obj_get options "times" = None /\
  (truthy (get_field (VObj t) "delay") = true ->
   obj_get options "elapsed" = Some (VNum (num_neg (Number (get_field (VObj t) "delay"))))) /\
  (truthy (get_field (VObj t) "times") = true ->
   obj_get options "offset" = Some (get_field (VObj t) "times")) /\
  (truthy (get_field (VObj t) "ease") = false -> obj_get options "ease" = None) /\
  (forall k, existsb (String.eqb k) ["ease"; "times"; "delay"; "offset"; "elapsed"] = false ->
             obj_get options k = obj_get t k).
Proof.
  intros options. subst options.
  assert (Hd : forall k, existsb (String.eqb k) ["ease"; "times"; "delay"] = true ->
                 k <> "offset" -> k <> "elapsed" ->
                 truthy (get_field (VObj t) k) = false \/ k <> "ease" ->
                 obj_get (convertTransitionToAnimationOptions (VObj t)) k = None).
  { intros k Hk Ho He Hease. unfold convertTransitionToAnimationOptions. cbn [Object_entries].
    assert (H0 : obj_get (obj_omit ["ease"; "times"; "delay"] t) k = None)
      by (rewrite obj_get_omit, Hk; reflexivity).
    destruct (truthy (get_field (VObj t) "delay"));
      [rewrite obj_get_set_other by congruence |];
      (destruct (truthy (get_field (VObj t) "ease")) eqn:Ee;
       [rewrite obj_get_set_other
          by (destruct Hease as [Hf | Hn]; [intros ->; congruence | congruence]) |]);
      (destruct (truthy (get_field (VObj t) "times"));
       [rewrite obj_get_set_other by congruence |]); exact H0. }
  split; [apply Hd; [reflexivity | discriminate | discriminate | right; discriminate] |].
  split; [apply Hd; [reflexivity | discriminate | discriminate | right; discriminate] |].
  split.
  { intros H. unfold convertTransitionToAnimationOptions. rewrite H. apply obj_get_set_same. }
  split.
  { intros H. unfold convertTransitionToAnimationOptions. rewrite H.
    destruct (truthy (get_field (VObj t) "delay"));
      [rewrite obj_get_set_other by discriminate |];
      (destruct (truthy (get_field (VObj t) "ease"));
       [rewrite obj_get_set_other by discriminate |]); apply obj_get_set_same. }
  split.
  { intros H. apply Hd; [reflexivity | discriminate | discriminate | left; exact H]. }
  apply convert_get.
Qed.

Lemma convertTransition_renames_witness :
  convertTransitionToAnimationOptions
    (VObj [("type", VStr "keyframes"); ("delay", VInt 200); ("times", VArr [VInt 0; VInt 1])]) =
  [("type", VStr "keyframes"); ("offset", VArr [VInt 0; VInt 1]); ("elapsed", VInt (-200))] /\
  obj_get (convertTransitionToAnimationOptions
             (VObj [("type", VStr "keyframes"); ("delay", VInt 200);
                    ("times", VArr [VInt 0; VInt 1])])) "elapsed" =
  Some (VNum (num_neg (Number (VInt 200)))).
Proof.
  split; [reflexivity |].
  apply (convertTransition_renames
           [("type", VStr "keyframes"); ("delay", VInt 200); ("times", VArr [VInt 0; VInt 1])]).
  reflexivity.
Defined.

Section PopmotionOptions.

Variable ext : Externals.

Lemma isTransitionDefined_has (t : obj) (k : string) :
  existsb (String.eqb k) ["delay"; "repeat"; "repeatType"; "repeatDelay"; "from"] = false ->
  obj_has t k = true -> isTransitionDefined (VObj t) = true.
Proof.
  intros Hk Hhas. unfold isTransitionDefined. cbn [Object_entries].
  apply negb_true_iff, Nat.eqb_neq. intros Hlen.
  apply length_zero_iff_nil in Hlen.
  pose proof (obj_get_omit ["delay"; "repeat"; "repeatType"; "repeatDelay"; "from"] t k) as H.
  rewrite Hlen, Hk in H. unfold obj_has in Hhas. rewrite <- H in Hhas. discriminate.
Qed.

Lemma obj_has_set (o : obj) (k : string) (v : value) : obj_has (obj_set o k v) k = true.
Proof. unfold obj_has. rewrite obj_get_set_same. reflexivity. Qed.

Lemma truthy_has (t : obj) (k : string) :
  truthy (get_field (VObj t) k) = true -> obj_has t k = true.
Proof. unfold obj_has. simpl. destruct (obj_get t k); [reflexivity | discriminate]. Qed.

(** The transition and the options that [getPopmotionAnimationOptions]
    works with when the target is an array of keyframes *)
Lemma getPopmotionAnimationOptions_keyframes (t options : obj) (key : string) :
  NoDup (map fst t) ->
  is_array (option_field options "to") = true ->
  let duration :=
    if truthy (get_field (VObj t) "duration") then get_field (VObj t) "duration"
    else VInt 800 in
  let t' := if truthy (get_field (VObj t) "duration") then t else obj_set t "duration" (VInt 800) in
  getPopmotionAnimationOptions ext (VObj t) options key =
    (VObj t', obj_spread (hydrateKeyframes options)
                (convertTransitionToAnimationOptions (VObj t'))) /\
  NoDup (map fst t') /\
  obj_get t' "duration" = Some duration.
Proof.
  intros Hnd Harr duration t'. unfold getPopmotionAnimationOptions.
  unfold option_field in Harr. rewrite Harr.
  assert (Ht' : (if negb (truthy (get_field (VObj t) "duration"))
                 then set_field (VObj t) "duration" (VInt 800) else VObj t) = VObj t').
  { unfold t'. destruct (truthy (get_field (VObj t) "duration")); reflexivity. }
  rewrite Ht'.
  assert (Hd : obj_get t' "duration" = Some duration).
  { unfold t', duration. destruct (truthy (get_field (VObj t) "duration")) eqn:E.
    - simpl in *. destruct (obj_get t "duration"); [reflexivity | discriminate].
    - apply obj_get_set_same. }
  assert (Hdef : isTransitionDefined (VObj t') = true).
  { apply (isTransitionDefined_has t' "duration"); [reflexivity |].
    unfold obj_has. rewrite Hd. reflexivity. }
  rewrite Hdef. cbn [negb]. split; [reflexivity |]. split; [| exact Hd].
  unfold t'. destruct (truthy _); [exact Hnd | apply obj_set_NoDup, Hnd].
Qed.

End PopmotionOptions.

(** The options that [getPopmotionAnimationOptions] returns for a target
    that is an array of keyframes have a truthy [duration]: the one of the
    value transition when it is truthy, and otherwise 800, which
    [getPopmotionAnimationOptions] also writes into the transition object
    itself.  (These are the options of the animations that [getAnimation]
    starts with [animate]; the inertia of [decay] and the animations of
    [useSpring] are not built by this function.) *)
Theorem keyframes_get_a_duration (ext : Externals) (t options : obj) (key : string) :
  NoDup (map fst t) ->
  is_array (option_field options "to") = true ->
  let duration :=
    if truthy (get_field (VObj t) "duration") then get_field (VObj t) "duration"
    else VInt 800 in
  option_field (snd (getPopmotionAnimationOptions ext (VObj t) options key)) "duration"
    = duration /\
  get_field (fst (getPopmotionAnimationOptions ext (VObj t) options key)) "duration"
    = duration /\
  truthy duration = true.
Proof.
  intros Hnd Harr duration.
  destruct (getPopmotionAnimationOptions_keyframes ext t options key Hnd Harr)
    as (-> & Hnd' & Hd).
  cbn [fst snd].
  set (t' := if truthy (get_field (VObj t) "duration") then t
             else obj_set t "duration" (VInt 800)) in *.
  split; [| split].
  - unfold option_field. rewrite obj_get_spread by (apply convert_NoDup, Hnd').
    rewrite (convert_get t' "duration") by reflexivity. rewrite Hd. reflexivity.
  - cbn [get_field]. rewrite Hd. reflexivity.
  - unfold duration. destruct (truthy (get_field (VObj t) "duration")) eqn:E;
      [exact E | reflexivity].
Qed.

Lemma keyframes_get_a_duration_witness :
  option_field
    (snd (getPopmotionAnimationOptions sample_externals (VObj [("ease", VStr "easeIn")])
            [("from", VInt 0); ("to", VArr [VInt 0; VInt 50; VInt 100])] "x"))
    "duration" = VInt 800.
Proof.
  apply (keyframes_get_a_duration sample_externals [("ease", VStr "easeIn")]
           [("from", VInt 0); ("to", VArr [VInt 0; VInt 50; VInt 100])] "x").
  - apply (bool_decide_unpack _). vm_compute. exact I.
  - reflexivity.
Defined.

(** A [null] first keyframe stands for the origin of the animation: with a
    value transition that has no [to] of its own the engine gets the
    keyframes with the origin in first place.  The default transition that
    [apply] passes when the variant has no [transition] carries the target as
    its [to], and that entry overrides the keyframes again: the engine then
    gets the [null]. *)
Theorem null_keyframe_is_origin (ext : Externals) (key : string) (from : value)
    (rest : list value) (others : obj) :
  let options := ([("from", from); ("to", VArr (VNull :: rest))] ++ others)%list in
  (forall t, NoDup (map fst t) -> obj_get t "to" = None ->
     option_field (snd (getPopmotionAnimationOptions ext (VObj t) options key)) "to"
       = VArr (from :: rest)) /\
  option_field
    (snd (getPopmotionAnimationOptions ext
            (VObj (getDefaultTransition ext key (VArr (VNull :: rest)))) options key)) "to"
    = VArr (VNull :: rest).
Proof.
  intros options.
  assert (Harr : is_array (option_field options "to") = true) by reflexivity.
  assert (Hhyd : obj_get (hydrateKeyframes options) "to" = Some (VArr (from :: rest))).
  { unfold hydrateKeyframes. cbn. reflexivity. }
  split.
  - intros t Hnd Htto.
    destruct (getPopmotionAnimationOptions_keyframes ext t options key Hnd Harr)
      as (-> & Hnd' & Hd).
    cbn [snd]. unfold option_field.
    set (t' := if truthy (get_field (VObj t) "duration") then t
               else obj_set t "duration" (VInt 800)) in *.
    rewrite obj_get_spread by (apply convert_NoDup, Hnd').
    rewrite (convert_get t' "to") by reflexivity.
    assert (Hn : obj_get t' "to" = None).
    { unfold t'. destruct (truthy _); [exact Htto |].
      rewrite obj_get_set_other by discriminate. exact Htto. }
    rewrite Hn, Hhyd. reflexivity.
  - assert (Hdt : getDefaultTransition ext key (VArr (VNull :: rest)) =
                  [("to", VArr (VNull :: rest)); ("type", VStr "keyframes");
                   ("duration", VInt 800); ("values", VArr (VNull :: rest))])
      by reflexivity.
    rewrite Hdt.
    destruct (getPopmotionAnimationOptions_keyframes ext
                [("to", VArr (VNull :: rest)); ("type", VStr "keyframes");
                 ("duration", VInt 800); ("values", VArr (VNull :: rest))]
                options key) as (-> & Hnd' & Hd); [| exact Harr |].
    { apply (bool_decide_unpack _). vm_compute. exact I. }
    cbn [snd]. unfold option_field.
    rewrite obj_get_spread by (apply convert_NoDup, Hnd').
    change (if truthy (get_field (VObj [("to", VArr (VNull :: rest)); ("type", VStr "keyframes");
                                        ("duration", VInt 800);
                                        ("values", VArr (VNull :: rest))]) "duration")
            then ?a else ?b) with a.
    rewrite (convert_get _ "to") by reflexivity. reflexivity.
Qed.

Lemma null_keyframe_is_origin_witness :
  let w := init_world (VObj []) [("x", VInt 5)] in
  let engine_to variant :=
    map (fun ea => option_field (ea_options ea) "to")
        (w_engine (fst (apply sample_externals variant w))) in
  engine_to (VObj [("x", VArr [VNull; VInt 100]);
                   ("transition", VObj [("ease", VStr "easeIn")])])
    = [VArr [VInt 5; VInt 100]] /\
  engine_to (VObj [("x", VArr [VNull; VInt 100])]) = [VArr [VNull; VInt 100]] /\
  option_field
    (snd (getPopmotionAnimationOptions sample_externals (VObj [("ease", VStr "easeIn")])
            [("from", VInt 5); ("to", VArr [VNull; VInt 100])] "x")) "to"
    = VArr [VInt 5; VInt 100].
Proof.
  split; [vm_compute; reflexivity |]. split; [vm_compute; reflexivity |].
  apply (proj1 (null_keyframe_is_origin sample_externals "x" (VInt 5) [VInt 100] [])).
  - apply (bool_decide_unpack _). vm_compute. exact I.
  - reflexivity.
Defined.

Lemma table_get_notin {A : Type} (t : list (string * A)) (k : string) :
  k ∉ map fst t -> table_get t k = None.
Proof.
  induction t as [| [k0 x] t IH]; simpl; [reflexivity |].
  intros H. apply not_elem_of_cons in H as [Hne H].
  destruct (String.eqb_spec k0 k); [congruence | exact (IH H)].
Qed.

(** The default transition of a key carries the target as [to] and counts
    as a defined transition.  For an array of keyframes it is the 800ms
    keyframes transition with the array as [values], whatever the key.  For
    any other target and a key that is not the name of a member of
    [Object.prototype] it is the linear 300ms tween for [backgroundColor],
    [color] and [opacity], and a spring for every other key, listed or not;
    the lookup of the key as the host performs it gives the same transition
    and does not throw. *)
Theorem getDefaultTransition_shape (ext : Externals) (key : string) (to : value) :
  let transition := getDefaultTransition ext key to in
  (is_array to = true ->
   Host.getDefaultTransition ext key to = Host.Normal transition /\
   obj_get transition "to" = Some to /\
   isTransitionDefined (VObj transition) = true /\
   transition = [("to", to); ("type", VStr "keyframes"); ("duration", VInt 800);
                 ("values", to)]) /\
  (is_array to = false -> inherited key = false ->
   Host.getDefaultTransition ext key to = Host.Normal transition /\
   obj_get transition "to" = Some to /\
   isTransitionDefined (VObj transition) = true /\
   NoDup (map fst transition) /\
   if existsb (fun k => String.eqb k key) ["backgroundColor"; "color"; "opacity"]
   then transition = [("to", to); ("type", VStr "keyframes"); ("ease", VStr "linear");
                      ("duration", VInt 300)]
   else obj_get transition "type" = Some (VStr "spring") /\
        obj_get transition "restSpeed" = Some (VInt 10) /\
        map fst transition = ["to"; "type"; "stiffness"; "damping"; "restDelta"; "restSpeed"]).
Proof.
  intros transition. subst transition. split.
  - intros Harr. unfold Host.getDefaultTransition, getDefaultTransition, isKeyframesTarget.
    rewrite Harr. cbn. repeat split.
  - intros Harr Hord. split; [apply Host_getDefaultTransition_ordinary, Hord |].
    unfold getDefaultTransition, isKeyframesTarget. rewrite Harr.
    destruct (decide (key ∈ map fst (defaultTransitions ext))) as [Hin | Hout].
    + cbn in Hin.
      repeat (apply elem_of_cons in Hin as [-> | Hin]);
        [> cbn; (split; [reflexivity |]); (split; [reflexivity |]);
           (split; [apply (bool_decide_unpack _); vm_compute; exact I |]);
           repeat split .. | inversion Hin].
    + rewrite (table_get_notin _ _ Hout).
      assert (Hex : existsb (fun k => String.eqb k key)
                      ["backgroundColor"; "color"; "opacity"] = false).
      { apply not_true_is_false. intros H. apply existsb_exists in H as (x & Hx & Hk).
        apply String.eqb_eq in Hk. subst x. apply Hout. cbn.
        cbn in Hx. destruct Hx as [<- | [<- | [<- | []]]];
          repeat (first [apply list_elem_of_here | apply list_elem_of_further]). }
      rewrite Hex. cbn. split; [reflexivity |]. split; [reflexivity |].
      split; [apply (bool_decide_unpack _); vm_compute; exact I |].
      repeat split.
Qed.

Lemma getDefaultTransition_shape_witness :
  Host.getDefaultTransition sample_externals "opacity" (VInt 1) =
    Host.Normal (getDefaultTransition sample_externals "opacity" (VInt 1)) /\
  getDefaultTransition sample_externals "opacity" (VInt 1) =
    [("to", VInt 1); ("type", VStr "keyframes"); ("ease", VStr "linear");
     ("duration", VInt 300)] /\
  obj_get (getDefaultTransition sample_externals "zIndex" (VInt 1)) "type" =
    Some (VStr "spring").
Proof.
  destruct (proj2 (getDefaultTransition_shape sample_externals "opacity" (VInt 1))
              eq_refl eq_refl) as (Hhost & _ & _ & _ & Hshape).
  destruct (proj2 (getDefaultTransition_shape sample_externals "zIndex" (VInt 1))
              eq_refl eq_refl) as (_ & _ & _ & _ & Hspring & _).
  split; [exact Hhost |]. split; [exact Hshape | exact Hspring].
Defined.

(** ** Style and transform projection *)

Section Projection.

Variable ext : Externals.

Lemma obj_set_fresh (o : obj) (k : string) (v : value) :
  k ∉ map fst o -> obj_set o k v = (o ++ [(k, v)])%list.
Proof.
  intros Hn. induction o as [| [k0 v0] o IHo]; simpl; [reflexivity |].
  simpl in Hn. apply not_elem_of_cons in Hn as [Hne Hn].
  destruct (String.eqb_spec k0 k); [congruence |]. f_equal. exact (IHo Hn).
Qed.

Lemma splitValues_fold (l transform style : obj) :
  NoDup (map fst l) ->
  (forall k, k ∈ map fst l -> (k ∉ map fst transform) /\ (k ∉ map fst style)) ->
  fold_left
    (fun '(transform, style) kv =>
       if isTransformProp (fst kv) || isTransformOriginProp (fst kv)
       then (obj_set transform (fst kv) (snd kv), style)
       else (transform, obj_set style (fst kv) (snd kv)))
    l (transform, style) =
  ((transform ++ List.filter (fun kv => is_transform_key (fst kv)) l)%list,
   (style ++ List.filter (fun kv => negb (is_transform_key (fst kv))) l)%list).
Proof.
  revert transform style. induction l as [| [k v] l IH]; intros transform style Hnd Hfresh.
  - simpl. rewrite !app_nil_r. reflexivity.
  - apply NoDup_cons in Hnd as [Hk Hnd]. cbn [fold_left List.filter fst snd].
    destruct (Hfresh k ltac:(constructor)) as [Ht Hs].
    change (isTransformProp k || isTransformOriginProp k) with (is_transform_key k).
    destruct (is_transform_key k); cbn [negb].
    + rewrite (obj_set_fresh _ _ _ Ht), IH; [rewrite <- app_assoc; reflexivity | exact Hnd |].
      intros k' Hk'. destruct (Hfresh k' ltac:(constructor; exact Hk')) as [Ht' Hs'].
      split; [| exact Hs']. rewrite map_app, elem_of_app. intros [H | H]; [contradiction |].
      apply list_elem_of_singleton in H. simpl in H. subst k'. contradiction.
    + rewrite (obj_set_fresh _ _ _ Hs), IH; [rewrite <- app_assoc; reflexivity | exact Hnd |].
      intros k' Hk'. destruct (Hfresh k' ltac:(constructor; exact Hk')) as [Ht' Hs'].
      split; [exact Ht' |]. rewrite map_app, elem_of_app. intros [H | H]; [contradiction |].
      apply list_elem_of_singleton in H. simpl in H. subst k'. contradiction.
Qed.

Lemma reactiveStyle_map (state : obj) :
  NoDup (map fst state) ->
  reactiveStyle ext state =
  map (fun kv => (fst kv, getValueAsType ext (snd kv) (getValueType (fst kv)))) state.
Proof.
  intros Hnd. unfold reactiveStyle.
  rewrite (fold_obj_set_fresh fst
             (fun kv => getValueAsType ext (snd kv) (getValueType (fst kv))) state [] Hnd).
  - reflexivity.
  - intros x _ H. inversion H.
Qed.

Lemma obj_get_map_values (f : string -> value -> value) (o : obj) (k : string) :
  obj_get (map (fun kv => (fst kv, f (fst kv) (snd kv))) o) k = f k <$> obj_get o k.
Proof.
  induction o as [| [k0 v0] o IH]; simpl; [reflexivity |].
  destruct (String.eqb_spec k0 k) as [-> | ?]; [reflexivity | exact IH].
Qed.

Lemma splitValues_filter (variant : obj) :
  NoDup (map fst variant) ->
  splitValues variant =
    (List.filter (fun kv => is_transform_key (fst kv)) variant,
     List.filter (fun kv => negb (is_transform_key (fst kv))) variant).
Proof.
  intros Hnd. unfold splitValues. rewrite (splitValues_fold variant [] [] Hnd); [reflexivity |].
  intros k _. split; intros H; inversion H.
Qed.

Lemma obj_get_filter_key (o : obj) (P : string -> bool) (k : string) :
  obj_get (List.filter (fun kv => P (fst kv)) o) k = if P k then obj_get o k else None.
Proof.
  induction o as [| [k0 v0] o IH]; simpl.
  - destruct (P k); reflexivity.
  - destruct (P k0) eqn:E0; simpl; rewrite IH;
      destruct (String.eqb_spec k0 k) as [-> | ?]; try reflexivity.
    + rewrite E0. reflexivity.
    + rewrite E0. reflexivity.
Qed.

Lemma filter_keys_NoDup (o : obj) (P : string -> bool) :
  NoDup (map fst o) -> NoDup (map fst (List.filter (fun kv => P (fst kv)) o)).
Proof.
  induction o as [| [k0 v0] o IH]; simpl; [constructor |].
  intros Hnd. apply NoDup_cons in Hnd as [Hn Hnd].
  destruct (P k0); simpl; [| exact (IH Hnd)].
  apply NoDup_cons. split; [| exact (IH Hnd)].
  intros Hin. apply Hn. apply list_elem_of_In in Hin.
  apply in_map_iff in Hin as (x & <- & Hx). apply filter_In in Hx as [Hx _].
  apply list_elem_of_In, in_map, Hx.
Qed.

End Projection.

(** [splitValues] sorts the entries of a variant, in their order, into the
    transform properties (the 24 names built from [order] and
    [transformAxes], and the three origin names) and the style properties:
    every entry lands in exactly one of the two objects, unchanged. *)
Theorem splitValues_partitions (variant : obj) :
  NoDup (map fst variant) ->
  splitValues variant =
    (List.filter (fun kv => is_transform_key (fst kv)) variant,
     List.filter (fun kv => negb (is_transform_key (fst kv))) variant) /\
  (forall k, obj_get (fst (splitValues variant)) k =
             if is_transform_key k then obj_get variant k else None) /\
  (forall k, obj_get (snd (splitValues variant)) k =
             if is_transform_key k then None else obj_get variant k) /\
  (forall k, is_transform_key k = true <->
     k ∈ ["transformPerspective"; "x"; "y"; "z";
          "perspective"; "perspectiveX"; "perspectiveY"; "perspectiveZ";
          "translate"; "translateX"; "translateY"; "translateZ";
          "scale"; "scaleX"; "scaleY"; "scaleZ";
          "rotate"; "rotateX"; "rotateY"; "rotateZ";
          "skew"; "skewX"; "skewY"; "skewZ";
          "originX"; "originY"; "originZ"]).
Proof.
  intros Hnd.
  pose proof (splitValues_filter variant Hnd) as Hsplit.
  pose proof (obj_get_filter_key variant) as Hget.
  split; [exact Hsplit |]. rewrite Hsplit. cbn [fst snd].
  split; [intros k; apply (Hget is_transform_key) |].
  split.
  { intros k. rewrite (Hget (fun k => negb (is_transform_key k))).
    destruct (is_transform_key k); reflexivity. }
  intros k. unfold is_transform_key, isTransformProp, isTransformOriginProp.
  rewrite <- existsb_app.
  change (transformProps ++ ["originX"; "originY"; "originZ"])%list with
    ["transformPerspective"; "x"; "y"; "z";
     "perspective"; "perspectiveX"; "perspectiveY"; "perspectiveZ";
     "translate"; "translateX"; "translateY"; "translateZ";
     "scale"; "scaleX"; "scaleY"; "scaleZ";
     "rotate"; "rotateX"; "rotateY"; "rotateZ";
     "skew"; "skewX"; "skewY"; "skewZ";
     "originX"; "originY"; "originZ"].
  rewrite existsb_exists. split.
  - intros (x & Hx & Hk). apply String.eqb_eq in Hk. subst x. apply list_elem_of_In, Hx.
  - intros H. exists k. split; [apply list_elem_of_In, H | apply String.eqb_refl].
Qed.

Lemma splitValues_partitions_witness :
  splitValues [("opacity", VInt 0); ("x", VInt 100); ("originX", VInt 0); ("scale", VInt 2);
               ("color", VStr "red")] =
  ([("x", VInt 100); ("originX", VInt 0); ("scale", VInt 2)],
   [("opacity", VInt 0); ("color", VStr "red")]).
Proof.
  refine (proj1 (splitValues_partitions
                   [("opacity", VInt 0); ("x", VInt 100); ("originX", VInt 0);
                    ("scale", VInt 2); ("color", VStr "red")] _)).
  apply (bool_decide_unpack _). vm_compute. exact I.
Defined.

(** [reactiveStyle] keeps the keys of the state in their order and gives
    each value the unit of its key: a value that is not a number, and any
    value of a key without a value type, is passed on as it is; a number
    under a key measured in pixels is written with [px], one in degrees with
    [deg]. *)
Theorem reactiveStyle_units (ext : Externals) (state : obj) :
  NoDup (map fst state) ->
  let style := reactiveStyle ext state in
  map fst style = map fst state /\
  (forall k, obj_get style k =
             (fun v => getValueAsType ext v (getValueType k)) <$> obj_get state k) /\
  (forall k v, obj_get state k = Some v ->
     is_number v = false \/ getValueType k = None -> obj_get style k = Some v) /\
  (forall k n, obj_get state k = Some (VNum n) ->
     (getValueType k = Some StyleValueTypes.px ->
      obj_get style k = Some (VStr (num_to_string n +:+ "px"))) /\
     (getValueType k = Some StyleValueTypes.degrees ->
      obj_get style k = Some (VStr (num_to_string n +:+ "deg")))).
Proof.
  intros Hnd style. subst style. rewrite (reactiveStyle_map ext state Hnd).
  assert (Hget : forall k,
            obj_get (map (fun kv => (fst kv, getValueAsType ext (snd kv) (getValueType (fst kv))))
                         state) k =
            (fun v => getValueAsType ext v (getValueType k)) <$> obj_get state k).
  { intros k. apply (obj_get_map_values (fun k v => getValueAsType ext v (getValueType k))). }
  split; [rewrite map_map; reflexivity |].
  split; [exact Hget |]. split.
  - intros k v Hk Hv. rewrite Hget, Hk. simpl. f_equal.
    unfold getValueAsType. destruct Hv as [Hv | ->]; [| reflexivity].
    destruct (getValueType k); [| reflexivity]. destruct v; try reflexivity. discriminate.
  - intros k n Hk. split; intros Ht; rewrite Hget, Hk, Ht; reflexivity.
Qed.

Lemma reactiveStyle_units_witness :
  reactiveStyle sample_externals
    [("width", VInt 10); ("rotate", VInt 45); ("display", VStr "block"); ("custom", VInt 3)] =
  [("width", VStr "10px"); ("rotate", VStr "45deg"); ("display", VStr "block");
   ("custom", VInt 3)] /\
  obj_get (reactiveStyle sample_externals
             [("width", VInt 10); ("rotate", VInt 45); ("display", VStr "block");
              ("custom", VInt 3)]) "width" = Some (VStr (num_to_string (of_Z 10) +:+ "px")).
Proof.
  split; [reflexivity |].
  refine (proj1 (proj2 (proj2 (proj2 (reactiveStyle_units sample_externals
            [("width", VInt 10); ("rotate", VInt 45); ("display", VStr "block");
             ("custom", VInt 3)] _))) "width" (of_Z 10) eq_refl) eq_refl).
  apply (bool_decide_unpack _). vm_compute. exact I.
Defined.

(** ** Server-side rendering *)

Section SSR.

Variable ext : Externals.

Lemma trimEnd_nonempty (c : ascii) (r : string) :
  is_ws c = false -> trimEnd (String c r) <> "".
Proof.
  intros Hc. cbn [trimEnd]. destruct (trimEnd r); [rewrite Hc |]; discriminate.
Qed.

Lemma trimStart_visible (s : string) :
  existsb (fun c => negb (is_ws c)) (list_ascii_of_string s) = true ->
  exists c r, trimStart s = String c r /\ is_ws c = false.
Proof.
  induction s as [| c s IH]; simpl; [discriminate |].
  destruct (is_ws c) eqn:Hc; simpl; [exact IH |]. intros _. eauto.
Qed.

Lemma trim_visible (s : string) :
  existsb (fun c => negb (is_ws c)) (list_ascii_of_string s) = true -> trim s <> "".
Proof.
  intros H. destruct (trimStart_visible s H) as (c & r & Hs & Hc).
  unfold trim. rewrite Hs. apply trimEnd_nonempty, Hc.
Qed.

Lemma list_ascii_app (a b : string) :
  list_ascii_of_string (a +:+ b) = (list_ascii_of_string a ++ list_ascii_of_string b)%list.
Proof. induction a as [| c a IH]; [reflexivity |]. cbn. f_equal. exact IH. Qed.

Lemma visible_app_l (a b : string) :
  existsb (fun c => negb (is_ws c)) (list_ascii_of_string a) = true ->
  existsb (fun c => negb (is_ws c)) (list_ascii_of_string (a +:+ b)) = true.
Proof. intros H. rewrite list_ascii_app, existsb_app, H. reflexivity. Qed.

Lemma visible_app_r (a b : string) :
  existsb (fun c => negb (is_ws c)) (list_ascii_of_string b) = true ->
  existsb (fun c => negb (is_ws c)) (list_ascii_of_string (a +:+ b)) = true.
Proof. intros H. rewrite list_ascii_app, existsb_app, H. apply orb_true_r. Qed.

(** With hardware acceleration the transform string is never empty. *)
Lemma reactiveTransform_hardware_nonempty (state : obj) :
  reactiveTransform ext state true <> "".
Proof.
  unfold reactiveTransform. apply trim_visible. rewrite reactiveTransform_loop.
  cbn [andb negb].
  destruct (truthy (default VUndef (obj_get state "x"))
            || truthy (default VUndef (obj_get state "y"))
            || truthy (default VUndef (obj_get state "z"))).
  - apply visible_app_l. reflexivity.
  - apply visible_app_r. reflexivity.
Qed.

End SSR.

(** [getSSRProps] returns the empty object when there is no [initial]
    variant or it has no key.  Otherwise it returns a [style] that always has
    a [transform], since the transform string is built with hardware
    acceleration and is never empty (for an [initial] without transform
    properties it is [translateZ(0px)]), next to the style properties of
    [initial], each in the unit of its key. *)
Theorem getSSRProps_style (ext : Externals) (binding_value node_props : value) :
  let initial := get_field (js_or binding_value (js_or node_props (VObj []))) "initial" in
  (truthy initial = false \/ Object_keys initial = [] ->
   getSSRProps ext binding_value node_props = []) /\
  (truthy initial = true -> Object_keys initial <> [] ->
   exists style transform,
     getSSRProps ext binding_value node_props = [("style", VObj style)] /\
     obj_get style "transform" = Some (VStr transform) /\
     transform <> "" /\
     transform = reactiveTransform ext (fst (splitValues (Object_entries initial))) true /\
     (NoDup (Object_keys initial) ->
      (forall k, k ∈ Object_keys initial -> is_transform_key k = false) ->
      transform = "translateZ(0px)") /\
     (NoDup (Object_keys initial) ->
      forall k v, obj_get (Object_entries initial) k = Some v ->
        is_transform_key k = false -> k <> "transform" ->
        obj_get style k = Some (getValueAsType ext v (getValueType k)))).
Proof.
  intros initial. split.
  - intros H. unfold getSSRProps. fold initial.
    destruct H as [H | H]; rewrite H;
      [reflexivity | cbn [length Nat.eqb]; rewrite orb_true_r; reflexivity].
  - intros Ht Hk. unfold getSSRProps. fold initial. rewrite Ht. cbn [negb orb].
    destruct (Object_keys initial) as [| k0 ks] eqn:Ek; [congruence |].
    cbn [length Nat.eqb]. rewrite <- Ek. clear Hk.
    destruct (splitValues (Object_entries initial)) as [tr st] eqn:Es. cbn [fst].
    assert (Hne : reactiveTransform ext tr true <> "")
      by apply reactiveTransform_hardware_nonempty.
    assert (Htr : truthy (VStr (reactiveTransform ext tr true)) = true).
    { simpl. destruct (String.eqb_spec (reactiveTransform ext tr true) ""); [contradiction |].
      reflexivity. }
    rewrite Htr. eexists _, _. split; [reflexivity |].
    split; [apply obj_get_set_same |]. split; [exact Hne |]. split; [reflexivity |].
    split.
    + intros Hnd Hkeys. rewrite (splitValues_filter _ Hnd) in Es. injection Es as <- <-.
      replace (List.filter (fun kv => is_transform_key (fst kv)) (Object_entries initial))
        with (@nil (string * value)); [reflexivity |].
      symmetry. unfold Object_keys in Hkeys. clear -Hkeys.
      induction (Object_entries initial) as [| [k v] o IH]; [reflexivity |].
      simpl. rewrite (Hkeys k) by (simpl; constructor).
      apply IH. intros k' Hk'. apply Hkeys. simpl. constructor. exact Hk'.
    + intros Hnd k v Hkv Hkey Hk'.
      rewrite obj_get_set_other by congruence.
      rewrite (splitValues_filter _ Hnd) in Es. injection Es as <- <-.
      rewrite reactiveStyle_map
        by exact (filter_keys_NoDup _ (fun k => negb (is_transform_key k)) Hnd).
      rewrite (obj_get_map_values (fun k v => getValueAsType ext v (getValueType k))).
      rewrite (obj_get_filter_key _ (fun k => negb (is_transform_key k))), Hkey, Hkv.
      reflexivity.
Qed.

(** ** Event listeners: the computed properties *)

Section EventListeners.

Lemma read_field_defined (v : value) (k : string) :
  is_nullish v = false -> read_field v k = Ok (get_field v k).
Proof. intros H. unfold read_field. rewrite H. reflexivity. Qed.

Lemma assign_active_defined (_variants : value) (flag : bool) (name : string) (props : obj) :
  is_nullish _variants = false ->
  assign_active _variants flag name props =
  Ok (obj_spread props (active_variant _variants flag name)).
Proof.
  intros H. unfold assign_active, active_variant, Object_assign.
  destruct flag; [| reflexivity]. rewrite (read_field_defined _ _ H). cbn [andb].
  destruct (truthy (get_field _variants name)); reflexivity.
Qed.

Lemma active_variant_NoDup (_variants : value) (flag : bool) (name : string) :
  NoDup (Object_keys (get_field _variants name)) ->
  NoDup (map fst (active_variant _variants flag name)).
Proof.
  intros H. unfold active_variant.
  destruct (flag && truthy (get_field _variants name)); [exact H | constructor].
Qed.

Lemma existsb_eqb_elem (k : string) (l : list string) :
  existsb (String.eqb k) l = true <-> k ∈ l.
Proof.
  rewrite existsb_exists. split.
  - intros (x & Hx & Hk). apply String.eqb_eq in Hk. subst x. apply list_elem_of_In, Hx.
  - intros H. exists k. split; [apply list_elem_of_In, H | apply String.eqb_refl].
Qed.

Lemma mutableKeys_elem (_variants : value) (k : string) :
  k ∈ mutableKeys _variants <->
  truthy _variants = true /\
  exists name, name ∈ ["hovered"; "tapped"; "focused"] /\
    truthy (get_field _variants name) = true /\
    k ∈ Object_keys (get_field _variants name).
Proof.
  unfold mutableKeys. destruct (truthy _variants); cbn [negb].
  2: { split; [intros H; inversion H | intros [H _]; discriminate]. }
  split.
  - intros H. split; [reflexivity |].
    destruct (truthy (get_field _variants "focused")) eqn:Ef;
      [apply elem_of_app in H as [H | H];
       [| exists "focused"; split; [repeat constructor | split; assumption]] |];
      (destruct (truthy (get_field _variants "tapped")) eqn:Et;
       [apply elem_of_app in H as [H | H];
        [| exists "tapped"; split; [repeat constructor | split; assumption]] |]);
      (destruct (truthy (get_field _variants "hovered")) eqn:Eh;
       [apply elem_of_app in H as [H | H];
        [| exists "hovered"; split; [repeat constructor | split; assumption]] |]);
      inversion H.
  - intros (_ & name & Hname & Ht & Hk).
    repeat (apply elem_of_cons in Hname as [-> | Hname]); [| | | inversion Hname];
      rewrite ?Ht.
    + destruct (truthy (get_field _variants "tapped")), (truthy (get_field _variants "focused"));
        rewrite ?elem_of_app; cbn [app]; auto.
    + destruct (truthy (get_field _variants "hovered")), (truthy (get_field _variants "focused"));
        rewrite ?elem_of_app; cbn [app]; auto.
    + destruct (truthy (get_field _variants "hovered")), (truthy (get_field _variants "tapped"));
        rewrite ?elem_of_app; cbn [app]; auto.
Qed.

End EventListeners.

(** The properties that the event listeners apply: of the current state and
    the variants [hovered], [tapped] and [focused] whose flag is on, the
    entries whose key is a key of one of these three variants (whether its
    flag is on or not); where several have the key, [focused] wins over
    [tapped], [tapped] over [hovered], and [hovered] over the state. *)
Theorem computedProperties_priority (_variants state : value) (hovered tapped focused : bool) :
  is_nullish _variants = false ->
  (forall name, name ∈ ["hovered"; "tapped"; "focused"] ->
     NoDup (Object_keys (get_field _variants name))) ->
  NoDup (Object_keys state) ->
  exists props,
    computedProperties _variants state hovered tapped focused = Ok props /\
    NoDup (map fst props) /\
    (forall k, obj_get props k =
       if existsb (String.eqb k) (mutableKeys _variants) then
         match obj_get (active_variant _variants focused "focused") k with
         | Some v => Some v
         | None =>
             match obj_get (active_variant _variants tapped "tapped") k with
             | Some v => Some v
             | None =>
                 match obj_get (active_variant _variants hovered "hovered") k with
                 | Some v => Some v
                 | None => obj_get (Object_entries state) k
                 end
             end
         end
       else None) /\
    (forall k, k ∈ map fst props ->
       exists name, name ∈ ["hovered"; "tapped"; "focused"] /\
         truthy (get_field _variants name) = true /\
         k ∈ Object_keys (get_field _variants name)).
Proof.
  intros Hv Hnd Hst. unfold computedProperties, Object_assign.
  rewrite !(assign_active_defined _ _ _ _ Hv).
  eexists. split; [reflexivity |].
  assert (Hh : NoDup (map fst (active_variant _variants hovered "hovered")))
    by (apply active_variant_NoDup, Hnd; repeat constructor).
  assert (Ht : NoDup (map fst (active_variant _variants tapped "tapped")))
    by (apply active_variant_NoDup, Hnd; repeat constructor).
  assert (Hf : NoDup (map fst (active_variant _variants focused "focused")))
    by (apply active_variant_NoDup, Hnd; repeat constructor).
  assert (Hget : forall k,
    obj_get (List.filter (fun kv => existsb (String.eqb (fst kv)) (mutableKeys _variants))
               (obj_spread (obj_spread (obj_spread (obj_spread [] (Object_entries state))
                  (active_variant _variants hovered "hovered"))
                  (active_variant _variants tapped "tapped"))
                  (active_variant _variants focused "focused"))) k =
    if existsb (String.eqb k) (mutableKeys _variants) then
      match obj_get (active_variant _variants focused "focused") k with
      | Some v => Some v
      | None =>
          match obj_get (active_variant _variants tapped "tapped") k with
          | Some v => Some v
          | None =>
              match obj_get (active_variant _variants hovered "hovered") k with
              | Some v => Some v
              | None => obj_get (Object_entries state) k
              end
          end
      end
    else None).
  { intros k.
    rewrite (obj_get_filter_key _ (fun k => existsb (String.eqb k) (mutableKeys _variants))).
    destruct (existsb (String.eqb k) (mutableKeys _variants)); [| reflexivity].
    rewrite (obj_get_spread _ _ k Hf), (obj_get_spread _ _ k Ht), (obj_get_spread _ _ k Hh),
      (obj_get_spread _ _ k Hst).
    destruct (obj_get (Object_entries state) k); reflexivity. }
  split; [| split; [exact Hget |]].
  - apply (filter_keys_NoDup _ (fun k => existsb (String.eqb k) (mutableKeys _variants))).
    repeat apply obj_spread_NoDup. constructor.
  - intros k Hk.
    destruct (existsb (String.eqb k) (mutableKeys _variants)) eqn:E.
    + apply existsb_eqb_elem, mutableKeys_elem in E as (_ & Hname). exact Hname.
    + exfalso. revert Hk. apply obj_get_None_notin. rewrite Hget, E. reflexivity.
Qed.

Lemma computedProperties_priority_witness :
  exists props,
    computedProperties
      (VObj [("initial", VObj [("scale", VInt 1); ("opacity", VInt 1)]);
             ("hovered", VObj [("scale", VInt 2)]);
             ("tapped", VObj [("scale", VInt 3); ("rotate", VInt 5)])])
      (VObj [("scale", VInt 1); ("opacity", VInt 1)]) true true false = Ok props /\
    obj_get props "scale" = Some (VInt 3) /\
    obj_get props "rotate" = Some (VInt 5) /\
    obj_get props "opacity" = None.
Proof.
  destruct (computedProperties_priority
              (VObj [("initial", VObj [("scale", VInt 1); ("opacity", VInt 1)]);
                     ("hovered", VObj [("scale", VInt 2)]);
                     ("tapped", VObj [("scale", VInt 3); ("rotate", VInt 5)])])
              (VObj [("scale", VInt 1); ("opacity", VInt 1)]) true true false)
    as (props & Hp & _ & Hget & _).
  - reflexivity.
  - intros name Hname. apply (bool_decide_unpack _).
    repeat (apply elem_of_cons in Hname as [-> | Hname]); [| | | inversion Hname];
      vm_compute; exact I.
  - apply (bool_decide_unpack _). vm_compute. exact I.
  - exists props. split; [exact Hp |]. rewrite !Hget. repeat split; reflexivity.
Defined.

(** ** Reading a transform back *)

Section ReadTransform.

Lemma cons_head_length (c : ascii) (l : list string) :
  length l = 1%nat -> length (cons_head c l) = 1%nat.
Proof. destruct l as [| h [| ? ?]]; try discriminate. reflexivity. Qed.

Lemma split_rparen_single (s : string) :
  existsb (Ascii.eqb ")") (list_ascii_of_string s) = false ->
  length (split_rparen s) = 1%nat.
Proof.
  induction s as [| a s IH]; [reflexivity |].
  cbn [list_ascii_of_string existsb split_rparen]. intros H.
  apply orb_false_iff in H as [Ha H]. rewrite Ascii.eqb_sym in Ha. rewrite Ha.
  apply cons_head_length, IH, H.
Qed.

Variable state : obj.

Lemma read_inv_set (st : obj) (key : string) (n : num) :
  key ∉ ["translate3d"; "translateX"; "translateY"; "translateZ"] ->
  read_inv state st -> read_inv state (obj_set st key (VNum n)).
Proof.
  intros Hkey (H1 & H2 & H3). split; [| split].
  - intros k v. destruct (decide (k = key)) as [-> | Hne].
    + rewrite obj_get_set_same. intros [= <-]. right. eauto.
    + rewrite obj_get_set_other by exact Hne. apply H1.
  - intros k Hk. unfold obj_has. destruct (decide (k = key)) as [-> | Hne].
    + rewrite obj_get_set_same. reflexivity.
    + rewrite obj_get_set_other by exact Hne. apply H2, Hk.
  - intros k Hk. rewrite obj_get_set_other; [apply H3, Hk |].
    intros ->. contradiction.
Qed.

Lemma read_inv_fold (parsed : obj) (st : obj) (err : option (string * string)) :
  read_inv state st ->
  read_inv state
    (fst (fold_left
        (fun '(state, err) kv =>
           match err with
           | Some _ => (state, err)
           | None =>
               let key := fst kv in
               let v := VNum (parseFloat (snd kv)) in
               if String.eqb key "translate3d" then
                 if strict_eq v (VInt 0)
                 then (fold_left (fun st axis => obj_set st axis (VInt 0))
                                 ["x"; "y"; "z"] state, None)
                 else (state, Some ("TypeError", "value.forEach is not a function"))
               else if String.eqb key "translateX" then (obj_set state "x" v, None)
               else if String.eqb key "translateY" then (obj_set state "y" v, None)
               else if String.eqb key "translateZ" then (obj_set state "z" v, None)
               else (obj_set state key v, None)
           end)
        parsed (st, err))).
Proof.
  assert (Hlit : forall a : string,
            a ∈ ["x"; "y"; "z"] ->
            a ∉ ["translate3d"; "translateX"; "translateY"; "translateZ"]).
  { intros a Ha Hin.
    repeat (apply elem_of_cons in Ha as [-> | Ha]); [| | | inversion Ha];
      repeat (apply elem_of_cons in Hin as [Hin | Hin]; [discriminate |]); inversion Hin. }
  revert st err. induction parsed as [| [key v] parsed IH]; intros st err Hinv; [exact Hinv |].
  cbn [fold_left fst snd]. destruct err as [e |]; [apply IH, Hinv |].
  destruct (String.eqb_spec key "translate3d") as [-> | H3d].
  { destruct (strict_eq _ _); [| apply IH, Hinv].
    apply IH. cbn [fold_left].
    repeat apply read_inv_set; try (apply Hlit; repeat constructor). exact Hinv. }
  destruct (String.eqb_spec key "translateX") as [-> | HX];
    [apply IH, read_inv_set; [apply Hlit; repeat constructor | exact Hinv] |].
  destruct (String.eqb_spec key "translateY") as [-> | HY];
    [apply IH, read_inv_set; [apply Hlit; repeat constructor | exact Hinv] |].
  destruct (String.eqb_spec key "translateZ") as [-> | HZ];
    [apply IH, read_inv_set; [apply Hlit; repeat constructor | exact Hinv] |].
  apply IH, read_inv_set; [| exact Hinv].
  intros Hin. repeat (apply elem_of_cons in Hin as [Hin | Hin]; [contradiction |]).
  inversion Hin.
Qed.

End ReadTransform.

(** [stateFromTransform] only ever stores numbers: every value read back
    from the transform string goes through [parseFloat], so a key of the
    state either keeps its value or holds a number afterwards, also when the
    call ends in an exception.  No key of the state is removed; the terms
    [translate3d], [translateX], [translateY] and [translateZ] are never
    stored under their own names; and a string without a closing
    parenthesis, such as [none] or the empty string, leaves the state as it
    is. *)
Theorem stateFromTransform_stores_numbers (state : obj) (transform : string) :
  let state' := fst (stateFromTransform state transform) in
  (forall k v, obj_get state' k = Some v ->
     obj_get state k = Some v \/ exists n, v = VNum n) /\
  (forall k, obj_has state k = true -> obj_has state' k = true) /\
  (forall k, k ∈ ["translate3d"; "translateX"; "translateY"; "translateZ"] ->
     obj_get state' k = obj_get state k) /\
  (existsb (Ascii.eqb ")") (list_ascii_of_string (trim transform)) = false ->
   parseTransform transform = Ok [] /\
   stateFromTransform state transform = (state, None)).
Proof.
  intros state'.
  assert (H0 : read_inv state state).
  { split; [intros k v H; left; exact H | split; [intros k H; exact H | reflexivity]]. }
  assert (Hinv : read_inv state state').
  { subst state'. unfold stateFromTransform.
    destruct (parseTransform transform) as [parsed | n m]; [| exact H0].
    apply read_inv_fold, H0. }
  destruct Hinv as (H1 & H2 & H3).
  split; [exact H1 |]. split; [exact H2 |]. split; [exact H3 |].
  intros Hno.
  assert (Hp : parseTransform transform = Ok []).
  { unfold parseTransform. rewrite (split_rparen_single _ Hno). reflexivity. }
  split; [exact Hp |]. unfold stateFromTransform. rewrite Hp. reflexivity.
Qed.

(** ** useSpring *)

Section Spring.

Variable ext : Externals.
Implicit Types (w : World) (key : string).

Lemma keeps_options_refl w : keeps_options w w.
Proof. intros a ea H. eauto. Qed.

Lemma keeps_options_eq w w' : w_engine w' = w_engine w -> keeps_options w w'.
Proof. intros E a ea H. rewrite E. eauto. Qed.

Lemma keeps_options_trans w1 w2 w3 :
  keeps_options w1 w2 -> keeps_options w2 w3 -> keeps_options w1 w3.
Proof.
  intros H12 H23 a ea H. destruct (H12 a ea H) as (ea2 & H2 & Ho & Hi).
  destruct (H23 a ea2 H2) as (ea3 & H3 & Ho' & Hi'). exists ea3.
  split; [exact H3 |]. split; congruence.
Qed.

Lemma keeps_options_halted w w' : engine_halted_only w w' -> keeps_options w w'.
Proof.
  intros [_ H] a ea Ha. destruct (H a ea Ha) as [H' | [_ H']]; eauto.
Qed.

Lemma engine_get key from w : w_engine (fst (get key from w)) = w_engine w.
Proof. unfold get. destruct (table_get (w_registry w) key); reflexivity. Qed.

Lemma engine_register_elements a l w : w_engine (register_elements a l w) = w_engine w.
Proof.
  unfold register_elements. revert w. induction l as [| e l IH]; intros w; simpl.
  - reflexivity.
  - rewrite IH. apply then_engine.
Qed.

Lemma engine_Promise_all ps w : w_engine (fst (Promise_all ps w)) = w_engine w.
Proof.
  unfold Promise_all. cbn [new_promise].
  destruct ps; cbn [fst]; rewrite ?resolve_engine, engine_register_elements; reflexivity.
Qed.

Lemma getDefaultTransition_type key (to : value) :
  obj_get (getDefaultTransition ext key to) "type" =
  Some (VStr (if is_array to
                 || existsb (String.eqb key) ["backgroundColor"; "color"; "opacity"]
              then "keyframes" else "spring")) /\
  obj_get (getDefaultTransition ext key to) "to" = Some to /\
  obj_get (getDefaultTransition ext key to) "onUpdate" = None /\
  obj_get (getDefaultTransition ext key to) "onComplete" = None /\
  NoDup (map fst (getDefaultTransition ext key to)).
Proof.
  unfold getDefaultTransition, isKeyframesTarget.
  destruct (is_array to) eqn:Harr.
  - cbn. repeat (split; [reflexivity |]). apply (bool_decide_unpack _). vm_compute. exact I.
  - cbn [orb]. destruct (decide (key ∈ map fst (defaultTransitions ext))) as [Hin | Hout].
    + cbn in Hin.
      repeat (apply elem_of_cons in Hin as [-> | Hin]);
        [> cbn; repeat (split; [reflexivity |]);
           apply (bool_decide_unpack _); vm_compute; exact I .. | inversion Hin].
    + rewrite (table_get_notin _ _ Hout).
      assert (Hex : existsb (String.eqb key) ["backgroundColor"; "color"; "opacity"] = false).
      { apply not_true_is_false. intros H. apply existsb_eqb_elem in H. apply Hout. cbn.
        repeat (apply elem_of_cons in H as [-> | H]); [| | | inversion H];
          repeat (first [apply list_elem_of_here | apply list_elem_of_further]). }
      rewrite Hex. cbn. repeat (split; [reflexivity |]).
      apply (bool_decide_unpack _). vm_compute. exact I.
Qed.

Lemma spring_options_NoDup (spring : value) key (v : value) :
  NoDup (map fst (spring_options ext spring key v)).
Proof.
  unfold spring_options. apply obj_spread_NoDup.
  apply (bool_decide_unpack _). vm_compute. exact I.
Qed.

Lemma spring_options_get (spring : value) key (v : value) (k : string) :
  NoDup (Object_keys spring) ->
  obj_get (spring_options ext spring key v) k =
  match obj_get (Object_entries (if truthy spring then spring
                                 else VObj (getDefaultTransition ext key v))) k with
  | Some x => Some x
  | None => if String.eqb "type" k then Some (VStr "spring") else None
  end.
Proof.
  intros Hnd. unfold spring_options. rewrite obj_get_spread; [reflexivity |].
  destruct (truthy spring); [exact Hnd |]. apply getDefaultTransition_type.
Qed.

Lemma spring_start_engine (spring : value) key (v : value) (id : nat) w :
  exists ea from velocity,
    w_engine (fst (spring_start ext spring key v id w)) =
      (w_engine (mv_stop id w) ++ [ea])%list /\
    ea_inertia ea = false /\
    ea_options ea =
      obj_spread
        [("from", from); ("to", v); ("velocity", velocity);
         ("onUpdate", VFun "(v) => motionValue.set(v)"); ("onComplete", VFun "onComplete")]
        (spring_options ext spring key v) /\
    ea_value ea =
      (if obj_has (spring_options ext spring key v) "onUpdate" then None else Some id) /\
    ea_onComplete ea =
      (if obj_has (spring_options ext spring key v) "onComplete"
       then opt_list (as_callback (option_field (spring_options ext spring key v) "onComplete"))
       else [CbResolve (length (w_promises w))]).
Proof.
  unfold spring_start, spring_animation, engine_add. cbn [new_promise fst snd].
  rewrite then_engine. cbn [w_engine set_engine set_promises update_value set_values].
  eexists _, _, _. split; [reflexivity |]. cbn [ea_inertia ea_options ea_value ea_onComplete].
  split; [reflexivity |]. split; [reflexivity |]. split; [reflexivity |].
  rewrite (proj1 (mv_stop_quiet id w)). reflexivity.
Qed.

(** One entry of [set]: the engine gets one more animation. *)
Lemma spring_entry_effect (spring : value) w (ps : list nat) key (v : value) :
  NoDup (Object_keys spring) ->
  let w1 := fst (spring_entry ext spring (w, ps) (key, v)) in
  length (w_engine w1) = S (length (w_engine w)) /\
  keeps_options w w1 /\
  exists ea,
    w_engine w1 !! length (w_engine w) = Some ea /\
    ea_inertia ea = false /\
    option_field (ea_options ea) "type" = spring_type ext spring key v /\
    (truthy spring = false ->
     option_field (ea_options ea) "to" = v /\
     ea_onComplete ea <> [] /\ ea_value ea <> None).
Proof.
  intros Hnd w1. subst w1. unfold spring_entry.
  destruct (get key (default VUndef (obj_get (w_properties w) key)) w) as [w0 id] eqn:Eg.
  assert (Hg : w_engine w0 = w_engine w).
  { rewrite <- (engine_get key (default VUndef (obj_get (w_properties w) key)) w), Eg.
    reflexivity. }
  destruct (spring_start_engine spring key v id w0)
    as (ea & from & velocity & He & Hin & Hopt & Hval & Hcomp).
  destruct (spring_start ext spring key v id w0) as [w1 p] eqn:Es. cbn [fst] in *.
  pose proof (engine_halted_only_mv_stop id w0) as Hh.
  assert (Hlen : length (w_engine (mv_stop id w0)) = length (w_engine w))
    by (rewrite (proj1 Hh); congruence).
  rewrite He.
  split; [rewrite length_app, Hlen; cbn; lia |].
  split.
  { intros a ea0 Ha. rewrite <- Hg in Ha.
    destruct (keeps_options_halted _ _ Hh a ea0 Ha) as (ea' & H' & Ho & Hi).
    exists ea'. split; [| split; assumption].
    rewrite He. apply lookup_app_l_Some, H'. }
  exists ea. split.
  { rewrite <- Hlen. apply list_lookup_middle. reflexivity. }
  split; [exact Hin |].
  pose proof (spring_options_NoDup spring key v) as Hnd'.
  rewrite Hopt, Hval, Hcomp.
  split.
  { unfold option_field, spring_type. rewrite (obj_get_spread _ _ _ Hnd').
    rewrite (spring_options_get spring key v "type" Hnd).
    destruct (obj_get _ "type"); reflexivity. }
  intros Hs. unfold option_field, obj_has.
  rewrite (obj_get_spread _ _ _ Hnd').
  rewrite !(spring_options_get spring key v _ Hnd), Hs.
  destruct (getDefaultTransition_type key v) as (_ & Hto & Hu & Hc & _).
  cbn [Object_entries]. rewrite Hto, Hu, Hc. cbn.
  split; [reflexivity |]. split; discriminate.
Qed.

Lemma spring_fold_effect (spring : value) (entries : obj) w (ps : list nat) :
  NoDup (Object_keys spring) ->
  let w1 := fst (fold_left (spring_entry ext spring) entries (w, ps)) in
  length (w_engine w1) = (length (w_engine w) + length entries)%nat /\
  keeps_options w w1 /\
  forall i key v, entries !! i = Some (key, v) ->
    exists ea,
      w_engine w1 !! (length (w_engine w) + i)%nat = Some ea /\
      ea_inertia ea = false /\
      option_field (ea_options ea) "type" = spring_type ext spring key v /\
      (truthy spring = false -> option_field (ea_options ea) "to" = v).
Proof.
  intros Hnd. revert w ps. induction entries as [| [key v] entries IH]; intros w ps w1.
  - subst w1. cbn. split; [lia |]. split; [apply keeps_options_refl |].
    intros i k x H. rewrite lookup_nil in H. discriminate.
  - subst w1. cbn [fold_left].
    destruct (spring_entry ext spring (w, ps) (key, v)) as [w0 ps0] eqn:E0.
    pose proof (spring_entry_effect spring w ps key v Hnd) as H0.
    rewrite E0 in H0. cbn [fst] in H0. destruct H0 as (Hl0 & Hk0 & ea0 & Hea0 & Hi0 & Ht0 & Hto0).
    destruct (IH w0 ps0) as (Hl & Hk & Hnew).
    split; [rewrite Hl, Hl0; cbn; lia |].
    split; [exact (keeps_options_trans _ _ _ Hk0 Hk) |].
    intros [| i] k x Hi.
    + injection Hi as <- <-. rewrite Nat.add_0_r.
      destruct (Hk _ _ Hea0) as (ea' & Hea' & Ho & Hin). exists ea'.
      split; [exact Hea' |]. split; [congruence |]. rewrite Ho.
      split; [exact Ht0 |]. intros Hs. apply (Hto0 Hs).
    + cbn in Hi. destruct (Hnew i k x Hi) as (ea & Hea & Hrest). exists ea.
      split; [| exact Hrest]. rewrite Hl0 in Hea.
      replace (length (w_engine w) + S i)%nat with (S (length (w_engine w)) + i)%nat by lia.
      exact Hea.
Qed.

(** The [map] of the host's [set], over entries whose keys the registry
    object does not inherit *)
Lemma Host_useSpring_fold (spring : value) (entries : obj) w (ps : list nat) :
  (forall key, key ∈ map fst entries -> inherited key = false) ->
  fold_left
    (fun '(w, ps, c) kv =>
       match c with
       | Host.Abrupt _ => (w, ps, c)
       | Host.Normal _ =>
           match Host.get (fst kv) (member (VObj (w_properties w)) (fst kv)) w with
           | (w, Host.EMotionValue motionValue) =>
               let '(w, p) := spring_start ext spring (fst kv) (snd kv) motionValue w in
               (w, (ps ++ [p])%list, c)
           | (w, Host.EInherited _) => (w, ps, Host.Abrupt Host.TypeError)
           end
       end)
    entries (w, ps, Host.Normal tt) =
  (fold_left (spring_entry ext spring) entries (w, ps), Host.Normal tt).
Proof.
  revert w ps. induction entries as [| [key v] entries IH]; intros w ps Hord; [reflexivity |].
  assert (Hk : inherited key = false) by (apply Hord; constructor).
  cbn [fold_left fst snd].
  rewrite (member_ordinary _ _ Hk), (Host_get_ordinary _ _ _ Hk).
  change (get_field (VObj (w_properties w)) key)
    with (default VUndef (obj_get (w_properties w) key)).
  assert (E : spring_entry ext spring (w, ps) (key, v) =
              (fst (spring_start ext spring key v
                      (snd (get key (default VUndef (obj_get (w_properties w) key)) w))
                      (fst (get key (default VUndef (obj_get (w_properties w) key)) w))),
               (ps ++ [snd (spring_start ext spring key v
                      (snd (get key (default VUndef (obj_get (w_properties w) key)) w))
                      (fst (get key (default VUndef (obj_get (w_properties w) key)) w)))])%list)).
  { unfold spring_entry.
    destruct (get key (default VUndef (obj_get (w_properties w) key)) w) as [w0 id].
    cbn [fst snd]. destruct (spring_start ext spring key v id w0); reflexivity. }
  rewrite E.
  destruct (spring_start ext spring key v
              (snd (get key (default VUndef (obj_get (w_properties w) key)) w))
              (fst (get key (default VUndef (obj_get (w_properties w) key)) w))) as [w1 p].
  cbn [fst snd]. apply IH. intros k Hin. apply Hord. constructor. exact Hin.
Qed.

End Spring.

(** [useSpring(values, spring).set(properties)], for [properties] whose
    names are no names of members of [Object.prototype], returns the promise
    of [Promise.all] (it does not throw), calls the engine once for every
    entry of [properties], whatever its value (there is no test for
    animatable values), and leaves the options of earlier animations alone.
    The [type] of each call is the one of [spring]; it is ["spring"] only
    when [spring] has no [type] of its own.  Without a [spring] the default
    transition of the key is used, with its type: the keyframes of the
    linear tween for [backgroundColor], [color] and [opacity] and for every
    array target, and a spring for the rest. *)
Theorem useSpring_set_animates (ext : Externals) (spring properties : value) (w : World) :
  NoDup (Object_keys spring) ->
  (forall key, key ∈ map fst (Object_entries properties) -> inherited key = false) ->
  let w' := fst (useSpring_set ext spring properties w) in
  Host.useSpring_set ext spring properties w =
    (w', Host.Normal (snd (useSpring_set ext spring properties w))) /\
  length (w_engine w') = (length (w_engine w) + length (Object_entries properties))%nat /\
  keeps_options w w' /\
  (forall i key v, Object_entries properties !! i = Some (key, v) ->
     exists ea,
       w_engine w' !! (length (w_engine w) + i)%nat = Some ea /\
       ea_inertia ea = false /\
       option_field (ea_options ea) "type" = spring_type ext spring key v /\
       (truthy spring = false -> option_field (ea_options ea) "to" = v)) /\
  (forall key v, truthy spring = true ->
     spring_type ext spring key v =
     match obj_get (Object_entries spring) "type" with
     | Some t => t
     | None => VStr "spring"
     end) /\
  (forall key v, truthy spring = false -> inherited key = false ->
     Host.getDefaultTransition ext key v = Host.Normal (getDefaultTransition ext key v) /\
     spring_type ext spring key v =
     VStr (if is_array v
              || existsb (String.eqb key) ["backgroundColor"; "color"; "opacity"]
           then "keyframes" else "spring")).
Proof.
  intros Hnd Hord w'. subst w'.
  split.
  { unfold Host.useSpring_set, useSpring_set.
    rewrite (Host_useSpring_fold ext spring (Object_entries properties) w [] Hord).
    destruct (fold_left (spring_entry ext spring) (Object_entries properties) (w, []))
      as [w1 ps].
    destruct (Promise_all ps w1); reflexivity. }
  unfold useSpring_set.
  pose proof (spring_fold_effect ext spring (Object_entries properties) w [] Hnd) as H.
  destruct (fold_left (spring_entry ext spring) (Object_entries properties) (w, []))
    as [w1 ps] eqn:E.
  cbn [fst] in H. destruct H as (Hl & Hk & Hnew).
  pose proof (engine_Promise_all ps w1) as He.
  split; [rewrite He; exact Hl |].
  split; [intros a ea Ha; rewrite He; exact (Hk a ea Ha) |].
  split; [intros i key v Hi; rewrite He; exact (Hnew i key v Hi) |].
  split.
  - intros key v Hs. unfold spring_type. rewrite Hs. reflexivity.
  - intros key v Hs Hkey. split; [apply Host_getDefaultTransition_ordinary, Hkey |].
    unfold spring_type. rewrite Hs.
    cbn [Object_entries]. rewrite (proj1 (getDefaultTransition_type ext key v)). reflexivity.
Qed.

Lemma useSpring_set_animates_witness :
  let w := init_world (VObj []) [("opacity", VInt 0); ("zIndex", VInt 1)] in
  let w' := fst (useSpring_set sample_externals VUndef
                   (VObj [("opacity", VInt 1); ("zIndex", VInt 5)]) w) in
  length (w_engine w') = 2%nat /\
  map (fun ea => option_field (ea_options ea) "type") (w_engine w') =
    [VStr "keyframes"; VStr "spring"] /\
  spring_type sample_externals VUndef "opacity" (VInt 1) = VStr "keyframes".
Proof.
  destruct (useSpring_set_animates sample_externals VUndef
              (VObj [("opacity", VInt 1); ("zIndex", VInt 5)])
              (init_world (VObj []) [("opacity", VInt 0); ("zIndex", VInt 1)]))
    as (_ & Hl & _ & _ & _ & Ht).
  - constructor.
  - intros key Hkey. cbn in Hkey.
    repeat (apply elem_of_cons in Hkey as [-> | Hkey]; [reflexivity |]). inversion Hkey.
  - split; [exact Hl |]. split; [vm_compute; reflexivity |].
    exact (proj2 (Ht "opacity" (VInt 1) eq_refl eq_refl)).
Defined.

(** ** Motion properties: the watcher that feeds the element *)

Section SyncProperties.

Variable same_ref : value -> value -> bool.

Lemma sync_step (transform style : obj) (key : string) (v : value) :
  let '(t1, s1) :=
    if isTransformProp key then
      if truthy (option_field transform key)
         && strict_equals same_ref (option_field transform key) v
      then (transform, style)
      else (obj_set transform key v, style)
    else
      if truthy (option_field style key)
         && strict_equals same_ref (option_field style key) v
      then (transform, style)
      else (transform, obj_set style key v) in
  (forall k, k <> key -> obj_get t1 k = obj_get transform k /\ obj_get s1 k = obj_get style k) /\
  (if isTransformProp key then synced same_ref t1 key v /\ s1 = style
   else synced same_ref s1 key v /\ t1 = transform).
Proof.
  assert (Hold : forall o, truthy (option_field o key) = true ->
            strict_equals same_ref (option_field o key) v = true ->
            synced same_ref o key v).
  { intros o Ht He. unfold option_field in *.
    destruct (obj_get o key) as [v' |] eqn:E; [| discriminate].
    exists v'. split; [exact E |]. right. split; assumption. }
  assert (Hnew : forall o, synced same_ref (obj_set o key v) key v).
  { intros o. exists v. split; [apply obj_get_set_same | left; reflexivity]. }
  destruct (isTransformProp key).
  - destruct (truthy (option_field transform key)) eqn:Et;
      [destruct (strict_equals same_ref (option_field transform key) v) eqn:Ee |]; cbn [andb].
    + split; [intros k _; split; reflexivity | split; [apply Hold; assumption | reflexivity]].
    + split; [intros k Hk; rewrite obj_get_set_other by exact Hk; split; reflexivity |].
      split; [apply Hnew | reflexivity].
    + split; [intros k Hk; rewrite obj_get_set_other by exact Hk; split; reflexivity |].
      split; [apply Hnew | reflexivity].
  - destruct (truthy (option_field style key)) eqn:Et;
      [destruct (strict_equals same_ref (option_field style key) v) eqn:Ee |]; cbn [andb].
    + split; [intros k _; split; reflexivity | split; [apply Hold; assumption | reflexivity]].
    + split; [intros k Hk; rewrite obj_get_set_other by exact Hk; split; reflexivity |].
      split; [apply Hnew | reflexivity].
    + split; [intros k Hk; rewrite obj_get_set_other by exact Hk; split; reflexivity |].
      split; [apply Hnew | reflexivity].
Qed.

Lemma sync_fold (newVal transform style : obj) :
  NoDup (map fst newVal) ->
  let '(t', s') := syncProperties same_ref newVal transform style in
  (forall k, obj_get newVal k = None ->
     obj_get t' k = obj_get transform k /\ obj_get s' k = obj_get style k) /\
  (forall k v, obj_get newVal k = Some v ->
     if isTransformProp k
     then synced same_ref t' k v /\ obj_get s' k = obj_get style k
     else synced same_ref s' k v /\ obj_get t' k = obj_get transform k).
Proof.
  unfold syncProperties. revert transform style.
  induction newVal as [| [key v] l IH]; intros transform style Hnd.
  - cbn. split; [intros k _; split; reflexivity | intros k v H; discriminate].
  - apply NoDup_cons in Hnd as [Hkey Hnd]. cbn [fold_left fst snd].
    pose proof (sync_step transform style key v) as Hstep.
    destruct (if isTransformProp key then _ else _) as [t1 s1].
    destruct Hstep as [Hother Hkeyv].
    specialize (IH t1 s1 Hnd).
    destruct (fold_left _ l (t1, s1)) as [t' s'].
    destruct IH as [IHnone IHsome].
    apply obj_get_None_notin in Hkey.
    split.
    + intros k Hk. cbn [obj_get] in Hk.
      destruct (String.eqb_spec key k) as [-> | Hne]; [discriminate |].
      destruct (IHnone k Hk) as [Ht Hs]. destruct (Hother k) as [Ht1 Hs1]; [congruence |].
      split; congruence.
    + intros k x Hk. cbn [obj_get] in Hk.
      destruct (String.eqb_spec key k) as [<- | Hne].
      * injection Hk as <-. destruct (IHnone key Hkey) as [Ht Hs].
        destruct (isTransformProp key); destruct Hkeyv as [(v' & Hv' & Hsync) ->].
        -- split; [exists v'; split; [congruence | exact Hsync] | exact Hs].
        -- split; [exists v'; split; [congruence | exact Hsync] | exact Ht].
      * specialize (IHsome k x Hk). destruct (Hother k) as [Ht1 Hs1]; [congruence |].
        destruct (isTransformProp k); destruct IHsome as [Hsync Hrest];
          (split; [exact Hsync | congruence]).
Qed.

End SyncProperties.

(** The watcher of [motionProperties] routes every property by its key:
    one of the 24 transform names goes to the transform state, every other
    key to the style state, the origin names [originX], [originY] and
    [originZ] included (which [splitValues] counts as transform
    properties).  Afterwards the state that the key belongs to holds the
    value of the property (or the truthy value it already had, when that is
    [===] to it), the other state is as it was under that key, and keys
    that are no motion property are untouched in both. *)
Theorem syncProperties_routes (same_ref : value -> value -> bool)
    (newVal transform style : obj) :
  NoDup (map fst newVal) ->
  let t' := fst (syncProperties same_ref newVal transform style) in
  let s' := snd (syncProperties same_ref newVal transform style) in
  (forall k, obj_get newVal k = None ->
     obj_get t' k = obj_get transform k /\ obj_get s' k = obj_get style k) /\
  (forall k v, obj_get newVal k = Some v ->
     if isTransformProp k
     then synced same_ref t' k v /\ obj_get s' k = obj_get style k
     else synced same_ref s' k v /\ obj_get t' k = obj_get transform k) /\
  (forall k, isTransformOriginProp k = true ->
     isTransformProp k = false /\ is_transform_key k = true).
Proof.
  intros Hnd t' s'. subst t' s'.
  pose proof (sync_fold same_ref newVal transform style Hnd) as H.
  destruct (syncProperties same_ref newVal transform style) as [t' s'].
  destruct H as [Hnone Hsome]. cbn [fst snd].
  split; [exact Hnone |]. split; [exact Hsome |].
  intros k Hk. unfold is_transform_key. rewrite Hk, orb_true_r. split; [| reflexivity].
  unfold isTransformOriginProp in Hk. apply existsb_exists in Hk as (x & Hx & Hk).
  apply String.eqb_eq in Hk. subst x.
  cbn in Hx. destruct Hx as [<- | [<- | [<- | []]]]; reflexivity.
Qed.

Lemma syncProperties_routes_witness :
  syncProperties (fun _ _ => false)
    [("x", VInt 10); ("originX", VInt 5); ("opacity", VInt 1)]
    [("x", VInt 10)] [("opacity", VInt 0)] =
  ([("x", VInt 10)], [("opacity", VInt 1); ("originX", VInt 5)]) /\
  synced (fun _ _ => false)
    (snd (syncProperties (fun _ _ => false)
            [("x", VInt 10); ("originX", VInt 5); ("opacity", VInt 1)]
            [("x", VInt 10)] [("opacity", VInt 0)])) "originX" (VInt 5).
Proof.
  split; [reflexivity |].
  refine (proj1 (proj1 (proj2 (syncProperties_routes (fun _ _ => false)
            [("x", VInt 10); ("originX", VInt 5); ("opacity", VInt 1)]
            [("x", VInt 10)] [("opacity", VInt 0)] _)) "originX" (VInt 5) eq_refl)).
  apply (bool_decide_unpack _). vm_compute. exact I.
Defined.
